(** * Length-limited prefix codes: a shallow embedding of the C kernels

    The development follows the C sources of the library
    (moffat.c, limitedjpegdeflate.c, limitedbzip2.c, limitedkraft.c,
    limitedkraftheap.c).  Machine integers are values of [Z] with the
    wrap-around of their C type written out, arrays are lists indexed by
    [nat], and every loop whose trip count is not fixed in advance takes
    a fuel argument.

    Part I holds the model, Part II the properties. *)

From Stdlib Require Import ZArith List Lia Bool Arith Permutation Sorted.
From Stdlib Require Import Floats.SpecFloat.
Import ListNotations.
Open Scope Z_scope.

(* ===================================================================== *)
(** * Part I: the model                                                   *)
(* ===================================================================== *)

(** ** C integer types *)

Module CInt.

(** [unsigned char], [unsigned int], [unsigned long long]: reduction
    modulo 2^8, 2^32 and 2^64. *)
Definition u8 (x : Z) : Z := x mod 2 ^ 8.
Definition u32 (x : Z) : Z := x mod 2 ^ 32.
Definition u64 (x : Z) : Z := x mod 2 ^ 64.

(** [int]: 32-bit two's complement. *)
Definition s32 (x : Z) : Z := (x + 2 ^ 31) mod 2 ^ 32 - 2 ^ 31.

(** [x << n] evaluated in the type [int] (both operands promoted to
    [int]).  The result is reduced to 32-bit two's complement and the
    shift count is taken modulo 32, as x86-64 and AArch64 shift
    instructions do; C itself leaves a result that does not fit in
    [int] undefined. *)
Definition shl_int (x n : Z) : Z := s32 (x * 2 ^ (n mod 32)).

(** [x << n] evaluated in the type [unsigned int]. *)
Definition shl_u32 (x n : Z) : Z := u32 (x * 2 ^ (n mod 32)).

(** [x << n] and [x >> n] evaluated in [unsigned long long]. *)
Definition shl_u64 (x n : Z) : Z := u64 (x * 2 ^ (n mod 64)).
Definition shr_u64 (x n : Z) : Z := x / 2 ^ (n mod 64).

End CInt.
Import CInt.

(** ** Arrays *)

(** [upd i v l] is the array [l] after [l[i] = v].  An index outside the
    array leaves it unchanged. *)
Fixpoint upd {A : Type} (i : nat) (v : A) (l : list A) : list A :=
  match l, i with
  | [], _ => []
  | _ :: t, O => v :: t
  | h :: t, S i' => h :: upd i' v t
  end.

(** Reading an integer array; an index outside the array reads 0. *)
Definition rd (l : list Z) (i : nat) : Z := nth i l 0.

(** ** The length-histogram reducers (limitedjpegdeflate.c) *)

Module Reducer.

(** [while (j > 0 && histNumBits[j] == 0) j--;] *)
Fixpoint scan_down (bits : list Z) (j : nat) : nat :=
  match j with
  | O => O
  | S j' => if rd bits j =? 0 then scan_down bits j' else j
  end.

(** One demotion of the JPEG loop, for a length [i] with
    [histNumBits[i] != 0]:
<<
    unsigned char j = i - 2;
    while (j > 0 && histNumBits[j] == 0) j--;
    histNumBits[i] -= 2;
    histNumBits[i - 1]++;
    histNumBits[j + 1] += 2;
    histNumBits[j]--;
>>
    The loop runs with [i > newMaxLength >= 2], so [i - 2] does not
    wrap. *)
Definition jpeg_step (i : nat) (bits : list Z) : list Z :=
  let j := scan_down bits (i - 2) in
  let b1 := upd i (u32 (rd bits i - 2)) bits in
  let b2 := upd (i - 1) (u32 (rd b1 (i - 1) + 1)) b1 in
  let b3 := upd (j + 1) (u32 (rd b2 (j + 1) + 2)) b2 in
  upd j (u32 (rd b3 j - 1)) b3.

(** [while (i > newMaxLength) { if (histNumBits[i] == 0) { i--; continue; } ... }] *)
Fixpoint jpeg_loop (fuel : nat) (newMaxLength i : nat) (bits : list Z)
  : option (nat * list Z) :=
  match fuel with
  | O => None
  | S fuel' =>
      if (newMaxLength <? i)%nat then
        if rd bits i =? 0
        then jpeg_loop fuel' newMaxLength (i - 1) bits
        else jpeg_loop fuel' newMaxLength i (jpeg_step i bits)
      else Some (i, bits)
  end.

(** [limitedJpegInPlace]: returns the function's result and the
    histogram it leaves; [None] when the fuel does not suffice. *)
Definition limitedJpegInPlace (fuel : nat) (newMaxLength oldMaxLength : nat)
           (histNumBits : list Z) : option (nat * list Z) :=
  if (newMaxLength <=? 1)%nat then Some (O, histNumBits)
  else if (oldMaxLength <? newMaxLength)%nat then Some (O, histNumBits)
  else if (newMaxLength =? oldMaxLength)%nat then Some (newMaxLength, histNumBits)
  else
    match jpeg_loop fuel newMaxLength oldMaxLength histNumBits with
    | None => None
    | Some (i, bits) => Some (scan_down bits i, bits)
    end.

(** [for (i = newMaxLength + 1; i <= oldMaxLength; i++)
      { histNumBits[newMaxLength] += histNumBits[i]; histNumBits[i] = 0; }]
    with [n] the number of passes left. *)
Fixpoint miniz_collapse (newMaxLength : nat) (n i : nat) (bits : list Z) : list Z :=
  match n with
  | O => bits
  | S n' =>
      let b1 := upd newMaxLength (u32 (rd bits newMaxLength + rd bits i)) bits in
      miniz_collapse newMaxLength n' (S i) (upd i 0 b1)
  end.

(** [for (i = newMaxLength; i > 0; i--)
      total += histNumBits[i] << (newMaxLength - i);]
    The shift is evaluated in [unsigned int], the sum in
    [unsigned long long]. *)
Fixpoint miniz_total (newMaxLength : nat) (i : nat) (total : Z) (bits : list Z) : Z :=
  match i with
  | O => total
  | S i' =>
      miniz_total newMaxLength i'
        (u64 (total + shl_u32 (rd bits i) (Z.of_nat (newMaxLength - i)))) bits
  end.

(** The body of [while (total > one)] without the final [total--]:
<<
    histNumBits[newMaxLength]--;
    for (i = newMaxLength - 1; i > 0; i--)
      if (histNumBits[i] > 0)
      { histNumBits[i]--; histNumBits[i + 1] += 2; break; }
>> *)
Definition miniz_move (newMaxLength : nat) (bits : list Z) : list Z :=
  let b1 := upd newMaxLength (u32 (rd bits newMaxLength - 1)) bits in
  let i := scan_down b1 (newMaxLength - 1) in
  if (i =? 0)%nat then b1
  else
    let b2 := upd i (u32 (rd b1 i - 1)) b1 in
    upd (i + 1) (u32 (rd b2 (i + 1) + 2)) b2.

(** [while (total > one) { ...; total--; }].  [total] falls by one in
    every pass, so [n = total - one] passes is the loop's variant. *)
Fixpoint miniz_balance (n : nat) (newMaxLength : nat) (total one : Z)
         (bits : list Z) : list Z :=
  match n with
  | O => bits
  | S n' =>
      if one <? total
      then miniz_balance n' newMaxLength (u64 (total - 1)) one
                         (miniz_move newMaxLength bits)
      else bits
  end.

Definition limitedMinizInPlace (newMaxLength oldMaxLength : nat)
           (histNumBits : list Z) : nat * list Z :=
  if (newMaxLength <=? 1)%nat then (O, histNumBits)
  else if (oldMaxLength <? newMaxLength)%nat then (O, histNumBits)
  else if (newMaxLength =? oldMaxLength)%nat then (newMaxLength, histNumBits)
  else
    let b1 := miniz_collapse newMaxLength (oldMaxLength - newMaxLength)
                             (S newMaxLength) histNumBits in
    let total := miniz_total newMaxLength newMaxLength 0 b1 in
    let one := shl_u64 1 (Z.of_nat newMaxLength) in
    (newMaxLength,
     miniz_balance (Z.to_nat (total - one)) newMaxLength total one b1).

(** A weighted sum over the histogram: the sum over [l = 1 .. n] of
    [bits[l] * w l]. *)
Fixpoint wsum (w : nat -> Z) (n : nat) (bits : list Z) : Z :=
  match n with
  | O => 0
  | S n' => wsum w n' bits + rd bits n * w n
  end.

(** The Kraft sum of a length histogram scaled by [2^L]:
    the sum over [l = 1 .. n] of [bits[l] * 2^(L - l)]. *)
Definition kraft (L : nat) (n : nat) (bits : list Z) : Z :=
  wsum (fun l => 2 ^ (Z.of_nat L - Z.of_nat l)) n bits.

(** The number of symbols counted in [bits[1 .. n]]. *)
Definition count (n : nat) (bits : list Z) : Z :=
  wsum (fun _ => 1) n bits.

(** The total code length counted in [bits[1 .. n]]. *)
Definition total_length (n : nat) (bits : list Z) : Z :=
  wsum (fun l => Z.of_nat l) n bits.

(** [r] is the longest length the histogram uses. *)
Definition observed_max (r : nat) (bits : list Z) : Prop :=
0 < rd bits r /\ forall l, (r < l)%nat -> rd bits l = 0.

(** A histogram as [limitedImpl] declares it: 64 counters. *)
Definition hist64 (used : list Z) : list Z :=
used ++ repeat 0 (64 - length used).

End Reducer.

(** ** Moffat's in-place Huffman code lengths (moffat.c) *)

Module Moffat.

(** The test of both children in phase 1:
    [leaf >= numCodes || (root < next && A[root] < A[leaf])]. *)
Definition take_root (numCodes next leaf root : nat) (A : list Z) : bool :=
  (numCodes <=? leaf)%nat || ((root <? next)%nat && (rd A root <? rd A leaf)).

(** The state of phase 1: the array and the cursors [leaf] and [root]. *)
Definition st1 : Type := list Z * nat * nat.

(** First child: [A[next] = A[root]; A[root] = next; root++] or
    [A[next] = A[leaf]; leaf++]. *)
Definition first_child (numCodes next : nat) (s : st1) : st1 :=
  let '(A, leaf, root) := s in
  if take_root numCodes next leaf root A
  then (upd root (Z.of_nat next) (upd next (rd A root) A), leaf, S root)
  else (upd next (rd A leaf) A, S leaf, root).

(** Second child: [A[next] += A[root]; A[root] = next; root++] or
    [A[next] += A[leaf]; leaf++]. *)
Definition second_child (numCodes next : nat) (s : st1) : st1 :=
  let '(A, leaf, root) := s in
  if take_root numCodes next leaf root A
  then (upd root (Z.of_nat next) (upd next (u32 (rd A next + rd A root)) A),
        leaf, S root)
  else (upd next (u32 (rd A next + rd A leaf)) A, S leaf, root).

(** [for (next = 0; next < numCodes - 1; next++)], [n] passes left. *)
Fixpoint phase1 (numCodes : nat) (n next : nat) (s : st1) : st1 :=
  match n with
  | O => s
  | S n' =>
      phase1 numCodes n' (S next)
             (second_child numCodes next (first_child numCodes next s))
  end.

(** [for (j = numCodes - 3; j >= 0; j--) A[j] = A[A[j]] + 1;]
    with [j1 = j + 1]. *)
Fixpoint phase2 (j1 : nat) (A : list Z) : list Z :=
  match j1 with
  | O => A
  | S j => phase2 j (upd j (u32 (rd A (Z.to_nat (rd A j)) + 1)) A)
  end.

(** [while (root2 >= 0 && A[root2] == depth) { used++; root2--; }]
    with [root2p = root2 + 1]; returns the new [root2p] and [used]. *)
Fixpoint count_roots (A : list Z) (depth : Z) (root2p : nat) (used : Z) : nat * Z :=
  match root2p with
  | O => (O, used)
  | S r =>
      if rd A r =? depth
      then count_roots A depth r (u32 (used + 1))
      else (root2p, used)
  end.

(** [while (avail > used) { A[next] = depth; next--; avail--; }]
    with [n = avail - used] passes. *)
Fixpoint fill_leaves (n : nat) (depth : Z) (A : list Z) (next avail : Z)
  : list Z * Z * Z :=
  match n with
  | O => (A, next, avail)
  | S n' =>
      fill_leaves n' depth (upd (Z.to_nat next) depth A)
                  (u32 (next - 1)) (avail - 1)
  end.

(** [while (avail > 0) { ...; avail = 2 * used; depth++; used = 0; }]
    Every pass but the last consumes an internal node, so the body runs
    at most [numCodes] times: [fuel = numCodes + 1] never runs out. *)
Fixpoint phase3 (fuel : nat) (A : list Z) (avail depth : Z) (root2p : nat)
         (next : Z) : list Z :=
  match fuel with
  | O => A
  | S fuel' =>
      if 0 <? avail then
        let '(root2p', used) := count_roots A depth root2p 0 in
        let '(A', next', _) :=
          fill_leaves (Z.to_nat (avail - used)) depth A next avail in
        phase3 fuel' A' (u32 (2 * used)) (u8 (depth + 1)) root2p' next'
      else A
  end.

(** [moffatSortedInPlace]: the returned [unsigned char] and the array
    left in [A]. *)
Definition moffatSortedInPlace (numCodes : nat) (A : list Z) : Z * list Z :=
  match numCodes with
  | O => (0, A)
  | S O => (1, upd 0 1 A)
  | S (S m) =>
      let '(A1, _, _) := phase1 numCodes (numCodes - 1) 0 (A, O, O) in
      let A2 := phase2 m (upd m 0 A1) in
      let A3 := phase3 (S numCodes) A2 1 0 (S m) (Z.of_nat (S m)) in
      (u8 (rd A3 0), A3)
  end.

(** The sum of [f] over the entries [lo .. lo + n - 1] of an array. *)
Fixpoint rsum (f : Z -> Z) (A : list Z) (lo n : nat) : Z :=
match n with
| O => 0
| S n' => f (rd A lo) + rsum f A (S lo) n'
end.

(** The array holds code lengths in descending order. *)
Definition descending (A : list Z) : Prop :=
forall i j, (i <= j < length A)%nat -> rd A j <= rd A i.

End Moffat.

(** ** Sorting and filtering the histogram *)

(** [struct KeyValue { unsigned int key; unsigned int value; }] *)
Record KeyValue : Type := mkKV { key : Z; value : nat }.

(** [compareKeyValue]: [aa->key - bb->key], an [unsigned int] difference
    returned as [int]. *)
Definition compareKeyValue (a b : KeyValue) : Z := s32 (u32 (key a - key b)).

Module Sorting.

(** The pairs [(histogram[i], i)] of the non-zero entries, in index
    order; [i] is the index of the head of [histogram]. *)
Fixpoint build_mapping (i : nat) (histogram : list Z) : list KeyValue :=
  match histogram with
  | [] => []
  | h :: t =>
      if h =? 0 then build_mapping (S i) t
      else mkKV h i :: build_mapping (S i) t
  end.

(** [qsort] is the C library's.  It is modelled as a stable insertion
    sort driven by the comparison function it is given.  Where the
    comparison function orders the keys (for [compareKeyValue]: keys
    less than [2^31] apart) every sorting routine returns the keys in
    the same, ascending order, and differs from this one at most in the
    order of entries with equal keys.  Where it does not, the library's
    routine may return another order than this one. *)
Fixpoint insert (cmp : KeyValue -> KeyValue -> Z) (x : KeyValue)
         (l : list KeyValue) : list KeyValue :=
  match l with
  | [] => [x]
  | y :: t => if cmp x y <=? 0 then x :: y :: t else y :: insert cmp x t
  end.

Definition qsort (cmp : KeyValue -> KeyValue -> Z) (l : list KeyValue)
  : list KeyValue :=
  fold_right (insert cmp) [] l.

(** [for (i = 0; i < numNonZero; i++) codeLengths[mapping[i].value] = sorted[i];]
    The [unsigned int] is stored into an [unsigned char]. *)
Fixpoint scatter (mapping : list KeyValue) (sorted : list Z)
         (codeLengths : list Z) : list Z :=
  match mapping, sorted with
  | kv :: m', s :: s' => scatter m' s' (upd (value kv) (u8 s) codeLengths)
  | _, _ => codeLengths
  end.

(** The number of non-zero histogram entries. *)
Definition numNonZero (histogram : list Z) : nat :=
  length (filter (fun h => negb (h =? 0)) histogram).

(** [if (numNonZero < numCodes) for (...) codeLengths[i] = 0;] *)
Definition init_output (histogram codeLengths : list Z) : list Z :=
  if (numNonZero histogram <? length histogram)%nat
  then map (fun _ => 0) codeLengths
  else codeLengths.

End Sorting.

(** [moffat]: the unlimited code lengths of an unsorted histogram.
    [numCodes] is the length of [histogram] and of [codeLengths].  The
    result is the returned value and the output array. *)
Definition moffat (histogram codeLengths : list Z) : Z * list Z :=
  let cl0 := map (fun '(h, c) => if h =? 0 then 0 else c)
                 (combine histogram codeLengths) in
  let n := Sorting.numNonZero histogram in
  if (n =? 0)%nat then (0, cl0)
  else
    let mapping := Sorting.qsort compareKeyValue (Sorting.build_mapping 0 histogram) in
    let sorted := map key mapping in
    let '(result, sorted') := Moffat.moffatSortedInPlace n sorted in
    (result, Sorting.scatter mapping sorted' cl0).

(** ** Outcomes of a call *)

(** A call either returns, or touches an array outside its bounds (the
    index is recorded), or runs out of the fuel given to its loops.
    An access outside an array ends the evaluation here: C leaves the
    rest of such a call undefined, and what was stored before it is not
    part of the outcome. *)
Inductive outcome (A : Type) : Type :=
| Ok (a : A)
| OutOfBounds (index : Z)
| OutOfFuel.
Arguments Ok {A} a.
Arguments OutOfBounds {A} index.
Arguments OutOfFuel {A}.

Definition bind {A B : Type} (x : outcome A) (f : A -> outcome B) : outcome B :=
  match x with
  | Ok a => f a
  | OutOfBounds i => OutOfBounds i
  | OutOfFuel => OutOfFuel
  end.

Notation "x <- c1 ;; c2" := (bind c1 (fun x => c2))
  (at level 61, c1 at next level, right associativity).
Notation "' p <- c1 ;; c2" := (bind c1 (fun p => c2))
  (at level 61, p pattern, c1 at next level, right associativity).

(** ** limitedJpeg and limitedMiniz (limitedjpegdeflate.c) *)

Module Impl.

(** The function pointer type [LimitedInPlace]: new and old maximum
    length and the length histogram, here with the fuel of the JPEG
    loop in front. *)
Definition LimitedInPlace : Type :=
  nat -> nat -> nat -> list Z -> option (nat * list Z).

Definition jpegInPlace : LimitedInPlace := Reducer.limitedJpegInPlace.
Definition minizInPlace : LimitedInPlace :=
  fun _ newMaxLength oldMaxLength bits =>
    Some (Reducer.limitedMinizInPlace newMaxLength oldMaxLength bits).

(** [unsigned int histNumBits[64] = { 0 };
     for (i = 0; i < numNonZero; i++) histNumBits[sorted[i]]++;] *)
Fixpoint build_hist (sorted : list Z) (bits : list Z) : outcome (list Z) :=
  match sorted with
  | [] => Ok bits
  | s :: t =>
      if 64 <=? s then OutOfBounds s
      else build_hist t (upd (Z.to_nat s) (u32 (rd bits (Z.to_nat s) + 1)) bits)
  end.

(** [while (histNumBits[reduce] == 0) reduce--;]
    [reduce] is an [unsigned char]: below 0 it wraps to 255, outside
    the 64 entries of [histNumBits]. *)
Fixpoint search_nonzero (bits : list Z) (reduce : nat) : outcome nat :=
  if rd bits reduce =? 0 then
    match reduce with
    | O => OutOfBounds 255
    | S r => search_nonzero bits r
    end
  else Ok reduce.

(** The final loop of [limitedImpl]:
<<
    for (i = 0; i < numNonZero; i++)
    {
      unsigned int unsorted = mapping[i].value;
      codeLengths[unsorted] = reduce;
      histNumBits[reduce]--;
      while (histNumBits[reduce] == 0) reduce--;
    }
>> *)
Fixpoint scatter_reduce (mapping : list KeyValue) (reduce : nat)
         (bits codeLengths : list Z) : outcome (list Z) :=
  match mapping with
  | [] => Ok codeLengths
  | kv :: m' =>
      let cl := upd (value kv) (Z.of_nat reduce) codeLengths in
      let bits' := upd reduce (u32 (rd bits reduce - 1)) bits in
      r <- search_nonzero bits' reduce ;;
      scatter_reduce m' r bits' cl
  end.

(** [limitedImpl]; [numCodes] is the length of [histogram] and of
    [codeLengths].  The result is the returned value and the output
    array. *)
Definition limitedImpl (algorithm : LimitedInPlace) (fuel : nat)
           (maxLength : nat) (histogram codeLengths : list Z)
  : outcome (Z * list Z) :=
  if (maxLength =? 0)%nat || (63 <? maxLength)%nat
     || (length histogram =? 0)%nat
  then Ok (0, codeLengths)
  else
    let n := Sorting.numNonZero histogram in
    if (n =? 0)%nat then Ok (0, codeLengths)
    else
      let cl0 := Sorting.init_output histogram codeLengths in
      let mapping :=
        Sorting.qsort compareKeyValue (Sorting.build_mapping 0 histogram) in
      let sorted := map key mapping in
      let '(maxLengthUnlimited, sorted') := Moffat.moffatSortedInPlace n sorted in
      if maxLengthUnlimited <=? Z.of_nat maxLength
      then Ok (maxLengthUnlimited, Sorting.scatter mapping sorted' cl0)
      else if 63 <? maxLengthUnlimited then Ok (0, cl0)
      else
        histNumBits <- build_hist sorted' (repeat 0 64) ;;
        match algorithm fuel maxLength (Z.to_nat maxLengthUnlimited) histNumBits with
        | None => OutOfFuel
        | Some (newMax, bits) =>
            if (newMax =? 0)%nat then Ok (0, cl0)
            else
              cl <- scatter_reduce mapping newMax bits cl0 ;;
              Ok (Z.of_nat newMax, cl)
        end.

Definition limitedJpeg := limitedImpl jpegInPlace.
Definition limitedMiniz := limitedImpl minizInPlace.

End Impl.

(** ** limitedBzip2 (limitedbzip2.c) *)

Module Bzip2.

Definition EXTRA_SHIFT : Z := 0.
Definition DIVIDE_BY : Z := 2.

(** [weight >>= EXTRA_SHIFT; weight = 1 + (weight / DIVIDE_BY);
     weight <<= EXTRA_SHIFT;] in [unsigned int]. *)
Definition rescale (weight : Z) : Z :=
  let w1 := weight / 2 ^ EXTRA_SHIFT in
  let w2 := u32 (1 + w1 / DIVIDE_BY) in
  shl_u32 w2 EXTRA_SHIFT.

(** [while (result > maxLength) { rescale every key; result = moffatSortedInPlace(...); }] *)
Fixpoint rerun (fuel : nat) (maxLength : nat) (n : nat)
         (mapping : list KeyValue) (sorted : list Z) (result : Z)
  : option (list Z * Z) :=
  match fuel with
  | O => None
  | S fuel' =>
      if Z.of_nat maxLength <? result then
        let mapping' := map (fun kv => mkKV (rescale (key kv)) (value kv)) mapping in
        let '(result', sorted') := Moffat.moffatSortedInPlace n (map key mapping') in
        rerun fuel' maxLength n mapping' sorted' result'
      else Some (sorted, result)
  end.

(** [limitedBzip2]; [None] when the fuel of the rerun loop does not
    suffice. *)
Definition limitedBzip2 (fuel : nat) (maxLength : nat)
           (histogram codeLengths : list Z) : option (Z * list Z) :=
  let n := Sorting.numNonZero histogram in
  if (n =? 0)%nat then Some (0, codeLengths)
  else
    let cl0 := Sorting.init_output histogram codeLengths in
    let mapping :=
      Sorting.qsort compareKeyValue (Sorting.build_mapping 0 histogram) in
    let '(result, sorted) := Moffat.moffatSortedInPlace n (map key mapping) in
    match rerun fuel maxLength n mapping sorted result with
    | None => None
    | Some (sorted', result') =>
        Some (result', Sorting.scatter mapping sorted' cl0)
    end.

End Bzip2.

(** ** Single-precision floats *)

(** The C type [float] as IEEE-754 binary32 (24 bits of precision,
    round to nearest even, every operation rounded to [float]), on the
    Standard Library's specification of floating-point arithmetic. *)
Module F32.

Definition prec : Z := 24.
Definition emax : Z := 128.

Definition float : Type := spec_float.

(** Conversion of an integer to [float]. *)
Definition of_Z (z : Z) : float := binary_normalize prec emax z 0 false.

Definition add : float -> float -> float := SFadd prec emax.
Definition sub : float -> float -> float := SFsub prec emax.
Definition mul : float -> float -> float := SFmul prec emax.
Definition div : float -> float -> float := SFdiv prec emax.
Definition neg : float -> float := SFopp.
Definition ltb : float -> float -> bool := SFltb.

(** Conversion of a [float] to an integer: truncation toward zero. *)
Definition trunc (x : float) : Z :=
  match x with
  | S754_finite s m e =>
      let a := if 0 <=? e then Zpos m * 2 ^ e else Zpos m / 2 ^ (- e) in
      if s then - a else a
  | _ => 0
  end.

(** The 32-bit pattern of a [float] and back. *)
Definition bits (x : float) : Z :=
  match x with
  | S754_zero s => if s then 2 ^ 31 else 0
  | S754_infinity s => (if s then 2 ^ 31 else 0) + 255 * 2 ^ 23
  | S754_nan => 255 * 2 ^ 23 + 2 ^ 22
  | S754_finite s m e =>
      (if s then 2 ^ 31 else 0)
      + (if Zpos m <? 2 ^ 23 then Zpos m
         else (e + 150) * 2 ^ 23 + (Zpos m - 2 ^ 23))
  end.

Definition of_bits (b : Z) : float :=
  let s := Z.testbit b 31 in
  let ef := (b / 2 ^ 23) mod 256 in
  let frac := b mod 2 ^ 23 in
  if ef =? 0 then
    match frac with
    | Zpos m => S754_finite s m (-149)
    | _ => S754_zero s
    end
  else if ef =? 255 then
    (if frac =? 0 then S754_infinity s else S754_nan)
  else
    match frac + 2 ^ 23 with
    | Zpos m => S754_finite s m (ef - 150)
    | _ => S754_zero s
    end.

(** The literals of the sources. *)
Definition one : float := of_Z 1.               (* 1.0f *)
Definition half : float := div (of_Z 1) (of_Z 2).   (* 0.5f *)
Definition log2_1_5 : float := div (of_Z 5849625) (of_Z 10000000). (* 0.5849625f *)

Definition FASTLOG2_SHIFT : Z := 23.
Definition FASTLOG2_MASK : Z := 2 ^ 8 - 1.
Definition FASTLOG2_BIAS : Z := Z.shiftr FASTLOG2_MASK 1.

(** [fastlog2] (version C of its final step):
<<
    int32_t exponent = alias.i >> FASTLOG2_SHIFT;
    exponent &= FASTLOG2_MASK;
    exponent -= FASTLOG2_BIAS;
    float result = exponent;
    alias.i &= ~(FASTLOG2_MASK << FASTLOG2_SHIFT);
    alias.i +=   FASTLOG2_BIAS << FASTLOG2_SHIFT;
    result += 0.5849625f * alias.f;
>>
    computed on the bit pattern read as an unsigned number, which
    gives the same bits. *)
Definition fastlog2 (x : float) : float :=
  let i := bits x in
  let exponent := Z.land (Z.shiftr i FASTLOG2_SHIFT) FASTLOG2_MASK - FASTLOG2_BIAS in
  let result := of_Z exponent in
  let i1 := Z.land i (Z.lnot (Z.shiftl FASTLOG2_MASK FASTLOG2_SHIFT)) in
  let i2 := u32 (i1 + Z.shiftl FASTLOG2_BIAS FASTLOG2_SHIFT) in
  add result (mul log2_1_5 (of_bits i2)).

End F32.

(** ** limitedKraft (limitedkraft.c) *)

Module Kraft.

(** [unsigned long long one = 1 << maxLength;]: the shift is evaluated
    in [int] and its result converted. *)
Definition one_of (maxLength : nat) : Z := u64 (shl_int 1 (Z.of_nat maxLength)).

(** [unsigned long long sumHistogram = 0; for (...) sumHistogram += histogram[i];] *)
Definition sumHistogram (histogram : list Z) : Z :=
  fold_left (fun s h => u64 (s + h)) histogram 0.

(** [float invSumHistogram = 1.0f / sumHistogram;] *)
Definition invSumHistogram (histogram : list Z) : F32.float :=
  F32.div F32.one (F32.of_Z (sumHistogram histogram)).

(** [float entropy = -fastlog2(histogram[i] * invSumHistogram);] *)
Definition entropy_of (inv : F32.float) (h : Z) : F32.float :=
  F32.neg (F32.fastlog2 (F32.mul (F32.of_Z h) inv)).

(** [unsigned char rounded = (unsigned char)(entropy + 0.5f);
     if (rounded == 0) rounded = 1;
     if (rounded > maxLength) rounded = maxLength;] *)
Definition round_len (maxLength : nat) (entropy : F32.float) : Z :=
  let rounded := u8 (F32.trunc (F32.add entropy F32.half)) in
  let rounded := if rounded =? 0 then 1 else rounded in
  if Z.of_nat maxLength <? rounded then Z.of_nat maxLength else rounded.

(** The first loop: every entry of [codeLengths] is assigned, so the
    output does not depend on what the buffer held.  Returns the
    lengths and [spent]. *)
Fixpoint initial (maxLength : nat) (inv : F32.float) (one : Z)
         (histogram : list Z) (spent : Z) : list Z * Z :=
  match histogram with
  | [] => ([], spent)
  | h :: t =>
      if h =? 0 then
        let '(cl, s) := initial maxLength inv one t spent in (0 :: cl, s)
      else
        let rounded := round_len maxLength (entropy_of inv h) in
        let '(cl, s) :=
          initial maxLength inv one t (u64 (spent + shr_u64 one rounded)) in
        (rounded :: cl, s)
  end.

Definition INITIAL_THRESHOLD : F32.float := F32.div (F32.of_Z 28) (F32.of_Z 64).
Definition STEP_THRESHOLD : F32.float := F32.div (F32.of_Z 1) (F32.of_Z 64).

(** One pass of the inner loop of the expansion:
<<
    for (i = 0; i < numCodes; i++)
    {
      if (codeLengths[i] == 0 || codeLengths[i] >= maxLength) continue;
      float entropy = -fastlog2(histogram[i] * invSumHistogram);
      if (entropy - codeLengths[i] > threshold)
      {
        codeLengths[i]++;
        spent -= one >> codeLengths[i];
        if (spent <= one) break;
      }
    }
>> *)
Fixpoint expand_pass (maxLength : nat) (inv : F32.float) (one : Z)
         (threshold : F32.float) (histogram codeLengths : list Z) (spent : Z)
  : list Z * Z :=
  match histogram, codeLengths with
  | h :: hs, c :: cs =>
      if (c =? 0) || (Z.of_nat maxLength <=? c) then
        let '(cs', s) := expand_pass maxLength inv one threshold hs cs spent in
        (c :: cs', s)
      else if F32.ltb threshold (F32.sub (entropy_of inv h) (F32.of_Z c)) then
        let c' := u8 (c + 1) in
        let spent' := u64 (spent - shr_u64 one c') in
        if spent' <=? one then (c' :: cs, spent')
        else
          let '(cs', s) := expand_pass maxLength inv one threshold hs cs spent' in
          (c' :: cs', s)
      else
        let '(cs', s) := expand_pass maxLength inv one threshold hs cs spent in
        (c :: cs', s)
  | _, _ => (codeLengths, spent)
  end.

(** [for (threshold = INITIAL_THRESHOLD; spent > one; threshold -= STEP_THRESHOLD)] *)
Fixpoint expand (fuel : nat) (maxLength : nat) (inv : F32.float) (one : Z)
         (threshold : F32.float) (histogram codeLengths : list Z) (spent : Z)
  : option (list Z * Z) :=
  match fuel with
  | O => None
  | S fuel' =>
      if one <? spent then
        let '(cl, s) :=
          expand_pass maxLength inv one threshold histogram codeLengths spent in
        expand fuel' maxLength inv one (F32.sub threshold STEP_THRESHOLD)
               histogram cl s
      else Some (codeLengths, spent)
  end.

(** The loop of the contraction:
<<
    for (i = 0; i < numCodes; i++)
    {
      if (codeLengths[i] <= 1) continue;
      unsigned long long have = one >> codeLengths[i];
      if (one - spent >= have)
      {
        codeLengths[i]--;
        spent += have;
        if (one == spent) break;
      }
    }
>> *)
Fixpoint contract (one : Z) (codeLengths : list Z) (spent : Z) : list Z * Z :=
  match codeLengths with
  | [] => ([], spent)
  | c :: cs =>
      if c <=? 1 then
        let '(cs', s) := contract one cs spent in (c :: cs', s)
      else
        let have := shr_u64 one c in
        if have <=? u64 (one - spent) then
          let spent' := u64 (spent + have) in
          if one =? spent' then (u8 (c - 1) :: cs, spent')
          else let '(cs', s) := contract one cs spent' in (u8 (c - 1) :: cs', s)
        else
          let '(cs', s) := contract one cs spent in (c :: cs', s)
  end.

(** [for (i = 0; i < numCodes; i++)
      if (result < codeLengths[i])
      { result = codeLengths[i]; if (result == maxLength) break; }] *)
Fixpoint longest (maxLength : nat) (codeLengths : list Z) (result : Z) : Z :=
  match codeLengths with
  | [] => result
  | c :: cs =>
      if result <? c then
        if c =? Z.of_nat maxLength then c else longest maxLength cs c
      else longest maxLength cs result
  end.

(** [limitedKraft]; [numCodes] is the length of [histogram].  [None]
    when the fuel of the expansion loop does not suffice. *)
Definition limitedKraft (fuel : nat) (maxLength : nat) (histogram : list Z)
  : option (Z * list Z) :=
  let inv := invSumHistogram histogram in
  let one := one_of maxLength in
  let '(cl0, spent0) := initial maxLength inv one histogram 0 in
  match expand fuel maxLength inv one INITIAL_THRESHOLD histogram cl0 spent0 with
  | None => None
  | Some (cl1, spent1) =>
      let cl2 := if spent1 <? one then fst (contract one cl1 spent1) else cl1 in
      Some (longest maxLength cl2 0, cl2)
  end.

End Kraft.

(** ** limitedKraftHeap (limitedkraftheap.c) *)

Module KraftHeap.

(** [typedef struct { Key* keys; Value* values; size_t size; } Heap;]
    The two lists are the allocated arrays, [numCodes] entries each. *)
Record Heap : Type := mkHeap {
  keys : list F32.float;
  values : list Z;
  size : Z
}.

Definition in_range {A : Type} (l : list A) (pos : Z) : bool :=
  (0 <=? pos) && (pos <? Z.of_nat (length l)).

Definition get_key (heap : Heap) (pos : Z) : outcome F32.float :=
  if in_range (keys heap) pos
  then Ok (nth (Z.to_nat pos) (keys heap) (S754_zero false))
  else OutOfBounds pos.

Definition get_value (heap : Heap) (pos : Z) : outcome Z :=
  if in_range (values heap) pos
  then Ok (nth (Z.to_nat pos) (values heap) 0)
  else OutOfBounds pos.

Definition set_key (heap : Heap) (pos : Z) (k : F32.float) : outcome Heap :=
  if in_range (keys heap) pos
  then Ok (mkHeap (upd (Z.to_nat pos) k (keys heap)) (values heap) (size heap))
  else OutOfBounds pos.

Definition set_value (heap : Heap) (pos : Z) (v : Z) : outcome Heap :=
  if in_range (values heap) pos
  then Ok (mkHeap (keys heap) (upd (Z.to_nat pos) v (values heap)) (size heap))
  else OutOfBounds pos.

Definition set_size (heap : Heap) (n : Z) : Heap :=
  mkHeap (keys heap) (values heap) n.

(** [return (heap->keys[posA] < heap->keys[posB]) ? 1 : 0;] *)
Definition heap_isLess (heap : Heap) (posA posB : Z) : outcome bool :=
  a <- get_key heap posA ;;
  b <- get_key heap posB ;;
  Ok (F32.ltb a b).

Definition heap_swap (heap : Heap) (posA posB : Z) : outcome Heap :=
  tmpKey <- get_key heap posA ;;
  kb <- get_key heap posB ;;
  h1 <- set_key heap posA kb ;;
  h2 <- set_key h1 posB tmpKey ;;
  tmpValue <- get_value h2 posA ;;
  vb <- get_value h2 posB ;;
  h3 <- set_value h2 posA vb ;;
  set_value h3 posB tmpValue.

(** The loop of [heap_bubbleUp]:
<<
    while (current > 0 && heap_isLess(heap, parent, current))
    { heap_swap(heap, current, parent); current = parent; parent = (parent - 1) / 2; }
>>
    [current] is a [size_t] and at least halves in every pass: 64
    passes of fuel never run out. *)
Fixpoint bubble (fuel : nat) (heap : Heap) (current parent : Z) : outcome Heap :=
  match fuel with
  | O => OutOfFuel
  | S fuel' =>
      if 0 <? current then
        less <- heap_isLess heap parent current ;;
        if (less : bool) then
          h1 <- heap_swap heap current parent ;;
          bubble fuel' h1 parent (u64 (parent - 1) / 2)
        else Ok heap
      else Ok heap
  end.

Definition heap_bubbleUp (heap : Heap) : outcome Heap :=
  let current := size heap in
  let parent := u64 (current - 1) / 2 in
  bubble 65 heap current parent.

(** [heap_sinkDown]; [current] more than doubles in every pass and
    stays below [heap->size]. *)
Fixpoint sink (fuel : nat) (heap : Heap) (current : Z) : outcome Heap :=
  match fuel with
  | O => OutOfFuel
  | S fuel' =>
      let leftPos := u64 (2 * current + 1) in
      b1 <- (if leftPos <? size heap
             then less <- heap_isLess heap current leftPos ;;
                  Ok (if (less : bool) then leftPos else current)
             else Ok current) ;;
      let rightPos := u64 (2 * current + 2) in
      biggest <- (if rightPos <? size heap
                  then less <- heap_isLess heap b1 rightPos ;;
                       Ok (if (less : bool) then rightPos else b1)
                  else Ok b1) ;;
      if biggest =? current then Ok heap
      else
        h1 <- heap_swap heap biggest current ;;
        sink fuel' h1 biggest
  end.

Definition heap_sinkDown (heap : Heap) (current : Z) : outcome Heap :=
  sink 65 heap current.

(** [heap_removeTop]: [heap->size--] on a [size_t]. *)
Definition heap_removeTop (heap : Heap) : outcome Heap :=
  let h0 := set_size heap (u64 (size heap - 1)) in
  if 0 <? size h0 then
    k <- get_key h0 (size h0) ;;
    h1 <- set_key h0 0 k ;;
    v <- get_value h1 (size h1) ;;
    h2 <- set_value h1 0 v ;;
    heap_sinkDown h2 0
  else Ok h0.

Definition heap_insert (heap : Heap) (k : F32.float) (v : Z) : outcome Heap :=
  h1 <- set_key heap (size heap) k ;;
  h2 <- set_value h1 (size h1) v ;;
  h3 <- heap_bubbleUp h2 ;;
  Ok (set_size h3 (u64 (size h3 + 1))).

(** The first loop, which also fills the heap:
<<
    if (rounded < maxLength)
    { float gain = entropy - rounded; heap_insert(&heap, gain, i); }
>>
    [i] is the index of the head of [histogram]. *)
Fixpoint initial (maxLength : nat) (inv : F32.float) (one : Z) (i : nat)
         (histogram : list Z) (spent : Z) (heap : Heap)
  : outcome (list Z * Z * Heap) :=
  match histogram with
  | [] => Ok ([], spent, heap)
  | h :: t =>
      if h =? 0 then
        '(cl, s, hp) <- initial maxLength inv one (S i) t spent heap ;;
        Ok (0 :: cl, s, hp)
      else
        let entropy := Kraft.entropy_of inv h in
        let rounded := Kraft.round_len maxLength entropy in
        let spent' := u64 (spent + shr_u64 one rounded) in
        heap' <- (if rounded <? Z.of_nat maxLength
                  then heap_insert heap (F32.sub entropy (F32.of_Z rounded))
                                   (Z.of_nat i)
                  else Ok heap) ;;
        '(cl, s, hp) <- initial maxLength inv one (S i) t spent' heap' ;;
        Ok (rounded :: cl, s, hp)
  end.

Definition get_len (codeLengths : list Z) (i : Z) : outcome Z :=
  if in_range codeLengths i then Ok (rd codeLengths (Z.to_nat i))
  else OutOfBounds i.

(** The expansion loop:
<<
    while (spent > one)
    {
      float     gain = heap.keys  [0];
      unsigned int i = heap.values[0];
      heap_removeTop(&heap);
      if (codeLengths[i] == 0 || codeLengths[i] >= maxLength) continue;
      codeLengths[i]++;
      spent -= one >> codeLengths[i];
      if (spent <= one) break;
      gain--;
      heap_insert(&heap, gain, i);
    }
>>
    The arrays of the heap come from [malloc]; an entry never written
    reads as zero in the model. *)
Fixpoint expand (fuel : nat) (maxLength : nat) (one : Z)
         (codeLengths : list Z) (spent : Z) (heap : Heap)
  : outcome (list Z * Z * Heap) :=
  match fuel with
  | O => OutOfFuel
  | S fuel' =>
      if one <? spent then
        gain <- get_key heap 0 ;;
        i <- get_value heap 0 ;;
        h1 <- heap_removeTop heap ;;
        c <- get_len codeLengths i ;;
        if (c =? 0) || (Z.of_nat maxLength <=? c)
        then expand fuel' maxLength one codeLengths spent h1
        else
          let c' := u8 (c + 1) in
          let cl := upd (Z.to_nat i) c' codeLengths in
          let spent' := u64 (spent - shr_u64 one c') in
          if spent' <=? one then Ok (cl, spent', h1)
          else
            h2 <- heap_insert h1 (F32.sub gain F32.one) i ;;
            expand fuel' maxLength one cl spent' h2
      else Ok (codeLengths, spent, heap)
  end.

(** The contraction loop:
<<
    while (spent < one && heap.size > 0)
    {
      unsigned int i = heap.values[0];
      heap_removeTop(&heap);
      unsigned long long have = one >> codeLengths[i];
      if (one - spent >= have) { codeLengths[i]--; spent += have; }
    }
>>
    Every pass removes an entry of the heap: [n] is the number of
    entries at the start. *)
Fixpoint contract (n : nat) (one : Z) (codeLengths : list Z) (spent : Z)
         (heap : Heap) : outcome (list Z * Z * Heap) :=
  match n with
  | O => Ok (codeLengths, spent, heap)
  | S n' =>
      if (spent <? one) && (0 <? size heap) then
        i <- get_value heap 0 ;;
        h1 <- heap_removeTop heap ;;
        c <- get_len codeLengths i ;;
        let have := shr_u64 one c in
        if have <=? u64 (one - spent)
        then contract n' one (upd (Z.to_nat i) (u8 (c - 1)) codeLengths)
                      (u64 (spent + have)) h1
        else contract n' one codeLengths spent h1
      else Ok (codeLengths, spent, heap)
  end.

(** [limitedKraftHeap]; [numCodes] is the length of [histogram]. *)
Definition limitedKraftHeap (fuel : nat) (maxLength : nat) (histogram : list Z)
  : outcome (Z * list Z) :=
  let numCodes := length histogram in
  let inv := Kraft.invSumHistogram histogram in
  let one := Kraft.one_of maxLength in
  let heap0 := mkHeap (repeat (S754_zero false) numCodes) (repeat 0 numCodes) 0 in
  '(cl0, spent0, heap1) <- initial maxLength inv one 0 histogram 0 heap0 ;;
  '(cl1, spent1, heap2) <- expand fuel maxLength one cl0 spent0 heap1 ;;
  '(cl2, _, _) <- contract (Z.to_nat (size heap2)) one cl1 spent1 heap2 ;;
  Ok (Kraft.longest maxLength cl2 0, cl2).

End KraftHeap.

(** ** What a valid result is *)

Module Valid.

(** The sum over the used symbols of [2^(m - len i)]. *)
Fixpoint kraft_sum (m : Z) (histogram codeLengths : list Z) : Z :=
  match histogram, codeLengths with
  | h :: hs, c :: cs =>
      (if h =? 0 then 0 else 2 ^ (m - c)) + kraft_sum m hs cs
  | _, _ => 0
  end.

(** [len i = 0] iff [freq i = 0], and [1 <= len i <= L] for used symbols. *)
Fixpoint lengths_ok (L : Z) (histogram codeLengths : list Z) : bool :=
  match histogram, codeLengths with
  | h :: hs, c :: cs =>
      (if h =? 0 then c =? 0 else (1 <=? c) && (c <=? L))
      && lengths_ok L hs cs
  | [], [] => true
  | _, _ => false
  end.

(** The largest entry of a list of lengths. *)
Definition max_len (codeLengths : list Z) : Z := fold_right Z.max 0 codeLengths.

(** The description of a valid length-limited code: lengths in range,
    Kraft inequality at the returned [m], and [m] the maximum. *)
Definition valid (L m : Z) (histogram codeLengths : list Z) : bool :=
  lengths_ok L histogram codeLengths
  && (kraft_sum m histogram codeLengths <=? 2 ^ m)
  && (m =? max_len codeLengths).

End Valid.

(** ** Notions used in the statements of Part II *)

(** The array is in ascending order. *)
Definition ascending (A : list Z) : Prop :=
forall i j, (i <= j < length A)%nat -> rd A i <= rd A j.

(** The sum of [g] over the symbols a mapping lists. *)
Definition msum (g : nat -> Z) (mapping : list KeyValue) : Z :=
fold_right (fun kv s => g (value kv) + s) 0 mapping.

(** The entries of a heap at a position. *)
Definition key_at (h : KraftHeap.Heap) (j : Z) : F32.float :=
nth (Z.to_nat j) (KraftHeap.keys h) (S754_zero false).

Definition value_at (h : KraftHeap.Heap) (j : Z) : Z :=
nth (Z.to_nat j) (KraftHeap.values h) 0.

(** A heap in arrays of [cap] entries. *)
Definition heap_wf (cap : nat) (h : KraftHeap.Heap) : Prop :=
length (KraftHeap.keys h) = cap /\ length (KraftHeap.values h) = cap
/\ 0 <= KraftHeap.size h <= Z.of_nat cap /\ Z.of_nat cap < 2 ^ 62.

(** [v] is one of the first [n] values of the heap's array. *)
Definition stored_below (h : KraftHeap.Heap) (n : Z) (v : Z) : Prop :=
exists j, 0 <= j < n /\ value_at h j = v.

(** [v] is a value of the heap. *)
Definition stored (h : KraftHeap.Heap) (v : Z) : Prop :=
stored_below h (KraftHeap.size h) v.

(** The max-heap order: no entry is less than its children. *)
Definition heap_ordered (h : KraftHeap.Heap) : Prop :=
forall j, 1 <= j < KraftHeap.size h ->
F32.ltb (key_at h ((j - 1) / 2)) (key_at h j) = false.

(** The room left to the used symbols below the limit:
    the sum of [L - len i]. *)
Fixpoint slack (L : Z) (histogram codeLengths : list Z) : Z :=
match histogram, codeLengths with
| h :: hs, c :: cs => (if h =? 0 then 0 else L - c) + slack L hs cs
| _, _ => 0
end.

(** No key of the heap is a NaN. *)
Definition keys_are_numbers (h : KraftHeap.Heap) : Prop :=
forall j, 0 <= j < KraftHeap.size h -> key_at h j <> S754_nan.

(* ===================================================================== *)
(** * Part II: properties                                                 *)
(* ===================================================================== *)

Import Reducer.

(** ** Arrays *)

Lemma length_upd {A : Type} (i : nat) (v : A) (l : list A) :
  length (upd i v l) = length l.
Proof.
  revert i; induction l as [|h t IH]; intros [|i]; simpl; auto.
Qed.

Lemma nth_upd_eq {A : Type} (i : nat) (v d : A) (l : list A) :
  (i < length l)%nat -> nth i (upd i v l) d = v.
Proof.
  revert i; induction l as [|h t IH]; intros [|i] H; simpl in *; try lia; auto.
  apply IH; lia.
Qed.

Lemma nth_upd_ne {A : Type} (i j : nat) (v d : A) (l : list A) :
  i <> j -> nth j (upd i v l) d = nth j l d.
Proof.
  revert i j; induction l as [|h t IH]; intros [|i] [|j] H; simpl; auto; try lia.
Qed.

Lemma rd_upd_eq (i : nat) (v : Z) (l : list Z) :
  (i < length l)%nat -> rd (upd i v l) i = v.
Proof. apply nth_upd_eq. Qed.

Lemma rd_upd_ne (i j : nat) (v : Z) (l : list Z) :
  i <> j -> rd (upd i v l) j = rd l j.
Proof. apply nth_upd_ne. Qed.

Lemma rd_out (l : list Z) (i : nat) : (length l <= i)%nat -> rd l i = 0.
Proof. intros; unfold rd; apply nth_overflow; lia. Qed.

Lemma u32_id (x : Z) : 0 <= x < 2 ^ 32 -> u32 x = x.
Proof. intros; unfold u32; apply Z.mod_small; lia. Qed.

Lemma u64_id (x : Z) : 0 <= x < 2 ^ 64 -> u64 x = x.
Proof. intros; unfold u64; apply Z.mod_small; lia. Qed.

Lemma u8_id (x : Z) : 0 <= x < 2 ^ 8 -> u8 x = x.
Proof. intros; unfold u8; apply Z.mod_small; lia. Qed.

(** ** Weighted sums over a histogram *)

Lemma wsum_S (w : nat -> Z) (n : nat) (bits : list Z) :
  wsum w (S n) bits = wsum w n bits + rd bits (S n) * w (S n).
Proof. reflexivity. Qed.

Lemma wsum_upd_out (w : nat -> Z) (n k : nat) (v : Z) (bits : list Z) :
  (n < k)%nat \/ k = O -> wsum w n (upd k v bits) = wsum w n bits.
Proof.
  intros H; induction n as [|n IH]; simpl; auto.
  rewrite IH by lia. rewrite rd_upd_ne by lia. reflexivity.
Qed.

Lemma wsum_upd (w : nat -> Z) (n k : nat) (v : Z) (bits : list Z) :
  (1 <= k <= n)%nat -> (k < length bits)%nat ->
  wsum w n (upd k v bits) = wsum w n bits + (v - rd bits k) * w k.
Proof.
  intros Hk Hl; induction n as [|n IH]; [lia|].
  rewrite !wsum_S. destruct (Nat.eq_dec k (S n)) as [->|Hne].
  - rewrite wsum_upd_out by lia. rewrite rd_upd_eq by lia. ring.
  - rewrite IH by lia. rewrite rd_upd_ne by lia. ring.
Qed.

Lemma wsum_ext (w : nat -> Z) (n : nat) (b1 b2 : list Z) :
  (forall l, (1 <= l <= n)%nat -> rd b1 l = rd b2 l) -> wsum w n b1 = wsum w n b2.
Proof.
  induction n as [|n IH]; intros H; simpl; auto.
  rewrite IH, H by (try lia; intros; apply H; lia). reflexivity.
Qed.

Lemma wsum_zero_above (w : nat -> Z) (n m : nat) (bits : list Z) :
  (m <= n)%nat -> (forall l, (m < l <= n)%nat -> rd bits l = 0) ->
  wsum w n bits = wsum w m bits.
Proof.
  intros Hmn; induction n as [|n IH]; intros H.
  - replace m with O by lia. reflexivity.
  - destruct (Nat.eq_dec m (S n)) as [->|Hne]; auto.
    simpl. rewrite H by lia. rewrite IH by (try lia; intros; apply H; lia). ring.
Qed.

Lemma wsum_nonneg (w : nat -> Z) (n : nat) (bits : list Z) :
  (forall l, (1 <= l <= n)%nat -> 0 <= rd bits l) ->
  (forall l, (1 <= l <= n)%nat -> 0 <= w l) ->
  0 <= wsum w n bits.
Proof.
  induction n as [|n IH]; intros Hb Hw; simpl; [lia|].
  assert (0 <= wsum w n bits) by (apply IH; intros; [apply Hb|apply Hw]; lia).
  assert (0 <= rd bits (S n) * w (S n))
    by (apply Z.mul_nonneg_nonneg; [apply Hb|apply Hw]; lia).
  lia.
Qed.

Lemma wsum_term_le (w : nat -> Z) (n k : nat) (bits : list Z) :
  (forall l, (1 <= l <= n)%nat -> 0 <= rd bits l) ->
  (forall l, (1 <= l <= n)%nat -> 0 <= w l) ->
  (1 <= k <= n)%nat -> rd bits k * w k <= wsum w n bits.
Proof.
  induction n as [|n IH]; intros Hb Hw Hk; [lia|]. simpl.
  destruct (Nat.eq_dec k (S n)) as [->|Hne].
  - assert (0 <= wsum w n bits)
      by (apply wsum_nonneg; intros; [apply Hb|apply Hw]; lia). lia.
  - assert (rd bits k * w k <= wsum w n bits)
      by (apply IH; try lia; intros; [apply Hb|apply Hw]; lia).
    assert (0 <= rd bits (S n) * w (S n))
      by (apply Z.mul_nonneg_nonneg; [apply Hb|apply Hw]; lia).
    lia.
Qed.

Lemma count_term_le (n k : nat) (bits : list Z) :
  (forall l, (1 <= l <= n)%nat -> 0 <= rd bits l) ->
  (1 <= k <= n)%nat -> rd bits k <= count n bits.
Proof.
  intros Hb Hk. unfold count.
  pose proof (wsum_term_le (fun _ => 1) n k bits Hb) as H.
  specialize (H ltac:(intros; cbv beta; lia) Hk). cbv beta in H. lia.
Qed.

Lemma wsum_scale (w w' : nat -> Z) (c : Z) (n : nat) (bits : list Z) :
  (forall l, (1 <= l <= n)%nat -> w' l = c * w l) ->
  wsum w' n bits = c * wsum w n bits.
Proof.
  induction n as [|n IH]; intros H; [simpl; ring|].
  rewrite !wsum_S, IH, H by (try lia; intros; apply H; lia). ring.
Qed.

(** Scaling the Kraft sum. *)
Lemma kraft_scale (L L' n : nat) (bits : list Z) :
  (n <= L <= L')%nat ->
  kraft L' n bits = 2 ^ (Z.of_nat L' - Z.of_nat L) * kraft L n bits.
Proof.
  intros H. unfold kraft. apply wsum_scale. intros l Hl.
  rewrite <- Z.pow_add_r by lia. f_equal. lia.
Qed.

(** Every term up to [n] is a multiple of [2^(L - n)]. *)
Lemma kraft_divide (L n : nat) (bits : list Z) :
  (n <= L)%nat -> (2 ^ (Z.of_nat L - Z.of_nat n) | kraft L n bits).
Proof.
  intros H. unfold kraft. induction n as [|n IH].
  - apply Z.divide_0_r.
  - rewrite wsum_S. apply Z.divide_add_r.
    + apply Z.divide_trans with (2 ^ (Z.of_nat L - Z.of_nat n)); [|apply IH; lia].
      exists 2. rewrite <- (Z.pow_1_r 2) at 2. rewrite <- Z.pow_add_r by lia.
      f_equal. lia.
    + apply Z.divide_mul_r. apply Z.divide_refl.
Qed.

(** ** The downward scan *)

Lemma scan_down_le (bits : list Z) (j : nat) : (scan_down bits j <= j)%nat.
Proof.
  induction j as [|j IH]; simpl; auto.
  destruct (rd bits (S j) =? 0); lia.
Qed.

Lemma scan_down_nz (bits : list Z) (j : nat) :
  scan_down bits j <> O -> rd bits (scan_down bits j) <> 0.
Proof.
  induction j as [|j IH]; simpl; [congruence|].
  destruct (rd bits (S j) =? 0) eqn:E; auto.
  intros _. apply Z.eqb_neq in E. exact E.
Qed.

Lemma scan_down_above (bits : list Z) (j l : nat) :
  (scan_down bits j < l <= j)%nat -> rd bits l = 0.
Proof.
  induction j as [|j IH]; simpl; [lia|].
  destruct (rd bits (S j) =? 0) eqn:E; [|lia].
  apply Z.eqb_eq in E. intros H.
  destruct (Nat.eq_dec l (S j)) as [->|]; auto. apply IH; lia.
Qed.

Lemma scan_down_ext (b1 b2 : list Z) (j : nat) :
  (forall l, (1 <= l <= j)%nat -> rd b1 l = rd b2 l) ->
  scan_down b1 j = scan_down b2 j.
Proof.
  induction j as [|j IH]; intros H; simpl; auto.
  rewrite H by lia. rewrite IH by (intros; apply H; lia). reflexivity.
Qed.

(** ** Adding to one entry *)

Definition add_at (k : nat) (d : Z) (bits : list Z) : list Z :=
  upd k (u32 (rd bits k + d)) bits.

Lemma length_add_at k d bits : length (add_at k d bits) = length bits.
Proof. apply length_upd. Qed.

Lemma rd_add_at_eq k d bits :
  (k < length bits)%nat -> 0 <= rd bits k + d < 2 ^ 32 ->
  rd (add_at k d bits) k = rd bits k + d.
Proof. intros; unfold add_at; rewrite rd_upd_eq, u32_id; auto. Qed.

Lemma rd_add_at_ne k l d bits : k <> l -> rd (add_at k d bits) l = rd bits l.
Proof. intros; unfold add_at; apply rd_upd_ne; auto. Qed.

Lemma wsum_add_at (w : nat -> Z) (n k : nat) (d : Z) (bits : list Z) :
  (1 <= k <= n)%nat -> (k < length bits)%nat -> 0 <= rd bits k + d < 2 ^ 32 ->
  wsum w n (add_at k d bits) = wsum w n bits + d * w k.
Proof.
  intros; unfold add_at. rewrite wsum_upd, u32_id by auto. ring.
Qed.

Lemma jpeg_step_add_at (i : nat) (bits : list Z) :
  jpeg_step i bits =
  let j := scan_down bits (i - 2) in
  add_at j (-1) (add_at (j + 1) 2 (add_at (i - 1) 1 (add_at i (-2) bits))).
Proof. reflexivity. Qed.

Lemma miniz_move_add_at (newL : nat) (bits : list Z) :
  miniz_move newL bits =
  let b1 := add_at newL (-1) bits in
  let i := scan_down b1 (newL - 1) in
  if (i =? 0)%nat then b1 else add_at (i + 1) 2 (add_at i (-1) b1).
Proof. reflexivity. Qed.

Lemma wsum_all_zero (w : nat -> Z) (n : nat) (bits : list Z) :
  (forall l, (1 <= l <= n)%nat -> rd bits l = 0) -> wsum w n bits = 0.
Proof.
  intros H. rewrite (wsum_zero_above w n 0) by (try lia; intros; apply H; lia).
  reflexivity.
Qed.

(** Adding [d] to entry [k] of a histogram of non-negative counts. *)
Lemma add_at_sound (n k : nat) (d : Z) (bits : list Z) :
  (forall l, (1 <= l <= n)%nat -> 0 <= rd bits l) ->
  (1 <= k <= n)%nat -> (k < length bits)%nat ->
  0 <= rd bits k + d -> count n bits + d < 2 ^ 32 ->
  (forall l, (1 <= l <= n)%nat -> 0 <= rd (add_at k d bits) l)
  /\ (forall w, wsum w n (add_at k d bits) = wsum w n bits + d * w k)
  /\ rd (add_at k d bits) k = rd bits k + d.
Proof.
  intros Hnn Hk Hlen Hlo Hhi.
  assert (Hle : rd bits k <= count n bits) by (apply count_term_le; auto).
  assert (Hr : 0 <= rd bits k + d < 2 ^ 32) by lia.
  split; [|split].
  - intros l Hl. destruct (Nat.eq_dec k l) as [<-|Hne].
    + rewrite rd_add_at_eq; auto; lia.
    + rewrite rd_add_at_ne; auto.
  - intros w. apply wsum_add_at; auto.
  - apply rd_add_at_eq; auto.
Qed.

(** The effect of one JPEG demotion on every weighted sum, when it does
    not wrap: two codes of length [i] exist and so does a code of a
    length [j <= i - 2]. *)
Lemma jpeg_step_wsum (n i : nat) (bits : list Z) :
  (forall l, (1 <= l <= n)%nat -> 0 <= rd bits l) ->
  (3 <= i <= n)%nat -> (n < length bits)%nat ->
  2 <= rd bits i -> (1 <= scan_down bits (i - 2))%nat ->
  count n bits < 2 ^ 31 ->
  let j := scan_down bits (i - 2) in
  let bits' := jpeg_step i bits in
  length bits' = length bits
  /\ (forall l, (1 <= l <= n)%nat -> 0 <= rd bits' l)
  /\ (forall l, (i < l)%nat -> rd bits' l = rd bits l)
  /\ (forall w, wsum w n bits'
                = wsum w n bits - 2 * w i + w (i - 1)%nat + 2 * w (j + 1)%nat - w j).
Proof.
  intros Hnn Hi Hlen Hev Hj Hc. cbv zeta.
  pose proof (scan_down_le bits (i - 2)) as Hjle.
  assert (Hjnz : rd bits (scan_down bits (i - 2)) <> 0)
    by (apply scan_down_nz; lia).
  rewrite jpeg_step_add_at. cbv zeta.
  set (j := scan_down bits (i - 2)) in *.
  assert (Hjpos : 1 <= rd bits j).
  { assert (0 <= rd bits j) by (apply Hnn; lia). lia. }
  set (b1 := add_at i (-2) bits).
  destruct (add_at_sound n i (-2) bits Hnn)
    as (N1 & W1 & R1); try lia. fold b1 in N1, W1, R1.
  assert (C1 : count n b1 = count n bits - 2) by (unfold count; rewrite W1; lia).
  set (b2 := add_at (i - 1) 1 b1).
  destruct (add_at_sound n (i - 1) 1 b1 N1)
    as (N2 & W2 & R2); try lia.
  { unfold b1; rewrite length_add_at; lia. }
  { assert (0 <= rd b1 (i - 1)) by (apply N1; lia). lia. }
  fold b2 in N2, W2, R2.
  assert (C2 : count n b2 = count n bits - 1) by (unfold count in *; rewrite W2; lia).
  set (b3 := add_at (j + 1) 2 b2).
  destruct (add_at_sound n (j + 1) 2 b2 N2)
    as (N3 & W3 & R3); try lia.
  { unfold b2, b1; rewrite !length_add_at; lia. }
  { assert (0 <= rd b2 (j + 1)) by (apply N2; lia). lia. }
  fold b3 in N3, W3, R3.
  assert (C3 : count n b3 = count n bits + 1) by (unfold count in *; rewrite W3; lia).
  assert (Rj : rd b3 j = rd bits j).
  { unfold b3, b2, b1. rewrite !rd_add_at_ne by lia. reflexivity. }
  set (b4 := add_at j (-1) b3).
  destruct (add_at_sound n j (-1) b3 N3)
    as (N4 & W4 & R4); try lia.
  { unfold b3, b2, b1; rewrite !length_add_at; lia. }
  fold b4 in N4, W4, R4.
  split; [|split; [|split]].
  - unfold b4, b3, b2, b1; rewrite !length_add_at; lia.
  - exact N4.
  - intros l Hl. unfold b4, b3, b2, b1. rewrite !rd_add_at_ne by lia. reflexivity.
  - intros w. rewrite W4, W3, W2, W1. ring.
Qed.

Section Jpeg.

Variables (newL oldL : nat) (M : Z).
Hypothesis HnewL : (2 <= newL)%nat.
Hypothesis HM : M <= 2 ^ Z.of_nat newL.
Hypothesis HM31 : M < 2 ^ 31.

(** The invariant of the JPEG loop at length [i]. *)
Record jpeg_inv (i : nat) (bits : list Z) : Prop := {
  ji_len : (oldL < length bits)%nat;
  ji_range : (newL <= i <= oldL)%nat;
  ji_nonneg : forall l, (1 <= l <= oldL)%nat -> 0 <= rd bits l;
  ji_above : forall l, (i < l <= oldL)%nat -> rd bits l = 0;
  ji_kraft : kraft oldL oldL bits = 2 ^ Z.of_nat oldL;
  ji_count : count oldL bits = M
}.

Lemma kraft_split (i : nat) (bits : list Z) :
  jpeg_inv i bits -> (1 <= i)%nat ->
  kraft oldL (i - 1) bits + rd bits i * 2 ^ (Z.of_nat oldL - Z.of_nat i)
  = 2 ^ Z.of_nat oldL.
Proof.
  intros I Hi. rewrite <- (ji_kraft _ _ I).
  unfold kraft. rewrite (wsum_zero_above _ oldL i) by (apply I || apply (ji_range _ _ I)).
  destruct i as [|i]; [lia|]. rewrite wsum_S.
  replace (S i - 1)%nat with i by lia. reflexivity.
Qed.

(** The longest length in use is used by an even number of codes. *)
Lemma jpeg_even (i : nat) (bits : list Z) :
  jpeg_inv i bits -> (newL < i)%nat -> rd bits i <> 0 -> 2 <= rd bits i.
Proof.
  intros I Hi Hnz.
  pose proof (ji_range _ _ I) as Hr.
  pose proof (kraft_split i bits I ltac:(lia)) as Hs.
  pose proof (kraft_divide oldL (i - 1) bits ltac:(lia)) as [q Hq].
  assert (Hnn : 0 <= rd bits i) by (apply (ji_nonneg _ _ I); lia).
  set (p := 2 ^ (Z.of_nat oldL - Z.of_nat i)) in *.
  assert (Hp : 0 < p) by (apply Z.pow_pos_nonneg; lia).
  assert (E1 : 2 ^ (Z.of_nat oldL - Z.of_nat (i - 1)) = 2 * p).
  { unfold p. rewrite <- (Z.pow_1_r 2) at 2. rewrite <- Z.pow_add_r by lia.
    f_equal. lia. }
  assert (E2 : 2 ^ Z.of_nat oldL = 2 * p * 2 ^ (Z.of_nat i - 1)).
  { rewrite <- E1. rewrite <- Z.pow_add_r by lia. f_equal. lia. }
  rewrite Hq, E1, E2 in Hs.
  assert (E3 : rd bits i = 2 * (2 ^ (Z.of_nat i - 1) - q)) by nia.
  lia.
Qed.

(** A code at least two bits shorter exists. *)
Lemma jpeg_shorter (i : nat) (bits : list Z) :
  jpeg_inv i bits -> (newL < i)%nat -> rd bits i <> 0 ->
  (1 <= scan_down bits (i - 2))%nat.
Proof.
  intros I Hi Hnz.
  pose proof (jpeg_even i bits I Hi Hnz) as Hev.
  pose proof (ji_range _ _ I) as Hr.
  destruct (scan_down bits (i - 2)) eqn:E; [exfalso|lia].
  assert (Hz : forall l, (1 <= l <= i - 2)%nat -> rd bits l = 0).
  { intros l Hl. apply (scan_down_above bits (i - 2)). lia. }
  pose proof (kraft_split i bits I ltac:(lia)) as Hs.
  assert (Hk : kraft oldL (i - 1) bits
               = rd bits (i - 1) * 2 ^ (Z.of_nat oldL - Z.of_nat (i - 1))).
  { unfold kraft. replace (i - 1)%nat with (S (i - 2)) by lia.
    rewrite wsum_S, wsum_all_zero by auto. ring. }
  assert (Hc : count oldL bits = rd bits (i - 1) + rd bits i).
  { unfold count. rewrite (wsum_zero_above _ oldL i) by (apply I || lia).
    replace i with (S (S (i - 2))) at 1 by lia.
    rewrite !wsum_S, wsum_all_zero by auto.
    replace (S (S (i - 2))) with i by lia.
    replace (S (i - 2)) with (i - 1)%nat by lia. ring. }
  rewrite (ji_count _ _ I) in Hc.
  set (p := 2 ^ (Z.of_nat oldL - Z.of_nat i)) in *.
  assert (Hp : 0 < p) by (apply Z.pow_pos_nonneg; lia).
  assert (E1 : 2 ^ (Z.of_nat oldL - Z.of_nat (i - 1)) = 2 * p).
  { unfold p. rewrite <- (Z.pow_1_r 2) at 2. rewrite <- Z.pow_add_r by lia.
    f_equal. lia. }
  assert (E2 : 2 ^ Z.of_nat oldL = 2 * p * 2 ^ (Z.of_nat i - 1)).
  { rewrite <- E1. rewrite <- Z.pow_add_r by lia. f_equal. lia. }
  assert (E3 : 2 ^ Z.of_nat newL <= 2 ^ (Z.of_nat i - 1))
    by (apply Z.pow_le_mono_r; lia).
  assert (Hn1 : 0 <= rd bits (i - 1)) by (apply (ji_nonneg _ _ I); lia).
  rewrite Hk, E1, E2 in Hs.
  assert (2 * rd bits (i - 1) + rd bits i = 2 * 2 ^ (Z.of_nat i - 1)) by nia.
  lia.
Qed.

(** One demotion keeps the invariant and shortens the total length. *)
Lemma jpeg_step_inv (i : nat) (bits : list Z) :
  jpeg_inv i bits -> (newL < i)%nat -> rd bits i <> 0 ->
  jpeg_inv i (jpeg_step i bits)
  /\ total_length oldL (jpeg_step i bits) < total_length oldL bits.
Proof.
  intros I Hi Hnz.
  pose proof (jpeg_even i bits I Hi Hnz) as Hev.
  pose proof (jpeg_shorter i bits I Hi Hnz) as Hj.
  pose proof (ji_range _ _ I) as Hr.
  pose proof (scan_down_le bits (i - 2)) as Hjle.
  destruct (jpeg_step_wsum oldL i bits (ji_nonneg _ _ I))
    as (L4 & N4 & F4 & Wall); try lia.
  { apply I. }
  { rewrite (ji_count _ _ I). exact HM31. }
  set (j := scan_down bits (i - 2)) in *.
  split; [constructor|].
  - rewrite L4. apply I.
  - exact Hr.
  - exact N4.
  - intros l Hl. rewrite F4 by lia. apply (ji_above _ _ I); lia.
  - unfold kraft. rewrite Wall. fold (kraft oldL oldL bits).
    rewrite (ji_kraft _ _ I).
    replace (Z.of_nat oldL - Z.of_nat (i - 1)) with (1 + (Z.of_nat oldL - Z.of_nat i)) by lia.
    replace (Z.of_nat oldL - Z.of_nat j) with (1 + (Z.of_nat oldL - Z.of_nat (j + 1))) by lia.
    rewrite !Z.pow_add_r by lia. change (2 ^ 1) with 2. ring.
  - unfold count. rewrite Wall. fold (count oldL bits). rewrite (ji_count _ _ I). lia.
  - unfold total_length. rewrite Wall. lia.
Qed.

Lemma total_length_nonneg (i : nat) (bits : list Z) :
  jpeg_inv i bits -> 0 <= total_length oldL bits.
Proof.
  intros I. apply wsum_nonneg; [apply I | intros; lia].
Qed.

(** The loop ends at [newL] with the invariant, given fuel beyond
    [i] plus the total code length. *)
Lemma jpeg_loop_inv (fuel : nat) :
  forall (i : nat) (bits : list Z),
    jpeg_inv i bits ->
    Z.of_nat i + total_length oldL bits < Z.of_nat fuel ->
    exists bits', jpeg_loop fuel newL i bits = Some (newL, bits')
                  /\ jpeg_inv newL bits'.
Proof.
  induction fuel as [|fuel IH]; intros i bits I Hf.
  - pose proof (total_length_nonneg i bits I). lia.
  - pose proof (ji_range _ _ I) as Hr. simpl.
    destruct (newL <? i)%nat eqn:E.
    + apply Nat.ltb_lt in E.
      destruct (rd bits i =? 0) eqn:Ez.
      * apply Z.eqb_eq in Ez. apply IH; [|lia].
        destruct I; constructor; auto; try lia.
        intros l Hl. destruct (Nat.eq_dec l i) as [->|]; auto.
        apply ji_above0; lia.
      * apply Z.eqb_neq in Ez.
        destruct (jpeg_step_inv i bits I E Ez) as [I' Hlt].
        apply IH; auto. lia.
    + apply Nat.ltb_ge in E. replace i with newL in * by lia.
      exists bits; auto.
Qed.

(** What [jpeg_inv newL] says about the result of the final scan. *)
Lemma jpeg_final (bits : list Z) :
  jpeg_inv newL bits ->
  let r := scan_down bits newL in
  (1 <= r <= newL)%nat /\ 0 < rd bits r
  /\ (forall l, (r < l <= oldL)%nat -> rd bits l = 0)
  /\ kraft newL newL bits = 2 ^ Z.of_nat newL
  /\ count newL bits = M.
Proof.
  intros I r. pose proof (ji_range _ _ I) as Hr.
  pose proof (scan_down_le bits newL) as Hle. fold r in Hle.
  assert (Hk : kraft newL newL bits = 2 ^ Z.of_nat newL).
  { pose proof (ji_kraft _ _ I) as Hk. unfold kraft in Hk.
    rewrite (wsum_zero_above _ oldL newL) in Hk by (apply I || lia).
    fold (kraft oldL newL bits) in Hk.
    rewrite (kraft_scale newL oldL newL) in Hk by lia.
    assert (0 < 2 ^ (Z.of_nat oldL - Z.of_nat newL)) by (apply Z.pow_pos_nonneg; lia).
    replace (2 ^ Z.of_nat oldL)
      with (2 ^ (Z.of_nat oldL - Z.of_nat newL) * 2 ^ Z.of_nat newL) in Hk
      by (rewrite <- Z.pow_add_r by lia; f_equal; lia).
    nia. }
  assert (Hr1 : (1 <= r)%nat).
  { destruct r eqn:E; [exfalso|lia].
    assert (kraft newL newL bits = 0).
    { apply wsum_all_zero. intros l Hl. apply (scan_down_above bits newL).
      fold r. lia. }
    assert (0 < 2 ^ Z.of_nat newL) by (apply Z.pow_pos_nonneg; lia). lia. }
  split; [lia|]. split; [|split; [|split]]; auto.
  - assert (rd bits r <> 0) by (apply scan_down_nz; fold r; lia).
    assert (0 <= rd bits r) by (apply (ji_nonneg _ _ I); lia). lia.
  - intros l Hl. destruct (Nat.le_gt_cases l newL).
    + apply (scan_down_above bits newL). fold r. lia.
    + apply (ji_above _ _ I). lia.
  - rewrite <- (ji_count _ _ I). unfold count. symmetry.
    apply wsum_zero_above; [lia|apply I].
Qed.

End Jpeg.

Lemma wsum_mono (w1 w2 : nat -> Z) (n : nat) (bits : list Z) :
  (forall l, (1 <= l <= n)%nat -> 0 <= rd bits l) ->
  (forall l, (1 <= l <= n)%nat -> w1 l <= w2 l) ->
  wsum w1 n bits <= wsum w2 n bits.
Proof.
  induction n as [|n IH]; intros Hb Hw; [simpl; lia|].
  rewrite !wsum_S.
  assert (wsum w1 n bits <= wsum w2 n bits)
    by (apply IH; intros; [apply Hb|apply Hw]; lia).
  assert (0 <= rd bits (S n)) by (apply Hb; lia).
  assert (w1 (S n) <= w2 (S n)) by (apply Hw; lia). nia.
Qed.

Lemma shl_u32_id (x n : Z) :
  0 <= n < 32 -> 0 <= x * 2 ^ n < 2 ^ 32 -> shl_u32 x n = x * 2 ^ n.
Proof.
  intros Hn Hx. unfold shl_u32. rewrite Z.mod_small by lia. apply u32_id; auto.
Qed.

Lemma shl_u64_one (n : Z) : 0 <= n < 64 -> shl_u64 1 n = 2 ^ n.
Proof.
  intros Hn. unfold shl_u64. rewrite Z.mod_small by lia. rewrite Z.mul_1_l.
  apply u64_id. split; [apply Z.pow_nonneg; lia|apply Z.pow_lt_mono_r; lia].
Qed.

Section Miniz.

Variables (newL oldL : nat) (M : Z).
Hypothesis HnewL : (2 <= newL)%nat.
Hypothesis HoldL : (newL < oldL)%nat.
Hypothesis HM : M <= 2 ^ Z.of_nat newL.
Hypothesis H31 : (newL <= 31)%nat.

Let pow31 : 2 ^ Z.of_nat newL <= 2 ^ 31.
Proof. apply Z.pow_le_mono_r; lia. Qed.

Lemma two_terms_le_count (n k1 k2 : nat) (bits : list Z) :
  (forall l, (1 <= l <= n)%nat -> 0 <= rd bits l) ->
  (1 <= k1 <= n)%nat -> (1 <= k2 <= n)%nat -> k1 <> k2 ->
  (k2 < length bits)%nat ->
  rd bits k1 + rd bits k2 <= count n bits.
Proof.
  intros Hnn H1 H2 Hne Hlen.
  assert (Hc : count n (upd k2 0 bits) = count n bits - rd bits k2)
    by (unfold count; rewrite wsum_upd by auto; ring).
  assert (rd (upd k2 0 bits) k1 <= count n (upd k2 0 bits)).
  { apply count_term_le; auto. intros l Hl.
    destruct (Nat.eq_dec k2 l) as [<-|].
    - rewrite rd_upd_eq by auto. lia.
    - rewrite rd_upd_ne by auto. auto. }
  rewrite rd_upd_ne in H by auto. lia.
Qed.

Hypothesis HM32 : M < 2 ^ 32.

(** The collapse moves every count above [newL] to [newL]. *)
Lemma miniz_collapse_spec (n : nat) :
  forall (i : nat) (bits : list Z),
    (newL < i)%nat -> (i + n <= S oldL)%nat -> (oldL < length bits)%nat ->
    (forall l, (1 <= l <= oldL)%nat -> 0 <= rd bits l) ->
    (forall l, (i + n <= l <= oldL)%nat -> rd bits l = 0) ->
    count oldL bits = M ->
    let b' := miniz_collapse newL n i bits in
    length b' = length bits
    /\ (forall l, (1 <= l <= oldL)%nat -> 0 <= rd b' l)
    /\ (forall l, (i <= l <= oldL)%nat -> rd b' l = 0)
    /\ (forall l, (l < i)%nat -> l <> newL -> rd b' l = rd bits l)
    /\ (forall w, (forall l, (newL <= l <= oldL)%nat -> w l = w newL) ->
                  wsum w oldL b' = wsum w oldL bits).
Proof.
  induction n as [|n IH]; intros i bits Hi Hn Hlen Hnn Hz Hc; cbv zeta.
  - simpl. repeat split; auto. intros; apply Hz; lia.
  - simpl miniz_collapse.
    assert (Hi0 : 0 <= rd bits i) by (apply Hnn; lia).
    assert (Hn0 : 0 <= rd bits newL) by (apply Hnn; lia).
    assert (Hsum : rd bits newL + rd bits i <= count oldL bits)
      by (apply two_terms_le_count; auto; lia).
    rewrite u32_id by lia.
    set (b1 := upd newL (rd bits newL + rd bits i) bits).
    set (b2 := upd i 0 b1).
    assert (L2 : length b2 = length bits)
      by (unfold b2, b1; rewrite !length_upd; reflexivity).
    assert (R2 : forall l, rd b2 l =
                   if Nat.eq_dec l i then 0
                   else if Nat.eq_dec l newL then rd bits newL + rd bits i
                   else rd bits l).
    { intros l. unfold b2, b1.
      destruct (Nat.eq_dec l i) as [->|].
      - rewrite rd_upd_eq by (rewrite length_upd; lia). reflexivity.
      - rewrite rd_upd_ne by auto.
        destruct (Nat.eq_dec l newL) as [->|].
        + rewrite rd_upd_eq by lia. reflexivity.
        + rewrite rd_upd_ne by auto. reflexivity. }
    assert (W2 : forall w, (forall l, (newL <= l <= oldL)%nat -> w l = w newL) ->
                     wsum w oldL b2 = wsum w oldL bits).
    { intros w Hw. unfold b2, b1.
      rewrite wsum_upd by (rewrite ?length_upd; lia).
      rewrite wsum_upd by lia.
      rewrite rd_upd_ne by lia. rewrite (Hw i) by lia. ring. }
    assert (N2 : forall l, (1 <= l <= oldL)%nat -> 0 <= rd b2 l).
    { intros l Hl. rewrite R2.
      destruct (Nat.eq_dec l i); [lia|].
      destruct (Nat.eq_dec l newL); [lia|]. apply Hnn; auto. }
    assert (C2 : count oldL b2 = M)
      by (unfold count; rewrite W2 by auto; exact Hc).
    destruct (IH (S i) b2) as (A1 & A2 & A3 & A4 & A5); try lia; auto.
    { intros l Hl. rewrite R2.
      destruct (Nat.eq_dec l i); [lia|].
      destruct (Nat.eq_dec l newL); [lia|]. apply Hz; lia. }
    split; [lia|]. split; [exact A2|]. split; [|split].
    + intros l Hl. destruct (Nat.eq_dec l i) as [->|].
      * rewrite A4 by lia. rewrite R2.
        destruct (Nat.eq_dec i i); [reflexivity|congruence].
      * apply A3. lia.
    + intros l Hl Hne. rewrite A4 by lia. rewrite R2.
      destruct (Nat.eq_dec l i); [lia|].
      destruct (Nat.eq_dec l newL); [congruence|reflexivity].
    + intros w Hw. rewrite A5 by auto. apply W2; auto.
Qed.

(** The integer Kraft sum computed after the collapse is exact. *)
Lemma miniz_total_spec (bits : list Z) (i : nat) :
  forall total,
    (i <= newL)%nat ->
    (forall l, (1 <= l <= i)%nat ->
               0 <= rd bits l * 2 ^ (Z.of_nat newL - Z.of_nat l) <= 2 ^ 31) ->
    0 <= total -> total + Z.of_nat i * 2 ^ 31 < 2 ^ 64 ->
    miniz_total newL i total bits = total + kraft newL i bits.
Proof.
  induction i as [|i IH]; intros total Hi Hb H0 Ht.
  - simpl. unfold kraft. simpl. ring.
  - cbn [miniz_total]. unfold kraft. rewrite wsum_S. fold (kraft newL i bits).
    pose proof (Hb (S i) ltac:(lia)) as Hs.
    replace (Z.of_nat (newL - S i)) with (Z.of_nat newL - Z.of_nat (S i)) by lia.
    rewrite shl_u32_id by lia.
    rewrite u64_id by lia.
    rewrite IH; try lia.
    intros l Hl. apply Hb. lia.
Qed.

(** The invariant of the balancing loop. *)
Record miniz_inv (bits : list Z) (total : Z) : Prop := {
  mi_len : (oldL < length bits)%nat;
  mi_nonneg : forall l, (1 <= l <= oldL)%nat -> 0 <= rd bits l;
  mi_above : forall l, (newL < l <= oldL)%nat -> rd bits l = 0;
  mi_total : total = kraft newL newL bits;
  mi_count : count newL bits = M;
  mi_slack : total - rd bits newL <= 2 ^ Z.of_nat newL - 1
}.

Lemma kraft_newL_split (bits : list Z) :
  kraft newL newL bits = kraft newL (newL - 1) bits + rd bits newL.
Proof.
  clear - HnewL. unfold kraft. destruct newL as [|k]; [lia|].
  rewrite wsum_S. replace (S k - 1)%nat with k by lia.
  rewrite Z.sub_diag. change (2 ^ 0) with 1. ring.
Qed.

Lemma miniz_move_inv (bits : list Z) (total : Z) :
  miniz_inv bits total -> 2 ^ Z.of_nat newL < total ->
  miniz_inv (miniz_move newL bits) (total - 1).
Proof.
  intros I Ht.
  pose proof (mi_len _ _ I) as Hlen.
  pose proof (mi_slack _ _ I) as Hsl.
  pose proof (mi_count _ _ I) as Hc.
  assert (Hnn : forall l, (1 <= l <= newL)%nat -> 0 <= rd bits l)
    by (intros; apply (mi_nonneg _ _ I); lia).
  rewrite miniz_move_add_at. cbv zeta.
  set (b1 := add_at newL (-1) bits).
  destruct (add_at_sound newL newL (-1) bits Hnn)
    as (N1 & W1 & R1); try lia. fold b1 in N1, W1, R1.
  assert (C1 : count newL b1 = M - 1)
    by (unfold count; rewrite W1; fold (count newL bits); lia).
  assert (Hi : (1 <= scan_down b1 (newL - 1))%nat).
  { destruct (scan_down b1 (newL - 1)) eqn:E; [exfalso|lia].
    assert (Hz : kraft newL (newL - 1) bits = 0).
    { apply wsum_all_zero. intros l Hl.
      rewrite <- (rd_add_at_ne newL l (-1)) by lia. fold b1.
      apply (scan_down_above b1 (newL - 1)). lia. }
    pose proof (kraft_newL_split bits) as Hs.
    rewrite <- (mi_total _ _ I), Hz in Hs.
    assert (rd bits newL <= count newL bits) by (apply count_term_le; auto; lia).
    lia. }
  pose proof (scan_down_le b1 (newL - 1)) as Hile.
  assert (Hinz : rd b1 (scan_down b1 (newL - 1)) <> 0)
    by (apply scan_down_nz; lia).
  set (i := scan_down b1 (newL - 1)) in *.
  destruct (i =? 0)%nat eqn:Ei; [apply Nat.eqb_eq in Ei; lia|].
  assert (Hipos : 1 <= rd b1 i).
  { assert (0 <= rd b1 i) by (apply N1; lia). lia. }
  set (b2 := add_at i (-1) b1).
  destruct (add_at_sound newL i (-1) b1 N1)
    as (N2 & W2 & R2); try lia.
  { unfold b1; rewrite length_add_at; lia. }
  fold b2 in N2, W2, R2.
  assert (C2 : count newL b2 = M - 2)
    by (unfold count; rewrite W2; fold (count newL b1); lia).
  set (b3 := add_at (i + 1) 2 b2).
  destruct (add_at_sound newL (i + 1) 2 b2 N2)
    as (N3 & W3 & R3); try lia.
  { unfold b2, b1; rewrite !length_add_at; lia. }
  { assert (0 <= rd b2 (i + 1)) by (apply N2; lia). lia. }
  fold b3 in N3, W3, R3.
  assert (Wall : forall w, wsum w newL b3
                 = wsum w newL bits - w newL - w i + 2 * w (i + 1)%nat).
  { intros w. rewrite W3, W2, W1. ring. }
  assert (Rn : rd bits newL - 1 <= rd b3 newL).
  { destruct (Nat.eq_dec (i + 1) newL) as [E|E].
    - replace (rd b3 newL) with (rd b3 (i + 1)) by (rewrite E; reflexivity).
      rewrite R3. unfold b2. rewrite rd_add_at_ne by lia. rewrite E, R1. lia.
    - unfold b3, b2. rewrite !rd_add_at_ne by lia. rewrite R1. lia. }
  constructor.
  - unfold b3, b2, b1; rewrite !length_add_at; lia.
  - intros l Hl. destruct (Nat.le_gt_cases l newL).
    + apply N3; lia.
    + unfold b3, b2, b1. rewrite !rd_add_at_ne by lia.
      apply (mi_nonneg _ _ I); lia.
  - intros l Hl. unfold b3, b2, b1. rewrite !rd_add_at_ne by lia.
    apply (mi_above _ _ I); lia.
  - unfold kraft. rewrite Wall. fold (kraft newL newL bits).
    rewrite <- (mi_total _ _ I).
    rewrite Z.sub_diag.
    replace (Z.of_nat newL - Z.of_nat i)
      with (1 + (Z.of_nat newL - Z.of_nat (i + 1))) by lia.
    rewrite Z.pow_add_r by lia. change (2 ^ 1) with 2. change (2 ^ 0) with 1. ring.
  - unfold count. rewrite Wall. fold (count newL bits). lia.
  - lia.
Qed.

Lemma miniz_balance_inv (n : nat) :
  forall (bits : list Z) (total : Z),
    miniz_inv bits total ->
    Z.of_nat n = Z.max 0 (total - 2 ^ Z.of_nat newL) ->
    total < 2 ^ 64 ->
    miniz_inv (miniz_balance n newL total (2 ^ Z.of_nat newL) bits)
              (Z.min total (2 ^ Z.of_nat newL)).
Proof.
  induction n as [|n IH]; intros bits total I Hn Ht.
  - simpl. rewrite Z.min_l by lia. exact I.
  - simpl. destruct (2 ^ Z.of_nat newL <? total) eqn:E.
    + apply Z.ltb_lt in E.
      assert (0 < 2 ^ Z.of_nat newL) by (apply Z.pow_pos_nonneg; lia).
      rewrite u64_id by lia.
      replace (Z.min total (2 ^ Z.of_nat newL))
        with (Z.min (total - 1) (2 ^ Z.of_nat newL)) by lia.
      apply IH; try lia. apply miniz_move_inv; auto.
    + apply Z.ltb_ge in E. lia.
Qed.

End Miniz.

(** ** The reducers on a whole histogram *)

Lemma length_jpeg_step (i : nat) (bits : list Z) :
  length (jpeg_step i bits) = length bits.
Proof. rewrite jpeg_step_add_at. cbv zeta. rewrite !length_add_at. reflexivity. Qed.

Lemma length_jpeg_loop (fuel : nat) :
  forall newL i bits r bits',
    jpeg_loop fuel newL i bits = Some (r, bits') -> length bits' = length bits.
Proof.
  induction fuel as [|fuel IH]; intros newL i bits r bits' H; simpl in H; [discriminate|].
  destruct (newL <? i)%nat.
  - destruct (rd bits i =? 0).
    + eapply IH; eauto.
    + rewrite (IH _ _ _ _ _ H). apply length_jpeg_step.
  - inversion H; subst; reflexivity.
Qed.

Lemma length_miniz_move (newL : nat) (bits : list Z) :
  length (miniz_move newL bits) = length bits.
Proof.
  rewrite miniz_move_add_at. cbv zeta.
  destruct (_ =? _)%nat; rewrite ?length_add_at; reflexivity.
Qed.

Lemma length_miniz_balance (n : nat) :
  forall newL total one bits,
    length (miniz_balance n newL total one bits) = length bits.
Proof.
  induction n as [|n IH]; intros; simpl; auto.
  destruct (one <? total); auto. rewrite IH. apply length_miniz_move.
Qed.

Lemma pow2_split (a b : nat) :
  (a <= b)%nat -> 2 ^ Z.of_nat b = 2 ^ (Z.of_nat b - Z.of_nat a) * 2 ^ Z.of_nat a.
Proof. intros. rewrite <- Z.pow_add_r by lia. f_equal. lia. Qed.

(** The JPEG reducer on a complete code that fits the new limit. *)
Lemma jpeg_correct (newL oldL : nat) (bits : list Z) (fuel : nat) :
  (2 <= newL < oldL)%nat -> (oldL < length bits)%nat ->
  (forall l, (1 <= l)%nat -> 0 <= rd bits l) ->
  (forall l, (oldL < l)%nat -> rd bits l = 0) ->
  kraft oldL oldL bits = 2 ^ Z.of_nat oldL ->
  count oldL bits <= 2 ^ Z.of_nat newL ->
  count oldL bits < 2 ^ 31 ->
  Z.of_nat oldL + total_length oldL bits < Z.of_nat fuel ->
  exists (r : nat) (bits' : list Z),
    limitedJpegInPlace fuel newL oldL bits = Some (r, bits')
    /\ length bits' = length bits
    /\ (1 <= r <= newL)%nat
    /\ 0 < rd bits' r
    /\ (forall l, (r < l)%nat -> rd bits' l = 0)
    /\ (forall l, (1 <= l)%nat -> 0 <= rd bits' l)
    /\ kraft newL newL bits' = 2 ^ Z.of_nat newL
    /\ count newL bits' = count oldL bits.
Proof.
  intros HL Hlen Hnn Hz Hk Hc Hc31 Hfuel.
  set (N := (length bits - 1)%nat).
  set (M := count oldL bits) in *.
  assert (I : jpeg_inv newL N M oldL bits).
  { constructor.
    - lia.
    - lia.
    - intros; apply Hnn; lia.
    - intros; apply Hz; lia.
    - unfold kraft. rewrite (wsum_zero_above _ N oldL) by (try lia; intros; apply Hz; lia).
      fold (kraft N oldL bits). rewrite (kraft_scale oldL N oldL) by lia.
      rewrite Hk. symmetry. apply pow2_split. lia.
    - unfold count. apply wsum_zero_above; [lia|intros; apply Hz; lia]. }
  assert (Ht : total_length N bits = total_length oldL bits).
  { unfold total_length. apply wsum_zero_above; [lia|intros; apply Hz; lia]. }
  destruct (jpeg_loop_inv newL N M ltac:(lia) Hc Hc31 fuel oldL bits I ltac:(lia))
    as (bits' & Hloop & I').
  pose proof (jpeg_final newL N M ltac:(lia) Hc Hc31 bits' I') as F.
  cbv zeta in F. destruct F as (F1 & F2 & F3 & F4 & F5).
  pose proof (length_jpeg_loop _ _ _ _ _ _ Hloop) as Hl'.
  exists (scan_down bits' newL), bits'.
  unfold limitedJpegInPlace.
  replace (newL <=? 1)%nat with false by (symmetry; apply Nat.leb_gt; lia).
  replace (oldL <? newL)%nat with false by (symmetry; apply Nat.ltb_ge; lia).
  replace (newL =? oldL)%nat with false by (symmetry; apply Nat.eqb_neq; lia).
  rewrite Hloop. repeat split; auto; try lia.
  - intros l Hl. destruct (Nat.le_gt_cases l N).
    + apply F3; lia.
    + apply rd_out. lia.
  - intros l Hl. destruct (Nat.le_gt_cases l N).
    + apply (ji_nonneg _ _ _ _ _ I'); lia.
    + rewrite rd_out by lia. lia.
Qed.

(** The MiniZ reducer on a code that satisfies the Kraft inequality and
    fits the new limit. *)
Lemma miniz_correct (newL oldL : nat) (bits : list Z) :
  (2 <= newL < oldL)%nat -> (newL <= 31)%nat -> (oldL < length bits)%nat ->
  (forall l, (1 <= l)%nat -> 0 <= rd bits l) ->
  (forall l, (oldL < l)%nat -> rd bits l = 0) ->
  kraft oldL oldL bits <= 2 ^ Z.of_nat oldL ->
  count oldL bits <= 2 ^ Z.of_nat newL ->
  exists bits' : list Z,
    limitedMinizInPlace newL oldL bits = (newL, bits')
    /\ length bits' = length bits
    /\ (0 < rd bits oldL -> 0 < rd bits' newL)
    /\ (forall l, (newL < l)%nat -> rd bits' l = 0)
    /\ (forall l, (1 <= l)%nat -> 0 <= rd bits' l)
    /\ kraft newL newL bits' <= 2 ^ Z.of_nat newL
    /\ count newL bits' = count oldL bits.
Proof.
  intros HL H31 Hlen Hnn Hz Hk Hc.
  set (N := (length bits - 1)%nat).
  set (M := count oldL bits) in *.
  assert (HcN : count N bits = M).
  { unfold count. apply wsum_zero_above; [lia|intros; apply Hz; lia]. }
  assert (Hp31 : 2 ^ Z.of_nat newL <= 2 ^ 31) by (apply Z.pow_le_mono_r; lia).
  assert (Hpos : 0 < 2 ^ Z.of_nat newL) by (apply Z.pow_pos_nonneg; lia).
  unfold limitedMinizInPlace.
  replace (newL <=? 1)%nat with false by (symmetry; apply Nat.leb_gt; lia).
  replace (oldL <? newL)%nat with false by (symmetry; apply Nat.ltb_ge; lia).
  replace (newL =? oldL)%nat with false by (symmetry; apply Nat.eqb_neq; lia).
  cbv zeta.
  destruct (miniz_collapse_spec newL N M ltac:(lia) ltac:(lia) Hc H31
              (oldL - newL) (S newL) bits)
    as (A1 & A2 & A3 & A4 & A5); try lia.
  { intros; apply Hnn; lia. }
  { intros; apply Hz; lia. }
  set (b1 := miniz_collapse newL (oldL - newL) (S newL) bits) in *.
  (* the Kraft inequality of the input, with the lengths from newL on
     weighed as the longest one *)
  set (w1 := fun l : nat => if (l <? newL)%nat
                            then 2 ^ (Z.of_nat oldL - Z.of_nat l) else 1).
  assert (Hw1 : wsum w1 N b1 <= 2 ^ Z.of_nat oldL).
  { rewrite A5 by (intros l Hl; unfold w1;
                   replace (l <? newL)%nat with false by (symmetry; apply Nat.ltb_ge; lia);
                   replace (newL <? newL)%nat with false by (symmetry; apply Nat.ltb_ge; lia);
                   reflexivity).
    rewrite (wsum_zero_above _ N oldL) by (try lia; intros; apply Hz; lia).
    eapply Z.le_trans; [|exact Hk]. unfold kraft.
    apply wsum_mono; [intros; apply Hnn; lia|].
    intros l Hl. unfold w1. destruct (l <? newL)%nat; [lia|].
    assert (0 < 2 ^ (Z.of_nat oldL - Z.of_nat l)) by (apply Z.pow_pos_nonneg; lia).
    lia. }
  assert (Hsplit : wsum w1 N b1
                   = 2 ^ (Z.of_nat oldL - Z.of_nat newL) * kraft newL (newL - 1) b1
                     + rd b1 newL).
  { rewrite (wsum_zero_above _ N newL) by (try lia; intros; apply A3; lia).
    replace newL with (S (newL - 1)) at 1 by lia. rewrite wsum_S.
    replace (S (newL - 1)) with newL by lia.
    unfold w1 at 2.
    replace (newL <? newL)%nat with false by (symmetry; apply Nat.ltb_ge; lia).
    rewrite Z.mul_1_r. f_equal. unfold kraft. apply wsum_scale.
    intros l Hl. unfold w1.
    replace (l <? newL)%nat with true by (symmetry; apply Nat.ltb_lt; lia).
    rewrite <- Z.pow_add_r by lia. f_equal. lia. }
  set (S0 := kraft newL (newL - 1) b1) in *.
  set (B := rd b1 newL) in *.
  assert (HB0 : 0 <= B) by (apply A2; lia).
  assert (HS0 : 0 <= S0).
  { apply wsum_nonneg; [intros; apply A2; lia|].
    intros; apply Z.pow_nonneg; lia. }
  assert (HcN1 : count newL b1 = M).
  { rewrite <- HcN. unfold count.
    rewrite <- (A5 (fun _ => 1)) by reflexivity.
    symmetry. apply wsum_zero_above; [lia|intros; apply A3; lia]. }
  assert (HBM : B <= M).
  { rewrite <- HcN1. apply count_term_le; [intros; apply A2; lia|lia]. }
  pose proof (pow2_split newL oldL ltac:(lia)) as Hpw.
  assert (Hq : 0 < 2 ^ (Z.of_nat oldL - Z.of_nat newL)) by (apply Z.pow_pos_nonneg; lia).
  assert (HSle : S0 <= 2 ^ Z.of_nat newL) by nia.
  assert (HSlt : 0 < B -> S0 <= 2 ^ Z.of_nat newL - 1) by nia.
  assert (Hterm : forall l, (1 <= l <= newL)%nat ->
             0 <= rd b1 l * 2 ^ (Z.of_nat newL - Z.of_nat l) <= 2 ^ 31).
  { intros l Hl. destruct (Nat.eq_dec l newL) as [->|Hne].
    - rewrite Z.sub_diag. change (2 ^ 0) with 1. fold B. lia.
    - split.
      + apply Z.mul_nonneg_nonneg; [apply A2; lia|apply Z.pow_nonneg; lia].
      + eapply Z.le_trans; [|exact Hp31].
        eapply Z.le_trans; [|exact HSle].
        apply (wsum_term_le (fun l => 2 ^ (Z.of_nat newL - Z.of_nat l)) (newL - 1) l b1).
        * intros; apply A2; lia.
        * intros; apply Z.pow_nonneg; lia.
        * lia. }
  assert (Htot : miniz_total newL newL 0 b1 = S0 + B).
  { rewrite (miniz_total_spec newL N) by (auto; lia).
    rewrite (kraft_newL_split newL ltac:(lia)). fold S0 B. lia. }
  rewrite Htot, shl_u64_one by lia.
  assert (HBold : 0 < rd bits oldL -> 0 < B).
  { intros Hold.
    set (ind := fun l : nat => if (l <? newL)%nat then 0 else 1).
    assert (E1 : wsum ind N b1 = wsum ind N bits).
    { apply A5. intros l Hl. unfold ind.
      replace (l <? newL)%nat with false by (symmetry; apply Nat.ltb_ge; lia).
      replace (newL <? newL)%nat with false by (symmetry; apply Nat.ltb_ge; lia).
      reflexivity. }
    assert (E2 : wsum ind N b1 = B).
    { rewrite (wsum_zero_above _ N newL) by (try lia; intros; apply A3; lia).
      replace newL with (S (newL - 1)) at 1 by lia. rewrite wsum_S.
      replace (S (newL - 1)) with newL by lia.
      rewrite (wsum_scale (fun _ => 0) ind 0) by
          (intros l Hl; unfold ind;
           replace (l <? newL)%nat with true by (symmetry; apply Nat.ltb_lt; lia); ring).
      unfold ind. replace (newL <? newL)%nat with false by (symmetry; apply Nat.ltb_ge; lia).
      fold B. ring. }
    assert (E3 : rd bits oldL * ind oldL <= wsum ind N bits).
    { apply wsum_term_le; [intros; apply Hnn; lia| |lia].
      intros l Hl. unfold ind. destruct (l <? newL)%nat; lia. }
    unfold ind in E3 at 1.
    replace (oldL <? newL)%nat with false in E3 by (symmetry; apply Nat.ltb_ge; lia).
    lia. }
  destruct (Z_le_gt_dec (S0 + B) (2 ^ Z.of_nat newL)) as [Hle|Hgt].
  - (* the Kraft sum already fits: the loop does not run *)
    replace (Z.to_nat (S0 + B - 2 ^ Z.of_nat newL)) with O by lia.
    simpl miniz_balance. exists b1.
    repeat split; auto.
    + intros l Hl. destruct (Nat.le_gt_cases l N); [apply A3; lia|apply rd_out; lia].
    + intros l Hl. destruct (Nat.le_gt_cases l N); [apply A2; lia|rewrite rd_out by lia; lia].
    + rewrite (kraft_newL_split newL ltac:(lia)). fold S0 B. lia.
  - assert (HBpos : 0 < B) by lia.
    assert (I : miniz_inv newL N M b1 (S0 + B)).
    { constructor.
      - lia.
      - exact A2.
      - intros; apply A3; lia.
      - rewrite (kraft_newL_split newL ltac:(lia)). reflexivity.
      - exact HcN1.
      - fold B. specialize (HSlt HBpos). lia. }
    pose proof (miniz_balance_inv newL N M ltac:(lia) ltac:(lia) Hc H31
                  (Z.to_nat (S0 + B - 2 ^ Z.of_nat newL)) b1 (S0 + B) I
                  ltac:(lia) ltac:(lia)) as I'.
    rewrite Z.min_r in I' by lia.
    set (bits' := miniz_balance _ _ _ _ b1) in *.
    assert (Hl' : length bits' = length bits)
      by (unfold bits'; rewrite length_miniz_balance; lia).
    exists bits'. repeat split; auto.
    + intros _. pose proof (mi_slack _ _ _ _ _ I'). lia.
    + intros l Hl. destruct (Nat.le_gt_cases l N).
      * apply (mi_above _ _ _ _ _ I'); lia.
      * apply rd_out; lia.
    + intros l Hl. destruct (Nat.le_gt_cases l N).
      * apply (mi_nonneg _ _ _ _ _ I'); lia.
      * rewrite rd_out by lia; lia.
    + rewrite <- (mi_total _ _ _ _ _ I'). lia.
    + apply (mi_count _ _ _ _ _ I').
Qed.

(** ** Claims on the length-histogram reducers *)

Lemma rd_nonneg_of_Forall (bits : list Z) :
Forall (fun x => 0 <= x) bits -> forall l, 0 <= rd bits l.
Proof.
intros H l. unfold rd. destruct (Nat.lt_ge_cases l (length bits)) as [Hl|Hl].
- rewrite Forall_forall in H. apply H. apply nth_In. exact Hl.
- rewrite nth_overflow by lia. lia.
Qed.

Lemma rd_zero_of_Forall (r : nat) (bits : list Z) :
Forall (fun x => x = 0) (skipn (S r) bits) ->
forall l, (r < l)%nat -> rd bits l = 0.
Proof.
intros H l Hl. unfold rd.
replace l with (S r + (l - S r))%nat by lia.
rewrite <- nth_skipn.
destruct (Nat.lt_ge_cases (l - S r) (length (skipn (S r) bits))) as [Hlt|Hge].
- rewrite Forall_forall in H. apply H. apply nth_In. exact Hlt.
- apply nth_overflow. lia.
Qed.

Lemma count_mono (m n : nat) (b : list Z) :
(forall l, 0 <= rd b l) -> (m <= n)%nat -> count m b <= count n b.
Proof.
intros Hnn Hmn. unfold count. induction n as [|n IH].
- replace m with O by lia. lia.
- destruct (Nat.eq_dec m (S n)) as [->|]; [lia|].
  rewrite wsum_S. specialize (IH ltac:(lia)). specialize (Hnn (S n)). lia.
Qed.

(** C8: the two worked reductions of the header, on the six-entry
    histogram [{0,1,1,1,1,2}] with [oldMaxLength = 5]: the limit 4 gives
    [{0,1,1,0,4,0}] and returns 4, the limit 3 gives [{0,0,2,4,0,0}] and
    returns 3 (for any fuel of at least 10 passes). *)
Theorem C8_jpeg_examples (fuel : nat) :
limitedJpegInPlace (10 + fuel) 4 5 [0;1;1;1;1;2] = Some (4%nat, [0;1;1;0;4;0])
/\ limitedJpegInPlace (10 + fuel) 3 5 [0;1;1;1;1;2] = Some (3%nat, [0;0;2;4;0;0]).
Proof. split; reflexivity. Qed.

(** C6 as stated fails: with [newMaxLength = oldMaxLength = 1] and two
    codes of length 1 (Kraft sum exactly 1) both reducers return 0. *)
Lemma C6_counterexample :
rd (hist64 [0;2]) 0 = 0
/\ kraft 1 1 (hist64 [0;2]) <= 2 ^ 1
/\ limitedJpegInPlace 100 1 1 (hist64 [0;2]) = Some (0%nat, hist64 [0;2])
/\ limitedMinizInPlace 1 1 (hist64 [0;2]) = (0%nat, hist64 [0;2]).
Proof. vm_compute. repeat split; congruence. Qed.

(** C6, amended.  For a 64-entry histogram of non-negative counts whose
    longest length in use is [oldL <= 63] and which holds at most
    [2^newL] and fewer than [2^31] codes:
    - for [newL = 1] both reducers return 0 and leave the histogram as
      it is;
    - for [2 <= newL <= oldL], when the code is complete (Kraft sum
      exactly [2^oldL]), [limitedJpegInPlace] returns (given fuel beyond
      [oldL] plus the total code length) the longest length [r] in use
      afterwards, with [1 <= r <= newL];
    - for [2 <= newL <= oldL] and [newL <= 31], when the Kraft sum is at
      most [2^oldL], [limitedMinizInPlace] returns [newL], which is the
      longest length in use afterwards. *)
Theorem C6_reducers_return (newL oldL : nat) (bits : list Z) :
(0 < newL <= oldL)%nat -> (oldL <= 63)%nat -> length bits = 64%nat ->
(forall l, 0 <= rd bits l) -> rd bits 0 = 0 ->
observed_max oldL bits ->
count oldL bits <= 2 ^ Z.of_nat newL -> count oldL bits < 2 ^ 31 ->
(newL = 1%nat ->
 (forall fuel, limitedJpegInPlace fuel newL oldL bits = Some (0%nat, bits))
 /\ limitedMinizInPlace newL oldL bits = (0%nat, bits))
/\ ((2 <= newL)%nat -> kraft oldL oldL bits = 2 ^ Z.of_nat oldL ->
    forall fuel, Z.of_nat oldL + total_length oldL bits < Z.of_nat fuel ->
    exists r bits',
      limitedJpegInPlace fuel newL oldL bits = Some (r, bits')
      /\ (1 <= r <= newL)%nat /\ observed_max r bits')
/\ ((2 <= newL <= 31)%nat -> kraft oldL oldL bits <= 2 ^ Z.of_nat oldL ->
    exists bits',
      limitedMinizInPlace newL oldL bits = (newL, bits')
      /\ observed_max newL bits').
Proof.
intros HL H63 Hlen Hnn H0 [Hmax Hz] Hc Hc31.
split; [|split].
- intros ->. split; [intros fuel; destruct fuel|]; reflexivity.
- intros H2 Hk fuel Hfuel.
  destruct (Nat.eq_dec newL oldL) as [E|E].
  + exists newL, bits. unfold limitedJpegInPlace.
    replace (newL <=? 1)%nat with false by (symmetry; apply Nat.leb_gt; lia).
    replace (oldL <? newL)%nat with false by (symmetry; apply Nat.ltb_ge; lia).
    replace (newL =? oldL)%nat with true by (symmetry; apply Nat.eqb_eq; lia).
    subst oldL. repeat split; auto; lia.
  + destruct (jpeg_correct newL oldL bits fuel) as (r & bits' & A & _ & B & C & D & _);
      auto; try lia.
    exists r, bits'. repeat split; auto; lia.
- intros H2 Hk.
  destruct (Nat.eq_dec newL oldL) as [E|E].
  + exists bits. unfold limitedMinizInPlace.
    replace (newL <=? 1)%nat with false by (symmetry; apply Nat.leb_gt; lia).
    replace (oldL <? newL)%nat with false by (symmetry; apply Nat.ltb_ge; lia).
    replace (newL =? oldL)%nat with true by (symmetry; apply Nat.eqb_eq; lia).
    subst oldL. repeat split; auto.
  + destruct (miniz_correct newL oldL bits) as (bits' & A & _ & B & C & _);
      auto; try lia.
    exists bits'. repeat split; auto.
Qed.

(** C6 applied to the histogram of the header with 4 as the new limit. *)
Lemma C6_witness :
(exists r bits',
   limitedJpegInPlace 100 4 5 (hist64 [0;1;1;1;1;2]) = Some (r, bits')
   /\ (1 <= r <= 4)%nat /\ observed_max r bits')
/\ (exists bits',
      limitedMinizInPlace 4 5 (hist64 [0;1;1;1;1;2]) = (4%nat, bits')
      /\ observed_max 4 bits').
Proof.
assert (Hnn : forall l, 0 <= rd (hist64 [0;1;1;1;1;2]) l).
{ apply rd_nonneg_of_Forall. vm_compute. repeat constructor; discriminate. }
assert (Hz : forall l, (5 < l)%nat -> rd (hist64 [0;1;1;1;1;2]) l = 0).
{ apply rd_zero_of_Forall. vm_compute. repeat constructor. }
destruct (C6_reducers_return 4 5 (hist64 [0;1;1;1;1;2])) as (_ & J & Mz).
- lia.
- lia.
- reflexivity.
- exact Hnn.
- reflexivity.
- split; [reflexivity|exact Hz].
- vm_compute; discriminate.
- reflexivity.
- split.
  + apply J; [lia|reflexivity|vm_compute; reflexivity].
  + apply Mz; [lia|vm_compute; discriminate].
Defined.

(** C7 as stated fails: the histogram [{0,0,1,2}] (one code of length 2,
    two of length 3) has Kraft sum 4/8 at [oldL = 3]; reduced to
    [newL = 2] by [limitedJpegInPlace] it becomes
    [{2^32-1, 2, 2, 0}]: Kraft sum 6 > 2^2 and four codes instead of
    three. *)
Lemma C7_counterexample :
rd (hist64 [0;0;1;2]) 0 = 0
/\ kraft 3 3 (hist64 [0;0;1;2]) = 4
/\ count 3 (hist64 [0;0;1;2]) = 3
/\ limitedJpegInPlace 100 2 3 (hist64 [0;0;1;2])
   = Some (2%nat, hist64 [4294967295;2;2;0])
/\ kraft 2 2 (hist64 [4294967295;2;2;0]) = 6
/\ count 3 (hist64 [4294967295;2;2;0]) = 4.
Proof. vm_compute. repeat split; reflexivity. Qed.

(** C7, amended.  For a 64-entry histogram of non-negative counts with
    no length beyond [oldL <= 63], at most [2^newL] and fewer than
    [2^31] codes, and [2 <= newL <= oldL]:
    - when the code is complete (Kraft sum exactly [2^oldL]),
      [limitedJpegInPlace] leaves no length beyond [newL], Kraft sum
      exactly [2^newL] and the same number of codes;
    - when the Kraft sum is at most [2^oldL] and [newL <= 31],
      [limitedMinizInPlace] leaves no length beyond [newL], Kraft sum at
      most [2^newL] and the same number of codes;
    - a single demotion at a length [i] used by at least two codes, with
      a code of a length at most [i - 2] in use, changes neither the
      Kraft sum nor the number of codes of any histogram of fewer than
      [2^31] codes. *)
Theorem C7_reducers_preserve (newL oldL : nat) (bits : list Z) :
(2 <= newL <= oldL)%nat -> (oldL <= 63)%nat -> length bits = 64%nat ->
(forall l, 0 <= rd bits l) -> rd bits 0 = 0 ->
(forall l, (oldL < l)%nat -> rd bits l = 0) ->
count oldL bits <= 2 ^ Z.of_nat newL -> count oldL bits < 2 ^ 31 ->
(kraft oldL oldL bits = 2 ^ Z.of_nat oldL ->
 forall fuel, Z.of_nat oldL + total_length oldL bits < Z.of_nat fuel ->
 exists r bits',
   limitedJpegInPlace fuel newL oldL bits = Some (r, bits')
   /\ (forall l, (newL < l)%nat -> rd bits' l = 0)
   /\ kraft newL newL bits' = 2 ^ Z.of_nat newL
   /\ count newL bits' = count oldL bits)
/\ ((newL <= 31)%nat -> kraft oldL oldL bits <= 2 ^ Z.of_nat oldL ->
    exists bits',
      limitedMinizInPlace newL oldL bits = (newL, bits')
      /\ (forall l, (newL < l)%nat -> rd bits' l = 0)
      /\ kraft newL newL bits' <= 2 ^ Z.of_nat newL
      /\ count newL bits' = count oldL bits)
/\ (forall (b : list Z) (i L : nat),
      length b = 64%nat -> (forall l, 0 <= rd b l) -> count 63 b < 2 ^ 31 ->
      (3 <= i <= L)%nat -> (L <= 63)%nat ->
      2 <= rd b i -> (1 <= scan_down b (i - 2))%nat ->
      kraft L L (jpeg_step i b) = kraft L L b
      /\ count L (jpeg_step i b) = count L b).
Proof.
intros HL H63 Hlen Hnn H0 Hz Hc Hc31.
split; [|split].
- intros Hk fuel Hfuel.
  destruct (Nat.eq_dec newL oldL) as [E|E].
  + exists newL, bits. unfold limitedJpegInPlace.
    replace (newL <=? 1)%nat with false by (symmetry; apply Nat.leb_gt; lia).
    replace (oldL <? newL)%nat with false by (symmetry; apply Nat.ltb_ge; lia).
    replace (newL =? oldL)%nat with true by (symmetry; apply Nat.eqb_eq; lia).
    subst oldL. repeat split; auto.
  + destruct (jpeg_correct newL oldL bits fuel)
      as (r & bits' & A & _ & B & _ & D & _ & F & G); auto; try lia.
    exists r, bits'. repeat split; auto.
    intros l Hl. apply D. lia.
- intros H31 Hk.
  destruct (Nat.eq_dec newL oldL) as [E|E].
  + exists bits. unfold limitedMinizInPlace.
    replace (newL <=? 1)%nat with false by (symmetry; apply Nat.leb_gt; lia).
    replace (oldL <? newL)%nat with false by (symmetry; apply Nat.ltb_ge; lia).
    replace (newL =? oldL)%nat with true by (symmetry; apply Nat.eqb_eq; lia).
    subst oldL. repeat split; auto.
  + destruct (miniz_correct newL oldL bits)
      as (bits' & A & _ & _ & C & _ & F & G); auto; try lia.
    exists bits'. repeat split; auto.
- intros b i L Hlb Hnb Hcb Hi HL63 Hev Hj.
  assert (HcL : count L b < 2 ^ 31).
  { eapply Z.le_lt_trans; [|exact Hcb]. apply count_mono; auto. }
  pose proof (scan_down_le b (i - 2)) as Hjle.
  destruct (jpeg_step_wsum L i b) as (_ & _ & _ & W); auto; try lia.
  cbv zeta in W. split.
  + unfold kraft. rewrite W.
    replace (Z.of_nat L - Z.of_nat (i - 1)) with (1 + (Z.of_nat L - Z.of_nat i)) by lia.
    replace (Z.of_nat L - Z.of_nat (scan_down b (i - 2)))
      with (1 + (Z.of_nat L - Z.of_nat (scan_down b (i - 2) + 1))) by lia.
    rewrite !Z.pow_add_r by lia. change (2 ^ 1) with 2. ring.
  + unfold count. rewrite W. ring.
Qed.

(** C7 applied to the histogram of the header with 3 as the new limit. *)
Lemma C7_witness :
(exists r bits',
   limitedJpegInPlace 100 3 5 (hist64 [0;1;1;1;1;2]) = Some (r, bits')
   /\ (forall l, (3 < l)%nat -> rd bits' l = 0)
   /\ kraft 3 3 bits' = 2 ^ 3
   /\ count 3 bits' = count 5 (hist64 [0;1;1;1;1;2]))
/\ (exists bits',
      limitedMinizInPlace 3 5 (hist64 [0;1;1;1;1;2]) = (3%nat, bits')
      /\ (forall l, (3 < l)%nat -> rd bits' l = 0)
      /\ kraft 3 3 bits' <= 2 ^ 3
      /\ count 3 bits' = count 5 (hist64 [0;1;1;1;1;2])).
Proof.
assert (Hnn : forall l, 0 <= rd (hist64 [0;1;1;1;1;2]) l).
{ apply rd_nonneg_of_Forall. vm_compute. repeat constructor; discriminate. }
assert (Hz : forall l, (5 < l)%nat -> rd (hist64 [0;1;1;1;1;2]) l = 0).
{ apply rd_zero_of_Forall. vm_compute. repeat constructor. }
destruct (C7_reducers_preserve 3 5 (hist64 [0;1;1;1;1;2])) as (J & Mz & _).
- lia.
- lia.
- reflexivity.
- exact Hnn.
- reflexivity.
- exact Hz.
- vm_compute; discriminate.
- reflexivity.
- split.
  + apply J; [reflexivity|vm_compute; reflexivity].
  + apply Mz; [lia|vm_compute; discriminate].
Defined.

(** ** Claims on the entry points *)

(** *** Rejected inputs (C2) *)

Lemma numNonZero_zeros (histogram : list Z) :
Forall (fun h => h = 0) histogram -> Sorting.numNonZero histogram = O.
Proof.
unfold Sorting.numNonZero. induction 1 as [|h t Hh _ IH]; simpl; auto.
subst h. simpl. exact IH.
Qed.

Lemma one_of_nonneg (maxLength : nat) : 0 <= Kraft.one_of maxLength.
Proof. unfold Kraft.one_of, u64. apply Z.mod_pos_bound. lia. Qed.

Lemma kraft_initial_zeros (maxLength : nat) (inv : F32.float) (one : Z)
  (histogram : list Z) (spent : Z) :
Forall (fun h => h = 0) histogram ->
Kraft.initial maxLength inv one histogram spent
= (map (fun _ => 0) histogram, spent).
Proof.
induction 1 as [|h t Hh _ IH]; [reflexivity|].
subst h. cbn [Kraft.initial]. change (0 =? 0) with true. cbv iota.
rewrite IH. reflexivity.
Qed.

Lemma kraft_contract_zeros (one : Z) (histogram : list Z) (spent : Z) :
Kraft.contract one (map (fun _ => 0) histogram) spent
= (map (fun _ => 0) histogram, spent).
Proof.
induction histogram as [|h t IH]; simpl; auto. rewrite IH. reflexivity.
Qed.

Lemma kraft_longest_zeros (maxLength : nat) (histogram : list Z) :
Kraft.longest maxLength (map (fun _ => 0) histogram) 0 = 0.
Proof. induction histogram as [|h t IH]; simpl; auto. Qed.

Lemma heap_initial_zeros (maxLength : nat) (inv : F32.float) (one : Z)
  (histogram : list Z) :
Forall (fun h => h = 0) histogram ->
forall (i : nat) (spent : Z) (heap : KraftHeap.Heap),
KraftHeap.initial maxLength inv one i histogram spent heap
= Ok (map (fun _ => 0) histogram, spent, heap).
Proof.
induction 1 as [|h t Hh _ IH]; intros i spent heap; [reflexivity|].
subst h. cbn [KraftHeap.initial]. change (0 =? 0) with true. cbv iota.
rewrite IH. reflexivity.
Qed.

(** C2 as stated fails: [limitedBzip2] does not look at the limit, so
    with [L = 64] and the histogram [{1,1}] it returns 1 and writes the
    lengths [{1,1}]. *)
Lemma C2_counterexample :
Bzip2.limitedBzip2 1 64 [1;1] [9;9] = Some (1, [1;1]).
Proof. reflexivity. Qed.

(** C2, amended.  [limitedJpeg] and [limitedMiniz] return 0 and leave
    the output buffer as it is when all frequencies are zero (which
    covers [N = 0]), when [L = 0] and when [L > 63].  [limitedBzip2],
    [limitedKraft] and [limitedKraftHeap] do not check [L]; for every [L]
    they return 0 when all frequencies are zero (which covers [N = 0]):
    [limitedBzip2] leaves the buffer as it is, [limitedKraft] and
    [limitedKraftHeap] leave every entry zero. *)
Theorem C2_rejected_inputs (fuel maxLength : nat) (histogram codeLengths : list Z) :
(Forall (fun h => h = 0) histogram \/ maxLength = O \/ (63 < maxLength)%nat ->
 Impl.limitedJpeg fuel maxLength histogram codeLengths = Ok (0, codeLengths)
 /\ Impl.limitedMiniz fuel maxLength histogram codeLengths = Ok (0, codeLengths))
/\ (Forall (fun h => h = 0) histogram ->
    Bzip2.limitedBzip2 fuel maxLength histogram codeLengths = Some (0, codeLengths)
    /\ Kraft.limitedKraft (S fuel) maxLength histogram
       = Some (0, map (fun _ => 0) histogram)
    /\ KraftHeap.limitedKraftHeap (S fuel) maxLength histogram
       = Ok (0, map (fun _ => 0) histogram)).
Proof.
split.
- intros H.
  assert (G : forall algorithm,
             Impl.limitedImpl algorithm fuel maxLength histogram codeLengths
             = Ok (0, codeLengths)).
  { intros algorithm. unfold Impl.limitedImpl.
    destruct ((maxLength =? 0)%nat || (63 <? maxLength)%nat
              || (length histogram =? 0)%nat) eqn:E; [reflexivity|].
    destruct H as [H|[H|H]].
    - rewrite (numNonZero_zeros _ H). reflexivity.
    - subst maxLength. discriminate.
    - apply Nat.ltb_lt in H. rewrite H in E. rewrite orb_true_r in E. discriminate. }
  split; apply G.
- intros H. split; [|split].
  + unfold Bzip2.limitedBzip2. rewrite (numNonZero_zeros _ H). reflexivity.
  + unfold Kraft.limitedKraft. rewrite kraft_initial_zeros by exact H.
    pose proof (one_of_nonneg maxLength) as H1. cbn [Kraft.expand].
    replace (Kraft.one_of maxLength <? 0) with false by (symmetry; apply Z.ltb_ge; lia).
    rewrite kraft_contract_zeros. cbn [fst].
    destruct (0 <? Kraft.one_of maxLength); rewrite kraft_longest_zeros; reflexivity.
  + unfold KraftHeap.limitedKraftHeap. rewrite heap_initial_zeros by exact H.
    pose proof (one_of_nonneg maxLength) as H1. cbn [bind KraftHeap.expand].
    replace (Kraft.one_of maxLength <? 0) with false by (symmetry; apply Z.ltb_ge; lia).
    cbn. rewrite kraft_longest_zeros. reflexivity.
Qed.

(** C2 applied to an all-zero histogram of three symbols with [L = 8]
    and to a used alphabet with [L = 64]. *)
Lemma C2_witness :
(Impl.limitedJpeg 5 64 [3;1;2] [9;9;9] = Ok (0, [9;9;9])
 /\ Impl.limitedMiniz 5 64 [3;1;2] [9;9;9] = Ok (0, [9;9;9]))
/\ (Bzip2.limitedBzip2 5 8 [0;0;0] [9;9;9] = Some (0, [9;9;9])
    /\ Kraft.limitedKraft 6 8 [0;0;0] = Some (0, [0;0;0])
    /\ KraftHeap.limitedKraftHeap 6 8 [0;0;0] = Ok (0, [0;0;0])).
Proof.
split.
- apply (proj1 (C2_rejected_inputs 5 64 [3;1;2] [9;9;9])).
  right; right; lia.
- apply (proj2 (C2_rejected_inputs 5 8 [0;0;0] [9;9;9])).
  repeat constructor.
Defined.

(** *** Termination (C4) *)

Lemma kraft_expand_stuck (fuel : nat) :
forall (inv threshold : F32.float),
Kraft.expand fuel 1 inv 2 threshold [1;1;1] [1;1;1] 3 = None.
Proof.
induction fuel as [|fuel IH]; intros inv threshold; [reflexivity|].
cbn [Kraft.expand]. change (2 <? 3) with true. cbv iota.
change (Kraft.expand_pass 1 inv 2 threshold [1;1;1] [1;1;1] 3)
  with ([1;1;1], 3).
apply IH.
Qed.

Lemma bzip2_rerun_stuck (fuel : nat) :
Bzip2.rerun fuel 1 3 [mkKV 1 0; mkKV 1 1; mkKV 1 2] [2;2;1] 2 = None.
Proof.
induction fuel as [|fuel IH]; [reflexivity|].
cbn [Bzip2.rerun]. change (Z.of_nat 1 <? 2) with true. cbv iota.
change (map (fun kv => mkKV (Bzip2.rescale (key kv)) (value kv))
            [mkKV 1 0; mkKV 1 1; mkKV 1 2])
  with [mkKV 1 0; mkKV 1 1; mkKV 1 2].
change (Moffat.moffatSortedInPlace 3 (map key [mkKV 1 0; mkKV 1 1; mkKV 1 2]))
  with (2, [2;2;1]).
exact IH.
Qed.

(** C4 fails on the code: with the limit [L = 1] and three used symbols
    (so [2^L < 3]) neither [limitedKraft] nor [limitedBzip2] returns,
    whatever fuel their loops are given. *)
Theorem C4_infeasible_limit_never_returns (fuel : nat) :
Kraft.limitedKraft fuel 1 [1;1;1] = None
/\ Bzip2.limitedBzip2 fuel 1 [1;1;1] [0;0;0] = None.
Proof.
split.
- unfold Kraft.limitedKraft.
  change (Kraft.initial 1 (Kraft.invSumHistogram [1;1;1]) (Kraft.one_of 1) [1;1;1] 0)
    with ([1;1;1], 3).
  change (Kraft.one_of 1) with 2. cbv iota beta.
  rewrite kraft_expand_stuck. reflexivity.
- change (Bzip2.limitedBzip2 fuel 1 [1;1;1] [0;0;0])
    with (match Bzip2.rerun fuel 1 3 [mkKV 1 0; mkKV 1 1; mkKV 1 2] [2;2;1] 2 with
          | None => None
          | Some (sorted', result') =>
              Some (result', Sorting.scatter [mkKV 1 0; mkKV 1 1; mkKV 1 2]
                                             sorted' [0;0;0])
          end).
  rewrite bzip2_rerun_stuck. reflexivity.
Qed.

(** *** Exactness of the 64-bit bookkeeping (C5) *)

(** C5 fails on the code.  [one = 1 << maxLength] is evaluated in
    [int]: it is [2^L] for [L <= 30] only; for [L = 31] it is
    [2^64 - 2^31] and for no [L] from 31 to 63 is it [2^L].  The terms
    of the MiniZ total are shifted in [unsigned int]: for the complete
    code with the lengths 1, 2, ..., 33, 34, 34 and the new limit 33 the
    computed total is [2^32 + 2] where the Kraft sum is [2^33 + 1], so
    the balancing loop does not run and the result exceeds the Kraft
    inequality. *)
Theorem C5_shifts_are_32_bit :
forallb (fun L => Kraft.one_of L =? 2 ^ Z.of_nat L) (seq 1 30) = true
/\ Kraft.one_of 31 = 2 ^ 64 - 2 ^ 31
/\ forallb (fun L => negb (Kraft.one_of L =? 2 ^ Z.of_nat L)) (seq 31 33) = true
/\ kraft 34 34 (hist64 (0 :: repeat 1 33 ++ [2])) = 2 ^ 34
/\ miniz_total 33 33 0 (miniz_collapse 33 1 34 (hist64 (0 :: repeat 1 33 ++ [2])))
   = 2 ^ 32 + 2
/\ kraft 33 33 (miniz_collapse 33 1 34 (hist64 (0 :: repeat 1 33 ++ [2])))
   = 2 ^ 33 + 1
/\ kraft 33 33 (snd (limitedMinizInPlace 33 34 (hist64 (0 :: repeat 1 33 ++ [2]))))
   = 2 ^ 33 + 1.
Proof. vm_compute. repeat split; reflexivity. Qed.

(** *** The heap of limitedKraftHeap (C9) *)

(** C9 fails on the code: with [L = 1] and three used symbols no symbol
    enters the heap, the expansion loop removes the top of the empty
    heap, [heap.size] wraps to [2^64 - 1] and the next access is at that
    index. *)
Theorem C9_heap_underflow (fuel : nat) :
KraftHeap.limitedKraftHeap (S fuel) 1 [1;1;1] = OutOfBounds (2 ^ 64 - 1)
/\ KraftHeap.heap_removeTop
     (KraftHeap.mkHeap (repeat (S754_zero false) 3) (repeat 0 3) 0)
   = OutOfBounds (2 ^ 64 - 1).
Proof. vm_compute. split; reflexivity. Qed.

(** *** Validity of the results (C1) *)

(** C1 fails on the code: with [L = 2] and five symbols of frequency 1
    [limitedJpeg] returns 2 with the lengths [{2,2,2,2,1}], whose Kraft
    sum is [6 > 2^2]. *)
Theorem C1_invalid_result (fuel : nat) :
Impl.limitedJpeg (10 + fuel) 2 [1;1;1;1;1] [0;0;0;0;0] = Ok (2, [2;2;2;2;1])
/\ Valid.kraft_sum 2 [1;1;1;1;1] [2;2;2;2;1] = 6
/\ Valid.valid 2 2 [1;1;1;1;1] [2;2;2;2;1] = false.
Proof. vm_compute. repeat split; reflexivity. Qed.

(** *** The final loop of limitedImpl (C10) *)

(** C10 fails on the code: with [L = 2] and the frequencies [{1,1,2,4}]
    (four symbols, [2^L = 4]) the reduced histogram is used up by the
    last symbol, and the search for the next length then reads
    [histNumBits[0]] and, [reduce] being an [unsigned char],
    [histNumBits[255]]. *)
Theorem C10_scatter_reads_out_of_bounds (fuel : nat) (codeLengths : list Z) :
Impl.limitedJpeg (10 + fuel) 2 [1;1;2;4] codeLengths = OutOfBounds 255
/\ Impl.limitedMiniz fuel 2 [1;1;2;4] codeLengths = OutOfBounds 255
/\ Impl.search_nonzero (repeat 0 64) 2 = OutOfBounds 255.
Proof. vm_compute. repeat split; reflexivity. Qed.

(** ** Moffat's in-place algorithm *)

Import Moffat.

(** *** Phase 1: the parent pointers *)

Section Phase1.

Variable M : nat.

(** The state of phase 1 after [c] of the two children of [next] were
    taken: the first [root] entries of [A] are parent pointers, each
    beyond its own index and at most [next], in ascending order, and no
    parent occurs three times. *)
Record q1 (c next : nat) (A : list Z) (leaf root : nat) : Prop := {
  q_len : length A = M;
  q_sum : (leaf + root = 2 * next + c)%nat;
  q_leaf : (leaf <= M)%nat;
  q_root : (root <= next)%nat;
  q_head : c = O -> (root < next)%nat \/ next = O;
  q_par : forall k, (k < root)%nat -> Z.of_nat k < rd A k <= Z.of_nat next;
  q_old : forall k, (k + c < root)%nat -> rd A k < Z.of_nat next;
  q_mono : forall k k', (k <= k' < root)%nat -> rd A k <= rd A k';
  q_stride : forall k, (k + 2 < root)%nat -> rd A k < rd A (k + 2)
}.

Lemma child_step (c next : nat) (A : list Z) (leaf root : nat) (v w : Z) :
q1 c next A leaf root -> (c <= 1)%nat -> (next + 1 < M)%nat ->
(take_root M next leaf root A = true ->
 q1 (S c) next (upd root (Z.of_nat next) (upd next v A)) leaf (S root))
/\ (take_root M next leaf root A = false ->
    q1 (S c) next (upd next w A) (S leaf) root).
Proof.
intros Q Hc Hn.
pose proof (q_len _ _ _ _ _ Q) as Hlen.
pose proof (q_sum _ _ _ _ _ Q) as Hsum.
pose proof (q_leaf _ _ _ _ _ Q) as Hleaf.
pose proof (q_root _ _ _ _ _ Q) as Hroot.
split; intros T; unfold take_root in T.
- assert (Hr : (root < next)%nat).
  { apply orb_true_iff in T. destruct T as [T|T].
    - apply Nat.leb_le in T. lia.
    - apply andb_true_iff in T. destruct T as [T _]. apply Nat.ltb_lt in T. lia. }
  assert (E : forall k, (k < root)%nat ->
                rd (upd root (Z.of_nat next) (upd next v A)) k = rd A k).
  { intros k Hk. rewrite !rd_upd_ne by lia. reflexivity. }
  assert (Er : rd (upd root (Z.of_nat next) (upd next v A)) root = Z.of_nat next).
  { apply rd_upd_eq. rewrite length_upd. lia. }
  constructor.
  + rewrite !length_upd. exact Hlen.
  + lia.
  + exact Hleaf.
  + lia.
  + intros; lia.
  + intros k Hk. destruct (Nat.eq_dec k root) as [->|].
    * rewrite Er. lia.
    * rewrite E by lia. apply (q_par _ _ _ _ _ Q). lia.
  + intros k Hk. rewrite E by lia. apply (q_old _ _ _ _ _ Q). lia.
  + intros k k' Hk. destruct (Nat.eq_dec k' root) as [->|].
    * rewrite Er. destruct (Nat.eq_dec k root) as [->|].
      -- rewrite Er. lia.
      -- rewrite E by lia. apply (q_par _ _ _ _ _ Q). lia.
    * rewrite !E by lia. apply (q_mono _ _ _ _ _ Q). lia.
  + intros k Hk. destruct (Nat.eq_dec (k + 2) root) as [Hk2|].
    * rewrite Hk2, Er. rewrite E by lia. apply (q_old _ _ _ _ _ Q). lia.
    * rewrite !E by lia. apply (q_stride _ _ _ _ _ Q). lia.
- assert (Hl : (leaf < M)%nat).
  { apply orb_false_iff in T. destruct T as [T _]. apply Nat.leb_gt in T. lia. }
  assert (E : forall k, (k < root)%nat -> rd (upd next w A) k = rd A k).
  { intros k Hk. rewrite rd_upd_ne by lia. reflexivity. }
  constructor.
  + rewrite length_upd. exact Hlen.
  + lia.
  + lia.
  + exact Hroot.
  + intros; lia.
  + intros k Hk. rewrite E by lia. apply (q_par _ _ _ _ _ Q). lia.
  + intros k Hk. rewrite E by lia. apply (q_old _ _ _ _ _ Q). lia.
  + intros k k' Hk. rewrite !E by lia. apply (q_mono _ _ _ _ _ Q). lia.
  + intros k Hk. rewrite !E by lia. apply (q_stride _ _ _ _ _ Q). lia.
Qed.

Lemma first_child_q1 (next : nat) (A : list Z) (leaf root : nat) :
q1 0 next A leaf root -> (next + 1 < M)%nat ->
let '(A', leaf', root') := first_child M next (A, leaf, root) in
q1 1 next A' leaf' root'.
Proof.
intros Q Hn. unfold first_child.
destruct (child_step 0 next A leaf root (rd A root) (rd A leaf) Q) as [T F]; try lia.
destruct (take_root M next leaf root A); auto.
Qed.

Lemma second_child_q1 (next : nat) (A : list Z) (leaf root : nat) :
q1 1 next A leaf root -> (next + 1 < M)%nat ->
let '(A', leaf', root') := second_child M next (A, leaf, root) in
q1 2 next A' leaf' root'.
Proof.
intros Q Hn. unfold second_child.
destruct (child_step 1 next A leaf root (u32 (rd A next + rd A root))
                     (u32 (rd A next + rd A leaf)) Q) as [T F]; try lia.
destruct (take_root M next leaf root A); auto.
Qed.

Lemma q1_next (next : nat) (A : list Z) (leaf root : nat) :
q1 2 next A leaf root -> q1 0 (S next) A leaf root.
Proof.
intros Q. destruct Q. constructor; auto; try lia.
- intros k Hk. specialize (q_par0 k Hk). lia.
- intros k Hk. specialize (q_par0 k ltac:(lia)). lia.
Qed.

Lemma phase1_q1 (n : nat) :
forall (next : nat) (A : list Z) (leaf root : nat),
q1 0 next A leaf root -> (next + n + 1 = M)%nat ->
let '(A', leaf', root') := phase1 M n next (A, leaf, root) in
q1 0 (M - 1) A' leaf' root'.
Proof.
induction n as [|n IH]; intros next A leaf root Q Hn.
- simpl. replace (M - 1)%nat with next by lia. exact Q.
- cbn [phase1].
  pose proof (first_child_q1 next A leaf root Q ltac:(lia)) as Q1.
  destruct (first_child M next (A, leaf, root)) as [[A1 leaf1] root1].
  pose proof (second_child_q1 next A1 leaf1 root1 Q1 ltac:(lia)) as Q2.
  destruct (second_child M next (A1, leaf1, root1)) as [[A2 leaf2] root2].
  apply IH; [apply q1_next; exact Q2|lia].
Qed.

End Phase1.

(** What phase 1 leaves: below [m = numCodes - 2] the array holds parent
    pointers. *)
Record parents (m : nat) (A : list Z) : Prop := {
  pa_len : length A = S (S m);
  pa_range : forall k, (k < m)%nat -> Z.of_nat k < rd A k <= Z.of_nat m;
  pa_mono : forall k k', (k <= k' < m)%nat -> rd A k <= rd A k';
  pa_stride : forall k, (k + 2 < m)%nat -> rd A k < rd A (k + 2)
}.

Lemma phase1_parents (m : nat) (A : list Z) :
length A = S (S m) ->
let '(A1, _, _) := phase1 (S (S m)) (S m) 0 (A, O, O) in parents m A1.
Proof.
intros Hlen.
assert (Q0 : q1 (S (S m)) 0 0 A 0 0).
{ constructor; auto; try lia. }
pose proof (phase1_q1 (S (S m)) (S m) 0 A 0 0 Q0 ltac:(lia)) as Q.
destruct (phase1 (S (S m)) (S m) 0 (A, O, O)) as [[A1 leaf] root].
replace (S (S m) - 1)%nat with (S m) in Q by lia.
destruct Q.
assert (Hroot : root = m) by (destruct (q_head0 eq_refl); lia).
subst root. constructor; auto.
intros k Hk. specialize (q_par0 k Hk). specialize (q_old0 k ltac:(lia)). lia.
Qed.

(** *** Phase 2: the depths of the internal nodes *)

(** The depths of the internal nodes [0 .. m] against the parent
    pointers [P]: the root [m] has depth 0 and every other node is one
    deeper than its parent. *)
Record depths (m : nat) (P : nat -> Z) (A : list Z) : Prop := {
  de_len : length A = S (S m);
  de_root : rd A m = 0;
  de_step : forall k, (k < m)%nat -> rd A k = rd A (Z.to_nat (P k)) + 1;
  de_bound : forall k, (k <= m)%nat -> 0 <= rd A k <= Z.of_nat m - Z.of_nat k
}.

Lemma phase2_depths (m : nat) (P : nat -> Z) (j1 : nat) :
Z.of_nat m < 2 ^ 32 ->
(forall k, (k < m)%nat -> Z.of_nat k < P k <= Z.of_nat m) ->
forall A : list Z,
(j1 <= m)%nat -> length A = S (S m) -> rd A m = 0 ->
(forall k, (k < j1)%nat -> rd A k = P k) ->
(forall k, (j1 <= k < m)%nat -> rd A k = rd A (Z.to_nat (P k)) + 1) ->
(forall k, (j1 <= k <= m)%nat -> 0 <= rd A k <= Z.of_nat m - Z.of_nat k) ->
depths m P (phase2 j1 A).
Proof.
intros Hm HP. induction j1 as [|j IH]; intros A Hj Hlen Hroot Hpar Hstep Hb.
- simpl. constructor; auto.
  + intros; apply Hstep; lia.
  + intros; apply Hb; lia.
- cbn [phase2].
  pose proof (HP j ltac:(lia)) as HPj.
  assert (Hd : 0 <= rd A (Z.to_nat (P j)) <= Z.of_nat m - P j).
  { pose proof (Hb (Z.to_nat (P j)) ltac:(lia)). lia. }
  rewrite (Hpar j) by lia. rewrite u32_id by lia.
  set (A' := upd j (rd A (Z.to_nat (P j)) + 1) A).
  assert (E : forall k, k <> j -> rd A' k = rd A k)
    by (intros; unfold A'; apply rd_upd_ne; lia).
  assert (Ej : rd A' j = rd A (Z.to_nat (P j)) + 1)
    by (unfold A'; apply rd_upd_eq; lia).
  apply IH.
  + lia.
  + unfold A'. rewrite length_upd. exact Hlen.
  + rewrite E by lia. exact Hroot.
  + intros k Hk. rewrite E by lia. apply Hpar. lia.
  + intros k Hk. pose proof (HP k ltac:(lia)).
    destruct (Nat.eq_dec k j) as [->|].
    * rewrite Ej. rewrite E by lia. reflexivity.
    * rewrite !E by lia. apply Hstep. lia.
  + intros k Hk. destruct (Nat.eq_dec k j) as [->|].
    * rewrite Ej. lia.
    * rewrite E by lia. apply Hb. lia.
Qed.

(** Deeper nodes have smaller indices, and consecutive nodes differ by
    at most one level. *)
Lemma depths_antitone (m : nat) (P : nat -> Z) (A : list Z) :
depths m P A ->
(forall k, (k < m)%nat -> Z.of_nat k < P k <= Z.of_nat m) ->
(forall k k', (k <= k' < m)%nat -> P k <= P k') ->
forall k k', (k <= k' <= m)%nat -> rd A k' <= rd A k.
Proof.
intros D HP Hmono.
assert (G : forall n k k', (m - k <= n)%nat -> (k <= k' <= m)%nat -> rd A k' <= rd A k).
{ induction n as [|n IH]; intros k k' Hn Hk.
  - replace k' with k by lia. lia.
  - destruct (Nat.eq_dec k k') as [->|Hne]; [lia|].
    destruct (Nat.eq_dec k' m) as [->|Hm].
    + rewrite (de_root _ _ _ D). apply (de_bound _ _ _ D). lia.
    + pose proof (HP k ltac:(lia)). pose proof (HP k' ltac:(lia)).
      pose proof (Hmono k k' ltac:(lia)).
      rewrite (de_step _ _ _ D k) by lia. rewrite (de_step _ _ _ D k') by lia.
      assert (rd A (Z.to_nat (P k')) <= rd A (Z.to_nat (P k))) by (apply IH; lia).
      lia. }
intros k k' Hk. apply (G m); lia.
Qed.

Lemma depths_gap (m : nat) (P : nat -> Z) (A : list Z) :
depths m P A ->
(forall k, (k < m)%nat -> Z.of_nat k < P k <= Z.of_nat m) ->
(forall k k', (k <= k' < m)%nat -> P k <= P k') ->
forall k, (k < m)%nat -> rd A k <= rd A (S k) + 1.
Proof.
intros D HP Hmono k Hk. pose proof (HP k Hk).
rewrite (de_step _ _ _ D k) by lia.
assert (rd A (Z.to_nat (P k)) <= rd A (S k))
  by (apply (depths_antitone m P A D HP Hmono); lia).
lia.
Qed.

(** With no parent used three times, parents advance at least one index
    for every two children. *)
Lemma parents_stride (m : nat) (P : nat -> Z) :
(forall k, (k + 2 < m)%nat -> P k < P (k + 2)%nat) ->
forall t k, (k + 2 * t < m)%nat -> P k + Z.of_nat t <= P (k + 2 * t)%nat.
Proof.
intros Hs. induction t as [|t IH]; intros k Hk.
- replace (k + 2 * 0)%nat with k by lia. lia.
- specialize (IH k ltac:(lia)).
  specialize (Hs (k + 2 * t)%nat ltac:(lia)).
  replace (k + 2 * S t)%nat with (k + 2 * t + 2)%nat by lia. lia.
Qed.

(** *** Phase 3: the depths of the leaves *)

Lemma count_roots_spec (A : list Z) (d : Z) (r : nat) :
forall used0 : Z,
0 <= used0 -> used0 + Z.of_nat r < 2 ^ 32 ->
let '(r', used) := count_roots A d r used0 in
(r' <= r)%nat
/\ used = used0 + Z.of_nat (r - r')
/\ (forall k, (r' <= k < r)%nat -> rd A k = d)
/\ ((0 < r')%nat -> rd A (r' - 1) <> d).
Proof.
induction r as [|r IH]; intros used0 H0 Hb.
- simpl. split; [lia|split; [lia|split; intros; lia]].
- cbn [count_roots]. destruct (rd A r =? d) eqn:E.
  + apply Z.eqb_eq in E. rewrite u32_id by lia.
    specialize (IH (used0 + 1) ltac:(lia) ltac:(lia)).
    destruct (count_roots A d r (used0 + 1)) as [r' used].
    destruct IH as (I1 & I2 & I3 & I4).
    split; [lia|split; [lia|split; [|exact I4]]].
    intros k Hk. destruct (Nat.eq_dec k r) as [->|]; auto. apply I3. lia.
  + apply Z.eqb_neq in E.
    split; [lia|split; [lia|split; [intros; lia|]]].
    intros _. replace (S r - 1)%nat with r by lia. exact E.
Qed.

Lemma fill_leaves_spec (n : nat) (d : Z) :
forall (A : list Z) (next avail : Z),
Z.of_nat n <= next + 1 -> next < Z.of_nat (length A) -> next < 2 ^ 32 ->
let '(A', next', avail') := fill_leaves n d A next avail in
length A' = length A
/\ next' = (if (n =? 0)%nat then next else u32 (next - Z.of_nat n))
/\ avail' = avail - Z.of_nat n
/\ (forall i : nat, rd A' i =
      if (next - Z.of_nat n <? Z.of_nat i) && (Z.of_nat i <=? next)
      then d else rd A i).
Proof.
induction n as [|n IH]; intros A next avail Hn Hlen H32.
- simpl. split; [lia|split; [lia|split; [lia|]]]. intros i.
  destruct (next - 0 <? Z.of_nat i) eqn:E1; destruct (Z.of_nat i <=? next) eqn:E2;
    auto. lia.
- cbn [fill_leaves].
  destruct (Nat.eq_dec n 0) as [->|Hn0].
  + simpl. split; [apply length_upd|split; [reflexivity|split; [lia|]]].
    intros i.
    destruct (Z.eq_dec (Z.of_nat i) next) as [E|E].
    * replace i with (Z.to_nat next) by lia. rewrite rd_upd_eq by lia.
      replace (next - 1 <? Z.of_nat (Z.to_nat next)) with true by (symmetry; apply Z.ltb_lt; lia).
      replace (Z.of_nat (Z.to_nat next) <=? next) with true by (symmetry; apply Z.leb_le; lia).
      reflexivity.
    * rewrite rd_upd_ne by lia.
      destruct (next - 1 <? Z.of_nat i) eqn:E1; destruct (Z.of_nat i <=? next) eqn:E2;
        auto. lia.
  + rewrite (u32_id (next - 1)) by lia.
    specialize (IH (upd (Z.to_nat next) d A) (next - 1) (avail - 1)
                   ltac:(lia) ltac:(rewrite length_upd; lia) ltac:(lia)).
    destruct (fill_leaves n d (upd (Z.to_nat next) d A) (next - 1) (avail - 1))
      as [[A' next'] avail'].
    destruct IH as (I1 & I2 & I3 & I4).
    rewrite length_upd in I1.
    replace (n =? 0)%nat with false in I2 by (symmetry; apply Nat.eqb_neq; lia).
    split; [exact I1|split; [|split; [lia|]]].
    * rewrite I2. cbn [Nat.eqb]. f_equal. lia.
    * intros i. rewrite I4.
      destruct (Z.eq_dec (Z.of_nat i) next) as [E|E].
      -- replace i with (Z.to_nat next) by lia. rewrite rd_upd_eq by lia.
         replace (next - Z.of_nat (S n) <? Z.of_nat (Z.to_nat next))
           with true by (symmetry; apply Z.ltb_lt; lia).
         replace (Z.of_nat (Z.to_nat next) <=? next)
           with true by (symmetry; apply Z.leb_le; lia).
         destruct (_ && _); reflexivity.
      -- rewrite rd_upd_ne by lia.
         replace (next - 1 - Z.of_nat n) with (next - Z.of_nat (S n)) by lia.
         destruct (next - Z.of_nat (S n) <? Z.of_nat i) eqn:E1;
           destruct (Z.of_nat i <=? next - 1) eqn:E2;
           destruct (Z.of_nat i <=? next) eqn:E3; auto; lia.
Qed.

Lemma rsum_ext (f : Z -> Z) (A B : list Z) (n : nat) :
forall lo, (forall i, (lo <= i < lo + n)%nat -> rd A i = rd B i) ->
rsum f A lo n = rsum f B lo n.
Proof.
induction n as [|n IH]; intros lo H; [reflexivity|].
cbn [rsum]. rewrite H by lia. rewrite (IH (S lo)) by (intros; apply H; lia).
reflexivity.
Qed.

Lemma rsum_app (f : Z -> Z) (A : list Z) (n1 n2 : nat) :
forall lo, rsum f A lo (n1 + n2) = rsum f A lo n1 + rsum f A (lo + n1) n2.
Proof.
induction n1 as [|n1 IH]; intros lo.
- simpl. replace (lo + 0)%nat with lo by lia. reflexivity.
- cbn [rsum Nat.add]. rewrite IH. replace (S lo + n1)%nat with (lo + S n1)%nat by lia.
  ring.
Qed.

Lemma rsum_const (f : Z -> Z) (A : list Z) (d : Z) (n : nat) :
forall lo, (forall i, (lo <= i < lo + n)%nat -> rd A i = d) ->
rsum f A lo n = Z.of_nat n * f d.
Proof.
induction n as [|n IH]; intros lo H; [reflexivity|].
cbn [rsum]. rewrite H by lia. rewrite (IH (S lo)) by (intros; apply H; lia).
lia.
Qed.

Lemma phase3_done (fuel : nat) (A : list Z) (depth : Z) (root2p : nat) (next : Z) :
phase3 fuel A 0 depth root2p next = A.
Proof. destruct fuel; reflexivity. Qed.

Section Phase3.

Variables (m : nat) (P : nat -> Z) (Dl : list Z) (K : Z).
Hypothesis HM : Z.of_nat (S (S m)) < 2 ^ 31.
Hypothesis HDeep : rd Dl 0 <= 254.
Hypothesis HP : forall k, (k < m)%nat -> Z.of_nat k < P k <= Z.of_nat m.
Hypothesis HPmono : forall k k', (k <= k' < m)%nat -> P k <= P k'.
Hypothesis HPstride : forall k, (k + 2 < m)%nat -> P k < P (k + 2)%nat.
Hypothesis HD : depths m P Dl.
Hypothesis HK : Z.of_nat (S (S m)) <= K.

(** The invariant of the outer loop of phase 3 at depth [d]: [r]
    internal nodes are still to be read, [W] leaves are written. *)
Record k3 (d : Z) (A : list Z) (avail : Z) (r : nat) (next : Z) (W : nat) : Prop := {
  k_len : length A = S (S m);
  k_W : Z.of_nat W + avail + Z.of_nat r = Z.of_nat (S (S m));
  k_avail : 1 <= avail;
  k_next : next = Z.of_nat (S (S m)) - 1 - Z.of_nat W;
  k_D : forall k, (k < r)%nat -> rd A k = rd Dl k;
  k_d : 0 <= d /\ d + Z.of_nat r <= Z.of_nat (S m);
  k_top : (0 < r)%nat -> rd Dl (r - 1) = d;
  k_lvl : (d = 0 /\ avail = 1 /\ r = S m)
          \/ (1 <= d /\ exists rp : nat,
                (r <= rp <= S m)%nat
                /\ avail = 2 * Z.of_nat (rp - r)
                /\ (forall k, (r <= k < rp)%nat -> rd Dl k = d - 1)
                /\ ((rp <= m)%nat -> rd Dl rp < d - 1));
  k_leaf : forall i, (S (S m) - W <= i < S (S m))%nat -> 1 <= rd A i <= d - 1;
  k_sorted : forall i j, (S (S m) - W <= i <= j)%nat -> (j < S (S m))%nat ->
                         rd A j <= rd A i;
  k_kraft : rsum (fun x => 2 ^ (K - x)) A (S (S m) - W) W + avail * 2 ^ (K - d)
            = 2 ^ K
}.

Lemma count_le_avail (d : Z) (A : list Z) (avail : Z) (r : nat) (next : Z) (W r' : nat) :
k3 d A avail r next W -> (r' <= r)%nat ->
(forall k, (r' <= k < r)%nat -> rd Dl k = d) ->
Z.of_nat (r - r') <= avail.
Proof.
intros I Hr Hc.
pose proof (depths_antitone m P Dl HD HP HPmono) as Hanti.
destruct (k_lvl _ _ _ _ _ _ I) as [(Hd0 & Ha & Hrm)|(Hd1 & rp & Hrp & Ha & Hlvl & Htop)].
- (* depth 0: the root is the only node without a parent *)
  destruct (Nat.le_gt_cases (r - r') 1) as [|Hgt]; [lia|exfalso].
  assert (Hm : (1 <= m)%nat) by lia.
  pose proof (Hc (m - 1)%nat ltac:(lia)) as Hx.
  pose proof (HP (m - 1)%nat ltac:(lia)).
  rewrite (de_step _ _ _ HD (m - 1)%nat) in Hx by lia.
  pose proof (de_bound _ _ _ HD (Z.to_nat (P (m - 1)%nat)) ltac:(lia)). lia.
- destruct (Nat.eq_dec r r') as [|Hne]; [lia|].
  (* every counted node has its parent among the nodes of depth d - 1 *)
  assert (Hlt : forall k, (r' <= k < r)%nat -> (k < m)%nat).
  { intros k Hk. destruct (Nat.eq_dec k m) as [->|]; [|pose proof (k_d _ _ _ _ _ _ I); lia].
    pose proof (Hc m Hk). pose proof (de_root _ _ _ HD). lia. }
  assert (Hpar : forall k, (r' <= k < r)%nat -> Z.of_nat r <= P k < Z.of_nat rp).
  { intros k Hk. pose proof (Hlt k Hk) as Hkm. pose proof (HP k Hkm) as HPk.
    pose proof (Hc k Hk) as Hdk. rewrite (de_step _ _ _ HD k Hkm) in Hdk.
    split.
    - destruct (Z_lt_ge_dec (P k) (Z.of_nat r)) as [Hlow|]; [exfalso|lia].
      pose proof (Hanti (Z.to_nat (P k)) (r - 1)%nat ltac:(lia)).
      pose proof (k_top _ _ _ _ _ _ I ltac:(lia)). lia.
    - destruct (Z_lt_ge_dec (P k) (Z.of_nat rp)) as [|Hhigh]; [lia|exfalso].
      pose proof (Hanti rp (Z.to_nat (P k)) ltac:(lia)).
      specialize (Htop ltac:(lia)). lia. }
  set (t := ((r - r' - 1) / 2)%nat).
  assert (Ht : (2 * t <= r - r' - 1)%nat)
    by (unfold t; pose proof (Nat.div_mod_eq (r - r' - 1) 2); lia).
  assert (Ht2 : (r - r' - 1 <= 2 * t + 1)%nat).
  { unfold t. pose proof (Nat.div_mod_eq (r - r' - 1) 2).
    pose proof (Nat.mod_upper_bound (r - r' - 1) 2 ltac:(lia)). lia. }
  pose proof (parents_stride m P HPstride t r'
                ltac:(pose proof (Hlt (r' + 2 * t)%nat ltac:(lia)); lia)) as Hs.
  pose proof (Hpar r' ltac:(lia)).
  pose proof (Hpar (r' + 2 * t)%nat ltac:(lia)).
  lia.
Qed.

(** What phase 3 leaves. *)
Definition leaves_done (A : list Z) : Prop :=
length A = S (S m)
/\ (forall i, (i < S (S m))%nat ->
      1 <= rd A i <= Z.of_nat (S m) /\ rd A i <= rd Dl 0 + 1)
/\ descending A
/\ rsum (fun x => 2 ^ (K - x)) A 0 (S (S m)) = 2 ^ K.

Lemma phase3_spec (fuel : nat) :
forall (d : Z) (A : list Z) (avail : Z) (r : nat) (next : Z) (W : nat),
k3 d A avail r next W -> (r < fuel)%nat ->
leaves_done (phase3 fuel A avail d r next).
Proof.
induction fuel as [|fuel IH]; intros d A avail r next W I Hfuel; [lia|].
pose proof (depths_antitone m P Dl HD HP HPmono) as Hanti.
pose proof (depths_gap m P Dl HD HP HPmono) as Hgap.
pose proof (k_len _ _ _ _ _ _ I) as Hlen.
pose proof (k_W _ _ _ _ _ _ I) as HW.
pose proof (k_avail _ _ _ _ _ _ I) as Hav.
pose proof (k_next _ _ _ _ _ _ I) as Hnext.
pose proof (k_d _ _ _ _ _ _ I) as [Hd0 Hdr].
cbn [phase3]. replace (0 <? avail) with true by (symmetry; apply Z.ltb_lt; lia).
pose proof (count_roots_spec A d r 0 ltac:(lia) ltac:(lia)) as CS.
destruct (count_roots A d r 0) as [r' used].
destruct CS as (Hr' & Hused & Hcnt & Hstop).
assert (HcD : forall k, (r' <= k < r)%nat -> rd Dl k = d).
{ intros k Hk. rewrite <- (k_D _ _ _ _ _ _ I) by lia. apply Hcnt. exact Hk. }
pose proof (count_le_avail d A avail r next W r' I Hr' HcD) as Hle.
assert (Hu : used = Z.of_nat (r - r')) by lia. clear Hused.
set (n := Z.to_nat (avail - used)).
assert (Hn : Z.of_nat n = avail - Z.of_nat (r - r')) by lia.
pose proof (fill_leaves_spec n d A next avail ltac:(lia) ltac:(lia) ltac:(lia)) as FS.
destruct (fill_leaves n d A next avail) as [[A' next'] avail'].
destruct FS as (Hlen' & Hnext' & _ & HA').
assert (Hd1 : (0 < n)%nat -> 1 <= d).
{ intros Hpos. destruct (k_lvl _ _ _ _ _ _ I) as [(Hz & Ha & Hrm)|[? _]]; [|lia].
  exfalso. assert ((0 < r - r')%nat -> False); [|].
  - intros. lia.
  - destruct (Nat.eq_dec r r') as [E|E]; [|lia].
    subst r'. specialize (Hstop ltac:(lia)).
    rewrite (k_D _ _ _ _ _ _ I) in Hstop by lia.
    pose proof (k_top _ _ _ _ _ _ I ltac:(lia)). lia. }
(* the entries of A' *)
assert (Enew : forall i, (S (S m) - W - n <= i < S (S m) - W)%nat -> rd A' i = d).
{ intros i Hi. rewrite HA'.
  replace (next - Z.of_nat n <? Z.of_nat i) with true by (symmetry; apply Z.ltb_lt; lia).
  replace (Z.of_nat i <=? next) with true by (symmetry; apply Z.leb_le; lia).
  reflexivity. }
assert (Eold : forall i, (i < S (S m) - W - n \/ S (S m) - W <= i)%nat ->
                         rd A' i = rd A i).
{ intros i Hi. rewrite HA'.
  destruct (next - Z.of_nat n <? Z.of_nat i) eqn:E1;
    destruct (Z.of_nat i <=? next) eqn:E2; auto. lia. }
assert (Hk' : rsum (fun x => 2 ^ (K - x)) A' (S (S m) - (W + n)) (W + n)
              + 2 * Z.of_nat (r - r') * 2 ^ (K - (d + 1)) = 2 ^ K).
{ rewrite <- (k_kraft _ _ _ _ _ _ I).
  replace (W + n)%nat with (n + W)%nat by lia.
  rewrite rsum_app.
  rewrite (rsum_const _ A' d n) by (intros; apply Enew; lia).
  replace (S (S m) - (n + W) + n)%nat with (S (S m) - W)%nat by lia.
  rewrite (rsum_ext _ A' A W) by (intros; apply Eold; lia).
  replace (K - d) with (1 + (K - (d + 1))) by lia.
  rewrite Z.pow_add_r by lia. change (2 ^ 1) with 2. nia. }
assert (Hleaf' : forall i, (S (S m) - (W + n) <= i < S (S m))%nat ->
                           1 <= rd A' i <= d).
{ intros i Hi. destruct (Nat.lt_ge_cases i (S (S m) - W)) as [Hlt|Hge].
  - rewrite Enew by lia. specialize (Hd1 ltac:(lia)). lia.
  - rewrite Eold by lia. pose proof (k_leaf _ _ _ _ _ _ I i ltac:(lia)). lia. }
assert (Hsorted' : forall i j, (S (S m) - (W + n) <= i <= j)%nat -> (j < S (S m))%nat ->
                               rd A' j <= rd A' i).
{ intros i j Hi Hj. destruct (Nat.lt_ge_cases i (S (S m) - W)) as [Hlt|Hge].
  - rewrite (Enew i) by lia.
    destruct (Nat.lt_ge_cases j (S (S m) - W)) as [Hlt2|Hge2].
    + rewrite Enew by lia. lia.
    + rewrite Eold by lia. pose proof (k_leaf _ _ _ _ _ _ I j ltac:(lia)). lia.
  - rewrite !Eold by lia. apply (k_sorted _ _ _ _ _ _ I); lia. }
destruct (Nat.eq_dec r r') as [E|E].
- (* no internal node at this depth: the last pass *)
  subst r'. replace (r - r)%nat with O in * by lia.
  assert (Hr0 : r = O).
  { destruct r as [|r0]; auto. exfalso. specialize (Hstop ltac:(lia)).
    rewrite (k_D _ _ _ _ _ _ I) in Hstop by lia.
    pose proof (k_top _ _ _ _ _ _ I ltac:(lia)). lia. }
  subst r. rewrite Hu. change (u32 (2 * Z.of_nat 0)) with 0. rewrite phase3_done.
  assert (HnW : (W + n = S (S m))%nat) by lia.
  rewrite HnW in *. replace (S (S m) - S (S m))%nat with O in * by lia.
  unfold leaves_done. split; [lia|split; [|split]].
  + intros i Hi. specialize (Hleaf' i ltac:(lia)). split; [lia|].
    destruct (k_lvl _ _ _ _ _ _ I) as [(Hz & Ha & Hrm)|(Hd1' & rp & Hrp & Ha & Hlvl & Htop)];
      [lia|].
    pose proof (Hlvl O ltac:(lia)). lia.
  + intros i j Hij. rewrite Hlen', Hlen in Hij. apply Hsorted'; lia.
  + rewrite <- Hk'. ring.
- (* internal nodes at this depth: one level down *)
  assert (Hd254 : d <= 254).
  { pose proof (HcD r' ltac:(lia)). pose proof (Hanti O r' ltac:(lia)). lia. }
  rewrite Hu. rewrite (u32_id (2 * _)) by lia. rewrite u8_id by lia.
  apply (IH (d + 1) A' (2 * Z.of_nat (r - r')) r' next' (W + n)%nat); [|lia].
  constructor.
  + lia.
  + lia.
  + lia.
  + rewrite Hnext'. destruct (n =? 0)%nat eqn:En.
    * apply Nat.eqb_eq in En. lia.
    * rewrite u32_id by lia. lia.
  + intros k Hk. rewrite Eold by lia. apply (k_D _ _ _ _ _ _ I). lia.
  + lia.
  + intros Hpos. specialize (Hstop Hpos).
    rewrite (k_D _ _ _ _ _ _ I) in Hstop by lia.
    pose proof (HcD r' ltac:(lia)).
    pose proof (Hanti (r' - 1)%nat r' ltac:(lia)).
    pose proof (Hgap (r' - 1)%nat ltac:(lia)) as G.
    replace (S (r' - 1)) with r' in G by lia. lia.
  + right. split; [lia|]. exists r. split; [lia|]. split; [reflexivity|]. split.
    * intros k Hk. rewrite HcD by lia. lia.
    * intros Hrm.
      destruct (k_lvl _ _ _ _ _ _ I) as [(Hz & Ha & Hrm')|(Hd1' & rp & Hrp & Ha & Hlvl & Htop)];
        [lia|].
      destruct (Nat.eq_dec r rp) as [->|].
      -- specialize (Htop Hrm). lia.
      -- rewrite Hlvl by lia. lia.
  + intros i Hi. replace (d + 1 - 1) with d by lia. apply Hleaf'. lia.
  + exact Hsorted'.
  + rewrite <- Hk'. ring.
Qed.

End Phase3.

(** *** Phase 1 on ascending positive weights whose sum fits 32 bits *)

(** A function on the node indices changed at one index. *)
Definition setf (f : nat -> Z) (i : nat) (v : Z) : nat -> Z :=
fun j => if (j =? i)%nat then v else f j.

Lemma setf_eq (f : nat -> Z) (i : nat) (v : Z) : setf f i v i = v.
Proof. unfold setf. rewrite Nat.eqb_refl. reflexivity. Qed.

Lemma setf_ne (f : nat -> Z) (i j : nat) (v : Z) : j <> i -> setf f i v j = f j.
Proof. intros H. unfold setf. apply Nat.eqb_neq in H. rewrite H. reflexivity. Qed.

Lemma rsum_last (f : Z -> Z) (A : list Z) (lo n : nat) :
rsum f A lo (S n) = rsum f A lo n + f (rd A (lo + n)).
Proof.
replace (S n) with (n + 1)%nat by lia. rewrite rsum_app. cbn [rsum]. lia.
Qed.

Lemma rsum_positive (A : list Z) (n : nat) :
forall lo, (forall i, (lo <= i < lo + n)%nat -> 0 <= rd A i) ->
0 <= rsum (fun x => x) A lo n.
Proof.
induction n as [|n IH]; intros lo H; [cbn; lia|].
cbn [rsum]. pose proof (H lo ltac:(lia)).
pose proof (IH (S lo) ltac:(intros; apply H; lia)). lia.
Qed.

Section Weights.

Variables (M : nat) (A0 : list Z).
Hypothesis Hlen0 : length A0 = M.
Hypothesis Hasc : ascending A0.
Hypothesis Hpos : forall i, (i < M)%nat -> 0 < rd A0 i.
Hypothesis Htot : rsum (fun x => x) A0 0 M < 2 ^ 32.

(** The weights behind the state of phase 1, after [c <= 1] of the
    children of [next] were taken.  Node [j] was made of a first child
    of weight [X j] and a second child of weight [Y j]; the children are
    taken in ascending order of weight ([lo] is the weight taken last),
    the leaves from [leaf] on and the nodes from [root] on are still to
    be taken, and no sum has left 32 bits. *)
Record w1 (c next : nat) (A : list Z) (leaf root : nat) (X Y : nat -> Z) (lo : Z)
  : Prop := {
  w_leaf : forall k, (leaf <= k < M)%nat -> rd A k = rd A0 k;
  w_int : forall k, (root <= k < next)%nat -> rd A k = X k + Y k;
  w_cur : c = 1%nat -> rd A next = X next /\ 0 < X next /\ lo = X next;
  w_XY : forall j, (j < next)%nat -> 0 < X j <= Y j;
  w_chain : forall j j', (j < j' < next)%nat -> Y j <= X j';
  w_par : forall k, (k < root)%nat ->
            X k + Y k = X (Z.to_nat (rd A k))
            \/ (X k + Y k = Y (Z.to_nat (rd A k)) /\ (Z.to_nat (rd A k) < next)%nat);
  w_lo_Y : forall j, (j < next)%nat -> Y j <= lo;
  w_lo_leaf : forall k, (leaf <= k < M)%nat -> lo <= rd A0 k;
  w_lo_int : forall k, (root <= k < next)%nat -> lo <= X k + Y k;
  w_mono : forall k k', (root <= k <= k')%nat -> (k' < next)%nat ->
                        X k + Y k <= X k' + Y k';
  w_sum : rsum (fun x => x) A0 leaf (M - leaf) + rsum (fun x => x) A root (next - root)
          + (if (c =? 1)%nat then rd A next else 0)
          = rsum (fun x => x) A0 0 M
}.

Lemma first_child_w1 (next : nat) (A : list Z) (leaf root : nat) (X Y : nat -> Z) (lo : Z) :
q1 M 0 next A leaf root -> w1 0 next A leaf root X Y lo -> (next + 1 < M)%nat ->
let '(A', leaf', root') := first_child M next (A, leaf, root) in
exists x, w1 1 next A' leaf' root' (setf X next x) Y x.
Proof.
intros Q Wt Hn.
pose proof (q_len _ _ _ _ _ _ Q) as Hlen.
pose proof (q_sum _ _ _ _ _ _ Q) as Hsum.
pose proof (q_leaf _ _ _ _ _ _ Q) as Hleaf.
pose proof (q_root _ _ _ _ _ _ Q) as Hroot.
destruct Wt as [Wleaf Wint Wcur WXY Wchain Wpar WloY Wloleaf Wloint Wmono Wsum].
cbn [Nat.eqb] in Wsum.
unfold first_child. destruct (take_root M next leaf root A) eqn:T; unfold take_root in T.
- assert (Hr : (root < next)%nat).
  { apply orb_true_iff in T. destruct T as [T|T].
    - apply Nat.leb_le in T. lia.
    - apply andb_true_iff in T. destruct T as [T _]. apply Nat.ltb_lt in T. lia. }
  assert (Hx : rd A root = X root + Y root) by (apply Wint; lia).
  pose proof (WXY root Hr) as HXYr.
  set (A' := upd root (Z.of_nat next) (upd next (rd A root) A)).
  assert (E : forall k, k <> root -> k <> next -> rd A' k = rd A k).
  { intros k H1 H2. unfold A'. rewrite !rd_upd_ne by lia. reflexivity. }
  assert (Er : rd A' root = Z.of_nat next).
  { unfold A'. apply rd_upd_eq. rewrite length_upd. lia. }
  assert (En : rd A' next = rd A root).
  { unfold A'. rewrite rd_upd_ne by lia. apply rd_upd_eq. lia. }
  exists (rd A root). constructor.
  + intros k Hk. rewrite E by lia. apply Wleaf. lia.
  + intros k Hk. rewrite E by lia. rewrite setf_ne by lia. apply Wint. lia.
  + intros _. rewrite setf_eq. split; [exact En|]. split; [lia|reflexivity].
  + intros j Hj. rewrite setf_ne by lia. apply WXY. exact Hj.
  + intros j j' Hj. rewrite setf_ne by lia. apply Wchain. exact Hj.
  + intros k Hk. destruct (Nat.eq_dec k root) as [->|Hne].
    * left. rewrite Er, Nat2Z.id, setf_eq, setf_ne by lia. lia.
    * pose proof (q_old _ _ _ _ _ _ Q k ltac:(lia)) as Ho.
      pose proof (q_par _ _ _ _ _ _ Q k ltac:(lia)) as Hp.
      rewrite E by lia. rewrite !setf_ne by lia. apply Wpar. lia.
  + intros j Hj. pose proof (WloY j Hj). pose proof (Wloint root ltac:(lia)). lia.
  + intros k Hk. apply orb_true_iff in T. destruct T as [T|T].
    * apply Nat.leb_le in T. lia.
    * apply andb_true_iff in T. destruct T as [_ T]. apply Z.ltb_lt in T.
      rewrite (Wleaf leaf) in T by lia.
      pose proof (Hasc leaf k ltac:(lia)). lia.
  + intros k Hk. rewrite setf_ne by lia.
    pose proof (Wmono root k ltac:(lia) ltac:(lia)). lia.
  + intros k k' Hk Hk'. rewrite !setf_ne by lia. apply Wmono; lia.
  + cbn [Nat.eqb]. rewrite En. rewrite <- Wsum.
    replace (next - root)%nat with (S (next - S root)) by lia. cbn [rsum].
    rewrite (rsum_ext _ A' A) by (intros; apply E; lia). lia.
- assert (Hl : (leaf < M)%nat).
  { apply orb_false_iff in T. destruct T as [T _]. apply Nat.leb_gt in T. lia. }
  assert (Hx : rd A leaf = rd A0 leaf) by (apply Wleaf; lia).
  pose proof (Hpos leaf Hl) as Hxpos.
  set (A' := upd next (rd A leaf) A).
  assert (E : forall k, k <> next -> rd A' k = rd A k).
  { intros k H1. unfold A'. rewrite rd_upd_ne by lia. reflexivity. }
  assert (En : rd A' next = rd A leaf) by (unfold A'; apply rd_upd_eq; lia).
  exists (rd A leaf). constructor.
  + intros k Hk. rewrite E by lia. apply Wleaf. lia.
  + intros k Hk. rewrite E by lia. rewrite setf_ne by lia. apply Wint. lia.
  + intros _. rewrite setf_eq. split; [exact En|]. split; [lia|reflexivity].
  + intros j Hj. rewrite setf_ne by lia. apply WXY. exact Hj.
  + intros j j' Hj. rewrite setf_ne by lia. apply Wchain. exact Hj.
  + intros k Hk.
    pose proof (q_old _ _ _ _ _ _ Q k ltac:(lia)) as Ho.
    pose proof (q_par _ _ _ _ _ _ Q k ltac:(lia)) as Hp.
    rewrite E by lia. rewrite !setf_ne by lia. apply Wpar. lia.
  + intros j Hj. pose proof (WloY j Hj). pose proof (Wloleaf leaf ltac:(lia)). lia.
  + intros k Hk. pose proof (Hasc leaf k ltac:(lia)). lia.
  + intros k Hk. rewrite setf_ne by lia.
    apply orb_false_iff in T. destruct T as [_ T].
    apply andb_false_iff in T. destruct T as [T|T].
    * apply Nat.ltb_ge in T. lia.
    * apply Z.ltb_ge in T. rewrite (Wint root) in T by lia.
      pose proof (Wmono root k ltac:(lia) ltac:(lia)). lia.
  + intros k k' Hk Hk'. rewrite !setf_ne by lia. apply Wmono; lia.
  + cbn [Nat.eqb]. rewrite En. rewrite <- Wsum.
    replace (M - leaf)%nat with (S (M - S leaf)) by lia. cbn [rsum].
    rewrite (rsum_ext _ A' A) by (intros; apply E; lia). lia.
Qed.

Lemma second_child_w1 (next : nat) (A : list Z) (leaf root : nat) (X Y : nat -> Z) (lo : Z) :
q1 M 1 next A leaf root -> w1 1 next A leaf root X Y lo -> (next + 1 < M)%nat ->
let '(A', leaf', root') := second_child M next (A, leaf, root) in
exists y, w1 0 (S next) A' leaf' root' X (setf Y next y) y.
Proof.
intros Q Wt Hn.
pose proof (q_len _ _ _ _ _ _ Q) as Hlen.
pose proof (q_sum _ _ _ _ _ _ Q) as Hsum.
pose proof (q_leaf _ _ _ _ _ _ Q) as Hleaf.
pose proof (q_root _ _ _ _ _ _ Q) as Hroot.
destruct Wt as [Wleaf Wint Wcur WXY Wchain Wpar WloY Wloleaf Wloint Wmono Wsum].
destruct (Wcur eq_refl) as (Hcur & Hxpos & Hlo).
cbn [Nat.eqb] in Wsum.
assert (Hints : forall r, (root <= r)%nat -> 0 <= rsum (fun x => x) A r (next - r)).
{ intros r Hr. apply rsum_positive. intros i Hi. rewrite Wint by lia.
  pose proof (WXY i ltac:(lia)). lia. }
assert (Hleaves : forall l, (leaf <= l)%nat -> 0 <= rsum (fun x => x) A0 l (M - l)).
{ intros l Hl. apply rsum_positive. intros i Hi. pose proof (Hpos i ltac:(lia)). lia. }
unfold second_child. destruct (take_root M next leaf root A) eqn:T; unfold take_root in T.
- assert (Hr : (root < next)%nat).
  { apply orb_true_iff in T. destruct T as [T|T].
    - apply Nat.leb_le in T. lia.
    - apply andb_true_iff in T. destruct T as [T _]. apply Nat.ltb_lt in T. lia. }
  assert (Hy : rd A root = X root + Y root) by (apply Wint; lia).
  pose proof (WXY root Hr) as HXYr.
  pose proof (Wloint root ltac:(lia)) as Hlor.
  assert (Hsum' : rsum (fun x => x) A root (next - root)
                  = rd A root + rsum (fun x => x) A (S root) (next - S root)).
  { replace (next - root)%nat with (S (next - S root)) by lia. reflexivity. }
  pose proof (Hints (S root) ltac:(lia)) as Hi1.
  pose proof (Hleaves leaf ltac:(lia)) as Hl1.
  rewrite u32_id by lia.
  set (A' := upd root (Z.of_nat next) (upd next (rd A next + rd A root) A)).
  assert (E : forall k, k <> root -> k <> next -> rd A' k = rd A k).
  { intros k H1 H2. unfold A'. rewrite !rd_upd_ne by lia. reflexivity. }
  assert (Er : rd A' root = Z.of_nat next).
  { unfold A'. apply rd_upd_eq. rewrite length_upd. lia. }
  assert (En : rd A' next = rd A next + rd A root).
  { unfold A'. rewrite rd_upd_ne by lia. apply rd_upd_eq. lia. }
  exists (rd A root). constructor.
  + intros k Hk. rewrite E by lia. apply Wleaf. lia.
  + intros k Hk. destruct (Nat.eq_dec k next) as [->|Hne].
    * rewrite En, setf_eq, Hcur. reflexivity.
    * rewrite E by lia. rewrite setf_ne by lia. apply Wint. lia.
  + intros H. discriminate H.
  + intros j Hj. destruct (Nat.eq_dec j next) as [->|Hne].
    * rewrite setf_eq. lia.
    * rewrite setf_ne by lia. apply WXY. lia.
  + intros j j' Hj. rewrite setf_ne by lia.
    destruct (Nat.eq_dec j' next) as [->|Hne].
    * pose proof (WloY j ltac:(lia)). lia.
    * apply Wchain. lia.
  + intros k Hk. destruct (Nat.eq_dec k root) as [->|Hne].
    * right. rewrite Er, Nat2Z.id, setf_eq, setf_ne by lia. split; lia.
    * pose proof (q_par _ _ _ _ _ _ Q k ltac:(lia)) as Hp.
      rewrite E by lia. rewrite (setf_ne Y next k) by lia.
      destruct (Wpar k ltac:(lia)) as [H1|[H1 H2]].
      -- left. exact H1.
      -- right. rewrite setf_ne by lia. split; [exact H1|lia].
  + intros j Hj. destruct (Nat.eq_dec j next) as [->|Hne].
    * rewrite setf_eq. lia.
    * rewrite setf_ne by lia. pose proof (WloY j ltac:(lia)). lia.
  + intros k Hk. apply orb_true_iff in T. destruct T as [T|T].
    * apply Nat.leb_le in T. lia.
    * apply andb_true_iff in T. destruct T as [_ T]. apply Z.ltb_lt in T.
      rewrite (Wleaf leaf) in T by lia.
      pose proof (Hasc leaf k ltac:(lia)). lia.
  + intros k Hk. destruct (Nat.eq_dec k next) as [->|Hne].
    * rewrite setf_eq. lia.
    * rewrite setf_ne by lia. pose proof (Wmono root k ltac:(lia) ltac:(lia)). lia.
  + intros k k' Hk Hk'. destruct (Nat.eq_dec k' next) as [->|Hne'].
    * rewrite setf_eq. destruct (Nat.eq_dec k next) as [->|Hne].
      -- rewrite setf_eq. lia.
      -- rewrite setf_ne by lia. pose proof (WXY k ltac:(lia)).
         pose proof (WloY k ltac:(lia)). lia.
    * rewrite !setf_ne by lia. apply Wmono; lia.
  + cbn [Nat.eqb]. rewrite <- Wsum.
    replace (S next - S root)%nat with (S (next - S root)) by lia.
    rewrite rsum_last. replace (S root + (next - S root))%nat with next by lia.
    rewrite En. rewrite (rsum_ext _ A' A) by (intros; apply E; lia). rewrite Hsum'. lia.
- assert (Hl : (leaf < M)%nat).
  { apply orb_false_iff in T. destruct T as [T _]. apply Nat.leb_gt in T. lia. }
  assert (Hy : rd A leaf = rd A0 leaf) by (apply Wleaf; lia).
  pose proof (Hpos leaf Hl) as Hypos.
  pose proof (Wloleaf leaf ltac:(lia)) as Hlol.
  assert (Hsum' : rsum (fun x => x) A0 leaf (M - leaf)
                  = rd A0 leaf + rsum (fun x => x) A0 (S leaf) (M - S leaf)).
  { replace (M - leaf)%nat with (S (M - S leaf)) by lia. reflexivity. }
  pose proof (Hints root ltac:(lia)) as Hi1.
  pose proof (Hleaves (S leaf) ltac:(lia)) as Hl1.
  rewrite u32_id by lia.
  set (A' := upd next (rd A next + rd A leaf) A).
  assert (E : forall k, k <> next -> rd A' k = rd A k).
  { intros k H1. unfold A'. rewrite rd_upd_ne by lia. reflexivity. }
  assert (En : rd A' next = rd A next + rd A leaf) by (unfold A'; apply rd_upd_eq; lia).
  exists (rd A leaf). constructor.
  + intros k Hk. rewrite E by lia. apply Wleaf. lia.
  + intros k Hk. destruct (Nat.eq_dec k next) as [->|Hne].
    * rewrite En, setf_eq, Hcur. reflexivity.
    * rewrite E by lia. rewrite setf_ne by lia. apply Wint. lia.
  + intros H. discriminate H.
  + intros j Hj. destruct (Nat.eq_dec j next) as [->|Hne].
    * rewrite setf_eq. lia.
    * rewrite setf_ne by lia. apply WXY. lia.
  + intros j j' Hj. rewrite setf_ne by lia.
    destruct (Nat.eq_dec j' next) as [->|Hne].
    * pose proof (WloY j ltac:(lia)). lia.
    * apply Wchain. lia.
  + intros k Hk.
    pose proof (q_par _ _ _ _ _ _ Q k ltac:(lia)) as Hp.
    rewrite E by lia. rewrite (setf_ne Y next k) by lia.
    destruct (Wpar k ltac:(lia)) as [H1|[H1 H2]].
    * left. exact H1.
    * right. rewrite setf_ne by lia. split; [exact H1|lia].
  + intros j Hj. destruct (Nat.eq_dec j next) as [->|Hne].
    * rewrite setf_eq. lia.
    * rewrite setf_ne by lia. pose proof (WloY j ltac:(lia)). lia.
  + intros k Hk. pose proof (Hasc leaf k ltac:(lia)). lia.
  + intros k Hk. destruct (Nat.eq_dec k next) as [->|Hne].
    * rewrite setf_eq. lia.
    * rewrite setf_ne by lia.
      apply orb_false_iff in T. destruct T as [_ T].
      apply andb_false_iff in T. destruct T as [T|T].
      -- apply Nat.ltb_ge in T. lia.
      -- apply Z.ltb_ge in T. rewrite (Wint root) in T by lia.
         pose proof (Wmono root k ltac:(lia) ltac:(lia)). lia.
  + intros k k' Hk Hk'. destruct (Nat.eq_dec k' next) as [->|Hne'].
    * rewrite setf_eq. destruct (Nat.eq_dec k next) as [->|Hne].
      -- rewrite setf_eq. lia.
      -- rewrite setf_ne by lia. pose proof (WXY k ltac:(lia)).
         pose proof (WloY k ltac:(lia)). lia.
    * rewrite !setf_ne by lia. apply Wmono; lia.
  + cbn [Nat.eqb]. rewrite <- Wsum.
    replace (S next - root)%nat with (S (next - root)) by lia.
    rewrite rsum_last. replace (root + (next - root))%nat with next by lia.
    rewrite En. rewrite (rsum_ext _ A' A) by (intros; apply E; lia). rewrite Hsum'. lia.
Qed.

Lemma phase1_w1 (n : nat) :
forall (next : nat) (A : list Z) (leaf root : nat) (X Y : nat -> Z) (lo : Z),
q1 M 0 next A leaf root -> w1 0 next A leaf root X Y lo -> (next + n + 1 = M)%nat ->
let '(A', leaf', root') := phase1 M n next (A, leaf, root) in
q1 M 0 (M - 1) A' leaf' root'
/\ exists X' Y' lo', w1 0 (M - 1) A' leaf' root' X' Y' lo'.
Proof.
induction n as [|n IH]; intros next A leaf root X Y lo Q Wt Hn.
- simpl. replace (M - 1)%nat with next by lia. eauto.
- cbn [phase1].
  pose proof (first_child_q1 M next A leaf root Q ltac:(lia)) as Q1.
  pose proof (first_child_w1 next A leaf root X Y lo Q Wt ltac:(lia)) as W1.
  destruct (first_child M next (A, leaf, root)) as [[A1 leaf1] root1].
  destruct W1 as (x & W1).
  pose proof (second_child_q1 M next A1 leaf1 root1 Q1 ltac:(lia)) as Q2.
  pose proof (second_child_w1 next A1 leaf1 root1 _ _ _ Q1 W1 ltac:(lia)) as W2.
  destruct (second_child M next (A1, leaf1, root1)) as [[A2 leaf2] root2].
  destruct W2 as (y & W2).
  apply (IH (S next) A2 leaf2 root2 _ _ _ (q1_next M _ _ _ _ Q2) W2). lia.
Qed.

End Weights.

(** What phase 1 leaves on such weights: every node is one of the two
    children of its parent, the children of later nodes are not
    lighter, and the weight of the root fits 32 bits. *)
Lemma phase1_weights (m : nat) (A : list Z) :
length A = S (S m) -> ascending A -> (forall i, (i < S (S m))%nat -> 0 < rd A i) ->
rsum (fun x => x) A 0 (S (S m)) < 2 ^ 32 ->
let '(A1, _, _) := phase1 (S (S m)) (S m) 0 (A, O, O) in
exists X Y : nat -> Z,
  (forall j, (j <= m)%nat -> 0 < X j <= Y j)
  /\ (forall j j', (j < j' <= m)%nat -> Y j <= X j')
  /\ (forall k, (k < m)%nat ->
        X k + Y k = X (Z.to_nat (rd A1 k)) \/ X k + Y k = Y (Z.to_nat (rd A1 k)))
  /\ X m + Y m < 2 ^ 32.
Proof.
intros Hlen Hasc Hpos Htot.
assert (Q0 : q1 (S (S m)) 0 0 A 0 0).
{ constructor; auto; try lia. }
assert (W0 : w1 (S (S m)) A 0 0 A 0 0 (fun _ => 0) (fun _ => 0) 0).
{ constructor.
  - intros k Hk. reflexivity.
  - intros; lia.
  - intros H; discriminate H.
  - intros; lia.
  - intros; lia.
  - intros; lia.
  - intros; lia.
  - intros k Hk. pose proof (Hpos k ltac:(lia)). lia.
  - intros; lia.
  - intros; lia.
  - replace (S (S m) - 0)%nat with (S (S m)) by lia.
    change (0 - 0)%nat with O. change (rsum (fun x => x) A 0 0) with 0.
    cbn [Nat.eqb]. lia. }
pose proof (phase1_w1 (S (S m)) A Hlen Hasc Hpos Htot (S m) 0 A 0 0 _ _ _ Q0 W0 ltac:(lia))
  as R.
destruct (phase1 (S (S m)) (S m) 0 (A, O, O)) as [[A1 leaf] root].
replace (S (S m) - 1)%nat with (S m) in R by lia.
destruct R as (Q & X & Y & lo & Wt).
pose proof (q_sum _ _ _ _ _ _ Q) as Hsum.
pose proof (q_leaf _ _ _ _ _ _ Q) as Hleaf.
pose proof (q_root _ _ _ _ _ _ Q) as Hroot.
assert (Hr : root = m) by (destruct (q_head _ _ _ _ _ _ Q eq_refl); lia).
subst root. assert (Hl : leaf = S (S m)) by lia. subst leaf.
destruct Wt as [Wleaf Wint Wcur WXY Wchain Wpar WloY Wloleaf Wloint Wmono Wsum].
exists X, Y. split; [|split; [|split]].
- intros j Hj. apply WXY. lia.
- intros j j' Hj. apply Wchain. lia.
- intros k Hk. destruct (Wpar k Hk) as [H|[H _]]; auto.
- cbn [Nat.eqb] in Wsum.
  replace (S (S m) - S (S m))%nat with O in Wsum by lia.
  replace (S m - m)%nat with 1%nat in Wsum by lia.
  change (rsum (fun x => x) A1 m 1) with (rd A1 m + 0) in Wsum.
  change (rsum (fun x => x) A (S (S m)) 0) with 0 in Wsum.
  rewrite <- (Wint m) by lia. lia.
Qed.

(** A node weighs at least twice its grandchildren: the weight of the
    root bounds the depth of every node. *)
Lemma depth_of_weights (m : nat) (P : nat -> Z) (Dl : list Z) (X Y : nat -> Z) :
depths m P Dl ->
(forall k, (k < m)%nat -> Z.of_nat k < P k <= Z.of_nat m) ->
(forall j, (j <= m)%nat -> 0 < X j <= Y j) ->
(forall j j', (j < j' <= m)%nat -> Y j <= X j') ->
(forall k, (k < m)%nat ->
   X k + Y k = X (Z.to_nat (P k)) \/ X k + Y k = Y (Z.to_nat (P k))) ->
forall k, (k <= m)%nat -> 2 ^ (rd Dl k / 2) * (X k + Y k) <= X m + Y m.
Proof.
intros D HP HXY Hch Hpar.
assert (G : forall n k, (m - k <= n)%nat -> (k <= m)%nat ->
              2 ^ (rd Dl k / 2) * (X k + Y k) <= X m + Y m).
{ induction n as [|n IH]; intros k Hn Hk.
  - replace k with m by lia. rewrite (de_root _ _ _ D).
    change (2 ^ (0 / 2)) with 1. lia.
  - destruct (Nat.eq_dec k m) as [->|Hkm].
    + rewrite (de_root _ _ _ D). change (2 ^ (0 / 2)) with 1. lia.
    + pose proof (HP k ltac:(lia)) as HPk.
      pose proof (de_step _ _ _ D k ltac:(lia)) as Dk.
      pose proof (Hpar k ltac:(lia)) as Pk.
      remember (Z.to_nat (P k)) as p eqn:Ep.
      assert (Hp : (k < p <= m)%nat) by lia.
      pose proof (HXY k ltac:(lia)). pose proof (HXY p ltac:(lia)).
      assert (Wk : X k + Y k <= Y p) by (destruct Pk; lia).
      destruct (Nat.eq_dec p m) as [Hpm|Hpm].
      * rewrite Dk, Hpm, (de_root _ _ _ D). change (2 ^ ((0 + 1) / 2)) with 1.
        rewrite <- Hpm. lia.
      * pose proof (HP p ltac:(lia)) as HPp.
        pose proof (de_step _ _ _ D p ltac:(lia)) as Dp.
        pose proof (Hpar p ltac:(lia)) as Pp.
        remember (Z.to_nat (P p)) as p2 eqn:Ep2.
        assert (Hp2 : (p < p2 <= m)%nat) by lia.
        pose proof (HXY p2 ltac:(lia)).
        pose proof (Hch p p2 ltac:(lia)).
        assert (W2 : 2 * (X k + Y k) <= X p2 + Y p2) by (destruct Pp; lia).
        pose proof (IH p2 ltac:(lia) ltac:(lia)) as IH2.
        pose proof (de_bound _ _ _ D p2 ltac:(lia)) as B2.
        rewrite Dk, Dp.
        replace (rd Dl p2 + 1 + 1) with (rd Dl p2 + 1 * 2) by lia.
        rewrite Z.div_add by lia.
        assert (0 <= rd Dl p2 / 2) by (apply Z.div_pos; lia).
        rewrite Z.pow_add_r by lia. change (2 ^ 1) with 2.
        assert (0 <= 2 ^ (rd Dl p2 / 2)) by (apply Z.pow_nonneg; lia).
        nia. }
intros k Hk. apply (G m); lia.
Qed.

Lemma depth_of_root_weight (d w W : Z) :
0 <= d -> 0 < w -> 2 ^ (d / 2) * w <= W -> W < 2 ^ 32 -> d <= 63.
Proof.
intros Hd Hw H HW.
destruct (Z_le_gt_dec d 63) as [|Hgt]; [assumption|exfalso].
assert (32 <= d / 2) by (apply Z.div_le_lower_bound; lia).
assert (2 ^ 32 <= 2 ^ (d / 2)) by (apply Z.pow_le_mono_r; lia).
nia.
Qed.

(** *** The three phases together *)

(** Phases 1 and 2: parent pointers, then the depths of the nodes. *)
Lemma moffat_depths (m : nat) (A : list Z) :
length A = S (S m) -> Z.of_nat m < 2 ^ 32 ->
let '(A1, _, _) := phase1 (S (S m)) (S m) 0 (A, O, O) in
parents m A1 /\ depths m (fun k => rd A1 k) (phase2 m (upd m 0 A1)).
Proof.
intros Hlen Hm.
pose proof (phase1_parents m A Hlen) as PA.
destruct (phase1 (S (S m)) (S m) 0 (A, O, O)) as [[A1 leaf] root].
split; [exact PA|].
pose proof (pa_len _ _ PA).
apply phase2_depths; auto; try lia.
- intros; apply (pa_range _ _ PA); lia.
- rewrite length_upd. lia.
- apply rd_upd_eq. lia.
- intros k Hk. apply rd_upd_ne. lia.
- intros k Hk. replace k with m by lia. rewrite rd_upd_eq by lia. lia.
Qed.

(** For 2 weights or more, fewer than [2^31], when the first node is at
    most 254 levels below the root: the array is left holding code
    lengths between 1 and [numCodes - 1] in descending order, the first
    of them is returned, and the lengths satisfy the Kraft equality. *)
Lemma moffat_sorted_deep (m : nat) (A : list Z) (K : Z) :
length A = S (S m) -> Z.of_nat (S (S m)) < 2 ^ 31 ->
rd (phase2 m (upd m 0 (fst (fst (phase1 (S (S m)) (S m) 0 (A, O, O)))))) 0 <= 254 ->
Z.of_nat (S (S m)) <= K ->
length (snd (moffatSortedInPlace (S (S m)) A)) = S (S m)
/\ (forall i, (i < S (S m))%nat ->
      1 <= rd (snd (moffatSortedInPlace (S (S m)) A)) i <= Z.of_nat (S (S m)) - 1)
/\ descending (snd (moffatSortedInPlace (S (S m)) A))
/\ fst (moffatSortedInPlace (S (S m)) A) = rd (snd (moffatSortedInPlace (S (S m)) A)) 0
/\ rsum (fun x => 2 ^ (K - x)) (snd (moffatSortedInPlace (S (S m)) A)) 0 (S (S m))
   = 2 ^ K.
Proof.
intros Hlen HM Hdeep HK.
unfold moffatSortedInPlace.
pose proof (moffat_depths m A Hlen ltac:(lia)) as MD.
replace (S (S m) - 1)%nat with (S m) by lia.
destruct (phase1 (S (S m)) (S m) 0 (A, O, O)) as [[A1 leaf] root].
cbn [fst] in Hdeep. destruct MD as (PA & HD).
set (Pf := fun k : nat => rd A1 k) in *.
assert (HP : forall k, (k < m)%nat -> Z.of_nat k < Pf k <= Z.of_nat m)
  by (intros; apply (pa_range _ _ PA); lia).
set (A2 := phase2 m (upd m 0 A1)) in *.
assert (I : k3 m A2 K 0 A2 1 (S m) (Z.of_nat (S m)) 0).
{ constructor.
  - apply (de_len _ _ _ HD).
  - lia.
  - lia.
  - lia.
  - reflexivity.
  - lia.
  - intros _. replace (S m - 1)%nat with m by lia. apply (de_root _ _ _ HD).
  - left. auto.
  - intros; lia.
  - intros; lia.
  - replace (S (S m) - 0)%nat with (S (S m)) by lia. cbn [rsum].
    rewrite Z.sub_0_r. ring. }
pose proof (phase3_spec m Pf A2 K HM Hdeep HP (pa_mono _ _ PA) (pa_stride _ _ PA) HD HK
              (S (S (S m))) 0 A2 1 (S m) (Z.of_nat (S m)) 0 I ltac:(lia))
  as (F1 & F2 & F3 & F4).
cbn [fst snd].
set (A3 := phase3 (S (S (S m))) A2 1 0 (S m) (Z.of_nat (S m))) in *.
split; [exact F1|]. split; [|split; [exact F3|split; [|exact F4]]].
- intros i Hi. specialize (F2 i Hi). lia.
- specialize (F2 O ltac:(lia)). apply u8_id. lia.
Qed.

(** For 2 to 256 weights, whatever their values: the array is left
    holding code lengths between 1 and [numCodes - 1] in descending
    order, the first of them is returned, and the lengths satisfy the
    Kraft equality. *)
Lemma moffat_sorted_spec (numCodes : nat) (A : list Z) (K : Z) :
length A = numCodes -> (2 <= numCodes <= 256)%nat -> Z.of_nat numCodes <= K ->
length (snd (moffatSortedInPlace numCodes A)) = numCodes
/\ (forall i, (i < numCodes)%nat ->
      1 <= rd (snd (moffatSortedInPlace numCodes A)) i <= Z.of_nat numCodes - 1)
/\ descending (snd (moffatSortedInPlace numCodes A))
/\ fst (moffatSortedInPlace numCodes A) = rd (snd (moffatSortedInPlace numCodes A)) 0
/\ rsum (fun x => 2 ^ (K - x)) (snd (moffatSortedInPlace numCodes A)) 0 numCodes
   = 2 ^ K.
Proof.
intros Hlen HM HK.
destruct numCodes as [|[|m]]; try lia.
apply moffat_sorted_deep; auto; try lia.
pose proof (moffat_depths m A Hlen ltac:(lia)) as MD.
destruct (phase1 (S (S m)) (S m) 0 (A, O, O)) as [[A1 leaf] root].
cbn [fst]. destruct MD as (_ & HD).
pose proof (de_bound _ _ _ HD O ltac:(lia)). lia.
Qed.

(** For 2 ascending positive weights or more, fewer than [2^31] and of
    a sum that fits 32 bits, no node lies more than 63 levels below the
    root, and the array is left as for a small alphabet. *)
Lemma moffat_sorted_exact (numCodes : nat) (A : list Z) (K : Z) :
length A = numCodes -> (2 <= numCodes)%nat -> Z.of_nat numCodes < 2 ^ 31 ->
ascending A -> Forall (fun w => 0 < w) A ->
rsum (fun w => w) A 0 numCodes < 2 ^ 32 ->
Z.of_nat numCodes <= K ->
length (snd (moffatSortedInPlace numCodes A)) = numCodes
/\ (forall i, (i < numCodes)%nat ->
      1 <= rd (snd (moffatSortedInPlace numCodes A)) i <= 64)
/\ descending (snd (moffatSortedInPlace numCodes A))
/\ fst (moffatSortedInPlace numCodes A) = rd (snd (moffatSortedInPlace numCodes A)) 0
/\ rsum (fun x => 2 ^ (K - x)) (snd (moffatSortedInPlace numCodes A)) 0 numCodes
   = 2 ^ K.
Proof.
intros Hlen H2 HM Hasc Hpos Htot HK.
destruct numCodes as [|[|m]]; try lia.
assert (Hpos' : forall i, (i < S (S m))%nat -> 0 < rd A i).
{ intros i Hi. rewrite Forall_forall in Hpos. apply Hpos. apply nth_In. lia. }
assert (Hdeep : rd (phase2 m (upd m 0 (fst (fst (phase1 (S (S m)) (S m) 0 (A, O, O)))))) 0
                <= 63).
{ pose proof (moffat_depths m A Hlen ltac:(lia)) as MD.
  pose proof (phase1_weights m A Hlen Hasc Hpos' Htot) as PW.
  destruct (phase1 (S (S m)) (S m) 0 (A, O, O)) as [[A1 leaf] root].
  cbn [fst]. destruct MD as (PA & HD). destruct PW as (X & Y & HXY & Hch & Hpar & Hroot).
  pose proof (depth_of_weights m (fun k => rd A1 k) _ X Y HD
                (fun k Hk => pa_range _ _ PA k Hk) HXY Hch Hpar O ltac:(lia)) as G.
  pose proof (de_bound _ _ _ HD O ltac:(lia)).
  pose proof (HXY O ltac:(lia)).
  apply (depth_of_root_weight _ (X O + Y O) (X m + Y m)); lia. }
destruct (moffat_sorted_deep m A K Hlen HM ltac:(lia) HK) as (F1 & F2 & F3 & F4 & F5).
split; [exact F1|]. split; [|split; [exact F3|split; [exact F4|exact F5]]].
intros i Hi. specialize (F2 i Hi). split; [lia|].
(* the lengths are at most one more than the depth of the first node *)
revert Hdeep.
unfold moffatSortedInPlace in *.
replace (S (S m) - 1)%nat with (S m) in * by lia.
pose proof (moffat_depths m A Hlen ltac:(lia)) as MD.
destruct (phase1 (S (S m)) (S m) 0 (A, O, O)) as [[A1 leaf] root].
cbn [fst snd] in *. intros Hdeep. destruct MD as (PA & HD).
set (A2 := phase2 m (upd m 0 A1)) in *.
assert (I : k3 m A2 K 0 A2 1 (S m) (Z.of_nat (S m)) 0).
{ constructor.
  - apply (de_len _ _ _ HD).
  - lia.
  - lia.
  - lia.
  - reflexivity.
  - lia.
  - intros _. replace (S m - 1)%nat with m by lia. apply (de_root _ _ _ HD).
  - left. auto.
  - intros; lia.
  - intros; lia.
  - replace (S (S m) - 0)%nat with (S (S m)) by lia. cbn [rsum].
    rewrite Z.sub_0_r. ring. }
pose proof (phase3_spec m (fun k => rd A1 k) A2 K HM ltac:(lia)
              (fun k Hk => pa_range _ _ PA k Hk) (pa_mono _ _ PA) (pa_stride _ _ PA) HD HK
              (S (S (S m))) 0 A2 1 (S m) (Z.of_nat (S m)) 0 I ltac:(lia))
  as (_ & G2 & _).
specialize (G2 i Hi). lia.
Qed.


(** Checking the two preconditions on a given list of weights. *)
Fixpoint ascb (l : list Z) : bool :=
match l with
| a :: (b :: _) as t => (a <=? b) && ascb t
| _ => true
end.

Lemma ascb_ascending (l : list Z) : ascb l = true -> ascending l.
Proof.
induction l as [|a l IH]; intros H i j Hij; [simpl in Hij; lia|].
assert (Hl : ascending l).
{ apply IH. destruct l; [reflexivity|]. cbn [ascb] in H.
  apply andb_true_iff in H. apply H. }
assert (Ha : forall k, (k < length l)%nat -> a <= rd l k).
{ intros k Hk. destruct l as [|b l]; [simpl in Hk; lia|].
  cbn [ascb] in H. apply andb_true_iff in H. destruct H as [H _].
  apply Z.leb_le in H. pose proof (Hl O k ltac:(lia)) as H0.
  unfold rd in *. cbn [nth] in H0 |- *. lia. }
cbn [length] in Hij. unfold rd. destruct i as [|i], j as [|j]; cbn [nth]; try lia.
- apply Ha. lia.
- apply Hl. lia.
Qed.

Lemma positive_check (l : list Z) :
forallb (fun w => 0 <? w) l = true -> Forall (fun w => 0 < w) l.
Proof.
intros H. apply Forall_forall. intros x Hx.
rewrite forallb_forall in H. apply Z.ltb_lt. apply H. exact Hx.
Qed.



(** The scenario S3 itself. *)
Example moffat_S3 : moffatSortedInPlace 4 [1;1;2;5] = (3, [3;3;2;1]).
Proof. reflexivity. Qed.

(** ** The prelude shared by the entry points: filter, sort, scatter *)

(** *** The comparison function *)

Lemma s32_u32 (d : Z) : s32 (u32 d) = s32 d.
Proof.
unfold s32, u32. f_equal. rewrite Zplus_mod_idemp_l. reflexivity.
Qed.

Lemma s32_id (d : Z) : - 2 ^ 31 <= d < 2 ^ 31 -> s32 d = d.
Proof. intros H. unfold s32. rewrite Z.mod_small by lia. lia. Qed.

Lemma compareKeyValue_exact (a b : KeyValue) :
- 2 ^ 31 <= key a - key b < 2 ^ 31 -> compareKeyValue a b = key a - key b.
Proof. intros H. unfold compareKeyValue. rewrite s32_u32. apply s32_id. exact H. Qed.

(** *** Filtering *)

Lemma build_mapping_length (histogram : list Z) (i : nat) :
length (Sorting.build_mapping i histogram) = Sorting.numNonZero histogram.
Proof.
unfold Sorting.numNonZero. revert i.
induction histogram as [|x t IH]; intros i; [reflexivity|].
cbn [Sorting.build_mapping filter]. destruct (x =? 0); cbn [negb length]; auto.
Qed.

Lemma build_mapping_In (histogram : list Z) :
forall (i : nat) (kv : KeyValue),
In kv (Sorting.build_mapping i histogram) <->
exists k, (k < length histogram)%nat /\ kv = mkKV (rd histogram k) (i + k)
          /\ rd histogram k <> 0.
Proof.
induction histogram as [|x t IH]; intros i kv.
- cbn. split; [tauto|]. intros (k & Hk & _). lia.
- cbn [Sorting.build_mapping].
  assert (Htail : In kv (Sorting.build_mapping (S i) t) <->
                  exists k, (1 <= k < length (x :: t))%nat
                            /\ kv = mkKV (rd (x :: t) k) (i + k)
                            /\ rd (x :: t) k <> 0).
  { rewrite IH. split.
    - intros (k & Hk & E & Hnz). exists (S k). cbn [length].
      split; [lia|]. replace (i + S k)%nat with (S i + k)%nat by lia.
      split; assumption.
    - intros (k & Hk & E & Hnz). destruct k as [|k]; [lia|]. exists k.
      cbn [length] in Hk. split; [lia|].
      replace (S i + k)%nat with (i + S k)%nat by lia. split; assumption. }
  destruct (Z.eqb_spec x 0) as [E0|E0].
  + rewrite Htail. split.
    * intros (k & Hk & E & Hnz). exists k. split; [lia|split; assumption].
    * intros (k & Hk & E & Hnz). exists k. split; [|split; assumption].
      destruct k; [|lia]. exfalso. apply Hnz. exact E0.
  + cbn [In]. rewrite Htail. split.
    * intros [E|(k & Hk & E & Hnz)].
      -- exists O. cbn [length]. split; [lia|]. rewrite Nat.add_0_r.
         split; [symmetry; exact E|exact E0].
      -- exists k. split; [lia|split; assumption].
    * intros (k & Hk & E & Hnz). destruct k as [|k].
      -- left. rewrite E, Nat.add_0_r. reflexivity.
      -- right. exists (S k). split; [lia|split; assumption].
Qed.

Lemma build_mapping_NoDup (histogram : list Z) :
forall i : nat, NoDup (map value (Sorting.build_mapping i histogram)).
Proof.
induction histogram as [|x t IH]; intros i; [constructor|].
cbn [Sorting.build_mapping]. destruct (x =? 0); [apply IH|].
cbn [map value]. constructor; [|apply IH].
rewrite in_map_iff. intros (kv & E & Hin).
apply build_mapping_In in Hin. destruct Hin as (k & _ & -> & _).
cbn [value] in E. lia.
Qed.

(** *** Sorting *)

Lemma insert_perm (cmp : KeyValue -> KeyValue -> Z) (x : KeyValue) (l : list KeyValue) :
Permutation (Sorting.insert cmp x l) (x :: l).
Proof.
induction l as [|y t IH]; cbn [Sorting.insert]; [reflexivity|].
destruct (cmp x y <=? 0); [reflexivity|].
rewrite IH. apply perm_swap.
Qed.

Lemma qsort_perm (cmp : KeyValue -> KeyValue -> Z) (l : list KeyValue) :
Permutation (Sorting.qsort cmp l) l.
Proof.
unfold Sorting.qsort. induction l as [|x t IH]; cbn [fold_right]; [reflexivity|].
rewrite insert_perm. constructor. exact IH.
Qed.

Lemma insert_sorted (x : KeyValue) (l : list KeyValue) :
0 <= key x < 2 ^ 31 -> Forall (fun kv => 0 <= key kv < 2 ^ 31) l ->
StronglySorted (fun a b => key a <= key b) l ->
StronglySorted (fun a b => key a <= key b) (Sorting.insert compareKeyValue x l).
Proof.
intros Hx Hl Hs. induction Hs as [|y t Hs IH Hy]; cbn [Sorting.insert].
- repeat constructor.
- inversion Hl as [|? ? Hy31 Ht]; subst.
  rewrite compareKeyValue_exact by lia.
  destruct (Z.leb_spec (key x - key y) 0) as [Hle|Hgt].
  + constructor; [constructor; assumption|].
    constructor; [lia|]. rewrite Forall_forall in Hy |- *.
    intros z Hz. specialize (Hy z Hz). lia.
  + constructor; [apply IH; exact Ht|].
    rewrite Forall_forall in Hy |- *. intros z Hz.
    apply (Permutation_in _ (insert_perm compareKeyValue x t)) in Hz.
    destruct Hz as [<-|Hz]; [lia|apply Hy; exact Hz].
Qed.

Lemma qsort_sorted (l : list KeyValue) :
Forall (fun kv => 0 <= key kv < 2 ^ 31) l ->
StronglySorted (fun a b => key a <= key b) (Sorting.qsort compareKeyValue l).
Proof.
unfold Sorting.qsort. induction 1 as [|x t Hx Ht IH]; cbn [fold_right]; [constructor|].
apply insert_sorted; auto.
rewrite Forall_forall in Ht |- *. intros z Hz. apply Ht.
apply (Permutation_in _ (qsort_perm compareKeyValue t)). exact Hz.
Qed.

Lemma strongly_sorted_nth (l : list KeyValue) :
StronglySorted (fun a b => key a <= key b) l ->
forall (d : KeyValue) (i j : nat), (i <= j < length l)%nat ->
key (nth i l d) <= key (nth j l d).
Proof.
induction 1 as [|x t Hs IH Hx]; intros d i j Hij; [cbn in Hij; lia|].
cbn [length] in Hij. destruct i as [|i], j as [|j]; cbn [nth]; try lia.
- rewrite Forall_forall in Hx. apply Hx. apply nth_In. lia.
- apply IH. lia.
Qed.

(** *** Scattering the lengths back *)

Lemma scatter_length (mapping : list KeyValue) :
forall (sorted codeLengths : list Z),
length (Sorting.scatter mapping sorted codeLengths) = length codeLengths.
Proof.
induction mapping as [|kv m IH]; intros sorted cl; [reflexivity|].
destruct sorted as [|s S]; [reflexivity|].
cbn [Sorting.scatter]. rewrite IH. apply length_upd.
Qed.

Lemma scatter_other (mapping : list KeyValue) :
forall (sorted codeLengths : list Z) (j : nat),
~ In j (map value mapping) ->
rd (Sorting.scatter mapping sorted codeLengths) j = rd codeLengths j.
Proof.
induction mapping as [|kv m IH]; intros sorted cl j Hj; [reflexivity|].
destruct sorted as [|s S]; [reflexivity|].
cbn [Sorting.scatter]. cbn [map In] in Hj.
rewrite IH by tauto. apply rd_upd_ne. intros E. apply Hj. left. exact E.
Qed.

Lemma scatter_at (mapping : list KeyValue) :
forall (sorted codeLengths : list Z) (k : nat) (d : KeyValue),
NoDup (map value mapping) -> (length mapping <= length sorted)%nat ->
(k < length mapping)%nat ->
(value (nth k mapping d) < length codeLengths)%nat ->
rd (Sorting.scatter mapping sorted codeLengths) (value (nth k mapping d))
= u8 (rd sorted k).
Proof.
induction mapping as [|kv m IH]; intros sorted cl k d Hnd Hlen Hk Hv;
  [cbn in Hk; lia|].
destruct sorted as [|s S]; [cbn in Hlen; lia|].
cbn [Sorting.scatter]. cbn [map] in Hnd. inversion Hnd as [|? ? Hnotin Hnd']; subst.
cbn [length] in Hlen, Hk. destruct k as [|k]; cbn [nth] in *.
- rewrite scatter_other by exact Hnotin. apply rd_upd_eq. exact Hv.
- unfold rd at 2. cbn [nth]. apply IH; auto; try lia.
  rewrite length_upd. exact Hv.
Qed.

(** *** Sums over the used symbols *)

Lemma msum_perm (g : nat -> Z) (l l' : list KeyValue) :
Permutation l l' -> msum g l = msum g l'.
Proof.
induction 1 as [|x l l' _ IH|x y l|l l' l'' _ IH1 _ IH2]; cbn [msum fold_right] in *.
- reflexivity.
- unfold msum in IH. rewrite IH. reflexivity.
- lia.
- congruence.
Qed.

Lemma msum_rsum (g : nat -> Z) (f : Z -> Z) (S : list Z) (d : KeyValue)
  (mapping : list KeyValue) :
forall lo : nat,
(forall k, (k < length mapping)%nat ->
           g (value (nth k mapping d)) = f (rd S (lo + k))) ->
msum g mapping = rsum f S lo (length mapping).
Proof.
induction mapping as [|kv m IH]; intros lo H; [reflexivity|].
cbn [msum fold_right length rsum].
pose proof (H O ltac:(cbn; lia)) as H0. cbn [nth] in H0.
rewrite H0, Nat.add_0_r. f_equal.
apply IH. intros k Hk. specialize (H (Datatypes.S k)). cbn [nth length] in H.
rewrite H by lia. f_equal. f_equal. lia.
Qed.

Lemma skipn_cons_rd (l : list Z) :
forall i : nat, (i < length l)%nat -> skipn i l = rd l i :: skipn (Datatypes.S i) l.
Proof.
induction l as [|x t IH]; intros i Hi; [cbn in Hi; lia|].
destruct i as [|i]; [reflexivity|].
cbn [skipn]. unfold rd. cbn [nth]. cbn [length] in Hi.
rewrite (IH i) by lia. reflexivity.
Qed.

Lemma kraft_sum_msum (K : Z) (histogram : list Z) :
forall (i : nat) (out : list Z),
length out = (i + length histogram)%nat ->
Valid.kraft_sum K histogram (skipn i out)
= msum (fun j => 2 ^ (K - rd out j)) (Sorting.build_mapping i histogram).
Proof.
induction histogram as [|x t IH]; intros i out Hlen; [reflexivity|].
cbn [length] in Hlen. rewrite skipn_cons_rd by lia.
cbn [Valid.kraft_sum Sorting.build_mapping].
rewrite IH by lia.
destruct (x =? 0); cbn [msum fold_right value]; reflexivity.
Qed.

Lemma lengths_ok_intro (L : Z) (histogram : list Z) :
forall codeLengths : list Z,
length codeLengths = length histogram ->
(forall i, (i < length histogram)%nat ->
   (rd histogram i = 0 -> rd codeLengths i = 0)
   /\ (rd histogram i <> 0 -> 1 <= rd codeLengths i <= L)) ->
Valid.lengths_ok L histogram codeLengths = true.
Proof.
induction histogram as [|x t IH]; intros cl Hlen H.
- destruct cl; [reflexivity|discriminate].
- destruct cl as [|c cs]; [discriminate|].
  cbn [Valid.lengths_ok]. apply andb_true_iff. split.
  + specialize (H O ltac:(cbn; lia)). unfold rd in H. cbn [nth] in H.
    destruct (Z.eqb_spec x 0) as [E|E].
    * apply Z.eqb_eq. tauto.
    * apply andb_true_iff. split; [apply Z.leb_le|apply Z.leb_le]; tauto.
  + apply IH; [cbn in Hlen; lia|].
    intros i Hi. specialize (H (Datatypes.S i) ltac:(cbn; lia)).
    unfold rd in *. cbn [nth] in H. exact H.
Qed.

Lemma max_len_le (m : Z) (l : list Z) :
0 <= m -> (forall x, In x l -> x <= m) -> Valid.max_len l <= m.
Proof.
unfold Valid.max_len. intros H0. induction l as [|x t IH]; intros Hle; cbn [fold_right]; [lia|].
assert (x <= m) by (apply Hle; left; reflexivity).
assert (fold_right Z.max 0 t <= m) by (apply IH; intros z Hz; apply Hle; right; exact Hz).
lia.
Qed.

Lemma max_len_ge (x : Z) (l : list Z) : In x l -> x <= Valid.max_len l.
Proof.
unfold Valid.max_len. induction l as [|y t IH]; intros Hin; [destruct Hin|].
cbn [fold_right]. destruct Hin as [->|Hin]; [lia|]. specialize (IH Hin). lia.
Qed.

Lemma max_len_spec (m : Z) (l : list Z) :
0 <= m -> (forall x, In x l -> x <= m) -> In m l -> Valid.max_len l = m.
Proof.
intros H0 Hle Hin. pose proof (max_len_le m l H0 Hle). pose proof (max_len_ge m l Hin). lia.
Qed.

Lemma rsum_scale (K m : Z) (A : list Z) (n : nat) :
forall lo : nat,
m <= K ->
(forall k, (lo <= k < lo + n)%nat -> rd A k <= m) ->
rsum (fun x => 2 ^ (K - x)) A lo n
= 2 ^ (K - m) * rsum (fun x => 2 ^ (m - x)) A lo n.
Proof.
induction n as [|n IH]; intros lo HK H; cbn [rsum]; [ring|].
rewrite IH by (auto; intros; apply H; lia).
specialize (H lo ltac:(lia)).
replace (K - rd A lo) with ((K - m) + (m - rd A lo)) by lia.
rewrite Z.pow_add_r by lia. ring.
Qed.

(** *** What the scattered lengths are *)

Section Scatter.

Variables (histogram cl0 : list Z) (mapping : list KeyValue) (S : list Z) (m : Z).
Hypothesis Hlen : length cl0 = length histogram.
Hypothesis Hzero : forall i, (i < length histogram)%nat ->
                             rd histogram i = 0 -> rd cl0 i = 0.
Hypothesis Hperm : Permutation mapping (Sorting.build_mapping 0 histogram).
Hypothesis HS : length S = length mapping.
Hypothesis Hrange : forall k, (k < length S)%nat -> 1 <= rd S k <= m.
Hypothesis Hm : m <= 255.

Lemma mapping_NoDup : NoDup (map value mapping).
Proof.
apply (Permutation_NoDup (l := map value (Sorting.build_mapping 0 histogram))).
- apply Permutation_map. symmetry. exact Hperm.
- apply build_mapping_NoDup.
Qed.

Lemma mapping_entry (k : nat) (d : KeyValue) :
(k < length mapping)%nat ->
(value (nth k mapping d) < length histogram)%nat
/\ key (nth k mapping d) = rd histogram (value (nth k mapping d))
/\ rd histogram (value (nth k mapping d)) <> 0.
Proof.
intros Hk.
assert (Hin : In (nth k mapping d) (Sorting.build_mapping 0 histogram)).
{ apply (Permutation_in _ Hperm). apply nth_In. exact Hk. }
apply build_mapping_In in Hin. destruct Hin as (j & Hj & E & Hnz).
rewrite E. cbn [value key]. auto.
Qed.

Lemma mapping_unused (i : nat) :
rd histogram i = 0 -> ~ In i (map value mapping).
Proof.
intros Hi Hin. apply in_map_iff in Hin. destruct Hin as (kv & E & Hin).
apply (Permutation_in _ Hperm) in Hin.
apply build_mapping_In in Hin. destruct Hin as (j & Hj & -> & Hnz).
cbn [value] in E. subst i. contradiction.
Qed.

Lemma mapping_used (i : nat) (d : KeyValue) :
(i < length histogram)%nat -> rd histogram i <> 0 ->
exists k, (k < length mapping)%nat /\ value (nth k mapping d) = i.
Proof.
intros Hi Hnz.
assert (Hin : In (mkKV (rd histogram i) i) mapping).
{ apply (Permutation_in _ (Permutation_sym Hperm)).
  apply build_mapping_In. exists i. auto. }
destruct (In_nth _ _ d Hin) as (k & Hk & E). exists k. split; [exact Hk|].
rewrite E. reflexivity.
Qed.

Lemma scatter_entry (k : nat) (d : KeyValue) :
(k < length mapping)%nat ->
rd (Sorting.scatter mapping S cl0) (value (nth k mapping d)) = rd S k.
Proof.
intros Hk. rewrite scatter_at.
- apply u8_id. specialize (Hrange k ltac:(lia)). lia.
- apply mapping_NoDup.
- lia.
- exact Hk.
- rewrite Hlen. apply mapping_entry. exact Hk.
Qed.

Lemma scatter_lengths_ok :
Valid.lengths_ok m histogram (Sorting.scatter mapping S cl0) = true.
Proof.
apply lengths_ok_intro.
- rewrite scatter_length. exact Hlen.
- intros i Hi. split.
  + intros H0. rewrite scatter_other by (apply mapping_unused; exact H0).
    apply Hzero; assumption.
  + intros Hnz. destruct (mapping_used i (mkKV 0 0) Hi Hnz) as (k & Hk & <-).
    rewrite scatter_entry by exact Hk. apply Hrange. lia.
Qed.

Lemma scatter_kraft (K : Z) :
Valid.kraft_sum K histogram (Sorting.scatter mapping S cl0)
= rsum (fun x => 2 ^ (K - x)) S 0 (length S).
Proof.
change (Sorting.scatter mapping S cl0)
  with (skipn 0 (Sorting.scatter mapping S cl0)).
rewrite kraft_sum_msum by (rewrite scatter_length; exact Hlen).
rewrite (msum_perm _ _ _ (Permutation_sym Hperm)).
rewrite HS. apply (msum_rsum _ _ _ (mkKV 0 0)).
intros k Hk. cbv beta. rewrite scatter_entry by exact Hk. reflexivity.
Qed.

Lemma scatter_max :
(0 < length S)%nat -> rd S 0 = m ->
Valid.max_len (Sorting.scatter mapping S cl0) = m.
Proof.
intros Hpos H0. apply max_len_spec.
- specialize (Hrange O Hpos). lia.
- intros x Hx. destruct (In_nth _ _ 0 Hx) as (i & Hi & <-).
  rewrite scatter_length, Hlen in Hi. fold (rd (Sorting.scatter mapping S cl0) i).
  destruct (Z.eq_dec (rd histogram i) 0) as [E|E].
  + rewrite scatter_other by (apply mapping_unused; exact E).
    rewrite Hzero by assumption. specialize (Hrange O Hpos). lia.
  + destruct (mapping_used i (mkKV 0 0) Hi E) as (k & Hk & <-).
    rewrite scatter_entry by exact Hk. apply Hrange. lia.
- rewrite <- H0. rewrite <- (scatter_entry O (mkKV 0 0)) by lia.
  apply nth_In. rewrite scatter_length, Hlen. apply mapping_entry. lia.
Qed.

End Scatter.

(** ** The entry points built on Moffat's algorithm *)

(** The lengths [moffatSortedInPlace] computes for the [n] used symbols
    (from any buffer of [n] weights), scattered through a mapping that
    lists the used symbols in some order. *)
Lemma sorted_lengths_valid (histogram cl0 : list Z) (mapping : list KeyValue)
  (A : list Z) :
length cl0 = length histogram ->
(forall i, (i < length histogram)%nat -> rd histogram i = 0 -> rd cl0 i = 0) ->
Permutation mapping (Sorting.build_mapping 0 histogram) ->
length A = Sorting.numNonZero histogram ->
(1 <= Sorting.numNonZero histogram <= 256)%nat ->
let n := Sorting.numNonZero histogram in
let m := fst (moffatSortedInPlace n A) in
let out := Sorting.scatter mapping (snd (moffatSortedInPlace n A)) cl0 in
length out = length histogram
/\ Valid.lengths_ok m histogram out = true
/\ Valid.kraft_sum m histogram out <= 2 ^ m
/\ ((2 <= n)%nat -> Valid.kraft_sum m histogram out = 2 ^ m)
/\ Valid.max_len out = m
/\ 1 <= m <= Z.max 1 (Z.of_nat n - 1).
Proof.
intros Hlen Hzero Hperm HA Hn n m out.
assert (Hmap : length mapping = n).
{ rewrite (Permutation_length Hperm). apply build_mapping_length. }
destruct (Nat.eq_dec n 1) as [E1|E1].
- (* a single used symbol *)
  subst m out. fold n in HA. rewrite E1 in *.
  destruct A as [|a [|b A]]; try discriminate.
  change (moffatSortedInPlace 1 [a]) with (1, [1]). cbn [fst snd].
  assert (Hrange : forall k, (k < length [1])%nat -> 1 <= rd [1] k <= 1).
  { intros k Hk. cbn in Hk. replace k with O by lia. cbn. lia. }
  split; [rewrite scatter_length; exact Hlen|].
  split; [apply scatter_lengths_ok; auto; lia|].
  assert (HK : Valid.kraft_sum 1 histogram (Sorting.scatter mapping [1] cl0) = 1).
  { rewrite scatter_kraft with (m := 1); auto; lia. }
  split; [rewrite HK; lia|]. split; [lia|].
  split; [|lia].
  apply scatter_max with (histogram := histogram); auto; try lia.
- destruct (moffat_sorted_spec n A (Z.of_nat n) HA ltac:(lia) ltac:(lia))
    as (F1 & F2 & F3 & F4 & F5).
  fold m in F4. set (S := snd (moffatSortedInPlace n A)) in *.
  assert (HmS : forall k, (k < length S)%nat -> 1 <= rd S k <= m).
  { intros k Hk. rewrite F1 in Hk. specialize (F2 k Hk). split; [lia|].
    rewrite F4. apply F3. lia. }
  assert (Hm : 1 <= m <= Z.of_nat n - 1).
  { rewrite F4. apply F2. lia. }
  assert (HK : Valid.kraft_sum m histogram out = 2 ^ m).
  { subst out. rewrite scatter_kraft with (m := m); auto; try lia.
    rewrite F1.
    rewrite (rsum_scale (Z.of_nat n) m S n 0) in F5; [|lia|].
    - replace (2 ^ Z.of_nat n) with (2 ^ (Z.of_nat n - m) * 2 ^ m) in F5
        by (rewrite <- Z.pow_add_r by lia; f_equal; lia).
      apply Z.mul_reg_l in F5; [exact F5|].
      apply Z.pow_nonzero; lia.
    - intros k Hk. apply HmS. lia. }
  split; [subst out; rewrite scatter_length; exact Hlen|].
  split; [subst out; apply scatter_lengths_ok; auto; lia|].
  split; [lia|]. split; [auto|].
  split; [|lia].
  subst out. apply scatter_max with (histogram := histogram); auto; try lia.
Qed.

(** The output buffer of [moffat] after its first loop. *)
Lemma moffat_cl0 (histogram codeLengths : list Z) :
length codeLengths = length histogram ->
length (map (fun '(h, c) => if h =? 0 then 0 else c) (combine histogram codeLengths))
= length histogram
/\ forall i, (i < length histogram)%nat -> rd histogram i = 0 ->
   rd (map (fun '(h, c) => if h =? 0 then 0 else c) (combine histogram codeLengths)) i = 0.
Proof.
revert codeLengths.
induction histogram as [|x t IH]; intros cl Hlen.
- split; [reflexivity|]. intros i Hi. cbn in Hi. lia.
- destruct cl as [|c cs]; [discriminate|].
  cbn [combine map length]. destruct (IH cs ltac:(cbn in Hlen; lia)) as (L1 & L2).
  split; [rewrite L1; reflexivity|].
  intros i Hi H0. destruct i as [|i].
  + unfold rd in *. cbn [nth] in *. rewrite H0. reflexivity.
  + unfold rd in *. cbn [nth] in *. apply L2; [cbn in Hi; lia|exact H0].
Qed.

Lemma sorted_keys_length (histogram : list Z) :
length (map key (Sorting.qsort compareKeyValue (Sorting.build_mapping 0 histogram)))
= Sorting.numNonZero histogram.
Proof.
rewrite length_map, (Permutation_length (qsort_perm _ _)).
apply build_mapping_length.
Qed.

(** X1.  [moffat] on a histogram with between 1 and 256 used symbols, of
    counts below [2^31] (where [compareKeyValue] orders the counts, so
    that every sorting routine returns them ascending) and in any
    order: the output has a zero exactly at the unused symbols, every
    used symbol has a length between 1 and the returned value [m], [m]
    is the longest length, and the lengths satisfy the Kraft
    inequality, with equality (a complete code) as soon as two symbols
    are used. *)
Theorem moffat_complete_code (histogram codeLengths : list Z) :
length codeLengths = length histogram ->
Forall (fun h => 0 <= h < 2 ^ 31) histogram ->
(1 <= Sorting.numNonZero histogram <= 256)%nat ->
length (snd (moffat histogram codeLengths)) = length histogram
/\ Valid.valid (fst (moffat histogram codeLengths)) (fst (moffat histogram codeLengths))
               histogram (snd (moffat histogram codeLengths)) = true
/\ ((2 <= Sorting.numNonZero histogram)%nat ->
    Valid.kraft_sum (fst (moffat histogram codeLengths)) histogram
                    (snd (moffat histogram codeLengths))
    = 2 ^ fst (moffat histogram codeLengths))
/\ 1 <= fst (moffat histogram codeLengths)
     <= Z.max 1 (Z.of_nat (Sorting.numNonZero histogram) - 1).
Proof.
intros Hlen _ Hn. unfold moffat.
replace (Sorting.numNonZero histogram =? 0)%nat with false
  by (symmetry; apply Nat.eqb_neq; lia).
destruct (moffat_cl0 histogram codeLengths Hlen) as (L1 & L2).
pose proof (sorted_lengths_valid histogram _ _ _ L1 L2
              (qsort_perm compareKeyValue (Sorting.build_mapping 0 histogram))
              (sorted_keys_length histogram) Hn) as H.
cbv zeta in H.
destruct (moffatSortedInPlace (Sorting.numNonZero histogram)
            (map key (Sorting.qsort compareKeyValue (Sorting.build_mapping 0 histogram))))
  as [result sorted'].
cbn [fst snd] in *.
destruct H as (H1 & H2 & H3 & H4 & H5 & H6).
split; [exact H1|]. split; [|split; [exact H4|exact H6]].
unfold Valid.valid. rewrite H2, H5.
replace (Valid.kraft_sum result histogram
           (Sorting.scatter (Sorting.qsort compareKeyValue (Sorting.build_mapping 0 histogram))
                            sorted'
                            (map (fun '(h, c) => if h =? 0 then 0 else c)
                                 (combine histogram codeLengths))) <=? 2 ^ result)
  with true by (symmetry; apply Z.leb_le; exact H3).
rewrite Z.eqb_refl. reflexivity.
Qed.

Lemma moffat_complete_code_witness :
length (snd (moffat [5;0;1;2;1] [9;9;9;9;9])) = 5%nat
/\ Valid.valid (fst (moffat [5;0;1;2;1] [9;9;9;9;9])) (fst (moffat [5;0;1;2;1] [9;9;9;9;9]))
               [5;0;1;2;1] (snd (moffat [5;0;1;2;1] [9;9;9;9;9])) = true
/\ ((2 <= Sorting.numNonZero [5;0;1;2;1]%Z)%nat ->
    Valid.kraft_sum (fst (moffat [5;0;1;2;1] [9;9;9;9;9])) [5;0;1;2;1]
                    (snd (moffat [5;0;1;2;1] [9;9;9;9;9]))
    = 2 ^ fst (moffat [5;0;1;2;1] [9;9;9;9;9]))
/\ 1 <= fst (moffat [5;0;1;2;1] [9;9;9;9;9])
     <= Z.max 1 (Z.of_nat (Sorting.numNonZero [5;0;1;2;1]) - 1).
Proof.
apply (moffat_complete_code [5;0;1;2;1] [9;9;9;9;9]).
- reflexivity.
- repeat constructor; lia.
- change (1 <= 4 <= 256)%nat. lia.
Defined.

(** *** The buffer keeps its size *)

Lemma length_first_child (numCodes next : nat) (s : st1) :
length (fst (fst (first_child numCodes next s))) = length (fst (fst s)).
Proof.
destruct s as [[A leaf] root]. unfold first_child.
destruct (take_root numCodes next leaf root A); cbn [fst]; rewrite ?length_upd; reflexivity.
Qed.

Lemma length_second_child (numCodes next : nat) (s : st1) :
length (fst (fst (second_child numCodes next s))) = length (fst (fst s)).
Proof.
destruct s as [[A leaf] root]. unfold second_child.
destruct (take_root numCodes next leaf root A); cbn [fst]; rewrite ?length_upd; reflexivity.
Qed.

Lemma length_phase1 (numCodes n : nat) :
forall (next : nat) (s : st1),
length (fst (fst (phase1 numCodes n next s))) = length (fst (fst s)).
Proof.
induction n as [|n IH]; intros next s; [reflexivity|].
cbn [phase1]. rewrite IH, length_second_child, length_first_child. reflexivity.
Qed.

Lemma length_phase2 (j1 : nat) :
forall A : list Z, length (phase2 j1 A) = length A.
Proof.
induction j1 as [|j IH]; intros A; [reflexivity|].
cbn [phase2]. rewrite IH. apply length_upd.
Qed.

Lemma length_fill_leaves (n : nat) (depth : Z) :
forall (A : list Z) (next avail : Z),
length (fst (fst (fill_leaves n depth A next avail))) = length A.
Proof.
induction n as [|n IH]; intros A next avail; [reflexivity|].
cbn [fill_leaves]. rewrite IH. apply length_upd.
Qed.

Lemma length_phase3 (fuel : nat) :
forall (A : list Z) (avail depth : Z) (root2p : nat) (next : Z),
length (phase3 fuel A avail depth root2p next) = length A.
Proof.
induction fuel as [|fuel IH]; intros A avail depth root2p next; [reflexivity|].
cbn [phase3]. destruct (0 <? avail); [|reflexivity].
destruct (count_roots A depth root2p 0) as [root2p' used].
pose proof (length_fill_leaves (Z.to_nat (avail - used)) depth A next avail) as H.
destruct (fill_leaves (Z.to_nat (avail - used)) depth A next avail) as [[A' next'] a'].
cbn [fst] in H. rewrite IH. exact H.
Qed.

Lemma length_moffatSorted (numCodes : nat) (A : list Z) :
length (snd (moffatSortedInPlace numCodes A)) = length A.
Proof.
unfold moffatSortedInPlace. destruct numCodes as [|[|m]]; cbn [snd].
- reflexivity.
- apply length_upd.
- pose proof (length_phase1 (S (S m)) (S (S m) - 1) 0 (A, O, O)) as H.
  destruct (phase1 (S (S m)) (S (S m) - 1) 0 (A, O, O)) as [[A1 leaf] root].
  cbn [fst snd] in *. rewrite length_phase3, length_phase2, length_upd. exact H.
Qed.

(** *** Two output buffers that differ only where symbols are used *)

Lemma scatter_ext (mapping : list KeyValue) (S cla clb : list Z) :
NoDup (map value mapping) -> (length mapping <= length S)%nat ->
length cla = length clb ->
(forall kv, In kv mapping -> (value kv < length cla)%nat) ->
(forall j, ~ In j (map value mapping) -> rd cla j = rd clb j) ->
Sorting.scatter mapping S cla = Sorting.scatter mapping S clb.
Proof.
intros Hnd Hlen Hab Hv Hout.
apply (nth_ext _ _ 0 0).
- rewrite !scatter_length. exact Hab.
- intros j Hj. fold (rd (Sorting.scatter mapping S cla) j).
  fold (rd (Sorting.scatter mapping S clb) j).
  destruct (in_dec Nat.eq_dec j (map value mapping)) as [Hin|Hnin].
  + apply in_map_iff in Hin. destruct Hin as (kv & <- & Hin).
    destruct (In_nth _ _ (mkKV 0 0) Hin) as (k & Hk & <-).
    rewrite !scatter_at; auto.
    all: try rewrite <- Hab; apply Hv; apply nth_In; exact Hk.
  + rewrite !scatter_other by exact Hnin. apply Hout. exact Hnin.
Qed.

Lemma numNonZero_le (histogram : list Z) :
(Sorting.numNonZero histogram <= length histogram)%nat.
Proof. unfold Sorting.numNonZero. apply filter_length_le. Qed.

Lemma numNonZero_full (histogram : list Z) :
Sorting.numNonZero histogram = length histogram ->
forall i, (i < length histogram)%nat -> rd histogram i <> 0.
Proof.
unfold Sorting.numNonZero.
induction histogram as [|x t IH]; intros H i Hi; [cbn in Hi; lia|].
cbn [filter] in H. pose proof (filter_length_le (fun h => negb (h =? 0)) t) as Hle.
destruct (Z.eqb_spec x 0) as [E|E]; cbn [negb length] in H; [lia|].
destruct i as [|i]; unfold rd; cbn [nth]; [exact E|].
apply IH; [lia|cbn in Hi; lia].
Qed.

Lemma rd_zeros (l : list Z) (j : nat) : rd (map (fun _ => 0) l) j = 0.
Proof.
unfold rd. revert j. induction l as [|x t IH]; intros [|j]; cbn [map nth]; auto.
Qed.

(** The output buffers of [moffat] and of the limited entry points
    agree wherever no length is scattered. *)
Lemma init_output_agrees (histogram codeLengths : list Z) (mapping : list KeyValue) :
length codeLengths = length histogram ->
Permutation mapping (Sorting.build_mapping 0 histogram) ->
forall S : list Z, (length mapping <= length S)%nat ->
Sorting.scatter mapping S (Sorting.init_output histogram codeLengths)
= Sorting.scatter mapping S
    (map (fun '(h, c) => if h =? 0 then 0 else c) (combine histogram codeLengths)).
Proof.
intros Hlen Hperm S HS.
destruct (moffat_cl0 histogram codeLengths Hlen) as (L1 & L2).
assert (Hinit : length (Sorting.init_output histogram codeLengths) = length histogram).
{ unfold Sorting.init_output.
  destruct (Sorting.numNonZero histogram <? length histogram)%nat;
    rewrite ?length_map; exact Hlen. }
apply scatter_ext.
- apply (mapping_NoDup histogram). exact Hperm.
- exact HS.
- rewrite Hinit, L1. reflexivity.
- intros kv Hin. rewrite Hinit.
  apply (Permutation_in _ Hperm) in Hin. apply build_mapping_In in Hin.
  destruct Hin as (k & Hk & -> & _). cbn [value]. lia.
- intros j Hj.
  destruct (Nat.lt_ge_cases j (length histogram)) as [Hlt|Hge];
    [|rewrite !rd_out by lia; reflexivity].
  destruct (Z.eq_dec (rd histogram j) 0) as [E|E].
  + rewrite L2 by assumption. unfold Sorting.init_output.
    destruct (Nat.ltb_spec (Sorting.numNonZero histogram) (length histogram)) as [Hz|Hz].
    * apply rd_zeros.
    * exfalso. pose proof (numNonZero_le histogram).
      apply (numNonZero_full histogram ltac:(lia) j Hlt). exact E.
  + exfalso. apply Hj.
    apply (Permutation_in _ (Permutation_map value (Permutation_sym Hperm))).
    apply in_map_iff. exists (mkKV (rd histogram j) j). split; [reflexivity|].
    apply build_mapping_In. exists j. auto.
Qed.

(** *** When the Huffman code already fits the limit *)

Lemma limitedImpl_fits (algorithm : Impl.LimitedInPlace) (fuel maxLength : nat)
  (histogram codeLengths : list Z) :
length codeLengths = length histogram ->
(1 <= maxLength <= 63)%nat ->
(1 <= Sorting.numNonZero histogram)%nat ->
fst (moffat histogram codeLengths) <= Z.of_nat maxLength ->
Impl.limitedImpl algorithm fuel maxLength histogram codeLengths
= Ok (moffat histogram codeLengths).
Proof.
intros Hlen HL Hn Hfit. pose proof (numNonZero_le histogram) as Hle.
unfold Impl.limitedImpl, moffat in *.
replace (maxLength =? 0)%nat with false by (symmetry; apply Nat.eqb_neq; lia).
replace (63 <? maxLength)%nat with false by (symmetry; apply Nat.ltb_ge; lia).
replace (length histogram =? 0)%nat with false by (symmetry; apply Nat.eqb_neq; lia).
replace (Sorting.numNonZero histogram =? 0)%nat with false in *
  by (symmetry; apply Nat.eqb_neq; lia).
cbn [orb].
pose proof (length_moffatSorted (Sorting.numNonZero histogram)
              (map key (Sorting.qsort compareKeyValue (Sorting.build_mapping 0 histogram))))
  as HS.
rewrite sorted_keys_length in HS.
destruct (moffatSortedInPlace (Sorting.numNonZero histogram)
            (map key (Sorting.qsort compareKeyValue (Sorting.build_mapping 0 histogram))))
  as [result sorted'].
cbn [fst snd] in *.
replace (result <=? Z.of_nat maxLength) with true by (symmetry; apply Z.leb_le; exact Hfit).
rewrite init_output_agrees; auto.
- apply qsort_perm.
- rewrite (Permutation_length (qsort_perm _ _)), build_mapping_length. lia.
Qed.

(** X6.  Whenever the unlimited Huffman code already fits the limit,
    [limitedJpeg], [limitedMiniz] and [limitedBzip2] return what [moffat]
    returns, value and lengths, for any histogram with a used symbol
    and counts below [2^31] (where [compareKeyValue] orders the
    counts). *)
Theorem limited_entry_points_fit (fuel maxLength : nat) (histogram codeLengths : list Z) :
length codeLengths = length histogram ->
Forall (fun h => 0 <= h < 2 ^ 31) histogram ->
(1 <= maxLength <= 63)%nat ->
(1 <= Sorting.numNonZero histogram)%nat ->
fst (moffat histogram codeLengths) <= Z.of_nat maxLength ->
Impl.limitedJpeg fuel maxLength histogram codeLengths = Ok (moffat histogram codeLengths)
/\ Impl.limitedMiniz fuel maxLength histogram codeLengths = Ok (moffat histogram codeLengths)
/\ Bzip2.limitedBzip2 (S fuel) maxLength histogram codeLengths
   = Some (moffat histogram codeLengths).
Proof.
intros Hlen _ HL Hn Hfit.
split; [apply limitedImpl_fits; assumption|].
split; [apply limitedImpl_fits; assumption|].
unfold Bzip2.limitedBzip2, moffat in *.
replace (Sorting.numNonZero histogram =? 0)%nat with false in *
  by (symmetry; apply Nat.eqb_neq; lia).
pose proof (length_moffatSorted (Sorting.numNonZero histogram)
              (map key (Sorting.qsort compareKeyValue (Sorting.build_mapping 0 histogram))))
  as HS.
rewrite sorted_keys_length in HS.
destruct (moffatSortedInPlace (Sorting.numNonZero histogram)
            (map key (Sorting.qsort compareKeyValue (Sorting.build_mapping 0 histogram))))
  as [result sorted'].
cbn [fst snd] in *. cbn [Bzip2.rerun].
replace (Z.of_nat maxLength <? result) with false by (symmetry; apply Z.ltb_ge; exact Hfit).
rewrite init_output_agrees; auto.
- apply qsort_perm.
- rewrite (Permutation_length (qsort_perm _ _)), build_mapping_length. lia.
Qed.

Lemma limited_entry_points_fit_witness :
Impl.limitedJpeg 7 4 [5;0;1;2;1] [9;9;9;9;9] = Ok (moffat [5;0;1;2;1] [9;9;9;9;9])
/\ Impl.limitedMiniz 7 4 [5;0;1;2;1] [9;9;9;9;9] = Ok (moffat [5;0;1;2;1] [9;9;9;9;9])
/\ Bzip2.limitedBzip2 8 4 [5;0;1;2;1] [9;9;9;9;9]
   = Some (moffat [5;0;1;2;1] [9;9;9;9;9]).
Proof.
apply (limited_entry_points_fit 7 4 [5;0;1;2;1] [9;9;9;9;9]).
- reflexivity.
- repeat constructor; lia.
- lia.
- change (1 <= 4)%nat. lia.
- vm_compute. discriminate.
Defined.

(** *** limitedBzip2 *)

Lemma rerun_result (fuel maxLength n : nat) :
forall (mapping : list KeyValue) (sorted : list Z) (result : Z) (A : list Z),
length mapping = n -> length A = n ->
(result, sorted) = moffatSortedInPlace n A ->
forall (sorted' : list Z) (result' : Z),
Bzip2.rerun fuel maxLength n mapping sorted result = Some (sorted', result') ->
result' <= Z.of_nat maxLength
/\ exists A', length A' = n /\ (result', sorted') = moffatSortedInPlace n A'.
Proof.
induction fuel as [|fuel IH]; intros mapping sorted result A Hm HA E sorted' result' H;
  [discriminate|].
cbn [Bzip2.rerun] in H.
destruct (Z.ltb_spec (Z.of_nat maxLength) result) as [Hlt|Hge].
- set (mapping' := map (fun kv => mkKV (Bzip2.rescale (key kv)) (value kv)) mapping) in *.
  destruct (moffatSortedInPlace n (map key mapping')) as [r1 s1] eqn:E1.
  apply (IH mapping' s1 r1 (map key mapping')); auto.
  + subst mapping'. rewrite length_map. exact Hm.
  + subst mapping'. rewrite !length_map. exact Hm.
- inversion H; subst. split; [exact Hge|]. exists A. split; assumption.
Qed.

(** What [limitedBzip2] returns, when it returns. *)
Lemma bzip2_result_valid (fuel maxLength : nat) (histogram codeLengths : list Z)
  (m : Z) (out : list Z) :
length codeLengths = length histogram ->
(1 <= Sorting.numNonZero histogram <= 256)%nat ->
Bzip2.limitedBzip2 fuel maxLength histogram codeLengths = Some (m, out) ->
1 <= m <= Z.of_nat maxLength
/\ length out = length histogram
/\ Valid.valid m m histogram out = true
/\ ((2 <= Sorting.numNonZero histogram)%nat -> Valid.kraft_sum m histogram out = 2 ^ m).
Proof.
intros Hlen Hn H. unfold Bzip2.limitedBzip2 in H.
replace (Sorting.numNonZero histogram =? 0)%nat with false in H
  by (symmetry; apply Nat.eqb_neq; lia).
set (mapping := Sorting.qsort compareKeyValue (Sorting.build_mapping 0 histogram)) in *.
assert (Hperm : Permutation mapping (Sorting.build_mapping 0 histogram))
  by apply qsort_perm.
assert (Hmap : length mapping = Sorting.numNonZero histogram).
{ rewrite (Permutation_length Hperm). apply build_mapping_length. }
destruct (moffatSortedInPlace (Sorting.numNonZero histogram) (map key mapping))
  as [result sorted] eqn:E0.
destruct (Bzip2.rerun fuel maxLength (Sorting.numNonZero histogram) mapping sorted result)
  as [[sorted' result']|] eqn:E1; [|discriminate].
inversion H; subst m out. clear H.
destruct (rerun_result _ _ _ mapping sorted result (map key mapping) Hmap
            ltac:(rewrite length_map; exact Hmap) (eq_sym E0) _ _ E1)
  as (Hle & A' & HA' & E').
assert (Hinit : length (Sorting.init_output histogram codeLengths) = length histogram).
{ unfold Sorting.init_output.
  destruct (Sorting.numNonZero histogram <? length histogram)%nat;
    rewrite ?length_map; exact Hlen. }
assert (HS' : (length mapping <= length sorted')%nat).
{ replace sorted' with (snd (moffatSortedInPlace (Sorting.numNonZero histogram) A'))
    by (rewrite <- E'; reflexivity).
  rewrite length_moffatSorted. lia. }
rewrite init_output_agrees by assumption.
destruct (moffat_cl0 histogram codeLengths Hlen) as (L1 & L2).
pose proof (sorted_lengths_valid histogram _ mapping A' L1 L2 Hperm HA' Hn) as V.
cbv zeta in V. rewrite <- E' in V. cbn [fst snd] in V.
destruct V as (V1 & V2 & V3 & V4 & V5 & V6).
split; [lia|]. split; [exact V1|]. split; [|exact V4].
unfold Valid.valid. rewrite V2, V5.
apply Z.leb_le in V3. rewrite V3. rewrite Z.eqb_refl. reflexivity.
Qed.

(** X9.  Whenever [limitedBzip2] returns on a histogram with between 1 and
    256 used symbols, of counts below [2^31] (where [compareKeyValue]
    orders the counts), the returned value [m] is within the limit, the
    output has a zero exactly at the unused symbols and a length between
    1 and [m] at the used ones, [m] is the longest length, and the Kraft
    inequality holds, with equality as soon as two symbols are used. *)
Theorem limitedBzip2_valid (fuel maxLength : nat) (histogram codeLengths : list Z)
  (m : Z) (out : list Z) :
length codeLengths = length histogram ->
Forall (fun h => 0 <= h < 2 ^ 31) histogram ->
(1 <= Sorting.numNonZero histogram <= 256)%nat ->
Bzip2.limitedBzip2 fuel maxLength histogram codeLengths = Some (m, out) ->
1 <= m <= Z.of_nat maxLength
/\ length out = length histogram
/\ Valid.valid m m histogram out = true
/\ ((2 <= Sorting.numNonZero histogram)%nat -> Valid.kraft_sum m histogram out = 2 ^ m).
Proof.
intros Hlen _ Hn H. exact (bzip2_result_valid fuel maxLength histogram codeLengths m out Hlen Hn H).
Qed.

Lemma limitedBzip2_valid_witness :
1 <= 3 <= Z.of_nat 3
/\ length [2;0;3;3;3;2;3] = length [60;0;1;2;4;9;1]
/\ Valid.valid 3 3 [60;0;1;2;4;9;1] [2;0;3;3;3;2;3] = true
/\ ((2 <= Sorting.numNonZero [60;0;1;2;4;9;1]%Z)%nat ->
    Valid.kraft_sum 3 [60;0;1;2;4;9;1] [2;0;3;3;3;2;3] = 2 ^ 3).
Proof.
apply (limitedBzip2_valid 30 3 [60;0;1;2;4;9;1] [9;9;9;9;9;9;9] 3 [2;0;3;3;3;2;3]).
- reflexivity.
- repeat constructor; lia.
- change (1 <= 6 <= 256)%nat. lia.
- vm_compute. reflexivity.
Defined.

(** *** Frequent symbols get the short codes *)

Lemma sorted_lengths_monotone (histogram cl0 : list Z) (mapping : list KeyValue)
  (A : list Z) :
length cl0 = length histogram ->
Permutation mapping (Sorting.build_mapping 0 histogram) ->
StronglySorted (fun a b => key a <= key b) mapping ->
length A = Sorting.numNonZero histogram ->
(1 <= Sorting.numNonZero histogram <= 256)%nat ->
forall i j, (i < length histogram)%nat -> (j < length histogram)%nat ->
0 < rd histogram i < rd histogram j ->
rd (Sorting.scatter mapping (snd (moffatSortedInPlace (Sorting.numNonZero histogram) A)) cl0) j
<= rd (Sorting.scatter mapping (snd (moffatSortedInPlace (Sorting.numNonZero histogram) A)) cl0) i.
Proof.
intros Hlen Hperm Hsorted HA Hn i j Hi Hj Hij.
set (n := Sorting.numNonZero histogram) in *.
assert (Hmap : length mapping = n).
{ rewrite (Permutation_length Hperm). apply build_mapping_length. }
destruct (mapping_used histogram mapping Hperm i (mkKV 0 0) Hi ltac:(lia)) as (ki & Hki & Ei).
destruct (mapping_used histogram mapping Hperm j (mkKV 0 0) Hj ltac:(lia)) as (kj & Hkj & Ej).
destruct (mapping_entry histogram mapping Hperm ki (mkKV 0 0) Hki) as (_ & Ki & _).
destruct (mapping_entry histogram mapping Hperm kj (mkKV 0 0) Hkj) as (_ & Kj & _).
rewrite Ei in Ki. rewrite Ej in Kj.
assert (Hlt : (ki < kj)%nat).
{ destruct (Nat.lt_ge_cases ki kj) as [H|H]; [exact H|exfalso].
  pose proof (strongly_sorted_nth mapping Hsorted (mkKV 0 0) kj ki ltac:(lia)). lia. }
assert (H2 : (2 <= n)%nat) by lia.
destruct (moffat_sorted_spec n A (Z.of_nat n) HA ltac:(lia) ltac:(lia))
  as (F1 & F2 & F3 & F4 & _).
set (S := snd (moffatSortedInPlace n A)) in *.
assert (Hrange : forall k, (k < length S)%nat -> 1 <= rd S k <= 255).
{ intros k Hk. rewrite F1 in Hk. specialize (F2 k Hk). lia. }
rewrite <- Ei, <- Ej.
rewrite !(scatter_entry histogram cl0 mapping S 255) by (auto; lia).
apply F3. lia.
Qed.

Lemma build_mapping_keys (histogram : list Z) :
Forall (fun h => 0 <= h < 2 ^ 31) histogram ->
Forall (fun kv => 0 <= key kv < 2 ^ 31) (Sorting.build_mapping 0 histogram).
Proof.
intros H. rewrite Forall_forall in *. intros kv Hkv.
apply build_mapping_In in Hkv. destruct Hkv as (k & Hk & -> & _).
cbn [key]. apply H. apply nth_In. exact Hk.
Qed.

(** X5.  For counts below [2^31] and between 1 and 256 used symbols, a
    symbol used more often than another never gets the longer code:
    in the output of [moffat], and in whatever [limitedBzip2] returns. *)
Theorem frequent_symbols_shorter (histogram codeLengths : list Z) :
length codeLengths = length histogram ->
Forall (fun h => 0 <= h < 2 ^ 31) histogram ->
(1 <= Sorting.numNonZero histogram <= 256)%nat ->
(forall i j, (i < length histogram)%nat -> (j < length histogram)%nat ->
   0 < rd histogram i < rd histogram j ->
   rd (snd (moffat histogram codeLengths)) j <= rd (snd (moffat histogram codeLengths)) i)
/\ (forall (fuel maxLength : nat) (m : Z) (out : list Z),
      Bzip2.limitedBzip2 fuel maxLength histogram codeLengths = Some (m, out) ->
      forall i j, (i < length histogram)%nat -> (j < length histogram)%nat ->
      0 < rd histogram i < rd histogram j -> rd out j <= rd out i).
Proof.
intros Hlen Hh Hn.
set (mapping := Sorting.qsort compareKeyValue (Sorting.build_mapping 0 histogram)).
assert (Hperm : Permutation mapping (Sorting.build_mapping 0 histogram))
  by apply qsort_perm.
assert (Hsorted : StronglySorted (fun a b => key a <= key b) mapping)
  by (apply qsort_sorted, build_mapping_keys; exact Hh).
assert (Hmap : length mapping = Sorting.numNonZero histogram).
{ rewrite (Permutation_length Hperm). apply build_mapping_length. }
destruct (moffat_cl0 histogram codeLengths Hlen) as (L1 & L2).
split.
- intros i j Hi Hj Hij. unfold moffat.
  replace (Sorting.numNonZero histogram =? 0)%nat with false
    by (symmetry; apply Nat.eqb_neq; lia).
  fold mapping.
  pose proof (sorted_lengths_monotone histogram _ mapping (map key mapping) L1 Hperm Hsorted
                ltac:(rewrite length_map; exact Hmap) Hn i j Hi Hj Hij) as H.
  destruct (moffatSortedInPlace (Sorting.numNonZero histogram) (map key mapping))
    as [result sorted'].
  exact H.
- intros fuel maxLength m out H i j Hi Hj Hij.
  unfold Bzip2.limitedBzip2 in H.
  replace (Sorting.numNonZero histogram =? 0)%nat with false in H
    by (symmetry; apply Nat.eqb_neq; lia).
  fold mapping in H.
  destruct (moffatSortedInPlace (Sorting.numNonZero histogram) (map key mapping))
    as [result sorted] eqn:E0.
  destruct (Bzip2.rerun fuel maxLength (Sorting.numNonZero histogram) mapping sorted result)
    as [[sorted' result']|] eqn:E1; [|discriminate].
  inversion H; subst m out. clear H.
  destruct (rerun_result _ _ _ mapping sorted result (map key mapping) Hmap
              ltac:(rewrite length_map; exact Hmap) (eq_sym E0) _ _ E1)
    as (_ & A' & HA' & E').
  assert (HS' : (length mapping <= length sorted')%nat).
  { replace sorted' with (snd (moffatSortedInPlace (Sorting.numNonZero histogram) A'))
      by (rewrite <- E'; reflexivity).
    rewrite length_moffatSorted. lia. }
  rewrite init_output_agrees by assumption.
  pose proof (sorted_lengths_monotone histogram _ mapping A' L1 Hperm Hsorted
                HA' Hn i j Hi Hj Hij) as H.
  rewrite <- E' in H. exact H.
Qed.

Lemma frequent_symbols_shorter_witness :
(forall i j, (i < length [60;0;1;2;4;9;1])%nat -> (j < length [60;0;1;2;4;9;1])%nat ->
   0 < rd [60;0;1;2;4;9;1] i < rd [60;0;1;2;4;9;1] j ->
   rd (snd (moffat [60;0;1;2;4;9;1] [9;9;9;9;9;9;9])) j
   <= rd (snd (moffat [60;0;1;2;4;9;1] [9;9;9;9;9;9;9])) i)
/\ (forall (fuel maxLength : nat) (m : Z) (out : list Z),
      Bzip2.limitedBzip2 fuel maxLength [60;0;1;2;4;9;1] [9;9;9;9;9;9;9] = Some (m, out) ->
      forall i j, (i < length [60;0;1;2;4;9;1])%nat -> (j < length [60;0;1;2;4;9;1])%nat ->
      0 < rd [60;0;1;2;4;9;1] i < rd [60;0;1;2;4;9;1] j -> rd out j <= rd out i).
Proof.
apply (frequent_symbols_shorter [60;0;1;2;4;9;1] [9;9;9;9;9;9;9]).
- reflexivity.
- repeat constructor; lia.
- change (1 <= 6 <= 256)%nat. lia.
Defined.

(** ** The reduction path of limitedImpl *)

(** *** The histogram of the code lengths *)

Lemma rsum_cons (f : Z -> Z) (s : Z) (t : list Z) (n : nat) :
forall lo, rsum f (s :: t) (S lo) n = rsum f t lo n.
Proof.
induction n as [|n IH]; intros lo; cbn [rsum]; [reflexivity|].
rewrite IH. reflexivity.
Qed.

Lemma rsum_fext (f g : Z -> Z) (A : list Z) (n : nat) :
forall lo, (forall k, (lo <= k < lo + n)%nat -> f (rd A k) = g (rd A k)) ->
rsum f A lo n = rsum g A lo n.
Proof.
induction n as [|n IH]; intros lo H; cbn [rsum]; [reflexivity|].
rewrite H by lia. rewrite IH by (intros; apply H; lia). reflexivity.
Qed.

Lemma rsum_le (f : Z -> Z) (A : list Z) (c : Z) (n : nat) :
forall lo, (forall k, (lo <= k < lo + n)%nat -> f (rd A k) <= c) ->
rsum f A lo n <= Z.of_nat n * c.
Proof.
induction n as [|n IH]; intros lo H; cbn [rsum]; [lia|].
specialize (IH (S lo) ltac:(intros; apply H; lia)).
specialize (H lo ltac:(lia)). lia.
Qed.

Lemma rsum_ones (f : Z -> Z) (A : list Z) (n : nat) :
forall lo, (forall x, f x = 1) -> rsum f A lo n = Z.of_nat n.
Proof.
induction n as [|n IH]; intros lo H; cbn [rsum]; [reflexivity|].
rewrite H, IH by exact H. lia.
Qed.

Lemma rsum_nonneg (f : Z -> Z) (A : list Z) (n : nat) :
forall lo, (forall x, 0 <= f x) -> 0 <= rsum f A lo n.
Proof.
induction n as [|n IH]; intros lo H; cbn [rsum]; [lia|].
specialize (IH (S lo) H). specialize (H (rd A lo)). lia.
Qed.

Lemma rd_repeat0 (n l : nat) : rd (repeat 0 n) l = 0.
Proof.
unfold rd. revert l. induction n as [|n IH]; intros [|l]; cbn [repeat nth]; auto.
Qed.

Lemma build_hist_spec (n : nat) (S : list Z) :
forall bits : list Z,
(n <= 63)%nat -> (n < length bits)%nat ->
(forall x, In x S -> 1 <= x <= Z.of_nat n) ->
(forall l, (1 <= l <= n)%nat -> 0 <= rd bits l) ->
count n bits + Z.of_nat (length S) < 2 ^ 32 ->
exists bits',
  Impl.build_hist S bits = Ok bits'
  /\ length bits' = length bits
  /\ (forall l, (1 <= l <= n)%nat -> 0 <= rd bits' l)
  /\ (forall l, (forall x, In x S -> Z.to_nat x <> l) -> rd bits' l = rd bits l)
  /\ (forall w, wsum w n bits'
                = wsum w n bits + rsum (fun x => w (Z.to_nat x)) S 0 (length S)).
Proof.
induction S as [|s t IH]; intros bits Hn Hlen HS Hnn Hc.
- exists bits. cbn [Impl.build_hist length rsum].
  split; [reflexivity|]. split; [reflexivity|]. split; [exact Hnn|].
  split; [reflexivity|]. intros w. lia.
- cbn [Impl.build_hist].
  assert (Hs : 1 <= s <= Z.of_nat n) by (apply HS; left; reflexivity).
  replace (64 <=? s) with false by (symmetry; apply Z.leb_gt; lia).
  change (upd (Z.to_nat s) (u32 (rd bits (Z.to_nat s) + 1)) bits)
    with (add_at (Z.to_nat s) 1 bits).
  cbn [length] in Hc. rewrite Nat2Z.inj_succ in Hc.
  assert (H0 : 0 <= rd bits (Z.to_nat s)) by (apply Hnn; lia).
  destruct (add_at_sound n (Z.to_nat s) 1 bits Hnn ltac:(lia) ltac:(lia)
              ltac:(lia) ltac:(lia)) as (N1 & W1 & R1).
  destruct (IH (add_at (Z.to_nat s) 1 bits)) as (bits' & E & L' & N' & O' & W').
  + exact Hn.
  + rewrite length_add_at. exact Hlen.
  + intros x Hx. apply HS. right. exact Hx.
  + exact N1.
  + unfold count in Hc |- *. rewrite W1. lia.
  + exists bits'. split; [exact E|].
    split; [rewrite L'; apply length_add_at|]. split; [exact N'|].
    split.
    * intros l Hl. rewrite O' by (intros x Hx; apply Hl; right; exact Hx).
      apply rd_add_at_ne. apply Hl. left. reflexivity.
    * intros w. rewrite W', W1. cbn [length rsum]. rewrite rsum_cons.
      change (rd (s :: t) 0) with s. lia.
Qed.

(** *** The final loop *)

Lemma search_nonzero_cases (bits : list Z) (reduce : nat) :
(Impl.search_nonzero bits reduce = OutOfBounds 255
 /\ forall l, (l <= reduce)%nat -> rd bits l = 0)
\/ (exists r, Impl.search_nonzero bits reduce = Ok r
              /\ (r <= reduce)%nat /\ rd bits r <> 0
              /\ forall l, (r < l <= reduce)%nat -> rd bits l = 0).
Proof.
induction reduce as [|reduce IH]; cbn [Impl.search_nonzero].
- destruct (Z.eqb_spec (rd bits 0) 0) as [E|E].
  + left. split; [reflexivity|]. intros l Hl. replace l with O by lia. exact E.
  + right. exists O. split; [reflexivity|]. split; [lia|]. split; [exact E|].
    intros l Hl. lia.
- destruct (Z.eqb_spec (rd bits (S reduce)) 0) as [E|E].
  + destruct IH as [(E1 & Hz)|(r & E1 & Hr & Hnz & Hz)].
    * left. split; [exact E1|]. intros l Hl.
      destruct (Nat.eq_dec l (S reduce)) as [->|]; [exact E|apply Hz; lia].
    * right. exists r. split; [exact E1|]. split; [lia|]. split; [exact Hnz|].
      intros l Hl. destruct (Nat.eq_dec l (S reduce)) as [->|]; [exact E|apply Hz; lia].
  + right. exists (S reduce). split; [reflexivity|]. split; [lia|]. split; [exact E|].
    intros l Hl. lia.
Qed.

(** When the histogram holds exactly as many codes as symbols are left,
    the search after the last symbol finds every counter at zero, passes
    index 0 and reads index 255. *)
Lemma scatter_reduce_overruns (mapping : list KeyValue) :
forall (reduce : nat) (bits cl : list Z),
mapping <> [] -> (1 <= reduce)%nat -> (reduce < length bits)%nat ->
rd bits 0 = 0 ->
(forall l, (1 <= l <= reduce)%nat -> 0 <= rd bits l) ->
0 < rd bits reduce ->
count reduce bits = Z.of_nat (length mapping) ->
Z.of_nat (length mapping) < 2 ^ 32 ->
Impl.scatter_reduce mapping reduce bits cl = OutOfBounds 255.
Proof.
induction mapping as [|kv m IH]; intros reduce bits cl Hne Hr Hlen H0 Hnn Hpos Hc H32;
  [congruence|].
cbn [Impl.scatter_reduce].
change (upd reduce (u32 (rd bits reduce - 1)) bits) with (add_at reduce (-1) bits).
cbn [length] in Hc, H32. rewrite Nat2Z.inj_succ in Hc, H32.
destruct (add_at_sound reduce reduce (-1) bits Hnn ltac:(lia) Hlen
            ltac:(lia) ltac:(lia)) as (N1 & W1 & R1).
set (b' := add_at reduce (-1) bits) in *.
assert (Hc' : count reduce b' = Z.of_nat (length m)).
{ unfold count. rewrite W1. fold (count reduce bits). lia. }
assert (H0' : rd b' 0 = 0).
{ unfold b'. rewrite rd_add_at_ne by lia. exact H0. }
destruct (search_nonzero_cases b' reduce) as [(E & Hz)|(r & E & Hrr & Hnz & Hz)];
  rewrite E; cbn [bind]; [reflexivity|].
assert (Hr1 : (1 <= r)%nat).
{ destruct r; [contradiction|lia]. }
assert (Hcr : count r b' = Z.of_nat (length m)).
{ rewrite <- Hc'. unfold count. symmetry. apply wsum_zero_above; [lia|exact Hz]. }
assert (Hrpos : 0 < rd b' r).
{ specialize (N1 r ltac:(lia)). lia. }
destruct m as [|kv' m'].
- exfalso. cbn [length] in Hcr.
  pose proof (count_term_le r r b' ltac:(intros; apply N1; lia) ltac:(lia)). lia.
- apply IH; auto; try lia.
  + discriminate.
  + unfold b'. rewrite length_add_at. lia.
  + intros l Hl. apply N1. lia.
Qed.

(** *** Counter 0 is left alone by the reducers *)

Section JpegZero.

Variables (newL oldL : nat) (M : Z).
Hypothesis HnewL : (2 <= newL)%nat.
Hypothesis HM : M <= 2 ^ Z.of_nat newL.
Hypothesis HM31 : M < 2 ^ 31.

Lemma jpeg_loop_zero (fuel : nat) :
forall (i : nat) (bits : list Z) (r : nat) (bits' : list Z),
jpeg_inv newL oldL M i bits ->
jpeg_loop fuel newL i bits = Some (r, bits') ->
rd bits' 0 = rd bits 0.
Proof.
induction fuel as [|fuel IH]; intros i bits r bits' I H; [discriminate|].
cbn [jpeg_loop] in H.
destruct (Nat.ltb_spec newL i) as [Hi|Hi]; [|inversion H; reflexivity].
destruct (Z.eqb_spec (rd bits i) 0) as [Ez|Ez].
- apply (IH (i - 1)%nat bits r bits'); [|exact H].
  destruct I as [I1 I2 I3 I4 I5 I6]. constructor; auto; try lia.
  intros l Hl. destruct (Nat.eq_dec l i) as [->|]; auto. apply I4. lia.
- destruct (jpeg_step_inv newL oldL M HnewL HM HM31 i bits I Hi Ez) as [I' _].
  rewrite (IH i (jpeg_step i bits) r bits' I' H).
  pose proof (jpeg_shorter newL oldL M HnewL HM HM31 i bits I Hi Ez) as Hj.
  rewrite jpeg_step_add_at. cbv zeta. rewrite !rd_add_at_ne by lia. reflexivity.
Qed.

End JpegZero.

Lemma miniz_collapse_zero (newL n : nat) :
forall (i : nat) (bits : list Z),
(1 <= newL)%nat -> (1 <= i)%nat ->
rd (miniz_collapse newL n i bits) 0 = rd bits 0.
Proof.
induction n as [|n IH]; intros i bits HL Hi; [reflexivity|].
cbn [miniz_collapse]. rewrite IH by lia. rewrite !rd_upd_ne by lia. reflexivity.
Qed.

Lemma miniz_move_zero (newL : nat) (bits : list Z) :
(1 <= newL)%nat -> rd (miniz_move newL bits) 0 = rd bits 0.
Proof.
intros HL. rewrite miniz_move_add_at. cbv zeta.
destruct (Nat.eqb_spec (scan_down (add_at newL (-1) bits) (newL - 1)) 0) as [E|E];
  rewrite !rd_add_at_ne by lia; reflexivity.
Qed.

Lemma miniz_balance_zero (n : nat) :
forall (newL : nat) (total one : Z) (bits : list Z),
(1 <= newL)%nat -> rd (miniz_balance n newL total one bits) 0 = rd bits 0.
Proof.
induction n as [|n IH]; intros newL total one bits HL; [reflexivity|].
cbn [miniz_balance]. destruct (one <? total); [|reflexivity].
rewrite IH by exact HL. apply miniz_move_zero. exact HL.
Qed.

(** *** The reduction path as a whole *)

(** The lengths of [moffatSortedInPlace], seen from the longest one. *)
Lemma moffat_sorted_at_max (n : nat) (A : list Z) :
length A = n -> (2 <= n <= 256)%nat ->
length (snd (moffatSortedInPlace n A)) = n
/\ 1 <= fst (moffatSortedInPlace n A) <= Z.of_nat n - 1
/\ (forall k, (k < n)%nat ->
      1 <= rd (snd (moffatSortedInPlace n A)) k <= fst (moffatSortedInPlace n A))
/\ rsum (fun x => 2 ^ (fst (moffatSortedInPlace n A) - x))
        (snd (moffatSortedInPlace n A)) 0 n
   = 2 ^ fst (moffatSortedInPlace n A)
/\ rd (snd (moffatSortedInPlace n A)) 0 = fst (moffatSortedInPlace n A).
Proof.
intros HA Hn.
destruct (moffat_sorted_spec n A (Z.of_nat n) HA Hn ltac:(lia))
  as (F1 & F2 & F3 & F4 & F5).
set (S := snd (moffatSortedInPlace n A)) in *.
set (m := fst (moffatSortedInPlace n A)) in *.
assert (HmS : forall k, (k < n)%nat -> 1 <= rd S k <= m).
{ intros k Hk. specialize (F2 k Hk). split; [lia|].
  rewrite F4. apply F3. lia. }
assert (Hm : 1 <= m <= Z.of_nat n - 1).
{ rewrite F4. apply F2. lia. }
split; [exact F1|]. split; [exact Hm|]. split; [exact HmS|].
split; [|symmetry; exact F4].
rewrite (rsum_scale (Z.of_nat n) m S n 0) in F5; [|lia|].
- replace (2 ^ Z.of_nat n) with (2 ^ (Z.of_nat n - m) * 2 ^ m) in F5
    by (rewrite <- Z.pow_add_r by lia; f_equal; lia).
  apply Z.mul_reg_l in F5; [exact F5|]. apply Z.pow_nonzero; lia.
- intros k Hk. apply HmS. lia.
Qed.

(** The histogram [limitedImpl] builds from those lengths. *)
Lemma build_hist_moffat (n : nat) (A : list Z) :
length A = n -> (2 <= n <= 256)%nat ->
fst (moffatSortedInPlace n A) <= 63 ->
exists bits,
  Impl.build_hist (snd (moffatSortedInPlace n A)) (repeat 0 64) = Ok bits
  /\ length bits = 64%nat
  /\ rd bits 0 = 0
  /\ (forall l, (1 <= l)%nat -> 0 <= rd bits l)
  /\ (forall l, (Z.to_nat (fst (moffatSortedInPlace n A)) < l)%nat -> rd bits l = 0)
  /\ kraft (Z.to_nat (fst (moffatSortedInPlace n A)))
           (Z.to_nat (fst (moffatSortedInPlace n A))) bits
     = 2 ^ fst (moffatSortedInPlace n A)
  /\ count (Z.to_nat (fst (moffatSortedInPlace n A))) bits = Z.of_nat n
  /\ total_length (Z.to_nat (fst (moffatSortedInPlace n A))) bits
     <= Z.of_nat n * (Z.of_nat n - 1)
  /\ 0 < rd bits (Z.to_nat (fst (moffatSortedInPlace n A))).
Proof.
intros HA Hn H63.
destruct (moffat_sorted_at_max n A HA Hn) as (F1 & Fm & F2 & F3 & F4).
set (S := snd (moffatSortedInPlace n A)) in *.
set (m := fst (moffatSortedInPlace n A)) in *.
assert (HS : forall x, In x S -> 1 <= x <= Z.of_nat (Z.to_nat m)).
{ intros x Hx. destruct (In_nth _ _ 0 Hx) as (k & Hk & <-).
  rewrite F1 in Hk. specialize (F2 k Hk). unfold rd in F2. lia. }
assert (Hz0 : forall w, wsum w (Z.to_nat m) (repeat 0 64) = 0).
{ intros w. apply wsum_all_zero. intros l _. apply rd_repeat0. }
destruct (build_hist_spec (Z.to_nat m) S (repeat 0 64)) as (bits & E & L & N & O & W).
- lia.
- rewrite repeat_length. lia.
- exact HS.
- intros l _. rewrite rd_repeat0. lia.
- unfold count. rewrite Hz0, F1. lia.
- rewrite repeat_length in L.
  assert (Habove : forall l, (Z.to_nat m < l)%nat -> rd bits l = 0).
  { intros l Hl. rewrite O; [apply rd_repeat0|].
    intros x Hx. specialize (HS x Hx). lia. }
  assert (Hw : forall w, wsum w (Z.to_nat m) bits
                         = rsum (fun x => w (Z.to_nat x)) S 0 n).
  { intros w. rewrite W, Hz0, F1. lia. }
  exists bits. split; [exact E|]. split; [exact L|].
  split; [|split; [|split; [exact Habove|split; [|split; [|split]]]]].
  + rewrite O; [apply rd_repeat0|].
    intros x Hx. specialize (HS x Hx). lia.
  + intros l Hl. destruct (Nat.le_gt_cases l (Z.to_nat m)); [apply N; lia|].
    rewrite Habove by lia. lia.
  + unfold kraft. rewrite Hw. rewrite <- F3. apply rsum_fext.
    intros k Hk. cbv beta. specialize (F2 k ltac:(lia)). f_equal. lia.
  + unfold count. rewrite Hw.
    apply rsum_ones. reflexivity.
  + unfold total_length. rewrite Hw. apply rsum_le.
    intros k Hk. cbv beta. specialize (F2 k ltac:(lia)). lia.
  + set (ind := fun l : nat => if (l =? Z.to_nat m)%nat then 1 else 0).
    assert (E1 : wsum ind (Z.to_nat m) bits = rd bits (Z.to_nat m)).
    { replace (Z.to_nat m) with (Datatypes.S (Z.to_nat m - 1)) at 1 by lia.
      rewrite wsum_S. replace (Datatypes.S (Z.to_nat m - 1)) with (Z.to_nat m) by lia.
      rewrite (wsum_scale (fun _ => 0) ind 0) by
          (intros l Hl; unfold ind;
           replace (l =? Z.to_nat m)%nat with false by (symmetry; apply Nat.eqb_neq; lia);
           ring).
      unfold ind. rewrite Nat.eqb_refl. ring. }
    rewrite <- E1, Hw.
    destruct n as [|n']; [lia|]. cbn [rsum]. rewrite F4.
    unfold ind at 1. rewrite Nat.eqb_refl.
    assert (0 <= rsum (fun x => ind (Z.to_nat x)) S 1 n').
    { apply rsum_nonneg. intros x. unfold ind. destruct (_ =? _)%nat; lia. }
    lia.
Qed.

Lemma moffat_fst (histogram codeLengths : list Z) :
Sorting.numNonZero histogram <> O ->
fst (moffat histogram codeLengths)
= fst (moffatSortedInPlace (Sorting.numNonZero histogram)
         (map key (Sorting.qsort compareKeyValue (Sorting.build_mapping 0 histogram)))).
Proof.
intros Hn. unfold moffat.
replace (Sorting.numNonZero histogram =? 0)%nat with false
  by (symmetry; apply Nat.eqb_neq; exact Hn).
destruct (moffatSortedInPlace _ _) as [result sorted']. reflexivity.
Qed.

(** The reduction path of [limitedImpl], for a reducer that returns a
    histogram holding the same number of codes with counter 0 at zero
    and the longest length [r] in use. *)
Lemma limitedImpl_overruns (algorithm : Impl.LimitedInPlace) (fuel maxLength : nat)
  (histogram codeLengths : list Z) :
(2 <= Sorting.numNonZero histogram <= 256)%nat ->
(2 <= maxLength)%nat ->
Z.of_nat maxLength < fst (moffat histogram codeLengths) <= 63 ->
(forall bits : list Z,
   length bits = 64%nat -> rd bits 0 = 0 ->
   (forall l, (1 <= l)%nat -> 0 <= rd bits l) ->
   (forall l, (Z.to_nat (fst (moffat histogram codeLengths)) < l)%nat -> rd bits l = 0) ->
   kraft (Z.to_nat (fst (moffat histogram codeLengths)))
         (Z.to_nat (fst (moffat histogram codeLengths))) bits
   = 2 ^ fst (moffat histogram codeLengths) ->
   count (Z.to_nat (fst (moffat histogram codeLengths))) bits
   = Z.of_nat (Sorting.numNonZero histogram) ->
   total_length (Z.to_nat (fst (moffat histogram codeLengths))) bits
   <= Z.of_nat (Sorting.numNonZero histogram) * (Z.of_nat (Sorting.numNonZero histogram) - 1) ->
   0 < rd bits (Z.to_nat (fst (moffat histogram codeLengths))) ->
   exists (r : nat) (bits' : list Z),
     algorithm fuel maxLength (Z.to_nat (fst (moffat histogram codeLengths))) bits
     = Some (r, bits')
     /\ length bits' = 64%nat /\ (1 <= r <= maxLength)%nat /\ rd bits' 0 = 0
     /\ 0 < rd bits' r
     /\ (forall l, (r < l)%nat -> rd bits' l = 0)
     /\ (forall l, (1 <= l)%nat -> 0 <= rd bits' l)
     /\ count maxLength bits' = Z.of_nat (Sorting.numNonZero histogram)) ->
Impl.limitedImpl algorithm fuel maxLength histogram codeLengths = OutOfBounds 255.
Proof.
intros Hn HL Hm Halg. pose proof (numNonZero_le histogram) as Hle.
rewrite moffat_fst in * by lia.
unfold Impl.limitedImpl.
replace (maxLength =? 0)%nat with false by (symmetry; apply Nat.eqb_neq; lia).
replace (63 <? maxLength)%nat with false by (symmetry; apply Nat.ltb_ge; lia).
replace (length histogram =? 0)%nat with false by (symmetry; apply Nat.eqb_neq; lia).
replace (Sorting.numNonZero histogram =? 0)%nat with false
  by (symmetry; apply Nat.eqb_neq; lia).
cbn [orb].
set (mapping := Sorting.qsort compareKeyValue (Sorting.build_mapping 0 histogram)) in *.
assert (Hmap : length mapping = Sorting.numNonZero histogram).
{ unfold mapping. rewrite (Permutation_length (qsort_perm _ _)). apply build_mapping_length. }
destruct (build_hist_moffat (Sorting.numNonZero histogram) (map key mapping)
            ltac:(rewrite length_map; exact Hmap) Hn ltac:(lia))
  as (bits & E & B1 & B2 & B3 & B4 & B5 & B6 & B7 & B8).
destruct (Halg bits B1 B2 B3 B4 B5 B6 B7 B8)
  as (r & bits' & Ea & R1 & R2 & R3 & R4 & R5 & R6 & R7).
destruct (moffatSortedInPlace (Sorting.numNonZero histogram) (map key mapping))
  as [result sorted'].
cbn [fst snd] in *.
replace (result <=? Z.of_nat maxLength) with false by (symmetry; apply Z.leb_gt; lia).
replace (63 <? result) with false by (symmetry; apply Z.ltb_ge; lia).
rewrite E. cbn [bind]. rewrite Ea.
replace (r =? 0)%nat with false by (symmetry; apply Nat.eqb_neq; lia).
rewrite scatter_reduce_overruns; [reflexivity| | | | | | | | ].
- intros Hnil. rewrite Hnil in Hmap. cbn in Hmap. lia.
- lia.
- lia.
- exact R3.
- intros l Hl. apply R6. lia.
- exact R4.
- rewrite Hmap, <- R7. unfold count. symmetry.
  apply wsum_zero_above; [lia|]. intros l Hl. apply R5. lia.
- rewrite Hmap. lia.
Qed.

(** X7.  For every histogram with between 2 and 256 used symbols, of
    counts below [2^31], whose Huffman code is longer than the limit
    [L] (with [2 <= L], the longest Huffman length at most 63 and at
    most [2^L] used symbols), the call of [limitedJpeg] (given fuel of
    at least the square of the number of used symbols) and, for
    [L <= 31], the call of [limitedMiniz] read [histNumBits[255]],
    outside the 64 entries of the array: when the last symbol has
    received its length the reduced histogram is used up, and the
    search for the next length takes the [unsigned char reduce] below
    [histNumBits[0]].  The outcome [OutOfBounds 255] records that read;
    what a compiled call does after it is not determined by C. *)
Theorem limited_reduction_overruns (fuel maxLength : nat) (histogram codeLengths : list Z) :
Forall (fun h => 0 <= h < 2 ^ 31) histogram ->
(2 <= Sorting.numNonZero histogram <= 256)%nat ->
(2 <= maxLength)%nat ->
Z.of_nat maxLength < fst (moffat histogram codeLengths) <= 63 ->
Z.of_nat (Sorting.numNonZero histogram) <= 2 ^ Z.of_nat maxLength ->
(Sorting.numNonZero histogram * Sorting.numNonZero histogram <= fuel)%nat ->
Impl.limitedJpeg fuel maxLength histogram codeLengths = OutOfBounds 255
/\ ((maxLength <= 31)%nat ->
    Impl.limitedMiniz fuel maxLength histogram codeLengths = OutOfBounds 255).
Proof.
intros _ Hn HL Hm Hfeas Hfuel.
assert (Hmm : 1 <= fst (moffat histogram codeLengths)
              <= Z.of_nat (Sorting.numNonZero histogram) - 1).
{ rewrite moffat_fst by lia.
  apply moffat_sorted_at_max; [apply sorted_keys_length|exact Hn]. }
set (n := Sorting.numNonZero histogram) in *.
set (m := fst (moffat histogram codeLengths)) in *.
split.
- apply limitedImpl_overruns; auto.
  fold n m. intros bits B1 B2 B3 B4 B5 B6 B7 B8.
  assert (K1 : kraft (Z.to_nat m) (Z.to_nat m) bits = 2 ^ Z.of_nat (Z.to_nat m))
    by (rewrite B5; f_equal; lia).
  assert (K2 : count (Z.to_nat m) bits <= 2 ^ Z.of_nat maxLength)
    by (rewrite B6; exact Hfeas).
  assert (K3 : count (Z.to_nat m) bits < 2 ^ 31) by (rewrite B6; lia).
  assert (K4 : Z.of_nat (Z.to_nat m) + total_length (Z.to_nat m) bits < Z.of_nat fuel).
  { nia. }
  destruct (jpeg_correct maxLength (Z.to_nat m) bits fuel ltac:(lia) ltac:(lia)
              B3 B4 K1 K2 K3 K4)
    as (r & bits' & J1 & J2 & J3 & J4 & J5 & J6 & J7 & J8).
  + exists r, bits'. split; [exact J1|]. split; [lia|]. split; [exact J3|].
    split; [|split; [exact J4|split; [exact J5|split; [exact J6|lia]]]].
    unfold Impl.jpegInPlace, limitedJpegInPlace in J1.
    replace (maxLength <=? 1)%nat with false in J1 by (symmetry; apply Nat.leb_gt; lia).
    replace (Z.to_nat m <? maxLength)%nat with false in J1 by (symmetry; apply Nat.ltb_ge; lia).
    replace (maxLength =? Z.to_nat m)%nat with false in J1 by (symmetry; apply Nat.eqb_neq; lia).
    destruct (jpeg_loop fuel maxLength (Z.to_nat m) bits) as [[i b]|] eqn:El; [|discriminate].
    inversion J1; subst b. rewrite <- B2.
    apply (jpeg_loop_zero maxLength (Z.to_nat m) (Z.of_nat n) HL Hfeas ltac:(lia) fuel
             (Z.to_nat m) bits i bits'); [|exact El].
    constructor.
    * lia.
    * lia.
    * intros l Hl. apply B3. lia.
    * intros l Hl. lia.
    * rewrite B5. f_equal. lia.
    * exact B6.
- intros H31. apply limitedImpl_overruns; auto.
  fold n m. intros bits B1 B2 B3 B4 B5 B6 B7 B8.
  assert (K1 : kraft (Z.to_nat m) (Z.to_nat m) bits <= 2 ^ Z.of_nat (Z.to_nat m))
    by (rewrite B5; replace (Z.of_nat (Z.to_nat m)) with m by lia; lia).
  assert (K2 : count (Z.to_nat m) bits <= 2 ^ Z.of_nat maxLength)
    by (rewrite B6; exact Hfeas).
  destruct (miniz_correct maxLength (Z.to_nat m) bits ltac:(lia) H31 ltac:(lia)
              B3 B4 K1 K2)
    as (bits' & Z1 & Z2 & Z3 & Z4 & Z5 & Z6 & Z7).
  + exists maxLength, bits'. unfold Impl.minizInPlace. rewrite Z1.
    split; [reflexivity|]. split; [lia|]. split; [lia|].
    split; [|split; [|split; [exact Z4|split; [exact Z5|lia]]]].
    * replace bits' with (snd (limitedMinizInPlace maxLength (Z.to_nat m) bits))
        by (rewrite Z1; reflexivity).
      unfold limitedMinizInPlace.
      replace (maxLength <=? 1)%nat with false by (symmetry; apply Nat.leb_gt; lia).
      replace (Z.to_nat m <? maxLength)%nat with false by (symmetry; apply Nat.ltb_ge; lia).
      replace (maxLength =? Z.to_nat m)%nat with false by (symmetry; apply Nat.eqb_neq; lia).
      cbn [snd]. rewrite miniz_balance_zero, miniz_collapse_zero by lia. exact B2.
    * apply Z3. exact B8.
Qed.

Lemma limited_reduction_overruns_witness :
Impl.limitedJpeg 16 2 [1;1;2;4] [0;0;0;0] = OutOfBounds 255
/\ ((2 <= 31)%nat -> Impl.limitedMiniz 16 2 [1;1;2;4] [0;0;0;0] = OutOfBounds 255).
Proof.
apply (limited_reduction_overruns 16 2 [1;1;2;4] [0;0;0;0]).
- repeat constructor; lia.
- change (2 <= 4 <= 256)%nat. lia.
- lia.
- vm_compute. split; [reflexivity|discriminate].
- vm_compute. discriminate.
- change (4 * 4 <= 16)%nat. lia.
Defined.

(** ** Further properties of the Moffat-based code *)

(** X2.  [moffatSortedInPlace] on 2 to 256 weights (of any values): every
    length lies between 1 and [numCodes - 1], none exceeds the returned
    value [m], and the lengths satisfy the Kraft equality
    [sum 2^(m - A[i]) = 2^m]: they are the leaf depths of a full binary
    tree. *)
Theorem moffatSorted_complete (numCodes : nat) (A : list Z) :
length A = numCodes -> (2 <= numCodes <= 256)%nat ->
1 <= fst (moffatSortedInPlace numCodes A) <= Z.of_nat numCodes - 1
/\ (forall i, (i < numCodes)%nat ->
      1 <= rd (snd (moffatSortedInPlace numCodes A)) i
        <= fst (moffatSortedInPlace numCodes A))
/\ rsum (fun x => 2 ^ (fst (moffatSortedInPlace numCodes A) - x))
        (snd (moffatSortedInPlace numCodes A)) 0 numCodes
   = 2 ^ fst (moffatSortedInPlace numCodes A).
Proof.
intros HA Hn.
destruct (moffat_sorted_at_max numCodes A HA Hn) as (_ & F1 & F2 & F3 & _).
split; [exact F1|]. split; [exact F2|exact F3].
Qed.

Lemma moffatSorted_complete_witness :
1 <= fst (moffatSortedInPlace 4 [1;1;2;5]) <= Z.of_nat 4 - 1
/\ (forall i, (i < 4)%nat ->
      1 <= rd (snd (moffatSortedInPlace 4 [1;1;2;5])) i
        <= fst (moffatSortedInPlace 4 [1;1;2;5]))
/\ rsum (fun x => 2 ^ (fst (moffatSortedInPlace 4 [1;1;2;5]) - x))
        (snd (moffatSortedInPlace 4 [1;1;2;5])) 0 4
   = 2 ^ fst (moffatSortedInPlace 4 [1;1;2;5]).
Proof. apply (moffatSorted_complete 4 [1;1;2;5]); [reflexivity|lia]. Defined.

(** *** The comparison function and the sorted mapping *)

(** X4.  [compareKeyValue] returns the difference of the keys when it fits
    an [int]; when the keys are [2^31] or more apart the difference
    wraps and the sign is that of the opposite order. *)
Theorem compareKeyValue_sign (a b : KeyValue) :
0 <= key a < 2 ^ 32 -> 0 <= key b < 2 ^ 32 ->
(- 2 ^ 31 <= key a - key b < 2 ^ 31 -> compareKeyValue a b = key a - key b)
/\ (2 ^ 31 <= key a - key b -> compareKeyValue a b < 0)
/\ (key a - key b < - 2 ^ 31 -> 0 < compareKeyValue a b).
Proof.
intros Ha Hb. split; [apply compareKeyValue_exact|].
unfold compareKeyValue. rewrite s32_u32. unfold s32. split; intros H.
- replace (key a - key b + 2 ^ 31) with ((key a - key b - 2 ^ 31) + 1 * 2 ^ 32) by lia.
  rewrite Z_mod_plus_full, Z.mod_small by lia. lia.
- replace (key a - key b + 2 ^ 31) with ((key a - key b + 2 ^ 31 + 2 ^ 32) + (-1) * 2 ^ 32) by lia.
  rewrite Z_mod_plus_full, Z.mod_small by lia. lia.
Qed.

Lemma compareKeyValue_sign_witness :
(- 2 ^ 31 <= key (mkKV 3000000000 0) - key (mkKV 5 1) < 2 ^ 31 ->
 compareKeyValue (mkKV 3000000000 0) (mkKV 5 1)
 = key (mkKV 3000000000 0) - key (mkKV 5 1))
/\ (2 ^ 31 <= key (mkKV 3000000000 0) - key (mkKV 5 1) ->
    compareKeyValue (mkKV 3000000000 0) (mkKV 5 1) < 0)
/\ (key (mkKV 3000000000 0) - key (mkKV 5 1) < - 2 ^ 31 ->
    0 < compareKeyValue (mkKV 3000000000 0) (mkKV 5 1)).
Proof.
apply (compareKeyValue_sign (mkKV 3000000000 0) (mkKV 5 1)); cbn [key]; lia.
Defined.

Lemma ascending_of_sorted (l : list KeyValue) :
StronglySorted (fun a b => key a <= key b) l -> ascending (map key l).
Proof.
intros Hs i j Hij. rewrite length_map in Hij. unfold rd.
change 0 with (key (mkKV 0 0)). rewrite !map_nth.
apply strongly_sorted_nth; assumption.
Qed.

(** X3.  For counts below [2^31], the mapping all entry points hand to
    Moffat's algorithm (filter the zeros out, sort with
    [compareKeyValue]) lists every used symbol once, with its count as
    key, in ascending order of the counts, and nothing else. *)
Theorem sorted_mapping_spec (histogram : list Z) :
Forall (fun h => 0 <= h < 2 ^ 31) histogram ->
ascending (map key (Sorting.qsort compareKeyValue (Sorting.build_mapping 0 histogram)))
/\ length (Sorting.qsort compareKeyValue (Sorting.build_mapping 0 histogram))
   = Sorting.numNonZero histogram
/\ NoDup (map value (Sorting.qsort compareKeyValue (Sorting.build_mapping 0 histogram)))
/\ (forall kv, In kv (Sorting.qsort compareKeyValue (Sorting.build_mapping 0 histogram))
               <-> ((value kv < length histogram)%nat
                    /\ key kv = rd histogram (value kv) /\ key kv <> 0)).
Proof.
intros Hh.
set (mapping := Sorting.qsort compareKeyValue (Sorting.build_mapping 0 histogram)).
assert (Hperm : Permutation mapping (Sorting.build_mapping 0 histogram))
  by apply qsort_perm.
split; [|split; [|split]].
- apply ascending_of_sorted, qsort_sorted, build_mapping_keys. exact Hh.
- rewrite (Permutation_length Hperm). apply build_mapping_length.
- apply (mapping_NoDup histogram). exact Hperm.
- intros kv. split.
  + intros Hin. apply (Permutation_in _ Hperm) in Hin.
    apply build_mapping_In in Hin. destruct Hin as (k & Hk & -> & Hnz).
    cbn [key value]. auto.
  + intros (Hv & Hk & Hnz). apply (Permutation_in _ (Permutation_sym Hperm)).
    apply build_mapping_In. exists (value kv). split; [exact Hv|].
    split; [destruct kv as [k v]; cbn [key value] in *; rewrite Hk; reflexivity|].
    rewrite <- Hk. exact Hnz.
Qed.

Lemma sorted_mapping_spec_witness :
ascending (map key (Sorting.qsort compareKeyValue (Sorting.build_mapping 0 [5;0;1;2;1])))
/\ length (Sorting.qsort compareKeyValue (Sorting.build_mapping 0 [5;0;1;2;1]))
   = Sorting.numNonZero [5;0;1;2;1]
/\ NoDup (map value (Sorting.qsort compareKeyValue (Sorting.build_mapping 0 [5;0;1;2;1])))
/\ (forall kv, In kv (Sorting.qsort compareKeyValue (Sorting.build_mapping 0 [5;0;1;2;1]))
               <-> ((value kv < length [5;0;1;2;1])%nat
                    /\ key kv = rd [5;0;1;2;1] (value kv) /\ key kv <> 0)).
Proof.
apply (sorted_mapping_spec [5;0;1;2;1]). repeat constructor; lia.
Defined.

(** *** Rescaling the weights in limitedBzip2 *)

Lemma rescale_value (w : Z) : 0 <= w < 2 ^ 32 -> Bzip2.rescale w = 1 + w / 2.
Proof.
intros H. unfold Bzip2.rescale, Bzip2.EXTRA_SHIFT, Bzip2.DIVIDE_BY, shl_u32, u32.
change (0 mod 32) with 0. change (2 ^ 0) with 1. rewrite Z.div_1_r, Z.mul_1_r.
assert (0 <= w / 2 < 2 ^ 31) by (split; [apply Z.div_pos; lia|apply Z.div_lt_upper_bound; lia]).
rewrite (Z.mod_small (1 + w / 2)) by lia. apply Z.mod_small. lia.
Qed.

(** X10.  One rescaling pass of [limitedBzip2] over an ascending mapping of
    non-zero 32-bit weights: every weight [w] becomes [1 + w / 2] (the
    whole word is halved, [EXTRA_SHIFT] being 0), so that no weight
    becomes zero, no weight grows, every weight above 2 shrinks, the
    symbols stay where they are and the weights stay in ascending
    order: sorting once is enough. *)
Theorem rescale_keeps_order (mapping : list KeyValue) :
Forall (fun kv => 0 < key kv < 2 ^ 32) mapping ->
ascending (map key mapping) ->
Forall (fun kv => 0 < key kv < 2 ^ 32)
       (map (fun kv => mkKV (Bzip2.rescale (key kv)) (value kv)) mapping)
/\ map value (map (fun kv => mkKV (Bzip2.rescale (key kv)) (value kv)) mapping)
   = map value mapping
/\ ascending (map key (map (fun kv => mkKV (Bzip2.rescale (key kv)) (value kv)) mapping))
/\ (forall kv, In kv mapping ->
      Bzip2.rescale (key kv) = 1 + key kv / 2
      /\ Bzip2.rescale (key kv) <= key kv
      /\ (2 < key kv -> Bzip2.rescale (key kv) < key kv)).
Proof.
intros Hk Hasc. split; [|split; [|split]].
- rewrite Forall_forall in *. intros kv' Hin. apply in_map_iff in Hin.
  destruct Hin as (kv & <- & Hin). specialize (Hk kv Hin). cbn [key].
  rewrite rescale_value by lia.
  assert (0 <= key kv / 2 < 2 ^ 31)
    by (split; [apply Z.div_pos; lia|apply Z.div_lt_upper_bound; lia]).
  lia.
- rewrite map_map. cbn [value]. reflexivity.
- intros i j Hij. rewrite !length_map in Hij.
  specialize (Hasc i j ltac:(rewrite length_map; exact Hij)).
  unfold rd in *. rewrite map_map. cbn [key].
  change 0 with (key (mkKV 0 0)) in Hasc. rewrite !map_nth in Hasc.
  rewrite (nth_indep _ 0 ((fun kv => Bzip2.rescale (key kv)) (mkKV 0 0)))
    by (rewrite length_map; lia).
  rewrite (nth_indep _ 0 ((fun kv => Bzip2.rescale (key kv)) (mkKV 0 0)) (n := j))
    by (rewrite length_map; lia).
  rewrite !(map_nth (fun kv => Bzip2.rescale (key kv))).
  rewrite Forall_forall in Hk.
  pose proof (Hk (nth i mapping (mkKV 0 0)) ltac:(apply nth_In; lia)).
  pose proof (Hk (nth j mapping (mkKV 0 0)) ltac:(apply nth_In; lia)).
  rewrite !rescale_value by lia.
  assert (key (nth i mapping (mkKV 0 0)) / 2 <= key (nth j mapping (mkKV 0 0)) / 2)
    by (apply Z.div_le_mono; lia).
  lia.
- intros kv Hin. rewrite Forall_forall in Hk. specialize (Hk kv Hin).
  rewrite rescale_value by lia.
  assert (2 * (key kv / 2) <= key kv) by (apply Z.mul_div_le; lia).
  split; [reflexivity|]. split; [lia|]. intros H2. lia.
Qed.

Lemma rescale_keeps_order_witness :
Forall (fun kv => 0 < key kv < 2 ^ 32)
       (map (fun kv => mkKV (Bzip2.rescale (key kv)) (value kv))
            [mkKV 1 2; mkKV 2 3; mkKV 9 0])
/\ map value (map (fun kv => mkKV (Bzip2.rescale (key kv)) (value kv))
                  [mkKV 1 2; mkKV 2 3; mkKV 9 0])
   = map value [mkKV 1 2; mkKV 2 3; mkKV 9 0]
/\ ascending (map key (map (fun kv => mkKV (Bzip2.rescale (key kv)) (value kv))
                           [mkKV 1 2; mkKV 2 3; mkKV 9 0]))
/\ (forall kv, In kv [mkKV 1 2; mkKV 2 3; mkKV 9 0] ->
      Bzip2.rescale (key kv) = 1 + key kv / 2
      /\ Bzip2.rescale (key kv) <= key kv
      /\ (2 < key kv -> Bzip2.rescale (key kv) < key kv)).
Proof.
apply (rescale_keeps_order [mkKV 1 2; mkKV 2 3; mkKV 9 0]).
- repeat constructor; cbn [key]; lia.
- intros i j Hij. cbn [map key length] in *.
  destruct i as [|[|[|i]]], j as [|[|[|j]]]; cbn; lia.
Defined.

(** *** Error returns of limitedImpl *)

Lemma moffatSorted_positive (n : nat) (A : list Z) :
length A = n -> (1 <= n <= 256)%nat -> 1 <= fst (moffatSortedInPlace n A).
Proof.
intros HA Hn. destruct (Nat.eq_dec n 1) as [->|Hne].
- reflexivity.
- apply (moffat_sorted_at_max n A HA). lia.
Qed.

(** X8.  Whenever [limitedJpeg] or [limitedMiniz] (or [limitedImpl] with any
    other reducer) returns 0 on a histogram with at most 256 used
    symbols, the output buffer is either untouched or zero in every
    entry: never partly written. *)
Theorem limitedImpl_error_atomic (algorithm : Impl.LimitedInPlace) (fuel maxLength : nat)
  (histogram codeLengths out : list Z) :
(Sorting.numNonZero histogram <= 256)%nat ->
Impl.limitedImpl algorithm fuel maxLength histogram codeLengths = Ok (0, out) ->
out = codeLengths \/ out = map (fun _ => 0) codeLengths.
Proof.
intros Hn H. unfold Impl.limitedImpl in H.
destruct ((maxLength =? 0)%nat || (63 <? maxLength)%nat || (length histogram =? 0)%nat);
  [inversion H; left; reflexivity|].
destruct (Nat.eqb_spec (Sorting.numNonZero histogram) 0) as [E0|E0];
  [inversion H; left; reflexivity|].
assert (Hcl0 : Sorting.init_output histogram codeLengths = codeLengths
               \/ Sorting.init_output histogram codeLengths = map (fun _ => 0) codeLengths).
{ unfold Sorting.init_output.
  destruct (Sorting.numNonZero histogram <? length histogram)%nat; auto. }
pose proof (moffatSorted_positive (Sorting.numNonZero histogram)
              (map key (Sorting.qsort compareKeyValue (Sorting.build_mapping 0 histogram)))
              (sorted_keys_length histogram) ltac:(lia)) as Hpos.
destruct (moffatSortedInPlace (Sorting.numNonZero histogram)
            (map key (Sorting.qsort compareKeyValue (Sorting.build_mapping 0 histogram))))
  as [result sorted'].
cbn [fst] in Hpos.
destruct (result <=? Z.of_nat maxLength); [inversion H; lia|].
destruct (63 <? result); [inversion H; subst out; exact Hcl0|].
destruct (Impl.build_hist sorted' (repeat 0 64)) as [bits| |]; cbn [bind] in H;
  try discriminate.
destruct (algorithm fuel maxLength (Z.to_nat result) bits) as [[newMax bits']|];
  [|discriminate].
destruct (Nat.eqb_spec newMax 0) as [E|E]; [inversion H; subst out; exact Hcl0|].
destruct (Impl.scatter_reduce _ newMax bits' _) as [cl| |]; cbn [bind] in H;
  try discriminate.
inversion H. lia.
Qed.

Lemma limitedImpl_error_atomic_witness :
[0;0;0;0;0] = [9;9;9;9;9] \/ [0;0;0;0;0] = map (fun _ => 0) [9;9;9;9;9].
Proof.
apply (limitedImpl_error_atomic Impl.jpegInPlace 10 1 [5;0;1;2;1] [9;9;9;9;9] [0;0;0;0;0]).
- change (4 <= 256)%nat. lia.
- vm_compute. reflexivity.
Defined.

(** ** limitedKraft and limitedKraftHeap: the Kraft bookkeeping *)

(** Up to the limit 30 the constant [one] is [2^maxLength] and the
    shifts [one >> c] are exact. *)
Lemma one_of_exact (maxLength : nat) :
(maxLength <= 30)%nat -> Kraft.one_of maxLength = 2 ^ Z.of_nat maxLength.
Proof.
intros H. unfold Kraft.one_of, shl_int, s32, u64.
assert (0 < 2 ^ Z.of_nat maxLength <= 2 ^ 30)
  by (split; [apply Z.pow_pos_nonneg; lia|apply Z.pow_le_mono_r; lia]).
rewrite (Z.mod_small (Z.of_nat maxLength)) by lia.
rewrite Z.mul_1_l. rewrite (Z.mod_small (2 ^ Z.of_nat maxLength + 2 ^ 31)) by lia.
rewrite Z.mod_small by lia. lia.
Qed.

Lemma shr_exact (L c : Z) :
0 <= c <= L -> L <= 30 -> shr_u64 (2 ^ L) c = 2 ^ (L - c).
Proof.
intros Hc HL. unfold shr_u64. rewrite Z.mod_small by lia.
symmetry. apply Z.pow_sub_r; lia.
Qed.

Lemma pow2_half (L c : Z) : 0 <= c < L -> 2 ^ (L - c) = 2 * 2 ^ (L - (c + 1)).
Proof.
intros H. replace (L - c) with (1 + (L - (c + 1))) by lia.
rewrite Z.pow_add_r by lia. reflexivity.
Qed.

Lemma pow2_bounds (L c : Z) : 1 <= c <= L -> 1 <= 2 ^ (L - c) <= 2 ^ (L - 1).
Proof.
intros H. split.
- assert (0 < 2 ^ (L - c)) by (apply Z.pow_pos_nonneg; lia). lia.
- apply Z.pow_le_mono_r; lia.
Qed.

Lemma round_len_range (maxLength : nat) (entropy : F32.float) :
(1 <= maxLength <= 255)%nat ->
1 <= Kraft.round_len maxLength entropy <= Z.of_nat maxLength.
Proof.
intros H. unfold Kraft.round_len.
set (t := F32.trunc (F32.add entropy F32.half)).
assert (Hu : 0 <= u8 t < 2 ^ 8) by (unfold u8; apply Z.mod_pos_bound; lia).
destruct (Z.eqb_spec (u8 t) 0) as [E|E].
- destruct (Z.ltb_spec (Z.of_nat maxLength) 1); lia.
- destruct (Z.ltb_spec (Z.of_nat maxLength) (u8 t)); lia.
Qed.

(** *** The invariant: lengths in range and [spent] the Kraft sum *)

Lemma lengths_ok_cons (L h c : Z) (hs cs : list Z) :
Valid.lengths_ok L (h :: hs) (c :: cs) = true <->
((h = 0 /\ c = 0) \/ (h <> 0 /\ 1 <= c <= L)) /\ Valid.lengths_ok L hs cs = true.
Proof.
cbn [Valid.lengths_ok]. rewrite andb_true_iff.
destruct (Z.eqb_spec h 0) as [E|E].
- rewrite Z.eqb_eq. intuition lia.
- rewrite andb_true_iff, !Z.leb_le. intuition lia.
Qed.

Lemma lengths_ok_length (L : Z) (hs : list Z) :
forall cs, Valid.lengths_ok L hs cs = true -> length cs = length hs.
Proof.
induction hs as [|h hs IH]; intros [|c cs] H; try discriminate; [reflexivity|].
apply lengths_ok_cons in H. cbn [length]. f_equal. apply IH. tauto.
Qed.

Lemma kraft_sum_cons (m h c : Z) (hs cs : list Z) :
Valid.kraft_sum m (h :: hs) (c :: cs)
= (if h =? 0 then 0 else 2 ^ (m - c)) + Valid.kraft_sum m hs cs.
Proof. reflexivity. Qed.

Lemma kraft_sum_bounds (L : Z) (hs : list Z) :
forall cs, 1 <= L -> Valid.lengths_ok L hs cs = true ->
Z.of_nat (Sorting.numNonZero hs) <= Valid.kraft_sum L hs cs
/\ Valid.kraft_sum L hs cs <= Z.of_nat (length hs) * 2 ^ (L - 1).
Proof.
induction hs as [|h hs IH]; intros [|c cs] HL H; try discriminate.
- cbn. lia.
- apply lengths_ok_cons in H. destruct H as (Hc & H).
  specialize (IH cs HL H). rewrite kraft_sum_cons.
  unfold Sorting.numNonZero in *. cbn [filter length].
  assert (0 < 2 ^ (L - 1)) by (apply Z.pow_pos_nonneg; lia).
  destruct (Z.eqb_spec h 0) as [E|E]; cbn [negb length].
  + lia.
  + pose proof (pow2_bounds L c ltac:(lia)). lia.
Qed.

Section Bookkeeping.

Variable maxLength : nat.
Hypothesis HL : (1 <= maxLength <= 30)%nat.

Let L : Z := Z.of_nat maxLength.
Let one : Z := 2 ^ L.

Variable inv : F32.float.

Lemma kraft_initial_spec (histogram : list Z) :
forall spent : Z,
0 <= spent -> spent + Z.of_nat (length histogram) * 2 ^ (L - 1) < 2 ^ 64 ->
Valid.lengths_ok L histogram (fst (Kraft.initial maxLength inv one histogram spent)) = true
/\ snd (Kraft.initial maxLength inv one histogram spent)
   = spent + Valid.kraft_sum L histogram
               (fst (Kraft.initial maxLength inv one histogram spent)).
Proof.
induction histogram as [|h hs IH]; intros spent H0 Hb.
- cbn. split; [reflexivity|lia].
- cbn [Kraft.initial]. cbn [length] in Hb. rewrite Nat2Z.inj_succ in Hb.
  assert (0 < 2 ^ (L - 1)) by (apply Z.pow_pos_nonneg; subst L; lia).
  destruct (Z.eqb_spec h 0) as [E|E].
  + destruct (IH spent H0 ltac:(lia)) as (I1 & I2).
    destruct (Kraft.initial maxLength inv one hs spent) as [cl s].
    cbn [fst snd] in *. split.
    * apply lengths_ok_cons. split; [left; auto|exact I1].
    * rewrite kraft_sum_cons. replace (h =? 0) with true by (symmetry; apply Z.eqb_eq; exact E).
      lia.
  + set (r := Kraft.round_len maxLength (Kraft.entropy_of inv h)).
    pose proof (round_len_range maxLength (Kraft.entropy_of inv h) ltac:(lia)) as Hr.
    fold r in Hr.
    pose proof (pow2_bounds L r ltac:(subst L; lia)) as Hp.
    change (shr_u64 one r) with (shr_u64 (2 ^ L) r). rewrite shr_exact by (subst L; lia).
    rewrite u64_id by lia.
    destruct (IH (spent + 2 ^ (L - r)) ltac:(lia) ltac:(lia)) as (I1 & I2).
    destruct (Kraft.initial maxLength inv one hs (spent + 2 ^ (L - r))) as [cl s].
    cbn [fst snd] in *. split.
    * apply lengths_ok_cons. split; [right; subst L; lia|exact I1].
    * rewrite kraft_sum_cons. replace (h =? 0) with false by (symmetry; apply Z.eqb_neq; exact E).
      lia.
Qed.

Lemma kraft_expand_pass_spec (threshold : F32.float) (histogram : list Z) :
forall (codeLengths : list Z) (spent : Z),
Valid.lengths_ok L histogram codeLengths = true ->
Valid.kraft_sum L histogram codeLengths <= spent < 2 ^ 64 ->
Valid.lengths_ok L histogram
  (fst (Kraft.expand_pass maxLength inv one threshold histogram codeLengths spent)) = true
/\ snd (Kraft.expand_pass maxLength inv one threshold histogram codeLengths spent)
   - Valid.kraft_sum L histogram
       (fst (Kraft.expand_pass maxLength inv one threshold histogram codeLengths spent))
   = spent - Valid.kraft_sum L histogram codeLengths
/\ snd (Kraft.expand_pass maxLength inv one threshold histogram codeLengths spent) <= spent.
Proof.
induction histogram as [|h hs IH]; intros [|c cs] spent Hok Hs; try discriminate.
- cbn. split; [reflexivity|lia].
- cbn [Kraft.expand_pass].
  pose proof Hok as Hok'. apply lengths_ok_cons in Hok'. destruct Hok' as (Hc & Hcs).
  rewrite kraft_sum_cons in Hs.
  assert (Hpos : 0 <= (if h =? 0 then 0 else 2 ^ (L - c))).
  { destruct (h =? 0); [lia|]. apply Z.pow_nonneg. lia. }
  assert (Hkeep : forall s, Valid.kraft_sum L hs cs <= s < 2 ^ 64 ->
            s - Valid.kraft_sum L (h :: hs) (c :: cs)
              = s - (if h =? 0 then 0 else 2 ^ (L - c)) - Valid.kraft_sum L hs cs)
    by (intros; rewrite kraft_sum_cons; lia).
  destruct ((c =? 0) || (Z.of_nat maxLength <=? c)) eqn:Eskip.
  + destruct (IH cs spent Hcs ltac:(lia)) as (I1 & I2 & I3).
    destruct (Kraft.expand_pass maxLength inv one threshold hs cs spent) as [cs' s].
    cbn [fst snd] in *. split; [|split; [|lia]].
    * apply lengths_ok_cons. split; assumption.
    * rewrite !kraft_sum_cons. lia.
  + apply orb_false_iff in Eskip. destruct Eskip as (Ec0 & EcL).
    apply Z.eqb_neq in Ec0. apply Z.leb_gt in EcL.
    assert (Hh : h <> 0 /\ 1 <= c < L) by (subst L; lia).
    replace (h =? 0) with false in * by (symmetry; apply Z.eqb_neq; tauto).
    destruct (F32.ltb threshold (F32.sub (Kraft.entropy_of inv h) (F32.of_Z c))).
    * rewrite (u8_id (c + 1)) by (subst L; lia).
      change (shr_u64 one (c + 1)) with (shr_u64 (2 ^ L) (c + 1)).
      rewrite shr_exact by (subst L; lia).
      pose proof (pow2_half L c ltac:(lia)) as Hhalf.
      assert (0 < 2 ^ (L - (c + 1))) by (apply Z.pow_pos_nonneg; lia).
      assert (0 <= Valid.kraft_sum L hs cs)
        by (pose proof (kraft_sum_bounds L hs cs ltac:(lia) Hcs); lia).
      rewrite u64_id by lia.
      destruct (spent - 2 ^ (L - (c + 1)) <=? one).
      -- cbn [fst snd]. split; [|split; [|lia]].
         ++ apply lengths_ok_cons. split; [right; lia|exact Hcs].
         ++ rewrite !kraft_sum_cons.
            replace (h =? 0) with false by (symmetry; apply Z.eqb_neq; tauto). lia.
      -- destruct (IH cs (spent - 2 ^ (L - (c + 1))) Hcs ltac:(lia)) as (I1 & I2 & I3).
         destruct (Kraft.expand_pass maxLength inv one threshold hs cs
                     (spent - 2 ^ (L - (c + 1)))) as [cs' s].
         cbn [fst snd] in *. split; [|split; [|lia]].
         ++ apply lengths_ok_cons. split; [right; lia|exact I1].
         ++ rewrite !kraft_sum_cons.
            replace (h =? 0) with false by (symmetry; apply Z.eqb_neq; tauto). lia.
    * destruct (IH cs spent Hcs ltac:(lia)) as (I1 & I2 & I3).
      destruct (Kraft.expand_pass maxLength inv one threshold hs cs spent) as [cs' s].
      cbn [fst snd] in *. split; [|split; [|lia]].
      -- apply lengths_ok_cons. split; assumption.
      -- rewrite !kraft_sum_cons.
         replace (h =? 0) with false by (symmetry; apply Z.eqb_neq; tauto). lia.
Qed.

Lemma kraft_expand_spec (histogram : list Z) (fuel : nat) :
forall (threshold : F32.float) (codeLengths : list Z) (spent : Z) (cl1 : list Z) (s1 : Z),
Valid.lengths_ok L histogram codeLengths = true ->
spent = Valid.kraft_sum L histogram codeLengths -> spent < 2 ^ 64 ->
Kraft.expand fuel maxLength inv one threshold histogram codeLengths spent = Some (cl1, s1) ->
Valid.lengths_ok L histogram cl1 = true
/\ s1 = Valid.kraft_sum L histogram cl1 /\ s1 <= one.
Proof.
induction fuel as [|fuel IH]; intros threshold cl spent cl1 s1 Hok Hs H64 H; [discriminate|].
cbn [Kraft.expand] in H.
destruct (Z.ltb_spec one spent) as [Hgt|Hle].
- destruct (kraft_expand_pass_spec threshold histogram cl spent Hok ltac:(lia)) as (P1 & P2 & P3).
  destruct (Kraft.expand_pass maxLength inv one threshold histogram cl spent) as [cl' s'].
  cbn [fst snd] in *.
  apply (IH (F32.sub threshold Kraft.STEP_THRESHOLD) cl' s' cl1 s1 P1); [lia|lia|exact H].
- inversion H; subst cl1 s1. auto.
Qed.

Lemma kraft_contract_spec (codeLengths : list Z) :
forall (histogram : list Z) (spent : Z),
Valid.lengths_ok L histogram codeLengths = true ->
Valid.kraft_sum L histogram codeLengths <= spent <= one ->
Valid.lengths_ok L histogram (fst (Kraft.contract one codeLengths spent)) = true
/\ snd (Kraft.contract one codeLengths spent)
   - Valid.kraft_sum L histogram (fst (Kraft.contract one codeLengths spent))
   = spent - Valid.kraft_sum L histogram codeLengths
/\ snd (Kraft.contract one codeLengths spent) <= one.
Proof.
assert (Hone : 0 < one <= 2 ^ 30).
{ unfold one, L. split; [apply Z.pow_pos_nonneg; lia|apply Z.pow_le_mono_r; lia]. }
induction codeLengths as [|c cs IH]; intros [|h hs] spent Hok Hs; try discriminate.
- cbn. split; [reflexivity|lia].
- cbn [Kraft.contract].
  pose proof Hok as Hok'. apply lengths_ok_cons in Hok'. destruct Hok' as (Hc & Hcs).
  rewrite kraft_sum_cons in Hs.
  assert (Hpos : 0 <= (if h =? 0 then 0 else 2 ^ (L - c))).
  { destruct (h =? 0); [lia|]. apply Z.pow_nonneg. lia. }
  assert (H0 : 0 <= Valid.kraft_sum L hs cs)
    by (pose proof (kraft_sum_bounds L hs cs ltac:(subst L; lia) Hcs); lia).
  destruct (Z.leb_spec c 1) as [Hc1|Hc1].
  + destruct (IH hs spent Hcs ltac:(lia)) as (I1 & I2 & I3).
    destruct (Kraft.contract one cs spent) as [cs' s].
    cbn [fst snd] in *. split; [|split; [|exact I3]].
    * apply lengths_ok_cons. split; assumption.
    * rewrite !kraft_sum_cons. lia.
  + assert (Hh : h <> 0 /\ 2 <= c <= L) by lia.
    replace (h =? 0) with false in * by (symmetry; apply Z.eqb_neq; tauto).
    change (shr_u64 one c) with (shr_u64 (2 ^ L) c). rewrite shr_exact by (subst L; lia).
    pose proof (pow2_half L (c - 1) ltac:(lia)) as Hhalf.
    replace (c - 1 + 1) with c in Hhalf by lia.
    assert (0 < 2 ^ (L - c)) by (apply Z.pow_pos_nonneg; lia).
    rewrite (u64_id (one - spent)) by lia.
    destruct (Z.leb_spec (2 ^ (L - c)) (one - spent)) as [Hfit|Hnofit].
    * rewrite (u64_id (spent + 2 ^ (L - c))) by lia.
      rewrite (u8_id (c - 1)) by (subst L; lia).
      destruct (one =? spent + 2 ^ (L - c)).
      -- cbn [fst snd]. split; [|split; [|lia]].
         ++ apply lengths_ok_cons. split; [right; lia|exact Hcs].
         ++ rewrite !kraft_sum_cons.
            replace (h =? 0) with false by (symmetry; apply Z.eqb_neq; tauto). lia.
      -- destruct (IH hs (spent + 2 ^ (L - c)) Hcs ltac:(lia)) as (I1 & I2 & I3).
         destruct (Kraft.contract one cs (spent + 2 ^ (L - c))) as [cs' s].
         cbn [fst snd] in *. split; [|split; [|exact I3]].
         ++ apply lengths_ok_cons. split; [right; lia|exact I1].
         ++ rewrite !kraft_sum_cons.
            replace (h =? 0) with false by (symmetry; apply Z.eqb_neq; tauto). lia.
    * destruct (IH hs spent Hcs ltac:(lia)) as (I1 & I2 & I3).
      destruct (Kraft.contract one cs spent) as [cs' s].
      cbn [fst snd] in *. split; [|split; [|exact I3]].
      -- apply lengths_ok_cons. split; assumption.
      -- rewrite !kraft_sum_cons.
         replace (h =? 0) with false by (symmetry; apply Z.eqb_neq; tauto). lia.
Qed.

End Bookkeeping.

(** *** From the bookkeeping to a valid code *)

Lemma lengths_ok_entries (L : Z) (hs : list Z) :
forall cs, 0 <= L -> Valid.lengths_ok L hs cs = true ->
forall c, In c cs -> 0 <= c <= L.
Proof.
induction hs as [|h hs IH]; intros [|c0 cs] HL H c Hin; try discriminate;
  [destruct Hin|].
apply lengths_ok_cons in H. destruct H as (Hc & H).
destruct Hin as [<-|Hin]; [lia|]. apply (IH cs HL H c Hin).
Qed.

Lemma lengths_ok_weaken (L m : Z) (hs : list Z) :
forall cs, Valid.lengths_ok L hs cs = true -> (forall c, In c cs -> c <= m) ->
Valid.lengths_ok m hs cs = true.
Proof.
induction hs as [|h hs IH]; intros [|c0 cs] H Hm; try discriminate; [reflexivity|].
apply lengths_ok_cons in H. destruct H as (Hc & H).
apply lengths_ok_cons. split.
- specialize (Hm c0 ltac:(left; reflexivity)). lia.
- apply IH; [exact H|]. intros c Hin. apply Hm. right. exact Hin.
Qed.

Lemma kraft_sum_scale (L m : Z) (hs : list Z) :
forall cs, m <= L -> Valid.lengths_ok m hs cs = true ->
Valid.kraft_sum L hs cs = 2 ^ (L - m) * Valid.kraft_sum m hs cs.
Proof.
induction hs as [|h hs IH]; intros [|c cs] HL H; try discriminate; [cbn; lia|].
apply lengths_ok_cons in H. destruct H as (Hc & H).
rewrite !kraft_sum_cons, (IH cs HL H).
destruct (Z.eqb_spec h 0) as [E|E]; [ring|].
replace (L - c) with ((L - m) + (m - c)) by lia.
rewrite Z.pow_add_r by lia. ring.
Qed.

Lemma longest_spec (maxLength : nat) (codeLengths : list Z) :
forall result : Z,
0 <= result <= Z.of_nat maxLength ->
(forall c, In c codeLengths -> 0 <= c <= Z.of_nat maxLength) ->
Kraft.longest maxLength codeLengths result = Z.max result (Valid.max_len codeLengths).
Proof.
induction codeLengths as [|c cs IH]; intros result Hr Hc.
- cbn. lia.
- cbn [Kraft.longest]. unfold Valid.max_len in *. cbn [fold_right].
  assert (Hc0 : 0 <= c <= Z.of_nat maxLength) by (apply Hc; left; reflexivity).
  assert (Hcs : forall x, In x cs -> 0 <= x <= Z.of_nat maxLength)
    by (intros x Hx; apply Hc; right; exact Hx).
  assert (Hmax : 0 <= fold_right Z.max 0 cs <= Z.of_nat maxLength).
  { split.
    - clear. induction cs; cbn [fold_right]; lia.
    - apply (max_len_le (Z.of_nat maxLength) cs); [lia|]. intros x Hx. apply Hcs. exact Hx. }
  destruct (Z.ltb_spec result c) as [Hlt|Hge].
  + destruct (Z.eqb_spec c (Z.of_nat maxLength)) as [E|E]; [lia|].
    rewrite IH by (auto; lia). lia.
  + rewrite IH by (auto; lia). lia.
Qed.

(** Lengths in range whose Kraft sum at the limit fits, with the
    longest of them returned, are a valid result. *)
Lemma valid_of_bookkeeping (L : Z) (histogram out : list Z) :
1 <= L -> Valid.lengths_ok L histogram out = true ->
Valid.kraft_sum L histogram out <= 2 ^ L ->
Valid.valid L (Valid.max_len out) histogram out = true.
Proof.
intros HL Hok Hk.
set (m := Valid.max_len out).
assert (Hm : 0 <= m <= L).
{ split.
  - unfold m, Valid.max_len. clear. induction out; cbn [fold_right]; lia.
  - apply max_len_le; [lia|]. intros x Hx.
    apply (lengths_ok_entries L histogram out ltac:(lia) Hok x Hx). }
assert (Hokm : Valid.lengths_ok m histogram out = true).
{ apply (lengths_ok_weaken L); [exact Hok|]. intros c Hin. apply max_len_ge. exact Hin. }
unfold Valid.valid. rewrite Hok, Z.eqb_refl, andb_true_r. cbn [andb].
apply Z.leb_le.
rewrite (kraft_sum_scale L m histogram out ltac:(lia) Hokm) in Hk.
replace (2 ^ L) with (2 ^ (L - m) * 2 ^ m) in Hk
  by (rewrite <- Z.pow_add_r by lia; f_equal; lia).
assert (0 < 2 ^ (L - m)) by (apply Z.pow_pos_nonneg; lia).
nia.
Qed.

(** What [limitedKraft] returns, when it returns. *)
Lemma kraft_result_valid (fuel maxLength : nat) (histogram : list Z) (m : Z) (out : list Z) :
(1 <= maxLength <= 30)%nat ->
Z.of_nat (length histogram) < 2 ^ 32 ->
Kraft.limitedKraft fuel maxLength histogram = Some (m, out) ->
length out = length histogram
/\ Valid.valid (Z.of_nat maxLength) m histogram out = true
/\ Valid.kraft_sum (Z.of_nat maxLength) histogram out <= 2 ^ Z.of_nat maxLength.
Proof.
intros HL Hn H. unfold Kraft.limitedKraft in H.
rewrite one_of_exact in H by lia.
set (inv := Kraft.invSumHistogram histogram) in *.
assert (Hp : 0 < 2 ^ ((Z.of_nat maxLength) - 1) <= 2 ^ 29).
{ split; [apply Z.pow_pos_nonneg; lia|apply Z.pow_le_mono_r; lia]. }
assert (Hone : 0 < 2 ^ (Z.of_nat maxLength) <= 2 ^ 30).
{ split; [apply Z.pow_pos_nonneg; lia|apply Z.pow_le_mono_r; lia]. }
destruct (kraft_initial_spec maxLength HL inv histogram 0 ltac:(lia) ltac:(nia))
  as (I1 & I2).
destruct (Kraft.initial maxLength inv (2 ^ (Z.of_nat maxLength)) histogram 0) as [cl0 s0].
cbn [fst snd] in I1, I2.
destruct (Kraft.expand fuel maxLength inv (2 ^ (Z.of_nat maxLength)) Kraft.INITIAL_THRESHOLD histogram cl0 s0)
  as [[cl1 s1]|] eqn:E; [|discriminate].
pose proof (kraft_sum_bounds (Z.of_nat maxLength) histogram cl0 ltac:(lia) I1) as Hb.
destruct (kraft_expand_spec maxLength HL inv histogram fuel _ cl0 s0 cl1 s1 I1
            ltac:(lia) ltac:(nia) E) as (E1 & E2 & E3).
assert (Hfin : exists cl2, out = cl2 /\ m = Kraft.longest maxLength cl2 0
               /\ Valid.lengths_ok (Z.of_nat maxLength) histogram cl2 = true
               /\ Valid.kraft_sum (Z.of_nat maxLength) histogram cl2 <= 2 ^ (Z.of_nat maxLength)).
{ destruct (Z.ltb_spec s1 (2 ^ (Z.of_nat maxLength))) as [Hlt|Hge].
  - destruct (kraft_contract_spec maxLength HL cl1 histogram s1 E1 ltac:(lia))
      as (C1 & C2 & C3).
    exists (fst (Kraft.contract (2 ^ (Z.of_nat maxLength)) cl1 s1)).
    injection H as <- <-. split; [reflexivity|]. split; [reflexivity|].
    split; [exact C1|]. lia.
  - exists cl1. injection H as <- <-. split; [reflexivity|]. split; [reflexivity|].
    split; [exact E1|]. lia. }
destruct Hfin as (cl2 & -> & -> & F1 & F2).
split; [apply (lengths_ok_length (Z.of_nat maxLength)); exact F1|]. split; [|exact F2].
rewrite longest_spec.
- replace (Z.max 0 (Valid.max_len cl2)) with (Valid.max_len cl2).
  + apply valid_of_bookkeeping; [lia|exact F1|exact F2].
  + assert (0 <= Valid.max_len cl2)
      by (unfold Valid.max_len; clear; induction cl2; cbn [fold_right]; lia).
    lia.
- lia.
- apply (lengths_ok_entries (Z.of_nat maxLength) histogram); [lia|exact F1].
Qed.



(** *** The heap variant *)

Lemma bind_Ok {A B : Type} (c : outcome A) (f : A -> outcome B) (b : B) :
bind c f = Ok b -> exists a, c = Ok a /\ f a = Ok b.
Proof. destruct c as [a| |]; cbn [bind]; intros H; try discriminate. exists a. auto. Qed.

Lemma lengths_ok_upd (L : Z) (hs : list Z) :
forall (cs : list Z) (k : nat) (c' : Z),
Valid.lengths_ok L hs cs = true -> (k < length cs)%nat ->
rd cs k <> 0 -> 1 <= c' <= L ->
Valid.lengths_ok L hs (upd k c' cs) = true
/\ Valid.kraft_sum L hs (upd k c' cs)
   = Valid.kraft_sum L hs cs - 2 ^ (L - rd cs k) + 2 ^ (L - c').
Proof.
induction hs as [|h hs IH]; intros [|c cs] k c' Hok Hk Hnz Hc'; try discriminate;
  [cbn in Hk; lia|].
apply lengths_ok_cons in Hok. destruct Hok as (Hc & Hcs).
destruct k as [|k].
- cbn [upd]. unfold rd in *. cbn [nth] in *. split.
  + apply lengths_ok_cons. split; [right; lia|exact Hcs].
  + rewrite !kraft_sum_cons.
    replace (h =? 0) with false by (symmetry; apply Z.eqb_neq; lia). lia.
- cbn [upd]. cbn [length] in Hk. unfold rd in Hnz |- *. cbn [nth] in Hnz |- *.
  destruct (IH cs k c' Hcs ltac:(lia) Hnz Hc') as (I1 & I2). split.
  + apply lengths_ok_cons. split; assumption.
  + rewrite !kraft_sum_cons. unfold rd in I2. lia.
Qed.

(** A used symbol of length [c] leaves at least one unit of the Kraft
    sum to every other used symbol. *)
Lemma kraft_sum_others (L : Z) (hs : list Z) :
forall (cs : list Z) (k : nat),
1 <= L -> Valid.lengths_ok L hs cs = true -> (k < length cs)%nat -> rd cs k <> 0 ->
2 ^ (L - rd cs k) + Z.of_nat (Sorting.numNonZero hs) - 1 <= Valid.kraft_sum L hs cs.
Proof.
induction hs as [|h hs IH]; intros [|c cs] k HL Hok Hk Hnz; try discriminate;
  [cbn in Hk; lia|].
apply lengths_ok_cons in Hok. destruct Hok as (Hc & Hcs).
rewrite kraft_sum_cons. unfold Sorting.numNonZero in *. cbn [filter].
pose proof (kraft_sum_bounds L hs cs HL Hcs) as (Hb & _). unfold Sorting.numNonZero in Hb.
destruct k as [|k].
- unfold rd in *. cbn [nth] in *.
  replace (h =? 0) with false by (symmetry; apply Z.eqb_neq; lia).
  cbn [negb length]. lia.
- unfold rd in Hnz |- *. cbn [nth] in Hnz |- *. cbn [length] in Hk.
  specialize (IH cs k HL Hcs ltac:(lia) Hnz). unfold rd in IH.
  destruct (Z.eqb_spec h 0) as [E|E]; cbn [negb length].
  + lia.
  + pose proof (pow2_bounds L c ltac:(lia)). lia.
Qed.

Section HeapBookkeeping.

Variable maxLength : nat.
Hypothesis HL : (1 <= maxLength <= 30)%nat.

Let L : Z := Z.of_nat maxLength.
Let one : Z := 2 ^ L.

Variable inv : F32.float.

Lemma heap_initial_spec (histogram : list Z) :
forall (i : nat) (spent : Z) (heap : KraftHeap.Heap) (cl : list Z) (s : Z)
       (hp : KraftHeap.Heap),
0 <= spent -> spent + Z.of_nat (length histogram) * 2 ^ (L - 1) < 2 ^ 64 ->
KraftHeap.initial maxLength inv one i histogram spent heap = Ok (cl, s, hp) ->
Valid.lengths_ok L histogram cl = true
/\ s = spent + Valid.kraft_sum L histogram cl.
Proof.
induction histogram as [|h hs IH]; intros i spent heap cl s hp H0 Hb H.
- cbn in H. injection H as <- <- <-. cbn. split; [reflexivity|lia].
- cbn [KraftHeap.initial] in H. cbn [length] in Hb. rewrite Nat2Z.inj_succ in Hb.
  assert (0 < 2 ^ (L - 1)) by (apply Z.pow_pos_nonneg; subst L; lia).
  destruct (Z.eqb_spec h 0) as [E|E].
  + apply bind_Ok in H. destruct H as ([[cl' s'] hp'] & E1 & H).
    injection H as <- <- <-.
    destruct (IH (S i) spent heap cl' s' hp' H0 ltac:(lia) E1) as (I1 & I2). split.
    * apply lengths_ok_cons. split; [left; auto|exact I1].
    * rewrite kraft_sum_cons.
      replace (h =? 0) with true by (symmetry; apply Z.eqb_eq; exact E). lia.
  + set (r := Kraft.round_len maxLength (Kraft.entropy_of inv h)) in *.
    pose proof (round_len_range maxLength (Kraft.entropy_of inv h) ltac:(lia)) as Hr.
    fold r in Hr.
    pose proof (pow2_bounds L r ltac:(subst L; lia)) as Hp.
    change (shr_u64 one r) with (shr_u64 (2 ^ L) r) in H.
    rewrite shr_exact in H by (subst L; lia).
    rewrite u64_id in H by lia.
    apply bind_Ok in H. destruct H as (heap' & _ & H).
    apply bind_Ok in H. destruct H as ([[cl' s'] hp'] & E1 & H).
    injection H as <- <- <-.
    destruct (IH (S i) (spent + 2 ^ (L - r)) heap' cl' s' hp' ltac:(lia) ltac:(lia) E1)
      as (I1 & I2).
    split.
    * apply lengths_ok_cons. split; [right; subst L; lia|exact I1].
    * rewrite kraft_sum_cons.
      replace (h =? 0) with false by (symmetry; apply Z.eqb_neq; exact E). lia.
Qed.

Lemma get_len_Ok (codeLengths : list Z) (i c : Z) :
KraftHeap.get_len codeLengths i = Ok c ->
(Z.to_nat i < length codeLengths)%nat /\ c = rd codeLengths (Z.to_nat i).
Proof.
unfold KraftHeap.get_len, KraftHeap.in_range. intros H.
destruct (0 <=? i) eqn:E1; [|discriminate].
destruct (i <? Z.of_nat (length codeLengths)) eqn:E2; [|discriminate].
cbn [andb] in H. injection H as <-.
apply Z.leb_le in E1. apply Z.ltb_lt in E2. split; [lia|reflexivity].
Qed.

Lemma heap_expand_spec (histogram : list Z) (fuel : nat) :
forall (codeLengths : list Z) (spent : Z) (heap : KraftHeap.Heap)
       (cl1 : list Z) (s1 : Z) (hp1 : KraftHeap.Heap),
Valid.lengths_ok L histogram codeLengths = true ->
spent = Valid.kraft_sum L histogram codeLengths -> spent < 2 ^ 64 ->
KraftHeap.expand fuel maxLength one codeLengths spent heap = Ok (cl1, s1, hp1) ->
Valid.lengths_ok L histogram cl1 = true
/\ s1 = Valid.kraft_sum L histogram cl1 /\ s1 <= one.
Proof.
induction fuel as [|fuel IH]; intros cl spent heap cl1 s1 hp1 Hok Hs H64 H; [discriminate|].
cbn [KraftHeap.expand] in H.
destruct (Z.ltb_spec one spent) as [Hgt|Hle];
  [|injection H as <- <- <-; auto].
apply bind_Ok in H. destruct H as (gain & _ & H).
apply bind_Ok in H. destruct H as (i & _ & H).
apply bind_Ok in H. destruct H as (h1 & _ & H).
apply bind_Ok in H. destruct H as (c & Ec & H).
apply get_len_Ok in Ec. destruct Ec as (Hi & Ec).
destruct ((c =? 0) || (Z.of_nat maxLength <=? c)) eqn:Eskip.
- apply (IH cl spent h1 cl1 s1 hp1 Hok Hs H64 H).
- apply orb_false_iff in Eskip. destruct Eskip as (Ec0 & EcL).
  apply Z.eqb_neq in Ec0. apply Z.leb_gt in EcL.
  pose proof (lengths_ok_entries L histogram cl ltac:(subst L; lia) Hok c
                ltac:(rewrite Ec; apply nth_In; exact Hi)) as Hc.
  rewrite (u8_id (c + 1)) in H by (subst L; lia).
  change (shr_u64 one (c + 1)) with (shr_u64 (2 ^ L) (c + 1)) in H.
  rewrite shr_exact in H by (subst L; lia).
  destruct (lengths_ok_upd L histogram cl (Z.to_nat i) (c + 1) Hok Hi
              ltac:(rewrite <- Ec; exact Ec0) ltac:(subst L; lia)) as (U1 & U2).
  rewrite <- Ec in U2.
  pose proof (pow2_half L c ltac:(subst L; lia)) as Hhalf.
  assert (0 < 2 ^ (L - (c + 1))) by (apply Z.pow_pos_nonneg; subst L; lia).
  pose proof (kraft_sum_bounds L histogram _ ltac:(subst L; lia) U1) as (Hb & _).
  rewrite u64_id in H by lia.
  destruct (Z.leb_spec (spent - 2 ^ (L - (c + 1))) one) as [Hdone|Hmore].
  + injection H as <- <- <-. split; [exact U1|]. split; lia.
  + apply bind_Ok in H. destruct H as (h2 & _ & H).
    apply (IH (upd (Z.to_nat i) (c + 1) cl) (spent - 2 ^ (L - (c + 1))) h2 cl1 s1 hp1 U1
              ltac:(lia) ltac:(lia) H).
Qed.

Lemma heap_contract_spec (histogram : list Z) (n : nat) :
forall (codeLengths : list Z) (spent : Z) (heap : KraftHeap.Heap)
       (cl1 : list Z) (s1 : Z) (hp1 : KraftHeap.Heap),
(2 <= Sorting.numNonZero histogram)%nat ->
Valid.lengths_ok L histogram codeLengths = true ->
spent = Valid.kraft_sum L histogram codeLengths -> spent <= one ->
KraftHeap.contract n one codeLengths spent heap = Ok (cl1, s1, hp1) ->
Valid.lengths_ok L histogram cl1 = true
/\ s1 = Valid.kraft_sum L histogram cl1 /\ s1 <= one.
Proof.
assert (Hone : 0 < one <= 2 ^ 30).
{ unfold one, L. split; [apply Z.pow_pos_nonneg; lia|apply Z.pow_le_mono_r; lia]. }
induction n as [|n IH]; intros cl spent heap cl1 s1 hp1 Hn Hok Hs Hle H.
- cbn in H. injection H as <- <- <-. auto.
- cbn [KraftHeap.contract] in H.
  destruct ((spent <? one) && (0 <? KraftHeap.size heap));
    [|injection H as <- <- <-; auto].
  apply bind_Ok in H. destruct H as (i & _ & H).
  apply bind_Ok in H. destruct H as (h1 & _ & H).
  apply bind_Ok in H. destruct H as (c & Ec & H).
  apply get_len_Ok in Ec. destruct Ec as (Hi & Ec).
  pose proof (lengths_ok_entries L histogram cl ltac:(subst L; lia) Hok c
                ltac:(rewrite Ec; apply nth_In; exact Hi)) as Hc.
  pose proof (kraft_sum_bounds L histogram cl ltac:(subst L; lia) Hok) as (Hb & _).
  change (shr_u64 one c) with (shr_u64 (2 ^ L) c) in H.
  rewrite shr_exact in H by (subst L; lia).
  rewrite (u64_id (one - spent)) in H by lia.
  destruct (Z.leb_spec (2 ^ (L - c)) (one - spent)) as [Hfit|Hnofit];
    [|apply (IH cl spent h1 cl1 s1 hp1 Hn Hok Hs Hle H)].
  assert (Hc0 : c <> 0).
  { intros ->. rewrite Z.sub_0_r in Hfit. fold one in Hfit. lia. }
  pose proof (kraft_sum_others L histogram cl (Z.to_nat i) ltac:(subst L; lia) Hok Hi
                ltac:(rewrite <- Ec; exact Hc0)) as Hoth.
  rewrite <- Ec in Hoth.
  assert (Hc2 : 2 <= c).
  { destruct (Z.eq_dec c 1) as [->|]; [|lia].
    pose proof (pow2_half L 0 ltac:(subst L; lia)) as Hh. rewrite Z.sub_0_r in Hh.
    fold one in Hh. replace (0 + 1) with 1 in Hh by lia. lia. }
  pose proof (pow2_half L (c - 1) ltac:(lia)) as Hhalf.
  replace (c - 1 + 1) with c in Hhalf by lia.
  assert (0 < 2 ^ (L - c)) by (apply Z.pow_pos_nonneg; lia).
  rewrite (u8_id (c - 1)) in H by (subst L; lia).
  rewrite (u64_id (spent + 2 ^ (L - c))) in H by lia.
  destruct (lengths_ok_upd L histogram cl (Z.to_nat i) (c - 1) Hok Hi
              ltac:(rewrite <- Ec; exact Hc0) ltac:(lia)) as (U1 & U2).
  rewrite <- Ec in U2.
  apply (IH (upd (Z.to_nat i) (c - 1) cl) (spent + 2 ^ (L - c)) h1 cl1 s1 hp1 Hn U1
            ltac:(lia) ltac:(lia) H).
Qed.

End HeapBookkeeping.

(** Whenever [limitedKraftHeap] returns, for a limit from 1 to 30,
    fewer than [2^32] symbols and at least two used ones, the result is
    valid. *)
Lemma kraftHeap_result_valid (fuel maxLength : nat) (histogram : list Z)
  (m : Z) (out : list Z) :
(1 <= maxLength <= 30)%nat ->
Z.of_nat (length histogram) < 2 ^ 32 ->
(2 <= Sorting.numNonZero histogram)%nat ->
KraftHeap.limitedKraftHeap fuel maxLength histogram = Ok (m, out) ->
length out = length histogram
/\ Valid.valid (Z.of_nat maxLength) m histogram out = true
/\ Valid.kraft_sum (Z.of_nat maxLength) histogram out <= 2 ^ Z.of_nat maxLength.
Proof.
intros HL Hlen Hn H. unfold KraftHeap.limitedKraftHeap in H.
rewrite one_of_exact in H by lia.
assert (Hp : 0 < 2 ^ (Z.of_nat maxLength - 1) <= 2 ^ 29).
{ split; [apply Z.pow_pos_nonneg; lia|apply Z.pow_le_mono_r; lia]. }
assert (Hone : 0 < 2 ^ Z.of_nat maxLength <= 2 ^ 30).
{ split; [apply Z.pow_pos_nonneg; lia|apply Z.pow_le_mono_r; lia]. }
apply bind_Ok in H. destruct H as ([[cl0 s0] heap1] & E0 & H).
apply bind_Ok in H. destruct H as ([[cl1 s1] heap2] & E1 & H).
apply bind_Ok in H. destruct H as ([[cl2 s2] heap3] & E2 & H).
injection H as <- <-.
pose proof (fun a b => heap_initial_spec maxLength HL _ histogram _ _ _ _ _ _ a b E0) as I.
destruct (I ltac:(lia) ltac:(nia)) as (I1 & I2). clear I.
pose proof (kraft_sum_bounds (Z.of_nat maxLength) histogram cl0 ltac:(lia) I1) as Hb.
pose proof (fun a b => heap_expand_spec maxLength HL histogram fuel _ _ _ _ _ _ I1 a b E1) as X.
destruct (X ltac:(lia) ltac:(nia)) as (X1 & X2 & X3). clear X.
destruct (heap_contract_spec maxLength HL histogram _ _ _ _ _ _ _ Hn X1 X2 X3 E2)
  as (F1 & F2 & F3).
split; [apply (lengths_ok_length (Z.of_nat maxLength)); exact F1|]. split; [|lia].
rewrite longest_spec.
- replace (Z.max 0 (Valid.max_len cl2)) with (Valid.max_len cl2).
  + apply valid_of_bookkeeping; [lia|exact F1|lia].
  + assert (0 <= Valid.max_len cl2)
      by (unfold Valid.max_len; clear; induction cl2; cbn [fold_right]; lia).
    lia.
- lia.
- apply (lengths_ok_entries (Z.of_nat maxLength) histogram); [lia|exact F1].
Qed.

(** ** The heap of limitedKraftHeap *)

Module HeapFacts.

Import KraftHeap.

Lemma in_range_true {A : Type} (l : list A) (pos : Z) :
0 <= pos < Z.of_nat (length l) -> in_range l pos = true.
Proof.
intros H. unfold in_range. apply andb_true_iff. split; [apply Z.leb_le|apply Z.ltb_lt]; lia.
Qed.

Lemma nth_upd_eq' {A : Type} (i : nat) (v d : A) (l : list A) :
(i < length l)%nat -> nth i (upd i v l) d = v.
Proof. apply nth_upd_eq. Qed.

Lemma nth_swap {A : Type} (l : list A) (d : A) (a b j : nat) :
(a < length l)%nat -> (b < length l)%nat ->
nth j (upd b (nth a l d) (upd a (nth b l d) l)) d
= if (j =? a)%nat then nth b l d else if (j =? b)%nat then nth a l d else nth j l d.
Proof.
intros Ha Hb. destruct (Nat.eqb_spec j b) as [->|Hjb].
- rewrite nth_upd_eq by (rewrite length_upd; exact Hb).
  destruct (Nat.eqb_spec b a) as [->|]; reflexivity.
- rewrite nth_upd_ne by lia.
  destruct (Nat.eqb_spec j a) as [->|Hja].
  + apply nth_upd_eq. exact Ha.
  + apply nth_upd_ne. lia.
Qed.

(** What [heap_swap] computes on two positions inside the arrays. *)
Lemma heap_swap_value (cap : nat) (h : Heap) (a b : Z) :
heap_wf cap h -> 0 <= a < Z.of_nat cap -> 0 <= b < Z.of_nat cap ->
heap_swap h a b
= Ok (mkHeap (upd (Z.to_nat b) (key_at h a) (upd (Z.to_nat a) (key_at h b) (keys h)))
             (upd (Z.to_nat b) (value_at h a) (upd (Z.to_nat a) (value_at h b) (values h)))
             (size h)).
Proof.
intros (Hk & Hv & Hs & Hc) Ha Hb.
unfold heap_swap, get_key, get_value, set_key, set_value, key_at, value_at.
destruct h as [ks vs sz]. cbn [keys values size] in *.
rewrite !in_range_true by lia. cbn [bind keys values size].
rewrite !in_range_true by (rewrite ?length_upd; lia). cbn [bind keys values size].
rewrite !in_range_true by (rewrite ?length_upd; lia). cbn [bind keys values size].
rewrite !in_range_true by (rewrite ?length_upd; lia). cbn [bind keys values size].
rewrite ?in_range_true by (rewrite ?length_upd; lia). cbn [bind keys values size].
reflexivity.
Qed.

(** [heap_swap] exchanges the two entries and nothing else. *)
Lemma heap_swap_spec (cap : nat) (h : Heap) (a b : Z) :
heap_wf cap h -> 0 <= a < Z.of_nat cap -> 0 <= b < Z.of_nat cap ->
exists h',
  heap_swap h a b = Ok h'
  /\ heap_wf cap h' /\ size h' = size h
  /\ (forall j, 0 <= j ->
        key_at h' j = (if j =? a then key_at h b else if j =? b then key_at h a
                       else key_at h j)
        /\ value_at h' j = (if j =? a then value_at h b else if j =? b then value_at h a
                            else value_at h j)).
Proof.
intros Hwf Ha Hb. rewrite (heap_swap_value cap h a b Hwf Ha Hb).
destruct Hwf as (Hk & Hv & Hs & Hc).
eexists. split; [reflexivity|].
unfold heap_wf, key_at, value_at. cbn [keys values size]. rewrite !length_upd.
split; [auto|]. split; [reflexivity|].
intros j Hj. rewrite !nth_swap by lia.
replace (Z.to_nat j =? Z.to_nat a)%nat with (j =? a)
  by (destruct (Z.eqb_spec j a), (Nat.eqb_spec (Z.to_nat j) (Z.to_nat a)); auto; lia).
replace (Z.to_nat j =? Z.to_nat b)%nat with (j =? b)
  by (destruct (Z.eqb_spec j b), (Nat.eqb_spec (Z.to_nat j) (Z.to_nat b)); auto; lia).
split; reflexivity.
Qed.

Lemma heap_isLess_value (cap : nat) (h : Heap) (a b : Z) :
heap_wf cap h -> 0 <= a < Z.of_nat cap -> 0 <= b < Z.of_nat cap ->
heap_isLess h a b = Ok (F32.ltb (key_at h a) (key_at h b)).
Proof.
intros (Hk & Hv & Hs & Hc) Ha Hb. unfold heap_isLess, get_key.
rewrite !in_range_true by lia. reflexivity.
Qed.

(** Exchanging two of the first [n] entries keeps what is stored there. *)
Lemma swap_stored (h h' : Heap) (a b n : Z) :
0 <= a < n -> 0 <= b < n ->
(forall j, 0 <= j ->
   value_at h' j = (if j =? a then value_at h b else if j =? b then value_at h a
                    else value_at h j)) ->
forall v, stored_below h' n v <-> stored_below h n v.
Proof.
intros Ha Hb Hsw v. unfold stored_below. split; intros (j & Hj & <-).
- rewrite Hsw by lia.
  destruct (Z.eqb_spec j a); [exists b; split; [lia|reflexivity]|].
  destruct (Z.eqb_spec j b); [exists a; split; [lia|reflexivity]|].
  exists j. split; [lia|reflexivity].
- destruct (Z.eq_dec j a) as [->|Hja].
  + exists b. split; [lia|]. rewrite Hsw by lia.
    destruct (Z.eqb_spec b a) as [->|]; [reflexivity|]. rewrite Z.eqb_refl. reflexivity.
  + destruct (Z.eq_dec j b) as [->|Hjb].
    * exists a. split; [lia|]. rewrite Hsw by lia. rewrite Z.eqb_refl. reflexivity.
    * exists j. split; [lia|]. rewrite Hsw by lia.
      replace (j =? a) with false by (symmetry; apply Z.eqb_neq; exact Hja).
      replace (j =? b) with false by (symmetry; apply Z.eqb_neq; exact Hjb).
      reflexivity.
Qed.

(** [heap_bubbleUp]'s loop from a position among the first [n]
    entries: it stays inside the arrays, ends within the fuel, and
    keeps what the first [n] entries store. *)
Lemma bubble_spec (cap : nat) (fuel : nat) :
forall (h : Heap) (current n : Z),
heap_wf cap h -> 0 <= current < n -> n <= Z.of_nat cap ->
current < 2 ^ (Z.of_nat fuel - 1) ->
exists h',
  bubble fuel h current (u64 (current - 1) / 2) = Ok h'
  /\ heap_wf cap h' /\ size h' = size h
  /\ (forall v, stored_below h' n v <-> stored_below h n v).
Proof.
induction fuel as [|fuel IH]; intros h current n Hwf Hc Hn Hf.
- rewrite Z.pow_neg_r in Hf by lia. lia.
- cbn [bubble]. rewrite Nat2Z.inj_succ in Hf.
  replace (Z.succ (Z.of_nat fuel) - 1) with (Z.of_nat fuel) in Hf by lia.
  destruct (Z.ltb_spec 0 current) as [Hpos|Hzero].
  + pose proof Hwf as (_ & _ & _ & Hcap).
    rewrite u64_id by lia.
    assert (Hp : 0 <= (current - 1) / 2 < current).
    { split; [apply Z.div_pos; lia|apply Z.div_lt_upper_bound; lia]. }
    rewrite (heap_isLess_value cap) by (auto; lia). cbn [bind].
    destruct (F32.ltb (key_at h ((current - 1) / 2)) (key_at h current)).
    * destruct (heap_swap_spec cap h current ((current - 1) / 2) Hwf ltac:(lia) ltac:(lia))
        as (h1 & E1 & W1 & S1 & V1).
      rewrite E1. cbn [bind].
      assert (Hfuel : (current - 1) / 2 < 2 ^ (Z.of_nat fuel - 1)).
      { destruct fuel as [|f]; [cbn in Hf; lia|].
        rewrite Nat2Z.inj_succ in *.
        replace (Z.succ (Z.of_nat f) - 1) with (Z.of_nat f) by lia.
        rewrite Z.pow_succ_r in Hf by lia.
        apply Z.div_lt_upper_bound; lia. }
      destruct (IH h1 ((current - 1) / 2) n W1 ltac:(lia) Hn Hfuel)
        as (h' & E' & W' & S' & V').
      exists h'. split; [exact E'|]. split; [exact W'|]. split; [congruence|].
      intros v. rewrite V'.
      apply (swap_stored h h1 current ((current - 1) / 2) n); try lia.
      intros j Hj. apply V1. exact Hj.
    * exists h. split; [reflexivity|]. split; [exact Hwf|]. split; [reflexivity|].
      intros v. reflexivity.
  + exists h. split; [reflexivity|]. split; [exact Hwf|]. split; [reflexivity|].
    intros v. reflexivity.
Qed.

(** [heap_insert] into a heap with room left. *)
Lemma heap_insert_spec (cap : nat) (h : Heap) (k : F32.float) (v : Z) :
heap_wf cap h -> size h < Z.of_nat cap ->
exists h',
  heap_insert h k v = Ok h'
  /\ heap_wf cap h' /\ size h' = size h + 1
  /\ (forall x, stored h' x <-> x = v \/ stored h x).
Proof.
intros Hwf Hroom. pose proof Hwf as (Hk & Hv & Hs & Hc).
unfold heap_insert, set_key. rewrite in_range_true by lia. cbn [bind].
unfold set_value. cbn [keys values size]. rewrite in_range_true by lia. cbn [bind].
set (h2 := mkHeap (upd (Z.to_nat (size h)) k (keys h))
                  (upd (Z.to_nat (size h)) v (values h)) (size h)).
assert (W2 : heap_wf cap h2).
{ unfold heap_wf, h2. cbn [keys values size]. rewrite !length_upd. auto. }
unfold heap_bubbleUp.
destruct (bubble_spec cap 65 h2 (size h2) (size h + 1) W2) as (h3 & E3 & W3 & S3 & V3).
- unfold h2. cbn [size]. lia.
- lia.
- unfold h2. cbn [size]. change (Z.of_nat 65 - 1) with 64. lia.
- rewrite E3. cbn [bind].
  assert (S3' : size h3 = size h) by (rewrite S3; reflexivity).
  rewrite S3'. rewrite u64_id by lia.
  eexists. split; [reflexivity|].
  split; [|split; [reflexivity|]].
  + destruct W3 as (A1 & A2 & A3 & A4). unfold heap_wf, set_size. cbn [keys values size].
    split; [exact A1|]. split; [exact A2|]. split; [lia|exact A4].
  + intros x. unfold stored, set_size. cbn [size].
    change (stored_below (mkHeap (keys h3) (values h3) (size h + 1)) (size h + 1) x)
      with (stored_below h3 (size h + 1) x).
    rewrite V3. unfold stored_below, value_at, h2. cbn [values]. split.
    * intros (j & Hj & <-). destruct (Z.eq_dec j (size h)) as [->|Hne].
      -- left. rewrite nth_upd_eq by lia. reflexivity.
      -- right. exists j. split; [lia|]. rewrite nth_upd_ne by lia. reflexivity.
    * intros [->|(j & Hj & <-)].
      -- exists (size h). split; [lia|]. apply nth_upd_eq. lia.
      -- exists j. split; [lia|]. apply nth_upd_ne. lia.
Qed.

(** One comparison of [heap_sinkDown]: the bigger of the entry [b] and
    the child at [pos], when there is such a child. *)
Lemma pick_spec (cap : nat) (h : Heap) (b pos : Z) :
heap_wf cap h -> 0 <= b < size h -> 0 <= pos ->
exists b',
  (if pos <? size h
   then less <- heap_isLess h b pos ;; Ok (if (less : bool) then pos else b)
   else Ok b) = Ok b'
  /\ (b' = b \/ (b' = pos /\ pos < size h)).
Proof.
intros Hwf Hb Hpos. pose proof Hwf as (_ & _ & Hs & _).
destruct (Z.ltb_spec pos (size h)) as [Hlt|Hge].
- rewrite (heap_isLess_value cap) by (auto; lia). cbn [bind].
  destruct (F32.ltb (key_at h b) (key_at h pos)).
  + exists pos. split; [reflexivity|]. right. split; [reflexivity|exact Hlt].
  + exists b. split; [reflexivity|]. left. reflexivity.
- exists b. split; [reflexivity|]. left. reflexivity.
Qed.

(** [heap_sinkDown] from a position of the heap: it stays inside the
    heap, ends within the fuel, and keeps what the heap stores. *)
Lemma sink_spec (cap : nat) (fuel : nat) :
forall (h : Heap) (current : Z),
heap_wf cap h -> 0 <= current < size h ->
size h <= (current + 1) * 2 ^ (Z.of_nat fuel - 1) ->
exists h',
  sink fuel h current = Ok h'
  /\ heap_wf cap h' /\ size h' = size h
  /\ (forall v, stored h' v <-> stored h v).
Proof.
induction fuel as [|fuel IH]; intros h current Hwf Hc Hf.
- rewrite Z.pow_neg_r in Hf by lia. lia.
- cbn [sink]. rewrite Nat2Z.inj_succ in Hf.
  replace (Z.succ (Z.of_nat fuel) - 1) with (Z.of_nat fuel) in Hf by lia.
  pose proof Hwf as (_ & _ & Hs & Hcap).
  rewrite !u64_id by lia.
  destruct (pick_spec cap h current (2 * current + 1) Hwf Hc ltac:(lia))
    as (b1 & E1 & H1).
  rewrite E1. cbn [bind].
  assert (Hb1 : 0 <= b1 < size h) by lia.
  destruct (pick_spec cap h b1 (2 * current + 2) Hwf Hb1 ltac:(lia))
    as (biggest & E2 & H2).
  rewrite E2. cbn [bind].
  destruct (Z.eqb_spec biggest current) as [Eb|Eb].
  + exists h. split; [reflexivity|]. split; [exact Hwf|]. split; [reflexivity|].
    intros v. reflexivity.
  + assert (Hbig : 2 * current + 1 <= biggest < size h) by lia.
    destruct (heap_swap_spec cap h biggest current Hwf ltac:(lia) ltac:(lia))
      as (h1 & Es & W1 & S1 & V1).
    rewrite Es. cbn [bind].
    assert (Hfuel : size h1 <= (biggest + 1) * 2 ^ (Z.of_nat fuel - 1)).
    { rewrite S1. destruct fuel as [|f]; [cbn in Hf; lia|].
      rewrite Nat2Z.inj_succ in *.
      replace (Z.succ (Z.of_nat f) - 1) with (Z.of_nat f) by lia.
      rewrite Z.pow_succ_r in Hf by lia.
      assert (0 < 2 ^ Z.of_nat f) by (apply Z.pow_pos_nonneg; lia). nia. }
    destruct (IH h1 biggest W1 ltac:(lia) Hfuel) as (h' & E' & W' & S' & V').
    exists h'. split; [exact E'|]. split; [exact W'|]. split; [congruence|].
    intros v. rewrite V'. unfold stored. rewrite S1.
    apply (swap_stored h h1 biggest current (size h)); try lia.
    intros j Hj. apply V1. exact Hj.
Qed.

(** [heap_removeTop] on a heap that is not empty. *)
Lemma heap_removeTop_spec (cap : nat) (h : Heap) :
heap_wf cap h -> 1 <= size h ->
exists h',
  heap_removeTop h = Ok h'
  /\ heap_wf cap h' /\ size h' = size h - 1
  /\ (forall x, stored h x -> x = value_at h 0 \/ stored h' x)
  /\ (forall x, stored h' x -> stored h x).
Proof.
intros Hwf Hne. pose proof Hwf as (Hk & Hv & Hs & Hc).
unfold heap_removeTop. rewrite u64_id by lia.
unfold set_size at 1 2 3. cbn [size].
destruct (Z.ltb_spec 0 (size h - 1)) as [Hmore|Hlast].
- unfold get_key, set_size. cbn [keys values size].
  rewrite in_range_true by lia. cbn [bind].
  unfold set_key. cbn [keys values size]. rewrite in_range_true by lia. cbn [bind].
  unfold get_value. cbn [keys values size]. rewrite in_range_true by lia. cbn [bind].
  unfold set_value. cbn [keys values size]. rewrite in_range_true by lia. cbn [bind].
  set (h2 := mkHeap _ _ (size h - 1)).
  assert (W2 : heap_wf cap h2).
  { unfold heap_wf, h2. cbn [keys values size]. rewrite !length_upd.
    split; [exact Hk|]. split; [exact Hv|]. split; [lia|exact Hc]. }
  assert (V2 : forall j, 0 <= j ->
            value_at h2 j = if j =? 0 then value_at h (size h - 1) else value_at h j).
  { intros j Hj. unfold value_at, h2. cbn [values].
    destruct (Z.eqb_spec j 0) as [->|Hne0].
    - apply nth_upd_eq. change (Z.to_nat 0) with O. lia.
    - apply nth_upd_ne. change (Z.to_nat 0) with O. lia. }
  unfold heap_sinkDown.
  destruct (sink_spec cap 65 h2 0 W2) as (h' & E' & W' & S' & V').
  + unfold h2. cbn [size]. lia.
  + unfold h2. cbn [size]. change (Z.of_nat 65 - 1) with 64. lia.
  + exists h'. split; [exact E'|]. split; [exact W'|].
    split; [rewrite S'; reflexivity|]. split.
    * intros x (j & Hj & <-). destruct (Z.eq_dec j 0) as [->|Hj0]; [left; reflexivity|].
      right. apply V'. unfold stored, stored_below. unfold h2 at 1. cbn [size].
      destruct (Z.eq_dec j (size h - 1)) as [->|Hjl].
      -- exists 0. split; [lia|]. rewrite V2 by lia. reflexivity.
      -- exists j. split; [lia|]. rewrite V2 by lia.
         replace (j =? 0) with false by (symmetry; apply Z.eqb_neq; exact Hj0).
         reflexivity.
    * intros x Hx. apply V' in Hx. destruct Hx as (j & Hj & <-).
      unfold h2 in Hj at 1. cbn [size] in Hj. rewrite V2 by lia.
      destruct (Z.eqb_spec j 0).
      -- exists (size h - 1). split; [lia|reflexivity].
      -- exists j. split; [lia|reflexivity].
- eexists. split; [reflexivity|].
  split; [|split; [reflexivity|split]].
  + unfold heap_wf, set_size. cbn [keys values size]. auto with zarith.
  + intros x (j & Hj & <-). left. replace j with 0 by lia. reflexivity.
  + intros x (j & Hj & _). cbn [size set_size] in Hj. lia.
Qed.

(** *** limitedKraftHeap on a feasible input *)

Lemma slack_cons (L h c : Z) (hs cs : list Z) :
slack L (h :: hs) (c :: cs) = (if h =? 0 then 0 else L - c) + slack L hs cs.
Proof. reflexivity. Qed.

Lemma slack_bounds (L : Z) (hs : list Z) :
forall cs, 1 <= L -> Valid.lengths_ok L hs cs = true ->
0 <= slack L hs cs <= Z.of_nat (length hs) * L.
Proof.
induction hs as [|h hs IH]; intros [|c cs] HL H; try discriminate; [cbn; lia|].
apply lengths_ok_cons in H. destruct H as (Hc & H).
specialize (IH cs HL H). rewrite slack_cons. cbn [length]. rewrite Nat2Z.inj_succ.
destruct (Z.eqb_spec h 0); nia.
Qed.

Lemma slack_upd (L : Z) (hs : list Z) :
forall (cs : list Z) (k : nat) (c' : Z),
Valid.lengths_ok L hs cs = true -> (k < length cs)%nat -> rd cs k <> 0 ->
slack L hs (upd k c' cs) = slack L hs cs + rd cs k - c'.
Proof.
induction hs as [|h hs IH]; intros [|c cs] k c' Hok Hk Hnz; try discriminate;
  [cbn in Hk; lia|].
apply lengths_ok_cons in Hok. destruct Hok as (Hc & Hcs).
destruct k as [|k]; cbn [upd]; rewrite !slack_cons.
- unfold rd in *. cbn [nth] in *.
  replace (h =? 0) with false by (symmetry; apply Z.eqb_neq; lia). lia.
- unfold rd in Hnz |- *. cbn [nth] in Hnz |- *. cbn [length] in Hk.
  pose proof (IH cs k c' Hcs ltac:(lia) Hnz) as E. unfold rd in E. lia.
Qed.

Lemma lengths_ok_zero (L : Z) (hs : list Z) :
forall (cs : list Z) (k : nat),
Valid.lengths_ok L hs cs = true -> (k < length hs)%nat -> rd cs k = 0 -> rd hs k = 0.
Proof.
induction hs as [|h hs IH]; intros [|c cs] k Hok Hk H0; try discriminate;
  [cbn in Hk; lia|].
apply lengths_ok_cons in Hok. destruct Hok as (Hc & Hcs).
destruct k as [|k]; unfold rd in *; cbn [nth] in *; [lia|].
apply (IH cs k Hcs); [cbn [length] in Hk; lia|exact H0].
Qed.

(** When the Kraft sum exceeds the number of used symbols, one of them
    is shorter than the limit. *)
Lemma exists_short (L : Z) (hs : list Z) :
forall cs, 1 <= L -> Valid.lengths_ok L hs cs = true ->
Z.of_nat (Sorting.numNonZero hs) < Valid.kraft_sum L hs cs ->
exists k, (k < length hs)%nat /\ rd hs k <> 0 /\ rd cs k < L.
Proof.
induction hs as [|h hs IH]; intros [|c cs] HL H Hk; try discriminate.
apply lengths_ok_cons in H. destruct H as (Hc & H).
rewrite kraft_sum_cons in Hk. unfold Sorting.numNonZero in *. cbn [filter] in Hk.
destruct (Z.eqb_spec h 0) as [E|E]; cbn [negb length] in Hk.
- destruct (IH cs HL H Hk) as (k & Hk1 & Hk2 & Hk3).
  exists (S k). cbn [length]. split; [lia|]. unfold rd in *. cbn [nth]. auto.
- destruct (Z.eq_dec c L) as [->|Hne].
  + rewrite Z.sub_diag in Hk. change (2 ^ 0) with 1 in Hk.
    destruct (IH cs HL H ltac:(lia)) as (k & Hk1 & Hk2 & Hk3).
    exists (S k). cbn [length]. split; [lia|]. unfold rd in *. cbn [nth]. auto.
  + exists O. cbn [length]. split; [lia|]. unfold rd. cbn [nth]. split; [exact E|lia].
Qed.

Section HeapTotal.

Variable maxLength : nat.
Hypothesis HL : (1 <= maxLength <= 30)%nat.

Let L : Z := Z.of_nat maxLength.
Let one : Z := 2 ^ L.

Variable inv : F32.float.
Variable cap : nat.

(** Every value of the heap is the index of a symbol. *)
Definition indices (hp : Heap) : Prop := forall v, stored hp v -> 0 <= v < Z.of_nat cap.

Lemma heap_initial_total (histogram : list Z) :
forall (i : nat) (spent : Z) (heap : Heap),
heap_wf cap heap -> size heap + Z.of_nat (length histogram) <= Z.of_nat cap ->
(i + length histogram = cap)%nat -> indices heap ->
exists cl s hp,
  initial maxLength inv one i histogram spent heap = Ok (cl, s, hp)
  /\ heap_wf cap hp /\ size hp <= size heap + Z.of_nat (length histogram)
  /\ indices hp
  /\ (forall v, stored heap v -> stored hp v)
  /\ (forall k, (k < length histogram)%nat -> rd histogram k <> 0 -> rd cl k < L ->
        stored hp (Z.of_nat (i + k))).
Proof.
induction histogram as [|h hs IH]; intros i spent heap Hwf Hroom Hi Hidx.
- exists [], spent, heap. split; [reflexivity|]. split; [exact Hwf|].
  cbn [length]. split; [lia|]. split; [exact Hidx|]. split; [auto|].
  intros k Hk. lia.
- cbn [initial]. cbn [length] in Hroom, Hi. rewrite Nat2Z.inj_succ in Hroom.
  destruct (Z.eqb_spec h 0) as [E|E].
  + destruct (IH (S i) spent heap Hwf ltac:(lia) ltac:(lia) Hidx)
      as (cl & s & hp & E1 & W1 & S1 & X1 & M1 & K1).
    rewrite E1. cbn [bind]. exists (0 :: cl), s, hp.
    split; [reflexivity|]. split; [exact W1|]. cbn [length]. split; [lia|].
    split; [exact X1|]. split; [exact M1|].
    intros k Hk Hnz Hlt. destruct k as [|k].
    * unfold rd in Hnz. cbn [nth] in Hnz. contradiction.
    * replace (i + S k)%nat with (S i + k)%nat by lia.
      apply K1; [lia| |]; unfold rd in *; cbn [nth] in *; assumption.
  + set (r := Kraft.round_len maxLength (Kraft.entropy_of inv h)).
    set (spent' := u64 (spent + shr_u64 one r)).
    assert (Hins : exists heap',
              (if r <? Z.of_nat maxLength
               then heap_insert heap (F32.sub (Kraft.entropy_of inv h) (F32.of_Z r))
                                (Z.of_nat i)
               else Ok heap) = Ok heap'
              /\ heap_wf cap heap' /\ size heap' <= size heap + 1
              /\ indices heap'
              /\ (forall v, stored heap v -> stored heap' v)
              /\ (r < L -> stored heap' (Z.of_nat i))).
    { destruct (Z.ltb_spec r (Z.of_nat maxLength)) as [Hlt|Hge].
      - destruct (heap_insert_spec cap heap (F32.sub (Kraft.entropy_of inv h) (F32.of_Z r))
                    (Z.of_nat i) Hwf ltac:(lia)) as (heap' & E1 & W1 & S1 & V1).
        exists heap'. split; [exact E1|]. split; [exact W1|]. split; [lia|].
        split; [|split].
        + intros v Hv. apply V1 in Hv. destruct Hv as [->|Hv]; [lia|apply Hidx; exact Hv].
        + intros v Hv. apply V1. right. exact Hv.
        + intros _. apply V1. left. reflexivity.
      - exists heap. split; [reflexivity|]. split; [exact Hwf|]. split; [lia|].
        split; [exact Hidx|]. split; [auto|]. intros Hlt. subst L. lia. }
    destruct Hins as (heap' & E0 & W0 & S0 & X0 & M0 & K0).
    rewrite E0. cbn [bind].
    destruct (IH (S i) spent' heap' W0 ltac:(lia) ltac:(lia) X0)
      as (cl & s & hp & E1 & W1 & S1 & X1 & M1 & K1).
    rewrite E1. cbn [bind]. exists (r :: cl), s, hp.
    split; [reflexivity|]. split; [exact W1|]. cbn [length]. split; [lia|].
    split; [exact X1|]. split; [auto|].
    intros k Hk Hnz Hlt. destruct k as [|k].
    * rewrite Nat.add_0_r. apply M1. apply K0. unfold rd in Hlt. cbn [nth] in Hlt. exact Hlt.
    * replace (i + S k)%nat with (S i + k)%nat by lia.
      apply K1; [lia| |]; unfold rd in *; cbn [nth] in *; assumption.
Qed.

Lemma get_len_value (cl : list Z) (i : Z) :
0 <= i < Z.of_nat (length cl) -> get_len cl i = Ok (rd cl (Z.to_nat i)).
Proof. intros H. unfold get_len. rewrite in_range_true by exact H. reflexivity. Qed.

Lemma heap_top (heap : Heap) :
heap_wf cap heap -> 1 <= size heap ->
get_key heap 0 = Ok (key_at heap 0) /\ get_value heap 0 = Ok (value_at heap 0)
/\ stored heap (value_at heap 0).
Proof.
intros (Hk & Hv & Hs & Hc) Hne. unfold get_key, get_value.
rewrite !in_range_true by lia. split; [reflexivity|]. split; [reflexivity|].
exists 0. split; [lia|reflexivity].
Qed.

Lemma heap_contract_total (n : nat) :
forall (cl : list Z) (spent : Z) (heap : Heap),
length cl = cap -> heap_wf cap heap -> indices heap ->
exists r, contract n one cl spent heap = Ok r.
Proof.
induction n as [|n IH]; intros cl spent heap Hlen Hwf Hidx.
- eexists. reflexivity.
- cbn [contract].
  destruct ((spent <? one) && (0 <? size heap)) eqn:Eg; [|eexists; reflexivity].
  apply andb_true_iff in Eg. destruct Eg as (_ & Eg). apply Z.ltb_lt in Eg.
  destruct (heap_top heap Hwf ltac:(lia)) as (_ & Ev & Htop).
  rewrite Ev. cbn [bind].
  destruct (heap_removeTop_spec cap heap Hwf ltac:(lia)) as (h1 & E1 & W1 & S1 & V1 & V1').
  rewrite E1. cbn [bind].
  pose proof (Hidx _ Htop) as Ht.
  rewrite get_len_value by lia. cbn [bind].
  assert (Hidx1 : indices h1) by (intros v Hv; apply Hidx, V1'; exact Hv).
  destruct (_ <=? _); apply IH; auto. rewrite length_upd. exact Hlen.
Qed.

Variable histogram : list Z.
Hypothesis Hcap : length histogram = cap.
Hypothesis Hsmall : Z.of_nat cap < 2 ^ 32.
Hypothesis Hfeasible : Z.of_nat (Sorting.numNonZero histogram) <= one.

(** The state of the expansion loop. *)
Record expanding (cl : list Z) (spent : Z) (heap : Heap) : Prop := {
  ex_ok : Valid.lengths_ok L histogram cl = true;
  ex_spent : spent = Valid.kraft_sum L histogram cl;
  ex_wf : heap_wf cap heap;
  ex_indices : indices heap;
  ex_short : forall k, (k < cap)%nat -> rd histogram k <> 0 -> rd cl k < L ->
             stored heap (Z.of_nat k)
}.

Lemma heap_expand_total (fuel : nat) :
forall (cl : list Z) (spent : Z) (heap : Heap),
expanding cl spent heap ->
2 * slack L histogram cl + size heap < Z.of_nat fuel ->
exists cl1 s1 hp1,
  expand fuel maxLength one cl spent heap = Ok (cl1, s1, hp1)
  /\ heap_wf cap hp1 /\ indices hp1.
Proof.
assert (HLz : L = Z.of_nat maxLength) by reflexivity.
assert (HL1 : 1 <= L) by lia.
assert (Hone : 0 < one <= 2 ^ 30).
{ unfold one, L. split; [apply Z.pow_pos_nonneg; lia|apply Z.pow_le_mono_r; lia]. }
induction fuel as [|fuel IH]; intros cl spent heap I Hf.
- pose proof (slack_bounds L histogram cl HL1 (ex_ok _ _ _ I)).
  pose proof (ex_wf _ _ _ I) as (_ & _ & Hs & _). lia.
- cbn [expand]. rewrite Nat2Z.inj_succ in Hf.
  destruct (Z.ltb_spec one spent) as [Hgt|Hle].
  + destruct I as [Iok Isp Iwf Iidx Ish].
    pose proof Iwf as (_ & _ & Hsz & _).
    pose proof (lengths_ok_length L histogram cl Iok) as Hlen. rewrite Hcap in Hlen.
    destruct (exists_short L histogram cl HL1 Iok ltac:(lia)) as (k0 & Hk0 & Hk0nz & Hk0lt).
    pose proof (Ish k0 ltac:(lia) Hk0nz Hk0lt) as (j0 & Hj0 & _).
    destruct (heap_top heap Iwf ltac:(lia)) as (Ek & Ev & Htop).
    rewrite Ek, Ev. cbn [bind].
    destruct (heap_removeTop_spec cap heap Iwf ltac:(lia)) as (h1 & E1 & W1 & S1 & V1 & V1').
    rewrite E1. cbn [bind].
    set (t := value_at heap 0) in *.
    pose proof (Iidx t Htop) as Ht.
    rewrite get_len_value by lia. cbn [bind].
    set (c := rd cl (Z.to_nat t)).
    pose proof (lengths_ok_entries L histogram cl ltac:(lia) Iok c
                  ltac:(apply nth_In; lia)) as Hc.
    assert (Hidx1 : indices h1) by (intros v Hv; apply Iidx, V1'; exact Hv).
    destruct ((c =? 0) || (Z.of_nat maxLength <=? c)) eqn:Eskip.
    * apply IH; [|lia]. constructor; auto.
      intros k Hk Hnz Hlt. destruct (V1 _ (Ish k Hk Hnz Hlt)) as [Ekt|Hst]; [|exact Hst].
      exfalso.
      assert (Hck : rd cl k = c).
      { unfold c. replace (Z.to_nat t) with k; [reflexivity|].
        rewrite <- Ekt. symmetry. apply Nat2Z.id. }
      apply orb_true_iff in Eskip. destruct Eskip as [E0|E0].
      -- apply Z.eqb_eq in E0. apply Hnz.
         apply (lengths_ok_zero L histogram cl k Iok); [lia|]. rewrite Hck. exact E0.
      -- apply Z.leb_le in E0. lia.
    * apply orb_false_iff in Eskip. destruct Eskip as (Ec0 & EcL).
      apply Z.eqb_neq in Ec0. apply Z.leb_gt in EcL.
      rewrite (u8_id (c + 1)) by lia.
      change (shr_u64 one (c + 1)) with (shr_u64 (2 ^ L) (c + 1)).
      rewrite shr_exact by lia.
      destruct (lengths_ok_upd L histogram cl (Z.to_nat t) (c + 1) Iok ltac:(lia)
                  Ec0 ltac:(lia)) as (U1 & U2).
      fold c in U2.
      pose proof (pow2_half L c ltac:(lia)) as Hhalf.
      assert (0 < 2 ^ (L - (c + 1))) by (apply Z.pow_pos_nonneg; lia).
      pose proof (kraft_sum_bounds L histogram _ HL1 U1) as (Hb & _).
      pose proof (kraft_sum_bounds L histogram cl HL1 Iok) as (_ & Hb2).
      assert (0 < 2 ^ (L - 1) <= 2 ^ 29).
      { unfold L. split; [apply Z.pow_pos_nonneg; lia|apply Z.pow_le_mono_r; lia]. }
      assert (Z.of_nat (length histogram) * 2 ^ (L - 1) <= 2 ^ 32 * 2 ^ 29)
        by (apply Z.mul_le_mono_nonneg; lia).
      rewrite u64_id by lia.
      destruct (Z.leb_spec (spent - 2 ^ (L - (c + 1))) one) as [Hdone|Hmore].
      -- eexists _, _, _. split; [reflexivity|]. split; [exact W1|exact Hidx1].
      -- destruct (heap_insert_spec cap h1 (F32.sub (key_at heap 0) F32.one) t W1 ltac:(lia))
           as (h2 & E2 & W2 & S2 & V2).
         rewrite E2. cbn [bind]. apply IH.
         ++ constructor; auto.
            ** lia.
            ** intros v Hv. apply V2 in Hv. destruct Hv as [->|Hv]; [exact Ht|].
               apply Hidx1. exact Hv.
            ** intros k Hk Hnz Hlt. apply V2.
               destruct (Z.eq_dec (Z.of_nat k) t) as [Ekt|Hkt]; [left; exact Ekt|right].
               rewrite rd_upd_ne in Hlt by lia.
               destruct (V1 _ (Ish k Hk Hnz Hlt)) as [Ekt|Hst]; [contradiction|exact Hst].
         ++ rewrite (slack_upd L histogram cl (Z.to_nat t) (c + 1) Iok ltac:(lia) Ec0).
            fold c. lia.
  + eexists _, _, _. split; [reflexivity|]. split; apply I.
Qed.

End HeapTotal.

End HeapFacts.

(** X12.  For a limit from 1 to 30 and a histogram of fewer than [2^32]
    symbols of which at least two and at most [2^maxLength] are used
    (so that a code within the limit exists), [limitedKraftHeap] stays
    inside its arrays, leaves its [while (spent > one)] loop within
    [numCodes * (2 * maxLength + 1)] rounds, and returns a valid result: a zero
    exactly at the unused symbols, a length between 1 and the limit at
    the used ones, the longest length as the returned value, and the
    Kraft inequality. *)
Theorem limitedKraftHeap_total (fuel maxLength : nat) (histogram : list Z) :
(1 <= maxLength <= 30)%nat ->
Z.of_nat (length histogram) < 2 ^ 32 ->
(2 <= Sorting.numNonZero histogram)%nat ->
Z.of_nat (Sorting.numNonZero histogram) <= 2 ^ Z.of_nat maxLength ->
(length histogram * (2 * maxLength + 1) < fuel)%nat ->
exists (m : Z) (out : list Z),
  KraftHeap.limitedKraftHeap fuel maxLength histogram = Ok (m, out)
  /\ length out = length histogram
  /\ Valid.valid (Z.of_nat maxLength) m histogram out = true
  /\ Valid.kraft_sum (Z.of_nat maxLength) histogram out <= 2 ^ Z.of_nat maxLength.
Proof.
intros HL Hlen Hn Hfeas Hfuel.
assert (Hret : exists r, KraftHeap.limitedKraftHeap fuel maxLength histogram = Ok r).
{ unfold KraftHeap.limitedKraftHeap. rewrite one_of_exact by lia.
  set (cap := length histogram).
  set (heap0 := KraftHeap.mkHeap (repeat (S754_zero false) cap) (repeat 0 cap) 0).
  assert (W0 : heap_wf cap heap0).
  { unfold heap_wf, heap0. cbn [KraftHeap.keys KraftHeap.values KraftHeap.size].
    rewrite !repeat_length. unfold cap. lia. }
  assert (X0 : HeapFacts.indices cap heap0).
  { intros v (j & Hj & _). unfold heap0 in Hj. cbn [KraftHeap.size] in Hj. lia. }
  destruct (HeapFacts.heap_initial_total maxLength HL (Kraft.invSumHistogram histogram) cap
              histogram 0 0 heap0 W0 ltac:(unfold heap0, cap; cbn [KraftHeap.size]; lia)
              ltac:(reflexivity) X0)
    as (cl0 & s0 & heap1 & E0 & W1 & S1 & X1 & _ & K1).
  rewrite E0. cbn [bind].
  assert (Hp : 0 < 2 ^ (Z.of_nat maxLength - 1) <= 2 ^ 29).
  { split; [apply Z.pow_pos_nonneg; lia|apply Z.pow_le_mono_r; lia]. }
  pose proof (fun a b => heap_initial_spec maxLength HL _ histogram _ _ _ _ _ _ a b E0) as I.
  destruct (I ltac:(lia) ltac:(nia)) as (I1 & I2). clear I.
  assert (Iex : HeapFacts.expanding maxLength cap histogram cl0 s0 heap1).
  { constructor; auto; try lia. }
  pose proof (HeapFacts.slack_bounds (Z.of_nat maxLength) histogram cl0 ltac:(lia) I1) as Hsl.
  destruct (HeapFacts.heap_expand_total maxLength HL cap histogram eq_refl Hlen Hfeas fuel
              cl0 s0 heap1 Iex)
    as (cl1 & s1 & heap2 & E1 & W2 & X2).
  { unfold heap0 in S1. cbn [KraftHeap.size] in S1.
    assert (Z.of_nat (length histogram) * (2 * Z.of_nat maxLength + 1) < Z.of_nat fuel) by lia.
    lia. }
  rewrite E1. cbn [bind].
  pose proof (kraft_sum_bounds (Z.of_nat maxLength) histogram cl0 ltac:(lia) I1) as Hb.
  pose proof (fun a b => heap_expand_spec maxLength HL histogram fuel _ _ _ _ _ _ I1 a b E1) as X.
  destruct (X ltac:(lia) ltac:(nia)) as (Y1 & _). clear X.
  destruct (HeapFacts.heap_contract_total maxLength HL cap (Z.to_nat (KraftHeap.size heap2))
              cl1 s1 heap2 (lengths_ok_length _ _ _ Y1) W2 X2) as ([[cl2 s2] heap3] & E2).
  rewrite E2. cbn [bind]. eexists. reflexivity. }
destruct Hret as ([m out] & E). exists m, out. split; [exact E|].
apply (kraftHeap_result_valid fuel maxLength histogram m out HL Hlen Hn E).
Qed.

Lemma limitedKraftHeap_total_witness :
exists (m : Z) (out : list Z),
  KraftHeap.limitedKraftHeap 100 3 [60;0;1;2;4;9;1] = Ok (m, out)
  /\ length out = length [60;0;1;2;4;9;1]
  /\ Valid.valid (Z.of_nat 3) m [60;0;1;2;4;9;1] out = true
  /\ Valid.kraft_sum (Z.of_nat 3) [60;0;1;2;4;9;1] out <= 2 ^ Z.of_nat 3.
Proof.
apply (limitedKraftHeap_total 100 3 [60;0;1;2;4;9;1]).
- lia.
- vm_compute. reflexivity.
- change (2 <= 6)%nat. lia.
- vm_compute. discriminate.
- vm_compute. lia.
Defined.

(** ** The order of the heap *)

Module FloatOrder.

(** A rank that orders the floats as [<] does: the sign class, then
    exponent and mantissa, both negated for the negative numbers. *)
Definition rank (x : F32.float) : Z * Z * Z :=
match x with
| S754_zero _ => (0, 0, 0)
| S754_infinity s => (if s then -2 else 2, 0, 0)
| S754_nan => (0, 0, 0)
| S754_finite s m e => if s then (-1, - e, - Zpos m) else (1, e, Zpos m)
end.

Definition lt3 (a b : Z * Z * Z) : Prop :=
let '(a1, a2, a3) := a in
let '(b1, b2, b3) := b in
a1 < b1 \/ (a1 = b1 /\ (a2 < b2 \/ (a2 = b2 /\ a3 < b3))).

Lemma compare_cont_Eq (m1 m2 : positive) :
PosDef.Pos.compare_cont Eq m1 m2 = (Zpos m1 ?= Zpos m2).
Proof. reflexivity. Qed.

Lemma ltb_rank (a b : F32.float) :
F32.ltb a b = true <-> (a <> S754_nan /\ b <> S754_nan /\ lt3 (rank a) (rank b)).
Proof.
unfold F32.ltb, SFltb, SFcompare, lt3, rank.
destruct a as [sa|sa| |sa ma ea], b as [sb|sb| |sb mb eb];
  try destruct sa; try destruct sb;
  try (split; [discriminate|intros (H1 & H2 & H3); try congruence; lia]);
  try (split; [intros _; split; [discriminate|split; [discriminate|lia]]|reflexivity]).
- rewrite compare_cont_Eq. destruct (Z.compare_spec ea eb) as [E|E|E].
  + destruct (Z.compare_spec (Zpos ma) (Zpos mb)) as [E'|E'|E']; cbn [CompOpp].
    * split; [discriminate|intros (_ & _ & H); lia].
    * split; [discriminate|intros (_ & _ & H); lia].
    * split; [intros _; split; [discriminate|split; [discriminate|lia]]|reflexivity].
  + split; [discriminate|intros (_ & _ & H); lia].
  + split; [intros _; split; [discriminate|split; [discriminate|lia]]|reflexivity].
- rewrite compare_cont_Eq. destruct (Z.compare_spec ea eb) as [E|E|E].
  + destruct (Z.compare_spec (Zpos ma) (Zpos mb)) as [E'|E'|E'].
    * split; [discriminate|intros (_ & _ & H); lia].
    * split; [intros _; split; [discriminate|split; [discriminate|lia]]|reflexivity].
    * split; [discriminate|intros (_ & _ & H); lia].
  + split; [intros _; split; [discriminate|split; [discriminate|lia]]|reflexivity].
  + split; [discriminate|intros (_ & _ & H); lia].
Qed.

Lemma ltb_false_rank (a b : F32.float) :
a <> S754_nan -> b <> S754_nan ->
(F32.ltb a b = false <-> ~ lt3 (rank a) (rank b)).
Proof.
intros Ha Hb. pose proof (ltb_rank a b) as H.
destruct (F32.ltb a b); split; intros H1; try reflexivity; try discriminate.
- exfalso. apply H1. apply H. reflexivity.
- intros H2. assert (false = true) by (apply H; auto). discriminate.
Qed.

Lemma lt3_asym (a b : Z * Z * Z) : lt3 a b -> ~ lt3 b a.
Proof. destruct a as [[a1 a2] a3], b as [[b1 b2] b3]. unfold lt3. lia. Qed.

Lemma lt3_trans (a b c : Z * Z * Z) : lt3 a b -> lt3 b c -> lt3 a c.
Proof.
destruct a as [[a1 a2] a3], b as [[b1 b2] b3], c as [[c1 c2] c3]. unfold lt3. lia.
Qed.

Lemma lt3_negtrans (a b c : Z * Z * Z) : ~ lt3 a b -> ~ lt3 b c -> ~ lt3 a c.
Proof.
destruct a as [[a1 a2] a3], b as [[b1 b2] b3], c as [[c1 c2] c3]. unfold lt3. lia.
Qed.

(** [<] on floats is asymmetric and transitive, and on numbers its
    complement is transitive too. *)
Lemma ltb_asym (a b : F32.float) : F32.ltb a b = true -> F32.ltb b a = false.
Proof.
intros H. apply ltb_rank in H. destruct H as (Ha & Hb & H).
apply ltb_false_rank; auto. apply lt3_asym. exact H.
Qed.

Lemma ltb_trans (a b c : F32.float) :
F32.ltb a b = true -> F32.ltb b c = true -> F32.ltb a c = true.
Proof.
intros H1 H2. apply ltb_rank in H1, H2.
destruct H1 as (Ha & Hb & H1), H2 as (_ & Hc & H2).
apply ltb_rank. split; [exact Ha|]. split; [exact Hc|]. apply (lt3_trans _ _ _ H1 H2).
Qed.

Lemma ltb_negtrans (a b c : F32.float) :
b <> S754_nan ->
F32.ltb a b = false -> F32.ltb b c = false -> F32.ltb a c = false.
Proof.
intros Hb H1 H2.
destruct (F32.ltb a c) eqn:E; [exfalso|reflexivity].
apply ltb_rank in E. destruct E as (Ha & Hc & E).
apply (ltb_false_rank a b Ha Hb) in H1. apply (ltb_false_rank b c Hb Hc) in H2.
apply (lt3_negtrans _ _ _ H1 H2). exact E.
Qed.

Lemma ltb_irrefl (a : F32.float) : F32.ltb a a = false.
Proof.
destruct (F32.ltb a a) eqn:E; [|reflexivity].
pose proof (ltb_asym a a E). congruence.
Qed.

End FloatOrder.

Module HeapOrder.

Import KraftHeap HeapFacts FloatOrder.

(** The parent of a position. *)
Definition par (j : Z) : Z := (j - 1) / 2.

Lemma par_lt (j : Z) : 1 <= j -> 0 <= par j < j.
Proof. unfold par. intros H. Z.to_euclidean_division_equations; lia. Qed.

Lemma par_children (j c : Z) : 1 <= j -> par j = c -> j = 2 * c + 1 \/ j = 2 * c + 2.
Proof. unfold par. intros H E. Z.to_euclidean_division_equations; lia. Qed.

Lemma par_of_left (c : Z) : 0 <= c -> par (2 * c + 1) = c.
Proof. unfold par. intros H. Z.to_euclidean_division_equations; lia. Qed.

Lemma par_of_right (c : Z) : 0 <= c -> par (2 * c + 2) = c.
Proof. unfold par. intros H. Z.to_euclidean_division_equations; lia. Qed.

Definition numbers_below (h : Heap) (n : Z) : Prop :=
forall j, 0 <= j < n -> key_at h j <> S754_nan.

Definition ordered_below (h : Heap) (n : Z) : Prop :=
forall j, 1 <= j < n -> F32.ltb (key_at h (par j)) (key_at h j) = false.

Lemma heap_ordered_below (h : Heap) : heap_ordered h <-> ordered_below h (size h).
Proof. reflexivity. Qed.

(** The keys after an exchange. *)
Lemma swap_keys (h h1 : Heap) (a b : Z) :
0 <= a -> 0 <= b ->
(forall j, 0 <= j ->
   key_at h1 j = (if j =? a then key_at h b else if j =? b then key_at h a
                  else key_at h j)
   /\ value_at h1 j = (if j =? a then value_at h b else if j =? b then value_at h a
                       else value_at h j)) ->
key_at h1 a = key_at h b /\ key_at h1 b = key_at h a
/\ (forall j, 0 <= j -> j <> a -> j <> b -> key_at h1 j = key_at h j).
Proof.
intros Ha Hb H. split; [|split].
- rewrite (proj1 (H a Ha)). rewrite Z.eqb_refl. reflexivity.
- rewrite (proj1 (H b Hb)). rewrite Z.eqb_refl.
  destruct (Z.eqb_spec b a) as [->|]; reflexivity.
- intros j Hj Hja Hjb. rewrite (proj1 (H j Hj)).
  replace (j =? a) with false by (symmetry; apply Z.eqb_neq; exact Hja).
  replace (j =? b) with false by (symmetry; apply Z.eqb_neq; exact Hjb).
  reflexivity.
Qed.

Lemma swap_numbers (h h1 : Heap) (a b n : Z) :
0 <= a < n -> 0 <= b < n ->
key_at h1 a = key_at h b -> key_at h1 b = key_at h a ->
(forall j, 0 <= j -> j <> a -> j <> b -> key_at h1 j = key_at h j) ->
numbers_below h n -> numbers_below h1 n.
Proof.
intros Ha Hb Ka Kb Ko Hn j Hj.
destruct (Z.eq_dec j a) as [->|Hja]; [rewrite Ka; apply Hn; lia|].
destruct (Z.eq_dec j b) as [->|Hjb]; [rewrite Kb; apply Hn; lia|].
rewrite Ko by lia. apply Hn. exact Hj.
Qed.

(** *** Moving an entry up *)

(** The state of [heap_bubbleUp]'s loop: the order holds everywhere but
    between [cur] and its parent, and the children of [cur] are in
    order with its parent. *)
Record bubbling (h : Heap) (n cur : Z) : Prop := {
  bu_rest : forall j, 1 <= j < n -> j <> cur ->
            F32.ltb (key_at h (par j)) (key_at h j) = false;
  bu_grand : 0 < cur -> forall j, 1 <= j < n -> par j = cur ->
             F32.ltb (key_at h (par cur)) (key_at h j) = false;
  bu_num : numbers_below h n
}.

Lemma bubbling_step (h h1 : Heap) (n cur : Z) :
1 <= cur < n ->
key_at h1 cur = key_at h (par cur) -> key_at h1 (par cur) = key_at h cur ->
(forall j, 0 <= j -> j <> cur -> j <> par cur -> key_at h1 j = key_at h j) ->
F32.ltb (key_at h (par cur)) (key_at h cur) = true ->
bubbling h n cur -> bubbling h1 n (par cur).
Proof.
intros Hc Kc Kp Ko Hless [Brest Bgrand Bnum].
pose proof (par_lt cur ltac:(lia)) as Hp.
constructor.
- intros j Hj Hjp. pose proof (par_lt j ltac:(lia)) as Hpj.
  destruct (Z.eq_dec j cur) as [->|Hjc].
  + rewrite Kp, Kc. apply ltb_asym. exact Hless.
  + destruct (Z.eq_dec (par j) (par cur)) as [Es|Es].
    * rewrite Es, Kp, (Ko j) by lia.
      destruct (F32.ltb (key_at h cur) (key_at h j)) eqn:E; [|reflexivity].
      pose proof (ltb_trans _ _ _ Hless E) as Ht.
      pose proof (Brest j Hj Hjc) as Hr. rewrite Es in Hr. congruence.
    * destruct (Z.eq_dec (par j) cur) as [Ec|Ec].
      -- rewrite Ec, Kc, (Ko j) by lia. apply Bgrand; [lia|exact Hj|exact Ec].
      -- rewrite (Ko (par j)), (Ko j) by lia. apply Brest; assumption.
- intros Hp0 j Hj Epj. pose proof (par_lt (par cur) ltac:(lia)) as Hpp.
  pose proof (par_lt j ltac:(lia)) as Hpj.
  rewrite (Ko (par (par cur))) by lia.
  pose proof (Brest (par cur) ltac:(lia) ltac:(lia)) as Hg.
  destruct (Z.eq_dec j cur) as [->|Hjc].
  + rewrite Kc. exact Hg.
  + rewrite (Ko j) by lia.
    apply (ltb_negtrans _ (key_at h (par cur))).
    * apply Bnum. lia.
    * exact Hg.
    * rewrite <- Epj. apply Brest; assumption.
- apply (swap_numbers h h1 cur (par cur) n); auto; lia.
Qed.

Lemma bubble_order (cap : nat) (fuel : nat) :
forall (h : Heap) (current n : Z) (h' : Heap),
heap_wf cap h -> 0 <= current < n -> n <= Z.of_nat cap ->
bubbling h n current ->
bubble fuel h current (u64 (current - 1) / 2) = Ok h' ->
ordered_below h' n /\ numbers_below h' n.
Proof.
induction fuel as [|fuel IH]; intros h current n h' Hwf Hc Hn B H; [discriminate|].
cbn [bubble] in H.
assert (Hdone : F32.ltb (key_at h (par current)) (key_at h current) = false \/ current = 0 ->
                ordered_below h n /\ numbers_below h n).
{ intros Hd. split; [|apply B]. intros j Hj.
  destruct (Z.eq_dec j current) as [->|Hjc].
  - destruct Hd as [Hd|Hd]; [exact Hd|lia].
  - apply (bu_rest _ _ _ B); assumption. }
destruct (Z.ltb_spec 0 current) as [Hpos|Hzero].
- pose proof Hwf as (_ & _ & _ & Hcap).
  rewrite u64_id in H by lia.
  change ((current - 1) / 2) with (par current) in H.
  pose proof (par_lt current ltac:(lia)) as Hp.
  rewrite (heap_isLess_value cap) in H by (auto; lia). cbn [bind] in H.
  destruct (F32.ltb (key_at h (par current)) (key_at h current)) eqn:Hless.
  + destruct (heap_swap_spec cap h current (par current) Hwf ltac:(lia) ltac:(lia))
      as (h1 & E1 & W1 & S1 & V1).
    rewrite E1 in H. cbn [bind] in H.
    destruct (swap_keys h h1 current (par current) ltac:(lia) ltac:(lia) V1)
      as (Kc & Kp & Ko).
    apply (IH h1 (par current) n h' W1 ltac:(lia) Hn); [|exact H].
    apply (bubbling_step h h1 n current); auto; lia.
  + injection H as <-. apply Hdone. left. reflexivity.
- injection H as <-. apply Hdone. right. lia.
Qed.

(** *** Moving an entry down *)

(** The state of [heap_sinkDown]'s loop: the order holds everywhere but
    between [cur] and its children, which are in order with the parent
    of [cur]. *)
Record sinking (h : Heap) (cur : Z) : Prop := {
  si_rest : forall j, 1 <= j < size h -> par j <> cur ->
            F32.ltb (key_at h (par j)) (key_at h j) = false;
  si_grand : 0 < cur -> forall j, 1 <= j < size h -> par j = cur ->
             F32.ltb (key_at h (par cur)) (key_at h j) = false
}.

Lemma sinking_step (h h1 : Heap) (cur b : Z) :
0 <= cur -> 1 <= b < size h -> par b = cur -> size h1 = size h ->
key_at h1 b = key_at h cur -> key_at h1 cur = key_at h b ->
(forall j, 0 <= j -> j <> b -> j <> cur -> key_at h1 j = key_at h j) ->
F32.ltb (key_at h cur) (key_at h b) = true ->
(forall s, 1 <= s < size h -> par s = cur -> s <> b ->
   F32.ltb (key_at h b) (key_at h s) = false) ->
sinking h cur -> sinking h1 b.
Proof.
intros Hc Hb Epb Hsz Kb Kc Ko Hless Hsib [Srest Sgrand].
pose proof (par_lt b ltac:(lia)) as Hpb.
constructor; rewrite Hsz.
- intros j Hj Hjb. pose proof (par_lt j ltac:(lia)) as Hpj.
  destruct (Z.eq_dec j b) as [->|Hjnb].
  + rewrite Epb, Kc, Kb. apply ltb_asym. exact Hless.
  + destruct (Z.eq_dec (par j) cur) as [Ec|Ec].
    * rewrite Ec, Kc, (Ko j) by lia. apply Hsib; assumption.
    * destruct (Z.eq_dec j cur) as [->|Hjc].
      -- pose proof (par_lt cur ltac:(lia)).
         rewrite Kc, (Ko (par cur)) by lia.
         apply Sgrand; [lia|lia|exact Epb].
      -- rewrite (Ko (par j)), (Ko j) by lia. apply Srest; assumption.
- intros _ j Hj Epj. pose proof (par_lt j ltac:(lia)) as Hpj.
  rewrite Epb, Kc, (Ko j) by lia.
  rewrite <- Epj. apply Srest; [exact Hj|lia].
Qed.

(** One comparison of [heap_sinkDown], with what it found. *)
Lemma pick_order (cap : nat) (h : Heap) (b pos : Z) :
heap_wf cap h -> 0 <= b < size h -> 0 <= pos ->
((if pos <? size h
  then less <- heap_isLess h b pos ;; Ok (if (less : bool) then pos else b)
  else Ok b) = Ok pos
 /\ pos < size h /\ F32.ltb (key_at h b) (key_at h pos) = true)
\/ ((if pos <? size h
     then less <- heap_isLess h b pos ;; Ok (if (less : bool) then pos else b)
     else Ok b) = Ok b
    /\ (pos < size h -> F32.ltb (key_at h b) (key_at h pos) = false)).
Proof.
intros Hwf Hb Hpos. pose proof Hwf as (_ & _ & Hs & _).
destruct (Z.ltb_spec pos (size h)) as [Hlt|Hge].
- rewrite (heap_isLess_value cap) by (auto; lia). cbn [bind].
  destruct (F32.ltb (key_at h b) (key_at h pos)) eqn:E.
  + left. auto.
  + right. auto.
- right. split; [reflexivity|]. intros. lia.
Qed.

Lemma sink_order (cap : nat) (fuel : nat) :
forall (h : Heap) (current : Z) (h' : Heap),
heap_wf cap h -> 0 <= current < size h -> sinking h current ->
sink fuel h current = Ok h' ->
ordered_below h' (size h).
Proof.
induction fuel as [|fuel IH]; intros h current h' Hwf Hc S H; [discriminate|].
cbn [sink] in H.
pose proof Hwf as (_ & _ & Hs & Hcap).
rewrite !u64_id in H by lia.
set (left := 2 * current + 1) in *. set (right := 2 * current + 2) in *.
pose proof (par_of_left current ltac:(lia)) as Pl. fold left in Pl.
pose proof (par_of_right current ltac:(lia)) as Pr. fold right in Pr.
assert (Hswap : forall b, 1 <= b < size h -> par b = current ->
          F32.ltb (key_at h current) (key_at h b) = true ->
          (forall s, 1 <= s < size h -> par s = current -> s <> b ->
             F32.ltb (key_at h b) (key_at h s) = false) ->
          (h1 <- heap_swap h b current ;; sink fuel h1 b) = Ok h' ->
          ordered_below h' (size h)).
{ intros b Hb Epb Hless Hsib H1.
  destruct (heap_swap_spec cap h b current Hwf ltac:(lia) ltac:(lia))
    as (h1 & E1 & W1 & S1 & V1).
  rewrite E1 in H1. cbn [bind] in H1.
  destruct (swap_keys h h1 b current ltac:(lia) ltac:(lia) V1) as (Kb & Kc & Ko).
  rewrite <- S1. apply (IH h1 b h' W1 ltac:(lia)); [|exact H1].
  apply (sinking_step h h1 current b); auto; lia. }
destruct (pick_order cap h current left Hwf Hc ltac:(unfold left; lia))
  as [(E1 & Hl & Ll)|(E1 & Ll)]; rewrite E1 in H; cbn [bind] in H.
- (* the left child is bigger than the entry *)
  destruct (pick_order cap h left right Hwf ltac:(unfold left in *; lia)
              ltac:(unfold right; lia))
    as [(E2 & Hr & Lr)|(E2 & Lr)]; rewrite E2 in H; cbn [bind] in H.
  + replace (right =? current) with false in H
      by (symmetry; apply Z.eqb_neq; unfold right; lia).
    apply (Hswap right); auto; try (unfold right; lia).
    * apply (ltb_trans _ _ _ Ll Lr).
    * intros s Hs' Eps Hne. destruct (par_children s current ltac:(lia) Eps) as [-> | ->].
      -- fold left. apply ltb_asym. exact Lr.
      -- fold right in Hne. contradiction.
  + replace (left =? current) with false in H
      by (symmetry; apply Z.eqb_neq; unfold left; lia).
    apply (Hswap left); auto; try (unfold left; lia).
    intros s Hs' Eps Hne. destruct (par_children s current ltac:(lia) Eps) as [-> | ->].
    * fold left in Hne. contradiction.
    * fold right. apply Lr. fold right in Hs'. lia.
- (* the entry is not less than its left child *)
  destruct (pick_order cap h current right Hwf Hc ltac:(unfold right; lia))
    as [(E2 & Hr & Lr)|(E2 & Lr)]; rewrite E2 in H; cbn [bind] in H.
  + replace (right =? current) with false in H
      by (symmetry; apply Z.eqb_neq; unfold right; lia).
    apply (Hswap right); auto; try (unfold right; lia).
    intros s Hs' Eps Hne. destruct (par_children s current ltac:(lia) Eps) as [-> | ->].
    * fold left. fold left in Hs'.
      destruct (F32.ltb (key_at h right) (key_at h left)) eqn:E; [|reflexivity].
      pose proof (ltb_trans _ _ _ Lr E) as Ht. rewrite (Ll ltac:(lia)) in Ht. discriminate.
    * fold right in Hne. contradiction.
  + rewrite Z.eqb_refl in H. injection H as <-.
    intros j Hj. destruct (Z.eq_dec (par j) current) as [Ec|Ec].
    * rewrite Ec. destruct (par_children j current ltac:(lia) Ec) as [-> | ->].
      -- fold left. apply Ll. fold left in Hj. lia.
      -- fold right. apply Lr. fold right in Hj. lia.
    * apply (si_rest _ _ S); assumption.
Qed.

Lemma sink_numbers (cap : nat) (fuel : nat) :
forall (h : Heap) (current : Z) (h' : Heap),
heap_wf cap h -> 0 <= current < size h -> numbers_below h (size h) ->
sink fuel h current = Ok h' ->
numbers_below h' (size h).
Proof.
induction fuel as [|fuel IH]; intros h current h' Hwf Hc Hn H; [discriminate|].
cbn [sink] in H.
pose proof Hwf as (_ & _ & Hs & Hcap).
rewrite !u64_id in H by lia.
destruct (pick_spec cap h current (2 * current + 1) Hwf Hc ltac:(lia)) as (b1 & E1 & H1).
rewrite E1 in H. cbn [bind] in H.
assert (Hb1 : 0 <= b1 < size h) by lia.
destruct (pick_spec cap h b1 (2 * current + 2) Hwf Hb1 ltac:(lia)) as (biggest & E2 & H2).
rewrite E2 in H. cbn [bind] in H.
destruct (Z.eqb_spec biggest current) as [Eb|Eb]; [injection H as <-; exact Hn|].
destruct (heap_swap_spec cap h biggest current Hwf ltac:(lia) ltac:(lia))
  as (h1 & Es & W1 & S1 & V1).
rewrite Es in H. cbn [bind] in H.
destruct (swap_keys h h1 biggest current ltac:(lia) ltac:(lia) V1) as (Kb & Kc & Ko).
rewrite <- S1. apply (IH h1 biggest h' W1 ltac:(lia)); [|exact H].
rewrite S1. apply (swap_numbers h h1 biggest current (size h)); auto; lia.
Qed.

End HeapOrder.

(** In an ordered heap of numbers no key is bigger than the top. *)
Lemma top_is_max (h : KraftHeap.Heap) (n : Z) :
HeapOrder.ordered_below h n -> HeapOrder.numbers_below h n ->
forall j, 0 <= j < n -> F32.ltb (key_at h 0) (key_at h j) = false.
Proof.
intros Ho Hn j Hj.
assert (G : forall k : nat, forall j, 0 <= j < n -> j <= Z.of_nat k ->
            F32.ltb (key_at h 0) (key_at h j) = false).
{ induction k as [|k IH]; intros i Hi Hik.
  - replace i with 0 by lia. apply FloatOrder.ltb_irrefl.
  - destruct (Z.eq_dec i 0) as [->|Hi0]; [apply FloatOrder.ltb_irrefl|].
    pose proof (HeapOrder.par_lt i ltac:(lia)) as Hp.
    apply (FloatOrder.ltb_negtrans _ (key_at h (HeapOrder.par i))).
    + apply Hn. lia.
    + apply IH; lia.
    + apply Ho. lia. }
apply (G (Z.to_nat j)); lia.
Qed.

(** X13.  [heap_insert] of a number into an ordered heap of numbers with room
    left: it stays inside the arrays, the heap grows by one entry and
    holds the new value besides the old ones, and it is again an
    ordered heap of numbers. *)
Theorem heap_insert_ordered (cap : nat) (h : KraftHeap.Heap) (k : F32.float) (v : Z) :
heap_wf cap h -> KraftHeap.size h < Z.of_nat cap ->
heap_ordered h -> keys_are_numbers h -> k <> S754_nan ->
exists h',
  KraftHeap.heap_insert h k v = Ok h'
  /\ heap_wf cap h' /\ KraftHeap.size h' = KraftHeap.size h + 1
  /\ (forall x, stored h' x <-> x = v \/ stored h x)
  /\ heap_ordered h' /\ keys_are_numbers h'.
Proof.
intros Hwf Hroom Hord Hnum Hk.
destruct (HeapFacts.heap_insert_spec cap h k v Hwf Hroom) as (h' & E & W & S & V).
exists h'. split; [exact E|]. split; [exact W|]. split; [exact S|]. split; [exact V|].
pose proof Hwf as (Hkl & Hvl & Hs & Hc).
unfold KraftHeap.heap_insert, KraftHeap.set_key in E.
rewrite HeapFacts.in_range_true in E by lia. cbn [bind] in E.
unfold KraftHeap.set_value in E. cbn [KraftHeap.keys KraftHeap.values KraftHeap.size] in E.
rewrite HeapFacts.in_range_true in E by lia. cbn [bind] in E.
set (h2 := KraftHeap.mkHeap (upd (Z.to_nat (KraftHeap.size h)) k (KraftHeap.keys h))
                            (upd (Z.to_nat (KraftHeap.size h)) v (KraftHeap.values h))
                            (KraftHeap.size h)) in *.
assert (W2 : heap_wf cap h2).
{ unfold heap_wf, h2. cbn [KraftHeap.keys KraftHeap.values KraftHeap.size].
  rewrite !length_upd. auto. }
assert (K2 : forall j, 0 <= j ->
          key_at h2 j = if j =? KraftHeap.size h then k else key_at h j).
{ intros j Hj. unfold key_at, h2. cbn [KraftHeap.keys].
  destruct (Z.eqb_spec j (KraftHeap.size h)) as [->|Hne].
  - apply nth_upd_eq. lia.
  - apply nth_upd_ne. lia. }
unfold KraftHeap.heap_bubbleUp in E.
apply bind_Ok in E. destruct E as (h3 & E3 & E).
injection E as <-.
assert (B : HeapOrder.bubbling h2 (KraftHeap.size h + 1) (KraftHeap.size h2)).
{ constructor.
  - intros j Hj Hne. unfold h2 in Hne. cbn [KraftHeap.size] in Hne.
    pose proof (HeapOrder.par_lt j ltac:(lia)) as Hp.
    rewrite !K2 by lia.
    replace (j =? KraftHeap.size h) with false by (symmetry; apply Z.eqb_neq; lia).
    replace (HeapOrder.par j =? KraftHeap.size h) with false
      by (symmetry; apply Z.eqb_neq; lia).
    apply Hord. lia.
  - intros _ j Hj Ep. unfold h2 in Ep. cbn [KraftHeap.size] in Ep.
    pose proof (HeapOrder.par_lt j ltac:(lia)). lia.
  - intros j Hj. rewrite K2 by lia.
    destruct (Z.eqb_spec j (KraftHeap.size h)); [exact Hk|]. apply Hnum. lia. }
destruct (HeapOrder.bubble_order cap 65 h2 (KraftHeap.size h2) (KraftHeap.size h + 1) h3 W2
            ltac:(unfold h2; cbn [KraftHeap.size]; lia) ltac:(lia) B E3) as (O3 & N3).
unfold KraftHeap.set_size in S. cbn [KraftHeap.size] in S.
split.
- intros j Hj. unfold KraftHeap.set_size in Hj. cbn [KraftHeap.size] in Hj.
  apply (O3 j). lia.
- intros j Hj. unfold KraftHeap.set_size in Hj. cbn [KraftHeap.size] in Hj.
  apply (N3 j). lia.
Qed.


Lemma heap_insert_ordered_witness :
exists h',
  KraftHeap.heap_insert
    (KraftHeap.mkHeap [F32.of_Z 5; F32.of_Z 2; F32.of_Z 0] [7; 8; 0] 2) (F32.of_Z 9) 4
  = Ok h'
  /\ heap_wf 3 h'
  /\ KraftHeap.size h'
     = KraftHeap.size (KraftHeap.mkHeap [F32.of_Z 5; F32.of_Z 2; F32.of_Z 0] [7; 8; 0] 2) + 1
  /\ (forall x, stored h' x <->
                x = 4 \/ stored (KraftHeap.mkHeap [F32.of_Z 5; F32.of_Z 2; F32.of_Z 0]
                                                  [7; 8; 0] 2) x)
  /\ heap_ordered h' /\ keys_are_numbers h'.
Proof.
apply (heap_insert_ordered 3
         (KraftHeap.mkHeap [F32.of_Z 5; F32.of_Z 2; F32.of_Z 0] [7; 8; 0] 2) (F32.of_Z 9) 4).
- unfold heap_wf. cbn. repeat split; lia.
- cbn. lia.
- intros j Hj. cbn [KraftHeap.size] in Hj. replace j with 1 by lia. reflexivity.
- intros j Hj. cbn [KraftHeap.size] in Hj.
  assert (E : j = 0 \/ j = 1) by lia. destruct E as [-> | ->]; discriminate.
- discriminate.
Defined.


(** ** A limit too small for the alphabet *)

Lemma valid_lengths_ok (L m : Z) (histogram out : list Z) :
Valid.valid L m histogram out = true ->
Valid.lengths_ok L histogram out = true
/\ Valid.kraft_sum m histogram out <= 2 ^ m.
Proof.
unfold Valid.valid. intros H.
apply andb_true_iff in H. destruct H as (H & _).
apply andb_true_iff in H. destruct H as (H1 & H2).
apply Z.leb_le in H2. auto.
Qed.

(** X15.  When more than [2^maxLength] symbols are used no code fits the
    limit, and none of the three functions without a feasibility check
    returns, whatever fuel its loops are given: [limitedKraft] (for a
    limit up to 30) and [limitedBzip2] (for at most 256 used symbols)
    loop forever, and [limitedKraftHeap] (for a limit up to 30) either
    loops or leaves its arrays. *)
Theorem overfull_alphabet_never_returns (fuel maxLength : nat)
  (histogram codeLengths : list Z) :
2 ^ Z.of_nat maxLength < Z.of_nat (Sorting.numNonZero histogram) ->
((1 <= maxLength <= 30)%nat -> Z.of_nat (length histogram) < 2 ^ 32 ->
 Kraft.limitedKraft fuel maxLength histogram = None
 /\ forall r, KraftHeap.limitedKraftHeap fuel maxLength histogram <> Ok r)
/\ ((Sorting.numNonZero histogram <= 256)%nat -> length codeLengths = length histogram ->
    Bzip2.limitedBzip2 fuel maxLength histogram codeLengths = None).
Proof.
intros Hinf.
assert (Hpos : 0 < 2 ^ Z.of_nat maxLength) by (apply Z.pow_pos_nonneg; lia).
split.
- intros HL Hlen. split.
  + destruct (Kraft.limitedKraft fuel maxLength histogram) as [[m out]|] eqn:E;
      [exfalso|reflexivity].
    destruct (kraft_result_valid fuel maxLength histogram m out HL Hlen E) as (_ & V & K).
    apply valid_lengths_ok in V. destruct V as (V & _).
    pose proof (kraft_sum_bounds (Z.of_nat maxLength) histogram out ltac:(lia) V). lia.
  + intros [m out] E.
    destruct (kraftHeap_result_valid fuel maxLength histogram m out HL Hlen ltac:(lia) E)
      as (_ & V & K).
    apply valid_lengths_ok in V. destruct V as (V & _).
    pose proof (kraft_sum_bounds (Z.of_nat maxLength) histogram out ltac:(lia) V). lia.
- intros Hn Hcl.
  destruct (Bzip2.limitedBzip2 fuel maxLength histogram codeLengths) as [[m out]|] eqn:E;
    [exfalso|reflexivity].
  destruct (bzip2_result_valid fuel maxLength histogram codeLengths m out Hcl ltac:(lia) E)
    as (Hm & _ & V & _).
  apply valid_lengths_ok in V. destruct V as (V & K).
  pose proof (kraft_sum_bounds m histogram out ltac:(lia) V).
  assert (2 ^ m <= 2 ^ Z.of_nat maxLength) by (apply Z.pow_le_mono_r; lia).
  lia.
Qed.

Lemma overfull_alphabet_never_returns_witness :
Kraft.limitedKraft 50 1 [1;1;1] = None
/\ (forall r, KraftHeap.limitedKraftHeap 50 1 [1;1;1] <> Ok r)
/\ Bzip2.limitedBzip2 50 1 [1;1;1] [0;0;0] = None.
Proof.
destruct (overfull_alphabet_never_returns 50 1 [1;1;1] [0;0;0]) as (K & B).
- vm_compute. reflexivity.
- destruct K as (K1 & K2).
  + lia.
  + vm_compute. reflexivity.
  + split; [exact K1|]. split; [exact K2|].
    apply B; [vm_compute; lia | reflexivity].
Defined.

(** *** The two Kraft variants start alike *)

(** X16.  The first loop of [limitedKraftHeap], whenever it completes, leaves
    the same rounded lengths and the same Kraft sum as the first loop
    of [limitedKraft]: the heap is filled on the side. *)
Theorem kraft_variants_start_alike (maxLength : nat) (inv : F32.float) (one : Z)
  (histogram : list Z) :
forall (i : nat) (spent : Z) (heap : KraftHeap.Heap) (cl : list Z) (s : Z)
       (hp : KraftHeap.Heap),
KraftHeap.initial maxLength inv one i histogram spent heap = Ok (cl, s, hp) ->
Kraft.initial maxLength inv one histogram spent = (cl, s).
Proof.
induction histogram as [|h hs IH]; intros i spent heap cl s hp H.
- cbn in H. injection H as <- <- <-. reflexivity.
- cbn [KraftHeap.initial] in H. cbn [Kraft.initial].
  destruct (h =? 0).
  + apply bind_Ok in H. destruct H as ([[cl' s'] hp'] & E1 & H).
    injection H as <- <- <-. rewrite (IH _ _ _ _ _ _ E1). reflexivity.
  + apply bind_Ok in H. destruct H as (heap' & _ & H).
    apply bind_Ok in H. destruct H as ([[cl' s'] hp'] & E1 & H).
    injection H as <- <- <-. rewrite (IH _ _ _ _ _ _ E1). reflexivity.
Qed.

Lemma kraft_variants_start_alike_witness :
Kraft.initial 3 (Kraft.invSumHistogram [5;0;1;2]) (Kraft.one_of 3) [5;0;1;2] 0
= ([1; 0; 2; 1], 10).
Proof.
apply (kraft_variants_start_alike 3 (Kraft.invSumHistogram [5;0;1;2]) (Kraft.one_of 3)
         [5;0;1;2] 0 0
         (KraftHeap.mkHeap (repeat (S754_zero false) 4) (repeat 0 4) 0)
         [1; 0; 2; 1] 10
         (snd (match KraftHeap.initial 3 (Kraft.invSumHistogram [5;0;1;2]) (Kraft.one_of 3)
                       0 [5;0;1;2] 0
                       (KraftHeap.mkHeap (repeat (S754_zero false) 4) (repeat 0 4) 0)
               with Ok r => r | _ => ([], 0, KraftHeap.mkHeap [] [] 0) end))).
vm_compute. reflexivity.
Defined.

